(** * Yezichak translator: term lookup, grouping and ordering

  A shallow embedding of the [Translator] class
  (ext/js/language/translator.js) and proofs about its term-finding
  pipeline.

  Conventions of the embedding.
  - JavaScript numbers that the code only compares, subtracts, and takes
    minima and maxima of are integers ([Z]); [Number.MAX_SAFE_INTEGER] and
    [Number.MIN_SAFE_INTEGER] are the constants below.
  - A JavaScript string is a [string] that holds the UTF-8 bytes of the
    text (a surrogate that stands alone as the three bytes of its code
    point), so that two JavaScript strings are equal exactly when their
    bytes are; [.length] is [strlen], the number of UTF-16 code units of
    the text, and [for (const c of text)] goes through [codePoints].
  - An array is a [list]; a [Set] of ids is a [gset]; a [Map] that is only
    looked up is a [gmap]; a [Map] or object whose iteration order is
    observed is an association list in insertion order.
  - The inflection-hypothesis objects are mutated in place after they have
    been shared between entries, so entries hold addresses ([HypRef]) into
    an explicit store of hypothesis objects.
  - A property access on [undefined] (a [TypeError]) is [None].
  - The dictionary database, the deinflector and the utilities for text
    are parameters ([Database.t], [Collaborators.t]); a function that
    awaits the database is a computation [DB] that threads the list of the
    calls made. *)

From stdpp Require Import base gmap strings list sorting.
From Stdlib Require Import ZArith Lia OrderedTypeEx.
From Equations Require Import Equations.

Open Scope Z_scope.

Definition MAX_SAFE_INTEGER : Z := 9007199254740991.
Definition MIN_SAFE_INTEGER : Z := -9007199254740991.

(** [array.length] as a JavaScript number. *)
Definition len {A} (l : list A) : Z := Z.of_nat (length l).

(** ** Text

    The bytes of a code point: a first byte, which tells how many bytes
    follow, and these bytes, each of the form [10xxxxxx]. *)
Definition isContinuationByte (byte : Ascii.ascii) : bool :=
  let n := Ascii.N_of_ascii byte in
  (128 <=? n)%N && (n <? 192)%N.

Definition continuationCount (byte : Ascii.ascii) : nat :=
  let n := Ascii.N_of_ascii byte in
  if (n <? 192)%N then 0%nat
  else if (n <? 224)%N then 1%nat
  else if (n <? 240)%N then 2%nat
  else 3%nat.

(** At most [count] bytes of the form [10xxxxxx] from the front of the
    text, and the rest of the text. *)
Fixpoint takeContinuation (count : nat) (text : string) : string * string :=
  match count, text with
  | S count, String byte rest =>
      if isContinuationByte byte
      then let '(taken, rest) := takeContinuation count rest in
           (String byte taken, rest)
      else (EmptyString, text)
  | _, _ => (EmptyString, text)
  end.

Lemma takeContinuation_length (count : nat) (text : string) :
  (String.length (takeContinuation count text).2 ≤ String.length text)%nat.
Proof.
  revert text.
  induction count as [|count IH]; intros [|byte rest]; simpl; try lia.
  destruct (isContinuationByte byte); simpl; [|lia].
  specialize (IH rest). destruct (takeContinuation count rest). simpl in *. lia.
Qed.

(** The code points of a text in order, each as the string of its bytes:
    the values of [c] in [for (const c of text)]. *)
Equations? codePoints (text : string) : list string
    by wf (String.length text) lt :=
  codePoints EmptyString := [];
  codePoints (String byte rest) :=
    String byte (takeContinuation (continuationCount byte) rest).1
      :: codePoints (takeContinuation (continuationCount byte) rest).2.
Proof.
  pose proof (takeContinuation_length (continuationCount byte) rest).
  simpl. lia.
Qed.

(** [c.codePointAt(0)] for a code point [c] of the text. *)
Definition codePointAt0 (c : string) : N :=
  match c with
  | EmptyString => 0%N
  | String byte rest =>
      let n := Ascii.N_of_ascii byte in
      fold_left (fun value b => (value * 64 + Ascii.N_of_ascii b `mod` 64)%N)
        (String.list_ascii_of_string rest)
        (if (n <? 192)%N then n
         else if (n <? 224)%N then (n `mod` 32)%N
         else if (n <? 240)%N then (n `mod` 16)%N
         else (n `mod` 8)%N)
  end.

(** The UTF-16 code units of a code point: a code point beyond U+FFFF
    takes two, any other one. *)
Definition codeUnitsOf (codePoint : N) : list N :=
  if (65536 <=? codePoint)%N
  then [(55296 + (codePoint - 65536) `div` 1024)%N;
        (56320 + (codePoint - 65536) `mod` 1024)%N]
  else [codePoint].

(** [c.length] for a code point [c] of the text. *)
Definition codeUnits (c : string) : Z := len (codeUnitsOf (codePointAt0 c)).

(** The UTF-16 code units of a text. *)
Definition textCodeUnits (text : string) : list N :=
  c ← codePoints text; codeUnitsOf (codePointAt0 c).

(** [text.length]: the number of UTF-16 code units of the text. *)
Definition strlen (text : string) : Z := len (textCodeUnits text).

(** The order of two texts by their code units, as [<] on strings and
    [Array.prototype.sort] without a comparison function have it. *)
Fixpoint compareCodeUnits (a b : list N) : Z :=
  match a, b with
  | [], [] => 0
  | [], _ :: _ => -1
  | _ :: _, [] => 1
  | x :: a, y :: b =>
      if (x <? y)%N then -1
      else if (y <? x)%N then 1
      else compareCodeUnits a b
  end.

(** ** Text-variant generation

  [_getAlgorithmDeinflections] builds a "variant vector space": an object
  with one key per axis, each holding the array of that axis' outcomes,
  and [_generateArrayVariants] enumerates its Cartesian product. *)

Module Variants.

(** One [{pattern, replacement}] pair of [options.textReplacements]. *)
Record TextReplacement := { pattern : string; replacement : string }.

(** The outcomes stored under the three kinds of keys. *)
Inductive VariantValue :=
| VTextReplacements (replacements : option (list TextReplacement))
| VCollapseEmphatic (collapseEmphatic collapseEmphaticFull : bool)
| VTransform (enabled : bool).

(** [_getTextOptionEntryVariants(value)] *)
Definition _getTextOptionEntryVariants (value : string) : list bool :=
  if String.eqb value "true" then [true]
  else if String.eqb value "variant" then [false; true]
  else [false].

(** [_getCollapseEmphaticOptions(options)], on
    [options.collapseEmphaticSequences]. *)
Definition _getCollapseEmphaticOptions (collapseEmphaticSequences : string)
  : list (bool * bool) :=
  let collapseEmphaticOptions := [(false, false)] in
  if String.eqb collapseEmphaticSequences "true" then
    collapseEmphaticOptions ++ [(true, false)]
  else if String.eqb collapseEmphaticSequences "full" then
    collapseEmphaticOptions ++ [(true, false); (true, true)]
  else collapseEmphaticOptions.

(** The part of the lookup options the generator reads.
    [textReplacements] is the array of replacement variants (each a list
    of replacements or [null]); [textTransformations] is the object built
    by [_getTextTransformations], as (id, setting) pairs in key order. *)
Record Options := {
  textReplacements : list (option (list TextReplacement));
  collapseEmphaticSequences : string;
  textTransformations : list (string * string)
}.

(** [_getTextReplacementsVariants(options)] *)
Definition _getTextReplacementsVariants (options : Options) :=
  textReplacements options.

(** The object [variantVectorSpace] of [_getAlgorithmDeinflections], in
    key order.  The ids of text transformations are distinct from each
    other and from the two fixed keys. *)
Definition variantVectorSpace (options : Options)
  : list (string * list VariantValue) :=
  ("textReplacements"%string,
     VTextReplacements <$> _getTextReplacementsVariants options)
  :: ("collapseEmphaticOptions"%string,
     (fun p => VCollapseEmphatic p.1 p.2)
       <$> _getCollapseEmphaticOptions (collapseEmphaticSequences options))
  :: ((fun kv => (kv.1, VTransform <$> _getTextOptionEntryVariants kv.2))
        <$> textTransformations options).

(** The inner loop of [_generateArrayVariants]: one variant, built from
    [variantIndex] read as a mixed-radix number, least significant axis
    first.  [entryVariants[entryIndex]] out of range is [undefined]. *)
Fixpoint buildVariant {V} (space : list (string * list V))
    (remainingIndex : nat) : list (string * option V) :=
  match space with
  | [] => []
  | (key, entryVariants) :: rest =>
      let entryIndex := (remainingIndex `mod` length entryVariants)%nat in
      (key, entryVariants !! entryIndex)
        :: buildVariant rest (remainingIndex `div` length entryVariants)%nat
  end.

(** [*_generateArrayVariants(variantVectorSpace)]: the sequence of yielded
    variants. *)
Definition _generateArrayVariants {V} (space : list (string * list V))
  : list (list (string * option V)) :=
  let lengths := (fun kv => length kv.2) <$> space in
  let totalVariants := fold_left (fun acc length => (acc * length)%nat) lengths 1%nat in
  buildVariant space <$> seq 0 totalVariants.

(** The variants [_getAlgorithmDeinflections] iterates over. *)
Definition arrayVariants (options : Options) :=
  _generateArrayVariants (variantVectorSpace options).

(** Number of outcomes of a text-transformation axis, by its setting. *)
Definition transformOutcomes (setting : string) : nat :=
  if String.eqb setting "variant" then 2%nat else 1%nat.

(** Number of outcomes of the collapse-emphatic axis, by its setting. *)
Definition collapseOutcomes (setting : string) : nat :=
  if String.eqb setting "true" then 2%nat
  else if String.eqb setting "full" then 3%nat
  else 1%nat.

Definition product (ns : list nat) : nat := foldr Nat.mul 1%nat ns.

End Variants.

(** ** Data model *)

(** ['exact' | 'prefix' | 'suffix'] *)
Inductive MatchType := Exact | Prefix | Suffix.
(** ['term' | 'reading'] *)
Inductive MatchSource := Term | Reading.
(** ['algorithm' | 'dictionary' | 'both'] *)
Inductive HypothesisSource := Algorithm | Dictionary | Both.

#[global] Instance MatchType_eq_dec : EqDecision MatchType.
Proof. solve_decision. Defined.
#[global] Instance MatchSource_eq_dec : EqDecision MatchSource.
Proof. solve_decision. Defined.
#[global] Instance HypothesisSource_eq_dec : EqDecision HypothesisSource.
Proof. solve_decision. Defined.

(** Address of an inflection-hypothesis object in the store. *)
Abbreviation HypRef := nat.

Set Implicit Arguments.

(** [{source, inflections}] *)
Module InflectionHypothesis.
Record t := mk {
  source : HypothesisSource;
  inflections : list string
}.
End InflectionHypothesis.

(** [_createSource] *)
Module Source.
Record t := mk {
  originalText : string;
  transformedText : string;
  deinflectedText : string;
  matchType : MatchType;
  matchSource : MatchSource;
  isPrimary : bool
}.
End Source.

(** [_createTagGroup] *)
Module TagGroup.
Record t := mk {
  dictionary : string;
  tagNames : list string
}.
End TagGroup.

(** [_createTag] *)
Module Tag.
Record t := mk {
  name : string;
  category : string;
  order : Z;
  score : Z;
  content : list string;
  dictionaries : list string;
  redundant : bool
}.
End Tag.

(** The [tags] property of headwords, definitions, pitches and phonetic
    transcriptions holds tag groups until [_addTagExpansionTargets] replaces
    it by an array of tags; the records are parametric in the element type
    [T] of that array ([TagGroup.t] before, [Tag.t] after). *)

(** [_createTermHeadword] *)
Module Headword.
Record t (T : Type) := mk {
  index : nat;
  term : string;
  reading : string;
  sources : list Source.t;
  tags : list T;
  wordClasses : list string
}.
End Headword.

(** [_createTermDefinition] *)
Module TermDefinition.
Record t (T : Type) := mk {
  index : nat;
  headwordIndices : list nat;
  dictionary : string;
  dictionaryIndex : Z;
  dictionaryPriority : Z;
  id : Z;
  score : Z;
  frequencyOrder : Z;
  sequences : list Z;
  isPrimary : bool;
  tags : list T;
  entries : list string
}.
End TermDefinition.

(** An element of [pronunciation.pitches] *)
Module Pitch.
Record t (T : Type) := mk {
  position : Z;
  nasalPositions : list Z;
  devoicePositions : list Z;
  tags : list T
}.
End Pitch.

(** An element of [pronunciation.phoneticTranscriptions] *)
Module PhoneticTranscription.
Record t (T : Type) := mk {
  ipa : string;
  tags : list T
}.
End PhoneticTranscription.

(** [_createTermPronunciation] *)
Module TermPronunciation.
Record t (T : Type) := mk {
  index : nat;
  headwordIndex : nat;
  dictionary : string;
  dictionaryIndex : Z;
  dictionaryPriority : Z;
  pitches : list (Pitch.t T);
  phoneticTranscriptions : list (PhoneticTranscription.t T)
}.
End TermPronunciation.

(** [_createTermFrequency]; [frequency] is always a number, as
    [_getFrequencyInfo] returns it. *)
Module TermFrequency.
Record t := mk {
  index : nat;
  headwordIndex : nat;
  dictionary : string;
  dictionaryIndex : Z;
  dictionaryPriority : Z;
  hasReading : bool;
  frequency : Z;
  displayValue : option string;
  displayValueParsed : bool
}.
End TermFrequency.

(** [_createTermDictionaryEntry] (the constant [type: 'term'] is left
    out). *)
Module TermDictionaryEntry.
Record t (T : Type) := mk {
  isPrimary : bool;
  inflectionHypotheses : list HypRef;
  score : Z;
  frequencyOrder : Z;
  dictionaryIndex : Z;
  dictionaryPriority : Z;
  sourceTermExactMatchCount : Z;
  maxTransformedTextLength : Z;
  headwords : list (Headword.t T);
  definitions : list (TermDefinition.t T);
  pronunciations : list (TermPronunciation.t T);
  frequencies : list TermFrequency.t
}.
End TermDictionaryEntry.

(** A term entry as the dictionary database returns it. *)
Module DatabaseEntry.
Record t := mk {
  index : nat;
  matchType : MatchType;
  matchSource : MatchSource;
  term : string;
  reading : string;
  definitionTags : list string;
  termTags : list string;
  rules : list string;
  definitions : list string;
  score : Z;
  dictionary : string;
  id : Z;
  sequence : Z;
  formOf : option string;
  inflectionHypotheses : option (list (list string))
}.
End DatabaseEntry.

(** A value of [enabledDictionaryMap]. *)
Module DictionaryDetails.
Record t := mk {
  index : Z;
  priority : Z;
  allowSecondarySearches : bool
}.
End DictionaryDetails.

(** [_createDeinflection], with the [isDictionaryDeinflection] property
    that [_getDictionaryDeinflections] adds ([undefined], read as [false],
    on the others). *)
Module Deinflection.
Record t := mk {
  originalText : string;
  transformedText : string;
  deinflectedText : string;
  rules : Z;
  inflectionHypotheses : list HypRef;
  databaseEntries : list DatabaseEntry.t;
  isDictionaryDeinflection : bool
}.
End Deinflection.

Unset Implicit Arguments.

Abbreviation EnabledDictionaryMap := (gmap string DictionaryDetails.t).

(** ** Term data *)

(** [_getDictionaryOrder(dictionary, enabledDictionaryMap)] *)
Definition _getDictionaryOrder (dictionary : string)
    (enabledDictionaryMap : EnabledDictionaryMap) : Z * Z :=
  match enabledDictionaryMap !! dictionary with
  | Some info => (DictionaryDetails.index info, DictionaryDetails.priority info)
  | None => (Z.of_nat (size enabledDictionaryMap), 0)
  end.

(** [_createTermDictionaryEntryFromDatabaseEntry] *)
Definition _createTermDictionaryEntryFromDatabaseEntry
    (databaseEntry : DatabaseEntry.t)
    (originalText transformedText deinflectedText : string)
    (reasons : list HypRef) (isPrimary : bool)
    (enabledDictionaryMap : EnabledDictionaryMap)
  : TermDictionaryEntry.t TagGroup.t :=
  let term := DatabaseEntry.term databaseEntry in
  let rawReading := DatabaseEntry.reading databaseEntry in
  let dictionary := DatabaseEntry.dictionary databaseEntry in
  let score := DatabaseEntry.score databaseEntry in
  let rawSequence := DatabaseEntry.sequence databaseEntry in
  let termTags := DatabaseEntry.termTags databaseEntry in
  let definitionTags := DatabaseEntry.definitionTags databaseEntry in
  let reading := if 0 <? strlen rawReading then rawReading else term in
  let '(dictionaryIndex, dictionaryPriority) :=
    _getDictionaryOrder dictionary enabledDictionaryMap in
  let sourceTermExactMatchCount :=
    if isPrimary && bool_decide (deinflectedText = term) then 1 else 0 in
  let source :=
    Source.mk originalText transformedText deinflectedText
      (DatabaseEntry.matchType databaseEntry)
      (DatabaseEntry.matchSource databaseEntry) isPrimary in
  let maxTransformedTextLength := strlen transformedText in
  let hasSequence := 0 <=? rawSequence in
  let sequence := if hasSequence then rawSequence else -1 in
  let headwordTagGroups :=
    if 0 <? len termTags then [TagGroup.mk dictionary termTags] else [] in
  let definitionTagGroups :=
    if 0 <? len definitionTags then [TagGroup.mk dictionary definitionTags]
    else [] in
  TermDictionaryEntry.mk
    isPrimary
    reasons
    score
    0
    dictionaryIndex
    dictionaryPriority
    sourceTermExactMatchCount
    maxTransformedTextLength
    [Headword.mk 0 term reading [source] headwordTagGroups
       (DatabaseEntry.rules databaseEntry)]
    [TermDefinition.mk 0 [0%nat] dictionary dictionaryIndex dictionaryPriority
       (DatabaseEntry.id databaseEntry) score 0 [sequence] isPrimary
       definitionTagGroups (DatabaseEntry.definitions databaseEntry)]
    []
    [].

(** ** Data collection addition functions *)

(** [_addUniqueSimple(list, newItems)]; the result is the array [list]
    (here [items]) after the call. *)
Definition _addUniqueSimple {A} `{EqDecision A} (items newItems : list A)
  : list A :=
  fold_left (fun items item =>
               if decide (item ∈ items) then items else items ++ [item])
            newItems items.

(** The comparison of the inner loop of [_addUniqueSources]. *)
Definition sameSource (source newSource : Source.t) : bool :=
  bool_decide (Source.deinflectedText source = Source.deinflectedText newSource)
  && bool_decide (Source.transformedText source = Source.transformedText newSource)
  && bool_decide (Source.originalText source = Source.originalText newSource)
  && bool_decide (Source.matchType source = Source.matchType newSource)
  && bool_decide (Source.matchSource source = Source.matchSource newSource).

Definition Source_setPrimary (source : Source.t) : Source.t :=
  Source.mk (Source.originalText source) (Source.transformedText source)
    (Source.deinflectedText source) (Source.matchType source)
    (Source.matchSource source) true.

(** The inner loop of [_addUniqueSources]: [None] when it ends with
    [has = false], otherwise the array after [source.isPrimary = true] was
    (or was not) assigned to the first matching source. *)
Fixpoint findSameSource (sources : list Source.t) (newSource : Source.t)
  : option (list Source.t) :=
  match sources with
  | [] => None
  | source :: rest =>
      if sameSource source newSource then
        Some ((if Source.isPrimary newSource then Source_setPrimary source
               else source) :: rest)
      else (fun rest' => source :: rest') <$> findSameSource rest newSource
  end.

(** [_addUniqueSources(sources, newSources)] *)
Definition _addUniqueSources (sources newSources : list Source.t)
  : list Source.t :=
  match newSources, sources with
  | [], _ => sources
  | _, [] => newSources
  | _, _ =>
      fold_left (fun sources newSource =>
                   match findSameSource sources newSource with
                   | Some sources' => sources'
                   | None => sources ++ [newSource]
                   end)
                newSources sources
  end.

(** The scan of [_addUniqueTagGroups] for a group of the same dictionary:
    [None] when the scan ends with [i = ii]. *)
Fixpoint findSameDictionary (tagGroups : list TagGroup.t)
    (newTagGroup : TagGroup.t) : option (list TagGroup.t) :=
  match tagGroups with
  | [] => None
  | tagGroup :: rest =>
      if bool_decide (TagGroup.dictionary tagGroup = TagGroup.dictionary newTagGroup)
      then Some (TagGroup.mk (TagGroup.dictionary tagGroup)
                   (_addUniqueSimple (TagGroup.tagNames tagGroup)
                                     (TagGroup.tagNames newTagGroup)) :: rest)
      else (fun rest' => tagGroup :: rest') <$> findSameDictionary rest newTagGroup
  end.

(** [_addUniqueTagGroups(tagGroups, newTagGroups)] *)
Definition _addUniqueTagGroups (tagGroups newTagGroups : list TagGroup.t)
  : list TagGroup.t :=
  fold_left (fun tagGroups newTagGroup =>
               match findSameDictionary tagGroups newTagGroup with
               | Some tagGroups' => tagGroups'
               | None => tagGroups ++ [newTagGroup]
               end)
            newTagGroups tagGroups.

(** [headwordsMap.get(key)] for [key = _createMapKey([term, reading])]: the
    map is kept as the list of its values in insertion order, and the
    headword stored under a key has that term and reading.  The result is
    the position of the value in the map, and the value. *)
Definition headwordsMap_get (headwordsMap : list (Headword.t TagGroup.t))
    (term reading : string) : option (nat * Headword.t TagGroup.t) :=
  list_find (fun headword => Headword.term headword = term
                             ∧ Headword.reading headword = reading)
            headwordsMap.

(** The three [_addUnique...] calls of [_addTermHeadwords] on the headword
    found or created. *)
Definition Headword_absorb (headword newHeadword : Headword.t TagGroup.t)
  : Headword.t TagGroup.t :=
  Headword.mk (Headword.index headword) (Headword.term headword)
    (Headword.reading headword)
    (_addUniqueSources (Headword.sources headword) (Headword.sources newHeadword))
    (_addUniqueTagGroups (Headword.tags headword) (Headword.tags newHeadword))
    (_addUniqueSimple (Headword.wordClasses headword)
                      (Headword.wordClasses newHeadword)).

(** [_addTermHeadwords(headwordsMap, headwords)]: the map after the call
    and the returned [headwordIndexMap]. *)
Definition _addTermHeadwords (headwordsMap : list (Headword.t TagGroup.t))
    (headwords : list (Headword.t TagGroup.t))
  : list (Headword.t TagGroup.t) * list nat :=
  fold_left
    (fun '(headwordsMap, headwordIndexMap) newHeadword =>
       let term := Headword.term newHeadword in
       let reading := Headword.reading newHeadword in
       let '(headwordsMap, position, headword) :=
         match headwordsMap_get headwordsMap term reading with
         | Some (position, headword) => (headwordsMap, position, headword)
         | None =>
             let headword :=
               Headword.mk (length headwordsMap) term reading [] [] [] in
             (headwordsMap ++ [headword], length headwordsMap, headword)
         end in
       (<[position := Headword_absorb headword newHeadword]> headwordsMap,
        headwordIndexMap ++ [Headword.index headword]))
    headwords (headwordsMap, []).

(** The [while (start < end)] loop of [_addUniqueTermHeadwordIndex]:
    [None] when it returns from inside the loop (the index is present),
    otherwise the value of [start] after the loop. *)
Equations? headwordIndexSearch (headwordIndices : list nat)
    (headwordIndex start end_ : nat) : option nat
    by wf (end_ - start)%nat lt :=
  headwordIndexSearch headwordIndices headwordIndex start end_
    with decide (start < end_)%nat := {
    | right _ => Some start
    | left _ with headwordIndices !! ((start + end_) `div` 2)%nat := {
        | Some value with decide (headwordIndex = value) := {
            | left _ => None
            | right _ with decide (value < headwordIndex)%nat := {
                | left _ =>
                    headwordIndexSearch headwordIndices headwordIndex
                      ((start + end_) `div` 2 + 1)%nat end_
                | right _ =>
                    headwordIndexSearch headwordIndices headwordIndex
                      start ((start + end_) `div` 2)%nat } }
        | None =>
            headwordIndexSearch headwordIndices headwordIndex
              start ((start + end_) `div` 2)%nat } }.
Proof.
  all: change (Nat.divmod (start + end_) 1 0 1).1 with ((start + end_) `div` 2)%nat;
    pose proof (Nat.div_mod_eq (start + end_) 2);
    pose proof (Nat.mod_upper_bound (start + end_) 2); lia.
Qed.

(** [_addUniqueTermHeadwordIndex(headwordIndices, headwordIndex)] *)
Definition _addUniqueTermHeadwordIndex (headwordIndices : list nat)
    (headwordIndex : nat) : list nat :=
  let end_ := length headwordIndices in
  if decide (end_ = 0%nat) then headwordIndices ++ [headwordIndex]
  else
    match headwordIndexSearch headwordIndices headwordIndex 0 end_ with
    | None => headwordIndices
    | Some start =>
        if decide (headwordIndices !! start = Some headwordIndex)
        then headwordIndices
        else take start headwordIndices ++ headwordIndex :: drop start headwordIndices
    end.

(** [_addTermDefinitionsFast(definitions, newDefinitions, headwordIndexMap)].
    The headword indices of a definition lie within the headword list of its
    entry, so [headwordIndexMap[headwordIndex]] is defined. *)
Definition _addTermDefinitionsFast
    (definitions newDefinitions : list (TermDefinition.t TagGroup.t))
    (headwordIndexMap : list nat) : list (TermDefinition.t TagGroup.t) :=
  fold_left
    (fun definitions newDefinition =>
       let headwordIndicesNew :=
         (fun headwordIndex => headwordIndexMap !!! headwordIndex)
           <$> TermDefinition.headwordIndices newDefinition in
       definitions ++
         [TermDefinition.mk (length definitions) headwordIndicesNew
            (TermDefinition.dictionary newDefinition)
            (TermDefinition.dictionaryIndex newDefinition)
            (TermDefinition.dictionaryPriority newDefinition)
            (TermDefinition.id newDefinition)
            (TermDefinition.score newDefinition)
            0
            (TermDefinition.sequences newDefinition)
            (TermDefinition.isPrimary newDefinition)
            (TermDefinition.tags newDefinition)
            (TermDefinition.entries newDefinition)])
    newDefinitions definitions.

(** The key [_createMapKey([dictionary, ...entries])] of [definitionsMap]. *)
Definition definitionKey (dictionary : string) (entries : list string)
  : list string := dictionary :: entries.

(** The updates [_addTermDefinitions] makes to the definition found in or
    added to [definitionsMap]. *)
Definition TermDefinition_merge (found : bool)
    (definition newDefinition : TermDefinition.t TagGroup.t)
    (headwordIndexMap : list nat) : TermDefinition.t TagGroup.t :=
  TermDefinition.mk
    (TermDefinition.index definition)
    (fold_left (fun newHeadwordIndices headwordIndex =>
                  _addUniqueTermHeadwordIndex newHeadwordIndices
                    (headwordIndexMap !!! headwordIndex))
               (TermDefinition.headwordIndices newDefinition)
               (TermDefinition.headwordIndices definition))
    (TermDefinition.dictionary definition)
    (TermDefinition.dictionaryIndex definition)
    (TermDefinition.dictionaryPriority definition)
    (TermDefinition.id definition)
    (TermDefinition.score definition)
    (TermDefinition.frequencyOrder definition)
    (if found
     then _addUniqueSimple (TermDefinition.sequences definition)
                           (TermDefinition.sequences newDefinition)
     else TermDefinition.sequences definition)
    (if found && TermDefinition.isPrimary newDefinition then true
     else TermDefinition.isPrimary definition)
    (_addUniqueTagGroups (TermDefinition.tags definition)
                         (TermDefinition.tags newDefinition))
    (TermDefinition.entries definition).

(** [_addTermDefinitions(definitions, definitionsMap, newDefinitions,
    headwordIndexMap)].  The map sends a key to the position in
    [definitions] of the definition object stored under it. *)
Definition _addTermDefinitions
    (definitions : list (TermDefinition.t TagGroup.t))
    (definitionsMap : gmap (list string) nat)
    (newDefinitions : list (TermDefinition.t TagGroup.t))
    (headwordIndexMap : list nat)
  : list (TermDefinition.t TagGroup.t) * gmap (list string) nat :=
  fold_left
    (fun '(definitions, definitionsMap) newDefinition =>
       let dictionary := TermDefinition.dictionary newDefinition in
       let entries := TermDefinition.entries newDefinition in
       let key := definitionKey dictionary entries in
       match definitionsMap !! key with
       | None =>
           let definition :=
             TermDefinition.mk (length definitions) [] dictionary
               (TermDefinition.dictionaryIndex newDefinition)
               (TermDefinition.dictionaryPriority newDefinition)
               (TermDefinition.id newDefinition)
               (TermDefinition.score newDefinition)
               0
               (TermDefinition.sequences newDefinition)
               (TermDefinition.isPrimary newDefinition)
               [] entries in
           (definitions
              ++ [TermDefinition_merge false definition newDefinition
                    headwordIndexMap],
            <[key := length definitions]> definitionsMap)
       | Some position =>
           (alter (fun definition =>
                     TermDefinition_merge true definition newDefinition
                       headwordIndexMap)
                  position definitions,
            definitionsMap)
       end)
    newDefinitions (definitions, definitionsMap).

(** The running values of the "merge dictionary entry data" loop of
    [_createGroupedDictionaryEntry]. *)
Module GroupData.
Record t := mk {
  score : Z;
  dictionaryIndex : Z;
  dictionaryPriority : Z;
  maxTransformedTextLength : Z;
  isPrimary : bool;
  definitions : list (TermDefinition.t TagGroup.t);
  definitionsMap : gmap (list string) nat;
  inflectionHypotheses : option (list HypRef)
}.
End GroupData.

(** One iteration of that loop. *)
Definition mergeDictionaryEntryData (checkDuplicateDefinitions : bool)
    (data : GroupData.t)
    (definitionEntry : TermDictionaryEntry.t TagGroup.t * list nat)
  : GroupData.t :=
  let '(dictionaryEntry, headwordIndexMap) := definitionEntry in
  let score := Z.max (GroupData.score data) (TermDictionaryEntry.score dictionaryEntry) in
  let dictionaryIndex :=
    Z.min (GroupData.dictionaryIndex data)
          (TermDictionaryEntry.dictionaryIndex dictionaryEntry) in
  let dictionaryPriority :=
    Z.max (GroupData.dictionaryPriority data)
          (TermDictionaryEntry.dictionaryPriority dictionaryEntry) in
  let '(isPrimary, maxTransformedTextLength, inflectionHypotheses) :=
    if TermDictionaryEntry.isPrimary dictionaryEntry then
      let dictionaryEntryInflections :=
        TermDictionaryEntry.inflectionHypotheses dictionaryEntry in
      (true,
       Z.max (GroupData.maxTransformedTextLength data)
             (TermDictionaryEntry.maxTransformedTextLength dictionaryEntry),
       match GroupData.inflectionHypotheses data with
       | None => Some dictionaryEntryInflections
       | Some inflectionHypotheses =>
           if len dictionaryEntryInflections <? len inflectionHypotheses
           then Some dictionaryEntryInflections
           else Some inflectionHypotheses
       end)
    else (GroupData.isPrimary data, GroupData.maxTransformedTextLength data,
          GroupData.inflectionHypotheses data) in
  let '(definitions, definitionsMap) :=
    if checkDuplicateDefinitions then
      _addTermDefinitions (GroupData.definitions data)
        (GroupData.definitionsMap data)
        (TermDictionaryEntry.definitions dictionaryEntry) headwordIndexMap
    else
      (_addTermDefinitionsFast (GroupData.definitions data)
         (TermDictionaryEntry.definitions dictionaryEntry) headwordIndexMap,
       GroupData.definitionsMap data) in
  GroupData.mk score dictionaryIndex dictionaryPriority
    maxTransformedTextLength isPrimary definitions definitionsMap
    inflectionHypotheses.

(** The inner loop over [sources] that counts a headword and breaks. *)
Fixpoint hasPrimaryTermSource (sources : list Source.t) : bool :=
  match sources with
  | [] => false
  | source :: rest =>
      if Source.isPrimary source
         && bool_decide (Source.matchSource source = Term)
      then true
      else hasPrimaryTermSource rest
  end.

(** [_createGroupedDictionaryEntry(dictionaryEntries,
    checkDuplicateDefinitions)] *)
Definition _createGroupedDictionaryEntry
    (dictionaryEntries : list (TermDictionaryEntry.t TagGroup.t))
    (checkDuplicateDefinitions : bool)
  : TermDictionaryEntry.t TagGroup.t :=
  let '(headwords, definitionEntries) :=
    fold_left
      (fun '(headwords, definitionEntries) dictionaryEntry =>
         let '(headwords, headwordIndexMap) :=
           _addTermHeadwords headwords
             (TermDictionaryEntry.headwords dictionaryEntry) in
         (headwords, definitionEntries ++ [(dictionaryEntry, headwordIndexMap)]))
      dictionaryEntries ([], []) in
  let checkDuplicateDefinitions :=
    if len definitionEntries <=? 1 then false else checkDuplicateDefinitions in
  let data :=
    fold_left (mergeDictionaryEntryData checkDuplicateDefinitions)
      definitionEntries
      (GroupData.mk MIN_SAFE_INTEGER MAX_SAFE_INTEGER MIN_SAFE_INTEGER 0 false
         [] ∅ None) in
  let headwordsArray := headwords in
  let sourceTermExactMatchCount :=
    fold_left
      (fun sourceTermExactMatchCount headword =>
         if hasPrimaryTermSource (Headword.sources headword)
         then sourceTermExactMatchCount + 1
         else sourceTermExactMatchCount)
      headwordsArray 0 in
  TermDictionaryEntry.mk
    (GroupData.isPrimary data)
    (default [] (GroupData.inflectionHypotheses data))
    (GroupData.score data)
    0
    (GroupData.dictionaryIndex data)
    (GroupData.dictionaryPriority data)
    sourceTermExactMatchCount
    (GroupData.maxTransformedTextLength data)
    headwordsArray
    (GroupData.definitions data)
    []
    [].

(** ** Find terms internal implementation *)

(** The store of inflection-hypothesis objects: the object at address [a]
    is the [a]-th element; a new object gets the next free address. *)
Abbreviation HypStore := (list InflectionHypothesis.t).

(** [_areInflectionHyphothesesEqual(hypotheses1, hypotheses2)] *)
Definition _areInflectionHyphothesesEqual (hypotheses1 hypotheses2 : list string)
  : bool :=
  let set1 : gset string := list_to_set hypotheses1 in
  let set2 : gset string := list_to_set hypotheses2 in
  bool_decide (size set1 = size set2)
  && forallb (fun x => bool_decide (x ∈ set2)) (elements set1).

(** A monadic left fold: a loop whose body may throw. *)
Fixpoint foldlM {A B} (f : A → B → option A) (items : list B) (acc : A)
  : option A :=
  match items with
  | [] => Some acc
  | item :: rest => acc' ← f acc item; foldlM f rest acc'
  end.

(** [existingHypotheses.find((hypothesis) =>
    this._areInflectionHyphothesesEqual(hypothesis.inflections, inflections))]:
    the address of the first duplicate, if any. *)
Fixpoint findDuplicate (store : HypStore) (existingHypotheses : list HypRef)
    (inflections : list string) : option (option HypRef) :=
  match existingHypotheses with
  | [] => Some None
  | ref :: rest =>
      hypothesis ← store !! ref;
      if _areInflectionHyphothesesEqual
           (InflectionHypothesis.inflections hypothesis) inflections
      then Some (Some ref)
      else findDuplicate store rest inflections
  end.

(** The body of [inflectionHypotheses.forEach(({source, inflections}) => ...)]
    in [_findTermsInternal], on the store and the array [newHypotheses]. *)
Definition mergeHypothesis (existingHypotheses : list HypRef)
    (acc : HypStore * list InflectionHypothesis.t) (ref : HypRef)
  : option (HypStore * list InflectionHypothesis.t) :=
  let '(store, newHypotheses) := acc in
  hypothesis ← store !! ref;
  let source := InflectionHypothesis.source hypothesis in
  let inflections := InflectionHypothesis.inflections hypothesis in
  duplicate ← findDuplicate store existingHypotheses inflections;
  match duplicate with
  | None =>
      Some (store, newHypotheses ++ [InflectionHypothesis.mk source inflections])
  | Some duplicate =>
      duplicateHypothesis ← store !! duplicate;
      if decide (InflectionHypothesis.source duplicateHypothesis ≠ source)
      then Some (<[duplicate :=
                     InflectionHypothesis.mk Both
                       (InflectionHypothesis.inflections duplicateHypothesis)]>
                   store,
                 newHypotheses)
      else Some (store, newHypotheses)
  end.

(** The merge of the hypotheses of a later sighting into the existing
    entry: the store after the [forEach], extended with the objects of
    [newHypotheses], and the new value of
    [existingEntry.inflectionHypotheses]. *)
Definition mergeInflectionHypotheses (store : HypStore)
    (existingHypotheses inflectionHypotheses : list HypRef)
  : option (HypStore * list HypRef) :=
  '(store, newHypotheses) ←
    foldlM (mergeHypothesis existingHypotheses) inflectionHypotheses (store, []);
  Some (store ++ newHypotheses,
        existingHypotheses ++ seq (length store) (length newHypotheses)).

(** The variables of the loops of [_findTermsInternal], with the store. *)
Module FindState.
Record t := mk {
  store : HypStore;
  dictionaryEntries : list (TermDictionaryEntry.t TagGroup.t);
  ids : gset Z;
  originalTextLength : Z
}.
End FindState.

Definition TermDictionaryEntry_setInflectionHypotheses {T}
    (entry : TermDictionaryEntry.t T) (inflectionHypotheses : list HypRef)
  : TermDictionaryEntry.t T :=
  TermDictionaryEntry.mk
    (TermDictionaryEntry.isPrimary entry)
    inflectionHypotheses
    (TermDictionaryEntry.score entry)
    (TermDictionaryEntry.frequencyOrder entry)
    (TermDictionaryEntry.dictionaryIndex entry)
    (TermDictionaryEntry.dictionaryPriority entry)
    (TermDictionaryEntry.sourceTermExactMatchCount entry)
    (TermDictionaryEntry.maxTransformedTextLength entry)
    (TermDictionaryEntry.headwords entry)
    (TermDictionaryEntry.definitions entry)
    (TermDictionaryEntry.pronunciations entry)
    (TermDictionaryEntry.frequencies entry).

(** The entry has a definition with this id:
    [entry.definitions.some((definition) => definition.id === id)]. *)
Definition hasDefinitionId {T} (id : Z) (entry : TermDictionaryEntry.t T) : Prop :=
  Exists (fun definition => TermDefinition.id definition = id)
         (TermDictionaryEntry.definitions entry).

#[global] Instance hasDefinitionId_dec {T} id (entry : TermDictionaryEntry.t T) :
  Decision (hasDefinitionId id entry).
Proof. unfold hasDefinitionId. apply _. Defined.

(** [existingEntry.headwords[0].sources[0].transformedText] *)
Definition firstTransformedText {T} (entry : TermDictionaryEntry.t T)
  : option string :=
  headword ← TermDictionaryEntry.headwords entry !! 0%nat;
  source ← Headword.sources headword !! 0%nat;
  Some (Source.transformedText source).

(** The body of [for (const databaseEntry of databaseEntries)]. *)
Definition addDatabaseEntry (enabledDictionaryMap : EnabledDictionaryMap)
    (deinflection : Deinflection.t) (state : FindState.t)
    (databaseEntry : DatabaseEntry.t) : option FindState.t :=
  let id := DatabaseEntry.id databaseEntry in
  let transformedText := Deinflection.transformedText deinflection in
  let inflectionHypotheses := Deinflection.inflectionHypotheses deinflection in
  if decide (id ∈ FindState.ids state) then
    '(position, existingEntry) ←
      list_find (hasDefinitionId id) (FindState.dictionaryEntries state);
    existingTransformedText ← firstTransformedText existingEntry;
    if strlen existingTransformedText <=? strlen transformedText then
      '(store, merged) ←
        mergeInflectionHypotheses (FindState.store state)
          (TermDictionaryEntry.inflectionHypotheses existingEntry)
          inflectionHypotheses;
      Some (FindState.mk store
              (<[position :=
                   TermDictionaryEntry_setInflectionHypotheses existingEntry merged]>
                 (FindState.dictionaryEntries state))
              (FindState.ids state)
              (FindState.originalTextLength state))
    else Some state
  else if decide ("non-lemma"%string ∈ DatabaseEntry.definitionTags databaseEntry)
  then Some state
  else
    let dictionaryEntry :=
      _createTermDictionaryEntryFromDatabaseEntry databaseEntry
        (Deinflection.originalText deinflection) transformedText
        (Deinflection.deinflectedText deinflection) inflectionHypotheses true
        enabledDictionaryMap in
    Some (FindState.mk (FindState.store state)
            (FindState.dictionaryEntries state ++ [dictionaryEntry])
            ({[id]} ∪ FindState.ids state)
            (FindState.originalTextLength state)).

(** The body of [for (const {...} of deinflections)]. *)
Definition addDeinflection (enabledDictionaryMap : EnabledDictionaryMap)
    (state : FindState.t) (deinflection : Deinflection.t) : option FindState.t :=
  let databaseEntries := Deinflection.databaseEntries deinflection in
  if len databaseEntries =? 0 then Some state
  else
    let state :=
      if negb (Deinflection.isDictionaryDeinflection deinflection) then
        FindState.mk (FindState.store state) (FindState.dictionaryEntries state)
          (FindState.ids state)
          (Z.max (FindState.originalTextLength state)
                 (strlen (Deinflection.originalText deinflection)))
      else state in
    foldlM (addDatabaseEntry enabledDictionaryMap deinflection)
           databaseEntries state.

(** The loop of [_getJapaneseOnlyText] over the code points [c] of the
    text, from the value [length] of the counter: the value of the counter
    at the [return] inside the loop, or [None] when the loop ends. *)
Fixpoint japaneseOnlyLength (isCodePointJapanese : N → bool)
    (cs : list string) (length : Z) : option Z :=
  match cs with
  | [] => None
  | c :: cs =>
      if negb (isCodePointJapanese (codePointAt0 c)) then Some length
      else japaneseOnlyLength isCodePointJapanese cs (length + codeUnits c)
  end.

(** The code points that make up the first [length] code units. *)
Fixpoint takeCodeUnits (length : Z) (cs : list string) : string :=
  match cs with
  | [] => EmptyString
  | c :: cs =>
      if 0 <? length then c +:+ takeCodeUnits (length - codeUnits c) cs
      else EmptyString
  end.

(** [text.substring(0, length)] for a [length] that does not fall between
    the two code units of a code point. *)
Definition substringTo (length : Z) (text : string) : string :=
  takeCodeUnits length (codePoints text).

(** [_getJapaneseOnlyText(text)]; [isCodePointJapanese] belongs to
    [JapaneseUtil]. *)
Definition _getJapaneseOnlyText (isCodePointJapanese : N → bool)
    (text : string) : string :=
  match japaneseOnlyLength isCodePointJapanese (codePoints text) 0 with
  | Some length => substringTo length text
  | None => text
  end.

(** ** Sorting functions *)

(** [array.sort(compare)].  ECMAScript requires the sort to be stable, and
    for a consistent comparison function its result is the one stable sorted
    arrangement of the array; insertion from the right computes it. *)
Fixpoint sortInsert {A} (compare : A → A → Z) (x : A) (sorted : list A)
  : list A :=
  match sorted with
  | [] => [x]
  | y :: rest =>
      if compare x y <=? 0 then x :: y :: rest
      else y :: sortInsert compare x rest
  end.

Definition arraySort {A} (compare : A → A → Z) (array : list A) : list A :=
  foldr (sortInsert compare) [] array.

(** The loop "sort by headword term text" of the comparison function of
    [_sortTermDictionaryEntries]: the value it returns from the comparison
    function, or 0 when it runs to its end.  [stringComparerCompare] is
    [this._stringComparer.compare] of the [Intl.Collator]. *)
Fixpoint compareHeadwordTerms {T} (stringComparerCompare : string → string → Z)
    (headwords1 headwords2 : list (Headword.t T)) : Z :=
  match headwords1, headwords2 with
  | headword1 :: rest1, headword2 :: rest2 =>
      let term1 := Headword.term headword1 in
      let term2 := Headword.term headword2 in
      let i := strlen term2 - strlen term1 in
      if negb (i =? 0) then i else
      let i := stringComparerCompare term1 term2 in
      if negb (i =? 0) then i else
      compareHeadwordTerms stringComparerCompare rest1 rest2
  | _, _ => 0
  end.

(** [compareFunction] of [_sortTermDictionaryEntries] *)
Definition compareTermDictionaryEntries {T}
    (stringComparerCompare : string → string → Z)
    (v1 v2 : TermDictionaryEntry.t T) : Z :=
  (* Sort by length of source term *)
  let i := TermDictionaryEntry.maxTransformedTextLength v2
           - TermDictionaryEntry.maxTransformedTextLength v1 in
  if negb (i =? 0) then i else
  (* Sort by the number of inflection reasons *)
  let i := len (TermDictionaryEntry.inflectionHypotheses v1)
           - len (TermDictionaryEntry.inflectionHypotheses v2) in
  if negb (i =? 0) then i else
  (* Sort by how many terms exactly match the source *)
  let i := TermDictionaryEntry.sourceTermExactMatchCount v2
           - TermDictionaryEntry.sourceTermExactMatchCount v1 in
  if negb (i =? 0) then i else
  (* Sort by frequency order *)
  let i := TermDictionaryEntry.frequencyOrder v1
           - TermDictionaryEntry.frequencyOrder v2 in
  if negb (i =? 0) then i else
  (* Sort by dictionary priority *)
  let i := TermDictionaryEntry.dictionaryPriority v2
           - TermDictionaryEntry.dictionaryPriority v1 in
  if negb (i =? 0) then i else
  (* Sort by term score *)
  let i := TermDictionaryEntry.score v2 - TermDictionaryEntry.score v1 in
  if negb (i =? 0) then i else
  (* Sort by headword term text *)
  let i := compareHeadwordTerms stringComparerCompare
             (TermDictionaryEntry.headwords v1)
             (TermDictionaryEntry.headwords v2) in
  if negb (i =? 0) then i else
  (* Sort by definition count *)
  let i := len (TermDictionaryEntry.definitions v2)
           - len (TermDictionaryEntry.definitions v1) in
  if negb (i =? 0) then i else
  (* Sort by dictionary order *)
  TermDictionaryEntry.dictionaryIndex v1 - TermDictionaryEntry.dictionaryIndex v2.

(** [_sortTermDictionaryEntries(dictionaryEntries)] *)
Definition _sortTermDictionaryEntries {T}
    (stringComparerCompare : string → string → Z)
    (dictionaryEntries : list (TermDictionaryEntry.t T))
  : list (TermDictionaryEntry.t T) :=
  arraySort (compareTermDictionaryEntries stringComparerCompare) dictionaryEntries.

(** The loop over [headwordIndices1] in the comparison function of
    [_sortTermDictionaryEntryDefinitions], entered with two arrays of the
    same length. *)
Fixpoint compareHeadwordIndices (headwordIndices1 headwordIndices2 : list nat)
  : Z :=
  match headwordIndices1, headwordIndices2 with
  | index1 :: rest1, index2 :: rest2 =>
      let i := Z.of_nat index1 - Z.of_nat index2 in
      if negb (i =? 0) then i else compareHeadwordIndices rest1 rest2
  | _, _ => 0
  end.

(** [scoreFromTags] *)
Definition scoreFromTags (v : TermDefinition.t Tag.t) : Z :=
  fold_left (fun a b => a + Tag.score b) (TermDefinition.tags v) 0.

(** [compareFunction] of [_sortTermDictionaryEntryDefinitions] *)
Definition compareTermDefinitions (v1 v2 : TermDefinition.t Tag.t) : Z :=
  (* Sort by frequency order *)
  let i := TermDefinition.frequencyOrder v1 - TermDefinition.frequencyOrder v2 in
  if negb (i =? 0) then i else
  (* Sort by dictionary priority *)
  let i := TermDefinition.dictionaryPriority v2
           - TermDefinition.dictionaryPriority v1 in
  if negb (i =? 0) then i else
  (* Sort by term score *)
  let i := TermDefinition.score v2 - TermDefinition.score v1 in
  if negb (i =? 0) then i else
  (* Sort by definition headword index *)
  let headwordIndices1 := TermDefinition.headwordIndices v1 in
  let headwordIndices2 := TermDefinition.headwordIndices v2 in
  let jj := len headwordIndices1 in
  let i := len headwordIndices2 - jj in
  if negb (i =? 0) then i else
  let i := compareHeadwordIndices headwordIndices1 headwordIndices2 in
  if negb (i =? 0) then i else
  (* Sort by dictionary order *)
  let i := TermDefinition.dictionaryIndex v1 - TermDefinition.dictionaryIndex v2 in
  if negb (i =? 0) then i else
  let i := scoreFromTags v2 - scoreFromTags v1 in
  if negb (i =? 0) then i else
  (* Sort by original order *)
  Z.of_nat (TermDefinition.index v1) - Z.of_nat (TermDefinition.index v2).

(** [_sortTermDictionaryEntryDefinitions(definitions)] *)
Definition _sortTermDictionaryEntryDefinitions
    (definitions : list (TermDefinition.t Tag.t)) : list (TermDefinition.t Tag.t) :=
  arraySort compareTermDefinitions definitions.

(** [if (dictionaryEntries.length > 1) {
      this._sortTermDictionaryEntries(dictionaryEntries); }] of [findTerms] *)
Definition sortDictionaryEntries {T}
    (stringComparerCompare : string → string → Z)
    (dictionaryEntries : list (TermDictionaryEntry.t T))
  : list (TermDictionaryEntry.t T) :=
  if 1 <? len dictionaryEntries
  then _sortTermDictionaryEntries stringComparerCompare dictionaryEntries
  else dictionaryEntries.

(** [if (definitions.length > 1) {
      this._sortTermDictionaryEntryDefinitions(definitions); }] of
    [findTerms] *)
Definition sortDefinitions (definitions : list (TermDefinition.t Tag.t))
  : list (TermDefinition.t Tag.t) :=
  if 1 <? len definitions
  then _sortTermDictionaryEntryDefinitions definitions
  else definitions.

(** ** Tags *)

(** The test [tag2.name !== name || tag2.category !== category] of
    [_mergeSimilarTags], negated: the two tags are similar. *)
Definition similarTags (tag1 tag2 : Tag.t) : Prop :=
  Tag.name tag2 = Tag.name tag1 ∧ Tag.category tag2 = Tag.category tag1.

#[global] Instance similarTags_dec tag1 tag2 : Decision (similarTags tag1 tag2).
Proof. unfold similarTags. apply _. Defined.

(** The "merge tag" block of [_mergeSimilarTags]: [tag1] after it has
    taken over [tag2]. *)
Definition mergeTag (tag1 tag2 : Tag.t) : Tag.t :=
  Tag.mk (Tag.name tag1) (Tag.category tag1)
    (Z.min (Tag.order tag1) (Tag.order tag2))
    (Z.max (Tag.score tag1) (Tag.score tag2))
    (_addUniqueSimple (Tag.content tag1) (Tag.content tag2))
    (Tag.dictionaries tag1 ++ Tag.dictionaries tag2)
    (Tag.redundant tag1).

(** The inner loop of [_mergeSimilarTags] over the tags behind [tag1]:
    [tag1] after the loop, and the tags that were not spliced out. *)
Fixpoint absorbSimilarTags (tag1 : Tag.t) (rest : list Tag.t)
  : Tag.t * list Tag.t :=
  match rest with
  | [] => (tag1, [])
  | tag2 :: rest =>
      if decide (similarTags tag1 tag2)
      then absorbSimilarTags (mergeTag tag1 tag2) rest
      else
        let '(tag1, kept) := absorbSimilarTags tag1 rest in
        (tag1, tag2 :: kept)
  end.

Lemma absorbSimilarTags_length (tag1 : Tag.t) (rest : list Tag.t) :
  (length (absorbSimilarTags tag1 rest).2 ≤ length rest)%nat.
Proof.
  revert tag1. induction rest as [|tag2 rest IH]; intros tag1; simpl; [lia|].
  case_decide.
  - specialize (IH (mergeTag tag1 tag2)). lia.
  - specialize (IH tag1). destruct (absorbSimilarTags tag1 rest). simpl in *. lia.
Qed.

(** [_mergeSimilarTags(tags)]: the array after the call. *)
Equations? _mergeSimilarTags (tags : list Tag.t) : list Tag.t
    by wf (length tags) lt :=
  _mergeSimilarTags [] := [];
  _mergeSimilarTags (tag1 :: rest) :=
    (absorbSimilarTags tag1 rest).1
      :: _mergeSimilarTags (absorbSimilarTags tag1 rest).2.
Proof.
  pose proof (absorbSimilarTags_length tag1 rest). simpl. lia.
Qed.

(** ** Sort frequencies *)

(** The value assigned to [frequencyOrder] from the running minimum and
    maximum. *)
Definition frequencyOrderOf (ascending : bool) (frequencyMin frequencyMax : Z) : Z :=
  if frequencyMin <=? frequencyMax
  then (if ascending then frequencyMin else - frequencyMax)
  else (if ascending then MAX_SAFE_INTEGER else 0).

(** The loop over [frequencies] of [_updateSortFrequencies]: the frequency
    map, the minimum and the maximum after it.  (The test
    [typeof frequency !== 'number'] never holds: see [TermFrequency].) *)
Definition scanFrequencies (dictionary : string)
    (frequencies : list TermFrequency.t) : gmap nat Z * Z * Z :=
  fold_left
    (fun '(frequencyMap, frequencyMin, frequencyMax) item =>
       if decide (TermFrequency.dictionary item ≠ dictionary)
       then (frequencyMap, frequencyMin, frequencyMax)
       else
         let headwordIndex := TermFrequency.headwordIndex item in
         let frequency := TermFrequency.frequency item in
         (<[headwordIndex := frequency]> frequencyMap,
          Z.min frequencyMin frequency,
          Z.max frequencyMax frequency))
    frequencies (∅, MAX_SAFE_INTEGER, MIN_SAFE_INTEGER).

(** The loop over the [headwordIndices] of a definition. *)
Definition scanHeadwordIndices (frequencyMap : gmap nat Z)
    (headwordIndices : list nat) : Z * Z :=
  fold_left
    (fun '(frequencyMin, frequencyMax) headwordIndex =>
       match frequencyMap !! headwordIndex with
       | None => (frequencyMin, frequencyMax)
       | Some frequency =>
           (Z.min frequencyMin frequency, Z.max frequencyMax frequency)
       end)
    headwordIndices (MAX_SAFE_INTEGER, MIN_SAFE_INTEGER).

Definition TermDefinition_setFrequencyOrder {T} (definition : TermDefinition.t T)
    (frequencyOrder : Z) : TermDefinition.t T :=
  TermDefinition.mk
    (TermDefinition.index definition)
    (TermDefinition.headwordIndices definition)
    (TermDefinition.dictionary definition)
    (TermDefinition.dictionaryIndex definition)
    (TermDefinition.dictionaryPriority definition)
    (TermDefinition.id definition)
    (TermDefinition.score definition)
    frequencyOrder
    (TermDefinition.sequences definition)
    (TermDefinition.isPrimary definition)
    (TermDefinition.tags definition)
    (TermDefinition.entries definition).

(** The body of the loop over the entries of [_updateSortFrequencies]; the
    frequency map is empty when it starts, as it is cleared at its end. *)
Definition updateEntrySortFrequencies {T} (dictionary : string) (ascending : bool)
    (dictionaryEntry : TermDictionaryEntry.t T) : TermDictionaryEntry.t T :=
  let '(frequencyMap, frequencyMin, frequencyMax) :=
    scanFrequencies dictionary (TermDictionaryEntry.frequencies dictionaryEntry) in
  TermDictionaryEntry.mk
    (TermDictionaryEntry.isPrimary dictionaryEntry)
    (TermDictionaryEntry.inflectionHypotheses dictionaryEntry)
    (TermDictionaryEntry.score dictionaryEntry)
    (frequencyOrderOf ascending frequencyMin frequencyMax)
    (TermDictionaryEntry.dictionaryIndex dictionaryEntry)
    (TermDictionaryEntry.dictionaryPriority dictionaryEntry)
    (TermDictionaryEntry.sourceTermExactMatchCount dictionaryEntry)
    (TermDictionaryEntry.maxTransformedTextLength dictionaryEntry)
    (TermDictionaryEntry.headwords dictionaryEntry)
    ((fun definition =>
        let '(frequencyMin, frequencyMax) :=
          scanHeadwordIndices frequencyMap
            (TermDefinition.headwordIndices definition) in
        TermDefinition_setFrequencyOrder definition
          (frequencyOrderOf ascending frequencyMin frequencyMax))
       <$> TermDictionaryEntry.definitions dictionaryEntry)
    (TermDictionaryEntry.pronunciations dictionaryEntry)
    (TermDictionaryEntry.frequencies dictionaryEntry).

(** [_updateSortFrequencies(dictionaryEntries, dictionary, ascending)]: the
    entries after the call. *)
Definition _updateSortFrequencies {T}
    (dictionaryEntries : list (TermDictionaryEntry.t T))
    (dictionary : string) (ascending : bool)
  : list (TermDictionaryEntry.t T) :=
  updateEntrySortFrequencies dictionary ascending <$> dictionaryEntries.

(** ** Removing data *)

(** [_removeArrayItemsWithDictionary(array, excludeDictionaryDefinitions)]:
    the array after the call and the returned [changed]. *)
Definition _removeArrayItemsWithDictionary {A} (dictionary : A → string)
    (array : list A) (excludeDictionaryDefinitions : gset string)
  : list A * bool :=
  let kept :=
    filter (fun item => dictionary item ∉ excludeDictionaryDefinitions) array in
  (kept, negb (length kept =? length array)%nat).

Definition Headword_setTags {T U} (headword : Headword.t T) (tags : list U)
  : Headword.t U :=
  Headword.mk (Headword.index headword) (Headword.term headword)
    (Headword.reading headword) (Headword.sources headword) tags
    (Headword.wordClasses headword).

Definition TermDefinition_setTags {T U} (definition : TermDefinition.t T)
    (tags : list U) : TermDefinition.t U :=
  TermDefinition.mk
    (TermDefinition.index definition)
    (TermDefinition.headwordIndices definition)
    (TermDefinition.dictionary definition)
    (TermDefinition.dictionaryIndex definition)
    (TermDefinition.dictionaryPriority definition)
    (TermDefinition.id definition)
    (TermDefinition.score definition)
    (TermDefinition.frequencyOrder definition)
    (TermDefinition.sequences definition)
    (TermDefinition.isPrimary definition)
    tags
    (TermDefinition.entries definition).

Definition TermDefinition_setHeadwordIndices {T} (definition : TermDefinition.t T)
    (headwordIndices : list nat) : TermDefinition.t T :=
  TermDefinition.mk
    (TermDefinition.index definition)
    headwordIndices
    (TermDefinition.dictionary definition)
    (TermDefinition.dictionaryIndex definition)
    (TermDefinition.dictionaryPriority definition)
    (TermDefinition.id definition)
    (TermDefinition.score definition)
    (TermDefinition.frequencyOrder definition)
    (TermDefinition.sequences definition)
    (TermDefinition.isPrimary definition)
    (TermDefinition.tags definition)
    (TermDefinition.entries definition).

Definition TermPronunciation_setHeadwordIndex {T} (item : TermPronunciation.t T)
    (headwordIndex : nat) : TermPronunciation.t T :=
  TermPronunciation.mk (TermPronunciation.index item) headwordIndex
    (TermPronunciation.dictionary item) (TermPronunciation.dictionaryIndex item)
    (TermPronunciation.dictionaryPriority item) (TermPronunciation.pitches item)
    (TermPronunciation.phoneticTranscriptions item).

Definition TermFrequency_setHeadwordIndex (item : TermFrequency.t)
    (headwordIndex : nat) : TermFrequency.t :=
  TermFrequency.mk (TermFrequency.index item) headwordIndex
    (TermFrequency.dictionary item) (TermFrequency.dictionaryIndex item)
    (TermFrequency.dictionaryPriority item) (TermFrequency.hasReading item)
    (TermFrequency.frequency item) (TermFrequency.displayValue item)
    (TermFrequency.displayValueParsed item).

(** An entry with new headwords, definitions, pronunciations and
    frequencies. *)
Definition TermDictionaryEntry_setData {T U} (entry : TermDictionaryEntry.t T)
    (frequencyOrder : Z)
    (headwords : list (Headword.t U)) (definitions : list (TermDefinition.t U))
    (pronunciations : list (TermPronunciation.t U))
    (frequencies : list TermFrequency.t) : TermDictionaryEntry.t U :=
  TermDictionaryEntry.mk
    (TermDictionaryEntry.isPrimary entry)
    (TermDictionaryEntry.inflectionHypotheses entry)
    (TermDictionaryEntry.score entry)
    frequencyOrder
    (TermDictionaryEntry.dictionaryIndex entry)
    (TermDictionaryEntry.dictionaryPriority entry)
    (TermDictionaryEntry.sourceTermExactMatchCount entry)
    (TermDictionaryEntry.maxTransformedTextLength entry)
    headwords definitions pronunciations frequencies.

(** [_updateDefinitionHeadwordIndices(definitions, indexRemap)] *)
Definition _updateDefinitionHeadwordIndices {T}
    (definitions : list (TermDefinition.t T)) (indexRemap : gmap nat nat)
  : list (TermDefinition.t T) :=
  (fun definition =>
     TermDefinition_setHeadwordIndices definition
       (omap (fun headwordIndex => indexRemap !! headwordIndex)
             (TermDefinition.headwordIndices definition)))
    <$> definitions.

(** [_updateArrayItemsHeadwordIndex(array, indexRemap)] *)
Definition _updateArrayItemsHeadwordIndex {A} (headwordIndex : A → nat)
    (setHeadwordIndex : A → nat → A) (array : list A) (indexRemap : gmap nat nat)
  : list A :=
  omap (fun item => setHeadwordIndex item <$> indexRemap !! headwordIndex item)
       array.

(** The loop of [_removeUnusedHeadwords] that splices the unused headwords
    out and fills [indexRemap]. *)
Fixpoint removeHeadwords {T} (removeHeadwordIndices : gset nat)
    (headwords : list (Headword.t T)) (oldIndex : nat) (indexRemap : gmap nat nat)
  : list (Headword.t T) * gmap nat nat :=
  match headwords with
  | [] => ([], indexRemap)
  | headword :: rest =>
      if decide (oldIndex ∈ removeHeadwordIndices)
      then removeHeadwords removeHeadwordIndices rest (S oldIndex) indexRemap
      else
        let '(kept, indexRemap') :=
          removeHeadwords removeHeadwordIndices rest (S oldIndex)
            (<[oldIndex := size indexRemap]> indexRemap) in
        (headword :: kept, indexRemap')
  end.

(** [_removeUnusedHeadwords(dictionaryEntry)] *)
Definition _removeUnusedHeadwords {T} (dictionaryEntry : TermDictionaryEntry.t T)
  : TermDictionaryEntry.t T :=
  let definitions := TermDictionaryEntry.definitions dictionaryEntry in
  let headwords := TermDictionaryEntry.headwords dictionaryEntry in
  let removeHeadwordIndices : gset nat :=
    fold_left
      (fun removeHeadwordIndices definition =>
         fold_left (fun removeHeadwordIndices headwordIndex =>
                      removeHeadwordIndices ∖ {[headwordIndex]})
                   (TermDefinition.headwordIndices definition)
                   removeHeadwordIndices)
      definitions (list_to_set (seq 0 (length headwords))) in
  if decide (size removeHeadwordIndices = 0%nat) then dictionaryEntry
  else
    let '(headwords, indexRemap) :=
      removeHeadwords removeHeadwordIndices headwords 0 ∅ in
    TermDictionaryEntry_setData dictionaryEntry
      (TermDictionaryEntry.frequencyOrder dictionaryEntry)
      headwords
      (_updateDefinitionHeadwordIndices definitions indexRemap)
      (_updateArrayItemsHeadwordIndex
         (fun item => TermPronunciation.headwordIndex item)
         TermPronunciation_setHeadwordIndex
         (TermDictionaryEntry.pronunciations dictionaryEntry) indexRemap)
      (_updateArrayItemsHeadwordIndex
         (fun item => TermFrequency.headwordIndex item)
         TermFrequency_setHeadwordIndex
         (TermDictionaryEntry.frequencies dictionaryEntry) indexRemap).

(** [_removeTagGroupsWithDictionary(array, excludeDictionaryDefinitions)] on
    the [tags] of one element of the array. *)
Definition removeTagGroups (tags : list TagGroup.t)
    (excludeDictionaryDefinitions : gset string) : list TagGroup.t :=
  (_removeArrayItemsWithDictionary (fun tagGroup => TagGroup.dictionary tagGroup)
     tags excludeDictionaryDefinitions).1.

(** The body of the loop of [_removeExcludedDefinitions]: the entry after
    it, or [None] when the entry is spliced out. *)
Definition removeExcludedFromEntry
    (excludeDictionaryDefinitions : gset string)
    (dictionaryEntry : TermDictionaryEntry.t TagGroup.t)
  : option (TermDictionaryEntry.t TagGroup.t) :=
  let '(definitions, definitionsChanged) :=
    _removeArrayItemsWithDictionary
      (fun definition : TermDefinition.t TagGroup.t =>
         TermDefinition.dictionary definition)
      (TermDictionaryEntry.definitions dictionaryEntry)
      excludeDictionaryDefinitions in
  let pronunciations :=
    (_removeArrayItemsWithDictionary
       (fun item : TermPronunciation.t TagGroup.t =>
          TermPronunciation.dictionary item)
       (TermDictionaryEntry.pronunciations dictionaryEntry)
       excludeDictionaryDefinitions).1 in
  let frequencies :=
    (_removeArrayItemsWithDictionary
       (fun item => TermFrequency.dictionary item)
       (TermDictionaryEntry.frequencies dictionaryEntry)
       excludeDictionaryDefinitions).1 in
  let definitions :=
    (fun definition =>
       TermDefinition_setTags definition
         (removeTagGroups (TermDefinition.tags definition)
                          excludeDictionaryDefinitions))
      <$> definitions in
  let headwords :=
    (fun headword =>
       Headword_setTags headword
         (removeTagGroups (Headword.tags headword) excludeDictionaryDefinitions))
      <$> TermDictionaryEntry.headwords dictionaryEntry in
  let dictionaryEntry :=
    TermDictionaryEntry_setData dictionaryEntry
      (TermDictionaryEntry.frequencyOrder dictionaryEntry)
      headwords definitions pronunciations frequencies in
  if negb definitionsChanged then Some dictionaryEntry
  else if len definitions =? 0 then None
  else Some (_removeUnusedHeadwords dictionaryEntry).

(** [_removeExcludedDefinitions(dictionaryEntries,
    excludeDictionaryDefinitions)]: the array after the call. *)
Definition _removeExcludedDefinitions
    (dictionaryEntries : list (TermDictionaryEntry.t TagGroup.t))
    (excludeDictionaryDefinitions : gset string)
  : list (TermDictionaryEntry.t TagGroup.t) :=
  omap (removeExcludedFromEntry excludeDictionaryDefinitions) dictionaryEntries.

(** ** The dictionary database *)

(** The [data] of a frequency: a bare number, a string, an object
    [{value, displayValue}] (whose [value] may fail to be a number and whose
    [displayValue] may fail to be a string), or anything else. *)
Inductive FrequencyValue :=
| FrequencyNumber (value : Z)
| FrequencyString (text : string)
| FrequencyObject (value : option Z) (displayValue : option string)
| FrequencyOther.

(** A [nasal] or [devoice] property: an array, a number, or anything
    else. *)
Inductive PositionsValue :=
| PositionsArray (positions : list Z)
| PositionsNumber (position : Z)
| PositionsOther.

(** An element of [data.pitches]; [tags] is [None] when it is not an
    array. *)
Module PitchData.
Record t := mk {
  position : Z;
  tags : option (list string);
  nasal : PositionsValue;
  devoice : PositionsValue
}.
End PitchData.

(** An element of [data.ipa]. *)
Module IpaData.
Record t := mk {
  ipa : string;
  tags : option (list string)
}.
End IpaData.

(** The [mode] of a term meta row with its [data]: for ['freq'] either a
    bare frequency or an object with a string [reading]. *)
Inductive TermMetaData :=
| MetaFrequency (frequency : FrequencyValue)
| MetaReadingFrequency (reading : string) (frequency : FrequencyValue)
| MetaPitch (reading : string) (pitches : list PitchData.t)
| MetaIpa (reading : string) (ipa : list IpaData.t)
| MetaOther.

(** A row of [findTermMetaBulk]. *)
Module TermMeta.
Record t := mk {
  index : nat;
  data : TermMetaData;
  dictionary : string
}.
End TermMeta.

(** The bulk queries of the database, with their arguments; a dictionary
    map is recorded by its keys. *)
Inductive DatabaseCall :=
| FindTermsBulk (termList : list string) (dictionaries : gset string)
    (matchType : MatchType)
| FindTermsExactBulk (termList : list (string * string))
    (dictionaries : gset string)
| FindTermsBySequenceBulk (items : list (Z * string))
| FindTermMetaBulk (termList : list string) (dictionaries : gset string)
| FindKanjiBulk (kanjiList : list string) (dictionaries : gset string)
| FindKanjiMetaBulk (kanjiList : list string) (dictionaries : gset string)
| FindTagMetaBulk (items : list (string * string)).

(** The answers of the database to the queries that occur below. *)
Module Database.
Record t := mk {
  findTermsBulk :
    list string → EnabledDictionaryMap → MatchType → list DatabaseEntry.t;
  findTermMetaBulk : list string → EnabledDictionaryMap → list TermMeta.t
}.
End Database.

(** A computation that queries the database: from the calls made so far to
    its result, [None] when it throws, and the calls made. *)
Definition DB (A : Type) : Type :=
  list DatabaseCall → option A * list DatabaseCall.

#[global] Instance DB_ret : MRet DB := fun A x calls => (Some x, calls).

#[global] Instance DB_bind : MBind DB :=
  fun A B f m calls =>
    match m calls with
    | (Some x, calls') => f x calls'
    | (None, calls') => (None, calls')
    end.

(** A step that does not query: its result, or a [TypeError]. *)
Definition liftOption {A} (result : option A) : DB A :=
  fun calls => (result, calls).

(** [await this._database.findTermsBulk(termList, enabledDictionaryMap,
    matchType)] *)
Definition findTermsBulk (database : Database.t) (termList : list string)
    (enabledDictionaryMap : EnabledDictionaryMap) (matchType : MatchType)
  : DB (list DatabaseEntry.t) :=
  fun calls =>
    (Some (Database.findTermsBulk database termList enabledDictionaryMap matchType),
     calls ++ [FindTermsBulk termList (dom enabledDictionaryMap) matchType]).

(** [await this._database.findTermMetaBulk(termList, enabledDictionaryMap)] *)
Definition findTermMetaBulk (database : Database.t) (termList : list string)
    (enabledDictionaryMap : EnabledDictionaryMap) : DB (list TermMeta.t) :=
  fun calls =>
    (Some (Database.findTermMetaBulk database termList enabledDictionaryMap),
     calls ++ [FindTermMetaBulk termList (dom enabledDictionaryMap)]).

(** ** Collaborators and options *)

(** The options of [findTerms] that are read below; the others are read by
    [_getAlgorithmDeinflections] only. *)
Module FindTermsOptions.
Record t := mk {
  enabledDictionaryMap : EnabledDictionaryMap;
  excludeDictionaryDefinitions : option (gset string);
  sortFrequencyDictionary : option string;
  sortFrequencyDictionaryOrder : string;
  removeNonJapaneseCharacters : bool;
  deinflect : bool;
  deinflectionSource : string;
  deinflectionPosFilter : bool;
  matchType : MatchType;
  variants : Variants.Options
}.
End FindTermsOptions.

(** What the translator uses of the classes around it.
    [getAlgorithmDeinflections] is [_getAlgorithmDeinflections(text,
    options)], which runs the text transformations, the source map and the
    deinflector over the variants of [Variants] and does not query the
    database: the hypothesis objects it creates and its deinflections. *)
Module Collaborators.
Record t := mk {
  isCodePointJapanese : N → bool;
  rulesToRuleFlags : list string → Z;
  getAlgorithmDeinflections :
    string → FindTermsOptions.t → HypStore * list Deinflection.t;
  convertStringToNumber : string → Z;
  stringComparerCompare : string → string → Z
}.
End Collaborators.

(** ** Objects used as maps

    The keys of a JavaScript object are enumerated with the array indices
    first, in ascending order, then the other strings in the order in which
    they were added. *)

Definition digitOf (c : Ascii.ascii) : option N :=
  let n := Ascii.N_of_ascii c in
  if ((48 <=? n) && (n <=? 57))%N then Some (n - 48)%N else None.

Fixpoint digitsValue (digits : string) (value : N) : option N :=
  match digits with
  | EmptyString => Some value
  | String c rest => d ← digitOf c; digitsValue rest (value * 10 + d)%N
  end.

(** The array index that a property key denotes, if any: a decimal numeral
    without leading zero, below 2^32 - 1. *)
Definition arrayIndexOf (key : string) : option N :=
  match key with
  | EmptyString => None
  | String c rest =>
      if decide (Ascii.N_of_ascii c = 48%N) then
        if decide (rest = EmptyString) then Some 0%N else None
      else
        n ← digitsValue key 0;
        if (n <? 4294967295)%N then Some n else None
  end.

(** [object[key] = value] *)
Fixpoint objectSet {V} (key : string) (value : V) (object : list (string * V))
  : list (string * V) :=
  match object with
  | [] => [(key, value)]
  | (k, v) :: rest =>
      if decide (k = key) then (key, value) :: rest
      else
        match arrayIndexOf key, arrayIndexOf k with
        | Some n, Some m =>
            if (n <? m)%N then (key, value) :: (k, v) :: rest
            else (k, v) :: objectSet key value rest
        | Some _, None => (key, value) :: (k, v) :: rest
        | None, _ => (k, v) :: objectSet key value rest
        end
  end.

(** [object[key]] *)
Definition objectGet {V} (key : string) (object : list (string * V)) : option V :=
  match list_find (fun kv => kv.1 = key) object with
  | Some (_, (_, value)) => Some value
  | None => None
  end.

(** ** Deinflections *)

(** [ToInt32]: an operand of [&] is taken modulo 2^32 into the range of
    the signed 32-bit integers. *)
Definition toInt32 (n : Z) : Z :=
  (n + 2147483648) `mod` 4294967296 - 2147483648.

(** [_rulesFit(rules1, rules2)]; [&] works on the 32-bit values of its
    operands. *)
Definition _rulesFit (rules1 rules2 : Z) : bool :=
  (rules1 =? 0) || negb (Z.land (toInt32 rules1) (toInt32 rules2) =? 0).

(** The properties that every object inherits from [Object.prototype]:
    [map[term]] is truthy for them on an object that has no property of its
    own of that name. *)
Definition objectPrototypeKeys : list string :=
  ["constructor"; "__defineGetter__"; "__defineSetter__"; "hasOwnProperty";
   "__lookupGetter__"; "__lookupSetter__"; "isPrototypeOf";
   "propertyIsEnumerable"; "toString"; "valueOf"; "__proto__";
   "toLocaleString"]%string.

(** [_groupDeinflectionsByTerm(deinflections)].  The arrays of the object
    hold the deinflection objects themselves; they are kept as positions
    in [deinflections].  For a term that names an inherited property,
    [map[term] || []] is that property, which has no [push]. *)
Definition _groupDeinflectionsByTerm (deinflections : list Deinflection.t)
  : option (list (string * list nat)) :=
  foldlM
    (fun map '(position, deinflection) =>
       let term := Deinflection.deinflectedText deinflection in
       if decide (term ∈ objectPrototypeKeys) then None
       else
         let deinflectionArray := default [] (objectGet term map) in
         Some (objectSet term (deinflectionArray ++ [position]) map))
    (imap (fun position deinflection => (position, deinflection)) deinflections)
    [].

Definition Deinflection_pushDatabaseEntry (deinflection : Deinflection.t)
    (databaseEntry : DatabaseEntry.t) : Deinflection.t :=
  Deinflection.mk
    (Deinflection.originalText deinflection)
    (Deinflection.transformedText deinflection)
    (Deinflection.deinflectedText deinflection)
    (Deinflection.rules deinflection)
    (Deinflection.inflectionHypotheses deinflection)
    (Deinflection.databaseEntries deinflection ++ [databaseEntry])
    (Deinflection.isDictionaryDeinflection deinflection).

(** [_matchEntriesToDeinflections(databaseEntries, uniqueDeinflectionArrays,
    checkRules)]: the deinflections after the call.  Iterating
    [uniqueDeinflectionArrays[databaseEntry.index]] throws when the index
    is out of range. *)
Definition _matchEntriesToDeinflections (collaborators : Collaborators.t)
    (databaseEntries : list DatabaseEntry.t)
    (uniqueDeinflectionArrays : list (list nat)) (checkRules : bool)
    (deinflections : list Deinflection.t) : option (list Deinflection.t) :=
  foldlM
    (fun deinflections databaseEntry =>
       let definitionRules :=
         Collaborators.rulesToRuleFlags collaborators
           (DatabaseEntry.rules databaseEntry) in
       positions ← uniqueDeinflectionArrays !! DatabaseEntry.index databaseEntry;
       Some (fold_left
               (fun deinflections position =>
                  alter (fun deinflection =>
                           let deinflectionRules := Deinflection.rules deinflection in
                           if negb checkRules
                              || _rulesFit deinflectionRules definitionRules
                           then Deinflection_pushDatabaseEntry deinflection
                                  databaseEntry
                           else deinflection)
                        position deinflections)
               positions deinflections))
    databaseEntries deinflections.

(** [_addEntriesToDeinflections(deinflections, enabledDictionaryMap,
    matchType, checkRules)]: the deinflections after the call. *)
Definition _addEntriesToDeinflections (collaborators : Collaborators.t)
    (database : Database.t) (deinflections : list Deinflection.t)
    (enabledDictionaryMap : EnabledDictionaryMap) (matchType : MatchType)
    (checkRules : bool) : DB (list Deinflection.t) :=
  uniqueDeinflectionsMap ← liftOption (_groupDeinflectionsByTerm deinflections);
  let uniqueDeinflectionArrays := snd <$> uniqueDeinflectionsMap in
  let uniqueDeinflectionTerms := fst <$> uniqueDeinflectionsMap in
  databaseEntries ←
    findTermsBulk database uniqueDeinflectionTerms enabledDictionaryMap matchType;
  liftOption
    (_matchEntriesToDeinflections collaborators databaseEntries
       uniqueDeinflectionArrays checkRules deinflections).

(** The hypotheses that [_getDictionaryDeinflections] builds for one
    ['non-lemma'] entry: for every hypothesis of the entry, one for every
    hypothesis the algorithm made. *)
Definition dictionaryHypotheses
    (algHypotheses : list InflectionHypothesis.t)
    (inflectionHypotheses : list (list string)) : list InflectionHypothesis.t :=
  hypothesis ← inflectionHypotheses;
  (fun algHypothesis =>
     let inflections := InflectionHypothesis.inflections algHypothesis in
     InflectionHypothesis.mk
       (if len inflections =? 0 then Dictionary else Both)
       (inflections ++ hypothesis))
    <$> algHypotheses.

(** The loops of [_getDictionaryDeinflections] that collect
    [dictionaryDeinflections], with the store that receives the new
    hypothesis objects. *)
Definition collectDictionaryDeinflections (store : HypStore)
    (deinflections : list Deinflection.t)
  : option (HypStore * list Deinflection.t) :=
  foldlM
    (fun '(store, dictionaryDeinflections) deinflection =>
       algHypotheses ←
         mapM (fun ref : HypRef => store !! ref)
              (Deinflection.inflectionHypotheses deinflection);
       Some (fold_left
               (fun '(store, dictionaryDeinflections) entry =>
                  if decide ("non-lemma"%string
                             ∈ DatabaseEntry.definitionTags entry)
                  then
                    let lemma := default ""%string (DatabaseEntry.formOf entry) in
                    let hypotheses :=
                      dictionaryHypotheses algHypotheses
                        (default [] (DatabaseEntry.inflectionHypotheses entry)) in
                    (store ++ hypotheses,
                     dictionaryDeinflections
                       ++ [Deinflection.mk
                             (Deinflection.originalText deinflection)
                             (Deinflection.transformedText deinflection)
                             lemma 0
                             (seq (length store) (length hypotheses))
                             [] true])
                  else (store, dictionaryDeinflections))
               (Deinflection.databaseEntries deinflection)
               (store, dictionaryDeinflections)))
    deinflections (store, []).

(** [_getDictionaryDeinflections(deinflections, enabledDictionaryMap,
    matchType)].  It calls [_addEntriesToDeinflections] without a fourth
    argument: [checkRules] is [undefined] there, and [!checkRules] holds. *)
Definition _getDictionaryDeinflections (collaborators : Collaborators.t)
    (database : Database.t) (store : HypStore)
    (deinflections : list Deinflection.t)
    (enabledDictionaryMap : EnabledDictionaryMap) (matchType : MatchType)
  : DB (HypStore * list Deinflection.t) :=
  '(store, dictionaryDeinflections) ←
    liftOption (collectDictionaryDeinflections store deinflections);
  dictionaryDeinflections ←
    _addEntriesToDeinflections collaborators database dictionaryDeinflections
      enabledDictionaryMap matchType false;
  mret (store, dictionaryDeinflections).

(** The first value of [deinflections] in [_getDeinflections], with the
    store of the hypothesis objects that [_getAlgorithmDeinflections]
    created. *)
Definition initialDeinflections (collaborators : Collaborators.t)
    (text : string) (options : FindTermsOptions.t)
  : HypStore * list Deinflection.t :=
  if FindTermsOptions.deinflect options
  then Collaborators.getAlgorithmDeinflections collaborators text options
  else ([], [Deinflection.mk text text text 0 [] [] false]).

(** [_getDeinflections(text, enabledDictionaryMap, options)]: the store of
    hypothesis objects and the deinflections. *)
Definition _getDeinflections (collaborators : Collaborators.t)
    (database : Database.t) (text : string)
    (enabledDictionaryMap : EnabledDictionaryMap) (options : FindTermsOptions.t)
  : DB (HypStore * list Deinflection.t) :=
  let '(store, deinflections) := initialDeinflections collaborators text options in
  if len deinflections =? 0 then mret (store, [])
  else
    let matchType := FindTermsOptions.matchType options in
    let checkRules := FindTermsOptions.deinflectionPosFilter options in
    deinflections ←
      _addEntriesToDeinflections collaborators database deinflections
        enabledDictionaryMap matchType checkRules;
    let deinflections :=
      filter (fun deinflection =>
                0 < len (Deinflection.databaseEntries deinflection))
             deinflections in
    if decide (FindTermsOptions.deinflectionSource options ≠ "algorithm"%string)
    then
      '(store, dictionaryDeinflections) ←
        _getDictionaryDeinflections collaborators database store deinflections
          enabledDictionaryMap matchType;
      mret (store, deinflections ++ dictionaryDeinflections)
    else mret (store, deinflections).

(** [_findTermsInternal(text, enabledDictionaryMap, options)]: the returned
    [{dictionaryEntries, originalTextLength}], with the final store and the
    set of ids. *)
Definition _findTermsInternal (collaborators : Collaborators.t)
    (database : Database.t) (text : string)
    (enabledDictionaryMap : EnabledDictionaryMap) (options : FindTermsOptions.t)
  : DB FindState.t :=
  let text :=
    if FindTermsOptions.removeNonJapaneseCharacters options
    then _getJapaneseOnlyText (Collaborators.isCodePointJapanese collaborators) text
    else text in
  if strlen text =? 0 then mret (FindState.mk [] [] ∅ 0)
  else
    '(store, deinflections) ←
      _getDeinflections collaborators database text enabledDictionaryMap options;
    liftOption
      (foldlM (addDeinflection enabledDictionaryMap) deinflections
              (FindState.mk store [] ∅ 0)).

(** ** Term metadata *)

(** A [Map] with string keys, in the order of insertion. *)
Definition mapGet {V} (key : string) (map : list (string * V)) : option V :=
  snd <$> (snd <$> list_find (fun kv => kv.1 = key) map).

Fixpoint mapSet {V} (key : string) (value : V) (map : list (string * V))
  : list (string * V) :=
  match map with
  | [] => [(key, value)]
  | (k, v) :: rest =>
      if decide (k = key) then (key, value) :: rest
      else (k, v) :: mapSet key value rest
  end.

(** An element of [targets]; its [pronunciations] and [frequencies] are the
    arrays of the dictionary entry at position [entry]. *)
Module MetaTarget.
Record t := mk {
  entry : nat;
  headwordIndex : nat
}.
End MetaTarget.

(** The first loops of [_addTermMeta].  [headwordMapKeys] and
    [headwordReadingMaps] are the keys and the values of [headwordMap] in
    the order of insertion. *)
Definition collectMetaTargets {T} (dictionaryEntries : list (TermDictionaryEntry.t T))
  : list (string * list (string * list MetaTarget.t)) :=
  fold_left
    (fun headwordMap '(position, dictionaryEntry) =>
       fold_left
         (fun headwordMap '(i, headword) =>
            let term := Headword.term headword in
            let reading := Headword.reading headword in
            let readingMap := default [] (mapGet term headwordMap) in
            let targets := default [] (mapGet reading readingMap) in
            mapSet term
              (mapSet reading (targets ++ [MetaTarget.mk position i]) readingMap)
              headwordMap)
         (imap (fun i headword => (i, headword))
               (TermDictionaryEntry.headwords dictionaryEntry))
         headwordMap)
    (imap (fun position dictionaryEntry => (position, dictionaryEntry))
          dictionaryEntries)
    [].

(** [_getFrequencyInfo(frequency)] *)
Definition _getFrequencyInfo (convertStringToNumber : string → Z)
    (frequency : FrequencyValue) : Z * option string * bool :=
  match frequency with
  | FrequencyObject value displayValue => (default 0 value, displayValue, false)
  | FrequencyNumber value => (value, None, false)
  | FrequencyString text => (convertStringToNumber text, Some text, true)
  | FrequencyOther => (0, None, false)
  end.

(** [_toNumberArray(value)] *)
Definition _toNumberArray (value : PositionsValue) : list Z :=
  match value with
  | PositionsArray positions => positions
  | PositionsNumber position => [position]
  | PositionsOther => []
  end.

(** [tags2] of the loops over [data.pitches] and [data.ipa] *)
Definition metaTagGroups (dictionary : string) (tags : option (list string))
  : list TagGroup.t :=
  match tags with
  | Some tags => if 0 <? len tags then [TagGroup.mk dictionary tags] else []
  | None => []
  end.

Definition pushFrequency {T} (frequency : nat → TermFrequency.t)
    (dictionaryEntry : TermDictionaryEntry.t T) : TermDictionaryEntry.t T :=
  let frequencies := TermDictionaryEntry.frequencies dictionaryEntry in
  TermDictionaryEntry_setData dictionaryEntry
    (TermDictionaryEntry.frequencyOrder dictionaryEntry)
    (TermDictionaryEntry.headwords dictionaryEntry)
    (TermDictionaryEntry.definitions dictionaryEntry)
    (TermDictionaryEntry.pronunciations dictionaryEntry)
    (frequencies ++ [frequency (length frequencies)]).

Definition pushPronunciation {T} (pronunciation : nat → TermPronunciation.t T)
    (dictionaryEntry : TermDictionaryEntry.t T) : TermDictionaryEntry.t T :=
  let pronunciations := TermDictionaryEntry.pronunciations dictionaryEntry in
  TermDictionaryEntry_setData dictionaryEntry
    (TermDictionaryEntry.frequencyOrder dictionaryEntry)
    (TermDictionaryEntry.headwords dictionaryEntry)
    (TermDictionaryEntry.definitions dictionaryEntry)
    (pronunciations ++ [pronunciation (length pronunciations)])
    (TermDictionaryEntry.frequencies dictionaryEntry).

(** The body of the loop over [map2.entries()] of [_addTermMeta], for one
    row of the database.  In the ['freq'] case the variable [frequency] is
    assigned by every target and read by the next. *)
Definition addTermMetaToTargets (convertStringToNumber : string → Z)
    (data : TermMetaData) (dictionary : string)
    (dictionaryIndex dictionaryPriority : Z)
    (dictionaryEntries : list (TermDictionaryEntry.t TagGroup.t))
    (readingTargets : string * list MetaTarget.t)
  : list (TermDictionaryEntry.t TagGroup.t) :=
  let '(reading, targets) := readingTargets in
  let addFrequencies (hasReading : bool) (frequency : FrequencyValue) :=
    (fold_left
       (fun '(dictionaryEntries, frequency) target =>
          let '(frequency, displayValue, displayValueParsed) :=
            _getFrequencyInfo convertStringToNumber frequency in
          (alter (pushFrequency
                    (fun index =>
                       TermFrequency.mk index (MetaTarget.headwordIndex target)
                         dictionary dictionaryIndex dictionaryPriority hasReading
                         frequency displayValue displayValueParsed))
                 (MetaTarget.entry target) dictionaryEntries,
           FrequencyNumber frequency))
       targets (dictionaryEntries, frequency)).1 in
  let addPronunciations pitches phoneticTranscriptions :=
    fold_left
      (fun dictionaryEntries target =>
         alter (pushPronunciation
                  (fun index =>
                     TermPronunciation.mk index (MetaTarget.headwordIndex target)
                       dictionary dictionaryIndex dictionaryPriority pitches
                       phoneticTranscriptions))
               (MetaTarget.entry target) dictionaryEntries)
      targets dictionaryEntries in
  match data with
  | MetaFrequency frequency => addFrequencies false frequency
  | MetaReadingFrequency dataReading frequency =>
      if decide (dataReading ≠ reading) then dictionaryEntries
      else addFrequencies true frequency
  | MetaPitch dataReading dataPitches =>
      if decide (dataReading ≠ reading) then dictionaryEntries
      else
        addPronunciations
          ((fun pitch =>
              Pitch.mk (PitchData.position pitch)
                (_toNumberArray (PitchData.nasal pitch))
                (_toNumberArray (PitchData.devoice pitch))
                (metaTagGroups dictionary (PitchData.tags pitch)))
             <$> dataPitches)
          []
  | MetaIpa dataReading dataIpa =>
      if decide (dataReading ≠ reading) then dictionaryEntries
      else
        addPronunciations []
          ((fun transcription =>
              PhoneticTranscription.mk (IpaData.ipa transcription)
                (metaTagGroups dictionary (IpaData.tags transcription)))
             <$> dataIpa)
  | MetaOther => dictionaryEntries
  end.

(** [_addTermMeta(dictionaryEntries, enabledDictionaryMap)]: the entries
    after the call.  [headwordReadingMaps[index].entries()] throws when the
    index is out of range. *)
Definition _addTermMeta (collaborators : Collaborators.t) (database : Database.t)
    (dictionaryEntries : list (TermDictionaryEntry.t TagGroup.t))
    (enabledDictionaryMap : EnabledDictionaryMap)
  : DB (list (TermDictionaryEntry.t TagGroup.t)) :=
  let headwordMap := collectMetaTargets dictionaryEntries in
  let headwordMapKeys := fst <$> headwordMap in
  let headwordReadingMaps := snd <$> headwordMap in
  metas ← findTermMetaBulk database headwordMapKeys enabledDictionaryMap;
  liftOption
    (foldlM
       (fun dictionaryEntries meta =>
          let dictionary := TermMeta.dictionary meta in
          let '(dictionaryIndex, dictionaryPriority) :=
            _getDictionaryOrder dictionary enabledDictionaryMap in
          map2 ← headwordReadingMaps !! TermMeta.index meta;
          Some (fold_left
                  (addTermMetaToTargets
                     (Collaborators.convertStringToNumber collaborators)
                     (TermMeta.data meta) dictionary dictionaryIndex
                     dictionaryPriority)
                  map2 dictionaryEntries))
       metas dictionaryEntries).

(** ** Tags in simple mode *)

(** The assignment that [_addTagExpansionTargets(tagTargets, objects)]
    makes to [value.tags]: an empty array is left in place, any other is
    replaced by a new empty array, which [_expandTagGroups] would fill.
    The [tagTargets] are left out: [_clearTermTags] drops them. *)
Definition expansionTags (tagGroups : list TagGroup.t) : list Tag.t :=
  match tagGroups with
  | [] => []
  | _ :: _ => let tags := [] in tags
  end.

Definition clearPronunciationTags (pronunciation : TermPronunciation.t TagGroup.t)
  : TermPronunciation.t Tag.t :=
  TermPronunciation.mk
    (TermPronunciation.index pronunciation)
    (TermPronunciation.headwordIndex pronunciation)
    (TermPronunciation.dictionary pronunciation)
    (TermPronunciation.dictionaryIndex pronunciation)
    (TermPronunciation.dictionaryPriority pronunciation)
    ((fun pitch =>
        Pitch.mk (Pitch.position pitch) (Pitch.nasalPositions pitch)
          (Pitch.devoicePositions pitch) (expansionTags (Pitch.tags pitch)))
       <$> TermPronunciation.pitches pronunciation)
    ((fun transcription =>
        PhoneticTranscription.mk (PhoneticTranscription.ipa transcription)
          (expansionTags (PhoneticTranscription.tags transcription)))
       <$> TermPronunciation.phoneticTranscriptions pronunciation).

(** [_getTermTagTargets(dictionaryEntries)]: the entries after the call. *)
Definition _getTermTagTargets
    (dictionaryEntries : list (TermDictionaryEntry.t TagGroup.t))
  : list (TermDictionaryEntry.t Tag.t) :=
  (fun dictionaryEntry =>
     TermDictionaryEntry_setData dictionaryEntry
       (TermDictionaryEntry.frequencyOrder dictionaryEntry)
       ((fun headword =>
           Headword_setTags headword (expansionTags (Headword.tags headword)))
          <$> TermDictionaryEntry.headwords dictionaryEntry)
       ((fun definition =>
           TermDefinition_setTags definition
             (expansionTags (TermDefinition.tags definition)))
          <$> TermDictionaryEntry.definitions dictionaryEntry)
       (clearPronunciationTags <$> TermDictionaryEntry.pronunciations dictionaryEntry)
       (TermDictionaryEntry.frequencies dictionaryEntry))
    <$> dictionaryEntries.

(** [_clearTermTags(dictionaryEntries)] *)
Definition _clearTermTags
    (dictionaryEntries : list (TermDictionaryEntry.t TagGroup.t))
  : list (TermDictionaryEntry.t Tag.t) :=
  _getTermTagTargets dictionaryEntries.

(** The comparison of [Array.prototype.sort] without a comparison
    function, on strings: by code units. *)
Definition defaultCompare (a b : string) : Z :=
  compareCodeUnits (textCodeUnits a) (textCodeUnits b).

(** [_getTagNamesWithCategory(tags, category)] *)
Definition _getTagNamesWithCategory (tags : list Tag.t) (category : string)
  : list string :=
  arraySort defaultCompare
    ((fun tag => Tag.name tag)
       <$> filter (fun tag => Tag.category tag = category) tags).

Definition Tag_setRedundant (tag : Tag.t) : Tag.t :=
  Tag.mk (Tag.name tag) (Tag.category tag) (Tag.order tag) (Tag.score tag)
    (Tag.content tag) (Tag.dictionaries tag) true.

(** The body of the loop of [_flagRedundantDefinitionTags], on
    [lastDictionary], [lastPartOfSpeech] and the definitions done.
    [_createMapKey] is [JSON.stringify], which is injective on arrays of
    strings and never returns the empty string: the key is kept as the
    array, and [None] is the initial [lastPartOfSpeech = '']. *)
Definition flagRedundantStep
    (state : option string * option (list string) * list (TermDefinition.t Tag.t))
    (definition : TermDefinition.t Tag.t)
  : option string * option (list string) * list (TermDefinition.t Tag.t) :=
  let '(lastDictionary, lastPartOfSpeech, flagged) := state in
  let dictionary := TermDefinition.dictionary definition in
  let tags := TermDefinition.tags definition in
  let partOfSpeech := _getTagNamesWithCategory tags "partOfSpeech" in
  let lastPartOfSpeech :=
    if decide (lastDictionary ≠ Some dictionary) then None
    else lastPartOfSpeech in
  if decide (lastPartOfSpeech = Some partOfSpeech)
  then
    (Some dictionary, lastPartOfSpeech,
     flagged
       ++ [TermDefinition_setTags definition
             ((fun tag =>
                 if decide (Tag.category tag = "partOfSpeech"%string)
                 then Tag_setRedundant tag else tag)
                <$> tags)])
  else (Some dictionary, Some partOfSpeech, flagged ++ [definition]).

(** [_flagRedundantDefinitionTags(definitions)]: the definitions after the
    call. *)
Definition _flagRedundantDefinitionTags
    (definitions : list (TermDefinition.t Tag.t)) : list (TermDefinition.t Tag.t) :=
  (fold_left flagRedundantStep definitions (None, None, [])).2.

(** What [_sortTermDictionaryEntrySimpleData] reads of a frequency or a
    pronunciation. *)
Class SimpleData (A : Type) := {
  simpleIndex : A → nat;
  simpleHeadwordIndex : A → nat;
  simpleDictionaryIndex : A → Z;
  simpleDictionaryPriority : A → Z
}.

#[global] Instance TermFrequency_SimpleData : SimpleData TermFrequency.t := {
  simpleIndex := TermFrequency.index;
  simpleHeadwordIndex := TermFrequency.headwordIndex;
  simpleDictionaryIndex := TermFrequency.dictionaryIndex;
  simpleDictionaryPriority := TermFrequency.dictionaryPriority
}.

#[global] Instance TermPronunciation_SimpleData {T}
  : SimpleData (TermPronunciation.t T) := {
  simpleIndex := fun v => TermPronunciation.index v;
  simpleHeadwordIndex := fun v => TermPronunciation.headwordIndex v;
  simpleDictionaryIndex := fun v => TermPronunciation.dictionaryIndex v;
  simpleDictionaryPriority := fun v => TermPronunciation.dictionaryPriority v
}.

(** [compare] of [_sortTermDictionaryEntrySimpleData] *)
Definition compareSimpleData {A} `{SimpleData A} (v1 v2 : A) : Z :=
  (* Sort by dictionary priority *)
  let i := simpleDictionaryPriority v2 - simpleDictionaryPriority v1 in
  if negb (i =? 0) then i else
  (* Sort by headword order *)
  let i := Z.of_nat (simpleHeadwordIndex v1) - Z.of_nat (simpleHeadwordIndex v2) in
  if negb (i =? 0) then i else
  (* Sort by dictionary order *)
  let i := simpleDictionaryIndex v1 - simpleDictionaryIndex v2 in
  if negb (i =? 0) then i else
  (* Default order *)
  Z.of_nat (simpleIndex v1) - Z.of_nat (simpleIndex v2).

(** [_sortTermDictionaryEntrySimpleData(dataList)] *)
Definition _sortTermDictionaryEntrySimpleData {A} `{SimpleData A}
    (dataList : list A) : list A :=
  arraySort compareSimpleData dataList.

(** ** [findTerms] in simple mode *)

(** The body of the last loop of [findTerms]. *)
Definition finishDictionaryEntry (dictionaryEntry : TermDictionaryEntry.t Tag.t)
  : TermDictionaryEntry.t Tag.t :=
  let definitions :=
    _flagRedundantDefinitionTags (TermDictionaryEntry.definitions dictionaryEntry) in
  let frequencies := TermDictionaryEntry.frequencies dictionaryEntry in
  let pronunciations := TermDictionaryEntry.pronunciations dictionaryEntry in
  TermDictionaryEntry_setData dictionaryEntry
    (TermDictionaryEntry.frequencyOrder dictionaryEntry)
    (TermDictionaryEntry.headwords dictionaryEntry)
    (sortDefinitions definitions)
    (if 1 <? len pronunciations
     then _sortTermDictionaryEntrySimpleData pronunciations else pronunciations)
    (if 1 <? len frequencies
     then _sortTermDictionaryEntrySimpleData frequencies else frequencies).

(** The value [findTerms] returns, with the store of the hypothesis objects
    that the entries refer to. *)
Module FindTermsResult.
Record t := mk {
  store : HypStore;
  dictionaryEntries : list (TermDictionaryEntry.t Tag.t);
  originalTextLength : Z
}.
End FindTermsResult.

(** [sortDictionaryMap] of [findTerms] *)
Definition sortDictionaryMap (sortFrequencyDictionary : string)
    (enabledDictionaryMap : EnabledDictionaryMap) : EnabledDictionaryMap :=
  fold_left
    (fun subMap key =>
       match enabledDictionaryMap !! key with
       | Some details => <[key := details]> subMap
       | None => subMap
       end)
    (filter (fun key => is_Some (enabledDictionaryMap !! key))
            [sortFrequencyDictionary])
    ∅.

(** [findTerms(mode, text, options)] for [mode = 'simple']: the [switch]
    matches no case. *)
Definition findTerms_simple (collaborators : Collaborators.t)
    (database : Database.t) (text : string) (options : FindTermsOptions.t)
  : DB FindTermsResult.t :=
  let enabledDictionaryMap := FindTermsOptions.enabledDictionaryMap options in
  let excludeDictionaryDefinitions :=
    FindTermsOptions.excludeDictionaryDefinitions options in
  let sortFrequencyDictionary := FindTermsOptions.sortFrequencyDictionary options in
  let sortFrequencyDictionaryOrder :=
    FindTermsOptions.sortFrequencyDictionaryOrder options in
  state ← _findTermsInternal collaborators database text enabledDictionaryMap
            options;
  let dictionaryEntries := FindState.dictionaryEntries state in
  let originalTextLength := FindState.originalTextLength state in
  let dictionaryEntries :=
    match excludeDictionaryDefinitions with
    | Some excludeDictionaryDefinitions =>
        _removeExcludedDefinitions dictionaryEntries excludeDictionaryDefinitions
    | None => dictionaryEntries
    end in
  dictionaryEntries ←
    match sortFrequencyDictionary with
    | Some sortFrequencyDictionary =>
        _addTermMeta collaborators database dictionaryEntries
          (sortDictionaryMap sortFrequencyDictionary enabledDictionaryMap)
    | None => mret dictionaryEntries
    end;
  let dictionaryEntries := _clearTermTags dictionaryEntries in
  let dictionaryEntries :=
    match sortFrequencyDictionary with
    | Some sortFrequencyDictionary =>
        _updateSortFrequencies dictionaryEntries sortFrequencyDictionary
          (bool_decide (sortFrequencyDictionaryOrder = "ascending"%string))
    | None => dictionaryEntries
    end in
  let dictionaryEntries :=
    sortDictionaryEntries (Collaborators.stringComparerCompare collaborators)
      dictionaryEntries in
  let dictionaryEntries := finishDictionaryEntry <$> dictionaryEntries in
  mret (FindTermsResult.mk (FindState.store state) dictionaryEntries
          originalTextLength).

(** ** Grouping by headword *)

#[global] Instance InflectionHypothesis_eq_dec : EqDecision InflectionHypothesis.t.
Proof. solve_decision. Defined.

(** The key [_createMapKey([term, reading, ...inflectionHypotheses])] of
    [_groupDictionaryEntriesByHeadword].  [JSON.stringify] writes a
    hypothesis object as its source and its inflections, in this order for
    every object that the translator creates, so that two keys are the same
    string exactly when the terms, the readings and the hypotheses are the
    same; the key is kept as these values.  Destructuring
    [headwords: [{term, reading}]] throws when there is no headword; a
    reference always has its object in the store. *)
Definition headwordGroupKey (store : HypStore)
    (dictionaryEntry : TermDictionaryEntry.t TagGroup.t)
  : option (string * string * list InflectionHypothesis.t) :=
  headword ← TermDictionaryEntry.headwords dictionaryEntry !! 0%nat;
  inflectionHypotheses ←
    mapM (fun ref : HypRef => store !! ref)
         (TermDictionaryEntry.inflectionHypotheses dictionaryEntry);
  Some (Headword.term headword, Headword.reading headword, inflectionHypotheses).

(** [groups.get(key)], [groups.set(key, [])] for a new key, and the [push]
    to the array of the key; the map is kept as its entries in the order of
    insertion. *)
Fixpoint groupsPush {K A} `{EqDecision K} (key : K) (item : A)
    (groups : list (K * list A)) : list (K * list A) :=
  match groups with
  | [] => [(key, [item])]
  | (k, members) :: rest =>
      if decide (k = key) then (k, members ++ [item]) :: rest
      else (k, members) :: groupsPush key item rest
  end.

(** [_groupDictionaryEntriesByHeadword(dictionaryEntries)] *)
Definition _groupDictionaryEntriesByHeadword (store : HypStore)
    (dictionaryEntries : list (TermDictionaryEntry.t TagGroup.t))
  : option (list (TermDictionaryEntry.t TagGroup.t)) :=
  match
    foldlM (fun (groups : list ((string * string * list InflectionHypothesis.t)
                                * list (TermDictionaryEntry.t TagGroup.t)))
                dictionaryEntry =>
              key ← headwordGroupKey store dictionaryEntry;
              Some (groupsPush key dictionaryEntry groups))
           dictionaryEntries []
  with
  | Some groups =>
      Some ((fun group : (string * string * list InflectionHypothesis.t)
                         * list (TermDictionaryEntry.t TagGroup.t) =>
               _createGroupedDictionaryEntry group.2 false)
              <$> groups)
  | None => None
  end.

(** ** Tag expansion *)

(** A row of [findTagMetaBulk]; a property is [None] when it has not the
    type that [_createTag] asks for (a string for [category] and [notes], a
    number for [order] and [score]). *)
Module DatabaseTag.
Record t := mk {
  category : option string;
  notes : option string;
  order : option Z;
  score : option Z
}.
End DatabaseTag.

(** [this._tagCache]: for a dictionary, the database tag (or [null], here
    [None]) found for a query. *)
Abbreviation TagCache := (gmap string (gmap string (option DatabaseTag.t))).

(** [_getNameBase(name)] *)
Definition _getNameBase (name : string) : string :=
  match String.index 0 ":" name with
  | Some pos => String.substring 0 pos name
  | None => name
  end.

(** [_createTag(databaseTag, name, dictionary)] *)
Definition _createTag (databaseTag : option DatabaseTag.t)
    (name dictionary : string) : Tag.t :=
  let category := databaseTag ≫= DatabaseTag.category in
  let notes := databaseTag ≫= DatabaseTag.notes in
  let order := databaseTag ≫= DatabaseTag.order in
  let score := databaseTag ≫= DatabaseTag.score in
  Tag.mk name
    (match category with
     | Some category => if 0 <? strlen category then category else "default"
     | None => "default"
     end)
    (default 0 order)
    (default 0 score)
    (match notes with
     | Some notes => if 0 <? strlen notes then [notes] else []
     | None => []
     end)
    [dictionary]
    false.

(** An [item] of [_expandTagGroups]; [targets] holds the positions in
    [tagTargets] of the targets whose array [tags] was pushed, and
    [item.cache] is the cache of the dictionary of the item. *)
Module TagItem.
Record t := mk {
  query : string;
  dictionary : string;
  tagName : string;
  databaseTag : option DatabaseTag.t;
  targets : list nat
}.
End TagItem.

Definition TagItem_pushTarget (target : nat) (item : TagItem.t) : TagItem.t :=
  TagItem.mk (TagItem.query item) (TagItem.dictionary item)
    (TagItem.tagName item) (TagItem.databaseTag item)
    (TagItem.targets item ++ [target]).

Definition TagItem_setDatabaseTag (databaseTag : option DatabaseTag.t)
    (item : TagItem.t) : TagItem.t :=
  TagItem.mk (TagItem.query item) (TagItem.dictionary item)
    (TagItem.tagName item) databaseTag (TagItem.targets item).

(** The body of [for (const tagName of tagNames)], on [allItems], where
    the item objects are kept, and [dictionaryItems], which maps a tag name
    to the position of its item. *)
Definition addTagItem (target : nat) (dictionary : string)
    (state : list TagItem.t * list (string * nat)) (tagName : string)
  : list TagItem.t * list (string * nat) :=
  let '(allItems, dictionaryItems) := state in
  match mapGet tagName dictionaryItems with
  | Some position =>
      (alter (TagItem_pushTarget target) position allItems, dictionaryItems)
  | None =>
      let query := _getNameBase tagName in
      (allItems ++ [TagItem.mk query dictionary tagName None [target]],
       mapSet tagName (length allItems) dictionaryItems)
  end.

(** The body of [for (const {dictionary, tagNames} of tagGroups)]. *)
Definition addTagGroup (target : nat)
    (state : list TagItem.t * list (string * list (string * nat)))
    (tagGroup : TagGroup.t)
  : list TagItem.t * list (string * list (string * nat)) :=
  let '(allItems, targetMap) := state in
  let dictionary := TagGroup.dictionary tagGroup in
  let dictionaryItems := default [] (mapGet dictionary targetMap) in
  let '(allItems, dictionaryItems) :=
    fold_left (addTagItem target dictionary) (TagGroup.tagNames tagGroup)
              (allItems, dictionaryItems) in
  (allItems, mapSet dictionary dictionaryItems targetMap).

(** The body of [for (const {tagGroups, tags} of tagTargets)]. *)
Definition addTagTarget
    (state : list TagItem.t * list (string * list (string * nat)))
    (entry : nat * list TagGroup.t)
  : list TagItem.t * list (string * list (string * nat)) :=
  fold_left (addTagGroup entry.1) entry.2 state.

(** The first loop of [_expandTagGroups]: [allItems] and [targetMap]. *)
Definition collectTagItems (tagTargets : list (list TagGroup.t))
  : list TagItem.t * list (string * list (string * nat)) :=
  fold_left addTagTarget
    (imap (fun target tagGroups => (target, tagGroups)) tagTargets)
    ([], []).

(** [tagCache.get(dictionary)], with the [set] of a new cache when there
    is none. *)
Definition ensureCache (dictionary : string) (tagCache : TagCache) : TagCache :=
  match tagCache !! dictionary with
  | Some _ => tagCache
  | None => <[dictionary := ∅]> tagCache
  end.

(** The body of [for (const item of dictionaryItems.values())]; the map
    holds the position of the item, at which [allItems] always has it. *)
Definition lookupCachedTag (cache : gmap string (option DatabaseTag.t))
    (state : list TagItem.t * list nat) (entry : string * nat)
  : list TagItem.t * list nat :=
  let '(allItems, nonCachedItems) := state in
  let position := entry.2 in
  match allItems !! position with
  | Some item =>
      match cache !! TagItem.query item with
      | Some databaseTag =>
          (<[position := TagItem_setDatabaseTag databaseTag item]> allItems,
           nonCachedItems)
      | None => (allItems, nonCachedItems ++ [position])
      end
  | None => (allItems, nonCachedItems)
  end.

(** The body of [for (const [dictionary, dictionaryItems] of
    targetMap.entries())]. *)
Definition lookupCachedTagsOf
    (state : TagCache * list TagItem.t * list nat)
    (entry : string * list (string * nat))
  : TagCache * list TagItem.t * list nat :=
  let '(tagCache, allItems, nonCachedItems) := state in
  let '(dictionary, dictionaryItems) := entry in
  let tagCache := ensureCache dictionary tagCache in
  let cache := default ∅ (tagCache !! dictionary) in
  let '(allItems, nonCachedItems) :=
    fold_left (lookupCachedTag cache) dictionaryItems
              (allItems, nonCachedItems) in
  (tagCache, allItems, nonCachedItems).

(** The loop over [targetMap.entries()]: the cache, the items and
    [nonCachedItems] after it. *)
Definition lookupCachedTags (tagCache : TagCache) (allItems : list TagItem.t)
    (targetMap : list (string * list (string * nat)))
  : TagCache * list TagItem.t * list nat :=
  fold_left lookupCachedTagsOf targetMap (tagCache, allItems, []).

(** The body of the loop over the answer of the database:
    [databaseTags[i]] is [undefined] behind the end of the answer, and then
    taken as [null].  [item.cache] is the cache of the dictionary of the
    item, which the loop before has put into [tagCache]. *)
Definition storeDatabaseTag (databaseTags : list (option DatabaseTag.t))
    (state : TagCache * list TagItem.t) (entry : nat * nat)
  : TagCache * list TagItem.t :=
  let '(tagCache, allItems) := state in
  let '(i, position) := entry in
  match allItems !! position with
  | Some item =>
      let databaseTag := default None (databaseTags !! i) in
      let dictionary := TagItem.dictionary item in
      (<[dictionary :=
           <[TagItem.query item := databaseTag]>
             (default ∅ (tagCache !! dictionary))]> tagCache,
       <[position := TagItem_setDatabaseTag databaseTag item]> allItems)
  | None => (tagCache, allItems)
  end.

(** The loop [for (let i = 0; i < nonCachedItemCount; ++i)]. *)
Definition storeDatabaseTags (databaseTags : list (option DatabaseTag.t))
    (tagCache : TagCache) (allItems : list TagItem.t)
    (nonCachedItems : list nat) : TagCache * list TagItem.t :=
  fold_left (storeDatabaseTag databaseTags)
    (imap (fun i position => (i, position)) nonCachedItems)
    (tagCache, allItems).

(** The body of [for (const tags of targets)]. *)
Definition pushExpandedTag (item : TagItem.t) (tagLists : list (list Tag.t))
    (target : nat) : list (list Tag.t) :=
  alter (fun tags =>
           tags ++ [_createTag (TagItem.databaseTag item)
                      (TagItem.tagName item) (TagItem.dictionary item)])
        target tagLists.

(** The last loop: the arrays [tags] of the targets. *)
Definition pushExpandedTags (count : nat) (allItems : list TagItem.t)
  : list (list Tag.t) :=
  fold_left
    (fun tagLists item =>
       fold_left (pushExpandedTag item) (TagItem.targets item) tagLists)
    allItems (replicate count []).

(** The queries of [findTagMetaBulk(nonCachedItems)], which reads the
    [query] and the [dictionary] of the items. *)
Definition tagQueries (allItems : list TagItem.t) (nonCachedItems : list nat)
  : list (string * string) :=
  omap (fun position =>
          item ← allItems !! position;
          Some (TagItem.query item, TagItem.dictionary item))
       nonCachedItems.

(** The result of [_expandTagGroups]: the arrays [tags] of the targets,
    the cache, and the calls made. *)
Module TagExpansion.
Record t := mk {
  tags : list (list Tag.t);
  tagCache : TagCache;
  calls : list DatabaseCall
}.
End TagExpansion.

(** [_expandTagGroups(tagTargets)]; a target is given by its [tagGroups],
    and its array [tags] is empty before the call. *)
Definition _expandTagGroups
    (findTagMetaBulk : list (string * string) → list (option DatabaseTag.t))
    (tagCache : TagCache) (tagTargets : list (list TagGroup.t))
  : TagExpansion.t :=
  let '(allItems, targetMap) := collectTagItems tagTargets in
  let '(tagCache, allItems, nonCachedItems) :=
    lookupCachedTags tagCache allItems targetMap in
  let nonCachedItemCount := len nonCachedItems in
  let '(tagCache, allItems, calls) :=
    if 0 <? nonCachedItemCount then
      let queries := tagQueries allItems nonCachedItems in
      let databaseTags := findTagMetaBulk queries in
      let '(tagCache, allItems) :=
        storeDatabaseTags databaseTags tagCache allItems nonCachedItems in
      (tagCache, allItems, [FindTagMetaBulk queries])
    else (tagCache, allItems, []) in
  TagExpansion.mk (pushExpandedTags (length tagTargets) allItems) tagCache calls.

(** [compare] of [_groupTags] *)
Definition compareTags (collate : string → string → Z) (v1 v2 : Tag.t) : Z :=
  let i := Tag.order v1 - Tag.order v2 in
  if negb (i =? 0) then i else collate (Tag.name v1) (Tag.name v2).

(** [_groupTags(tagTargets)]: the arrays [tags] after the call. *)
Definition _groupTags (collate : string → string → Z)
    (tagLists : list (list Tag.t)) : list (list Tag.t) :=
  (fun tags =>
     if len tags <=? 1 then tags
     else arraySort (compareTags collate) (_mergeSimilarTags tags))
    <$> tagLists.

(** ** Specification-side notions used in the statements *)

(** A headword has at least one primary source that matched the term. *)
Definition PrimaryTermHeadword {T} (headword : Headword.t T) : Prop :=
  Exists (fun source => Source.isPrimary source = true
                        ∧ Source.matchSource source = Term)
         (Headword.sources headword).

#[global] Instance PrimaryTermHeadword_dec {T} (headword : Headword.t T) :
  Decision (PrimaryTermHeadword headword).
Proof. unfold PrimaryTermHeadword. apply _. Defined.

(** The number of headwords of an entry with such a source. *)
Definition primaryTermHeadwordCount {T} (entry : TermDictionaryEntry.t T) : Z :=
  len (filter PrimaryTermHeadword (TermDictionaryEntry.headwords entry)).

(** The members of a group that are primary, in group order. *)
Definition primaryMembers {T} (dictionaryEntries : list (TermDictionaryEntry.t T))
  : list (TermDictionaryEntry.t T) :=
  filter (fun entry => TermDictionaryEntry.isPrimary entry = true)
         dictionaryEntries.

(** The choice of inflection hypotheses that one group member makes in the
    merge loop. *)
Definition chooseHypotheses (chosen : option (list HypRef))
    (entry : TermDictionaryEntry.t TagGroup.t) : option (list HypRef) :=
  if TermDictionaryEntry.isPrimary entry then
    match chosen with
    | None => Some (TermDictionaryEntry.inflectionHypotheses entry)
    | Some current =>
        if len (TermDictionaryEntry.inflectionHypotheses entry) <? len current
        then Some (TermDictionaryEntry.inflectionHypotheses entry)
        else Some current
    end
  else chosen.


(** Every address in [refs] holds an object of the store. *)
Definition validRefs (store : HypStore) (refs : list HypRef) : Prop :=
  Forall (fun ref => (ref < length store)%nat) refs.

(** The deinflections refer to objects of the store. *)
Definition validDeinflections (store : HypStore)
    (deinflections : list Deinflection.t) : Prop :=
  Forall (fun deinflection =>
            validRefs store (Deinflection.inflectionHypotheses deinflection))
         deinflections.

(** What holds of the variables of [_findTermsInternal] between two
    database entries: entries refer to objects of the store and have a
    first source, and every recorded id is the id of a definition of some
    entry. *)
Definition findStateInvariant (state : FindState.t) : Prop :=
  Forall (fun entry =>
            validRefs (FindState.store state)
                      (TermDictionaryEntry.inflectionHypotheses entry)
            ∧ is_Some (firstTransformedText entry))
         (FindState.dictionaryEntries state)
  ∧ ∀ id, id ∈ FindState.ids state →
          Exists (hasDefinitionId id) (FindState.dictionaryEntries state).

(** A candidate counts for [originalTextLength]: it has a database hit and
    was not synthesized by dictionary deinflection. *)
Definition countsForOriginalTextLength (deinflection : Deinflection.t) : Prop :=
  Deinflection.databaseEntries deinflection ≠ []
  ∧ Deinflection.isDictionaryDeinflection deinflection = false.

#[global] Instance countsForOriginalTextLength_dec deinflection :
  Decision (countsForOriginalTextLength deinflection).
Proof. unfold countsForOriginalTextLength. apply _. Defined.

(** The change of [originalTextLength] made for one deinflection. *)
Definition originalTextLengthAfter (originalTextLength : Z)
    (deinflection : Deinflection.t) : Z :=
  if decide (countsForOriginalTextLength deinflection)
  then Z.max originalTextLength (strlen (Deinflection.originalText deinflection))
  else originalTextLength.


(** The addresses [refs] hold the hypotheses [hypotheses], in order. *)
Definition pointsTo (store : HypStore) (refs : list HypRef)
    (hypotheses : list InflectionHypothesis.t) : Prop :=
  Forall2 (fun ref hypothesis => store !! ref = Some hypothesis) refs hypotheses.

(** Two hypotheses count as equal in the merge when their inflection lists
    have the same set of elements (order and repetitions are ignored). *)
Definition sameInflections (hypothesis1 hypothesis2 : InflectionHypothesis.t)
  : Prop :=
  (list_to_set (InflectionHypothesis.inflections hypothesis1) : gset string)
  = list_to_set (InflectionHypothesis.inflections hypothesis2).

#[global] Instance sameInflections_dec hypothesis1 hypothesis2 :
  Decision (sameInflections hypothesis1 hypothesis2).
Proof. unfold sameInflections. apply _. Defined.

Definition setBoth (hypothesis : InflectionHypothesis.t) : InflectionHypothesis.t :=
  InflectionHypothesis.mk Both (InflectionHypothesis.inflections hypothesis).

(** The hypothesis at position [i] of the existing ones is the first with
    its inflection set, and some new hypothesis equals it with a different
    source. *)
Definition promoted (existingHypotheses newHypotheses : list InflectionHypothesis.t)
    (i : nat) (hypothesis : InflectionHypothesis.t) : Prop :=
  ¬ Exists (sameInflections hypothesis) (take i existingHypotheses)
  ∧ Exists (fun new =>
              sameInflections hypothesis new
              ∧ InflectionHypothesis.source new
                ≠ InflectionHypothesis.source hypothesis)
           newHypotheses.

#[global] Instance promoted_dec existingHypotheses newHypotheses i hypothesis :
  Decision (promoted existingHypotheses newHypotheses i hypothesis).
Proof. unfold promoted. apply _. Defined.

(** The existing hypotheses after the merge of [newHypotheses]: the
    promoted ones have their source set to ['both'], the others are
    unchanged. *)
Definition promoteDuplicates
    (existingHypotheses newHypotheses : list InflectionHypothesis.t)
  : list InflectionHypothesis.t :=
  imap (fun i hypothesis =>
          if decide (promoted existingHypotheses newHypotheses i hypothesis)
          then setBoth hypothesis else hypothesis)
       existingHypotheses.

(** The new hypotheses that equal no existing one, in order. *)
Definition addedHypotheses
    (existingHypotheses newHypotheses : list InflectionHypothesis.t)
  : list InflectionHypothesis.t :=
  filter (fun new => ¬ Exists (fun hypothesis => sameInflections hypothesis new)
                        existingHypotheses)
         newHypotheses.

(** The hypotheses of the existing entry after the merge. *)
Definition mergedHypotheses
    (existingHypotheses newHypotheses : list InflectionHypothesis.t)
  : list InflectionHypothesis.t :=
  promoteDuplicates existingHypotheses newHypotheses
  ++ addedHypotheses existingHypotheses newHypotheses.

(** *** Orders given by a list of keys *)

(** Comparison by a key, smaller values first. *)
Definition ascending {A} (key : A → Z) (a b : A) : Z := key a - key b.
(** Comparison by a key, larger values first. *)
Definition descending {A} (key : A → Z) (a b : A) : Z := key b - key a.

(** The comparison that takes the keys in order: the first key that tells
    the two apart decides. *)
Fixpoint lexCompare {A} (keys : list (A → A → Z)) (a b : A) : Z :=
  match keys with
  | [] => 0
  | key :: keys => if key a b =? 0 then lexCompare keys a b else key a b
  end.

(** Comparison of two lists position by position, up to the end of the
    shorter one. *)
Definition pairwiseCompare {A} (compare : A → A → Z) (l1 l2 : list A) : Z :=
  lexCompare ((fun c (_ _ : unit) => c) <$> zip_with compare l1 l2) () ().

(** Headword terms: longer terms first, then in collation order. *)
Definition termOrder (collate : string → string → Z) : string → string → Z :=
  lexCompare [descending strlen; collate].

(** The keys of the entry order, in order. *)
Definition entryKeys {T} (collate : string → string → Z)
  : list (TermDictionaryEntry.t T → TermDictionaryEntry.t T → Z) :=
  [ descending (fun entry => TermDictionaryEntry.maxTransformedTextLength entry);
    ascending (fun entry => len (TermDictionaryEntry.inflectionHypotheses entry));
    descending (fun entry => TermDictionaryEntry.sourceTermExactMatchCount entry);
    ascending (fun entry => TermDictionaryEntry.frequencyOrder entry);
    descending (fun entry => TermDictionaryEntry.dictionaryPriority entry);
    descending (fun entry => TermDictionaryEntry.score entry);
    (fun entry1 entry2 =>
       pairwiseCompare (termOrder collate)
         ((fun headword => Headword.term headword)
            <$> TermDictionaryEntry.headwords entry1)
         ((fun headword => Headword.term headword)
            <$> TermDictionaryEntry.headwords entry2));
    descending (fun entry => len (TermDictionaryEntry.definitions entry));
    ascending (fun entry => TermDictionaryEntry.dictionaryIndex entry) ].

(** [a] comes before [b], or ties with it, in the order of the keys. *)
Definition notAfter {A} (keys : list (A → A → Z)) (a b : A) : Prop :=
  lexCompare keys a b ≤ 0.

(** [a] and [b] tie on every key. *)
Definition tiedWith {A} (keys : list (A → A → Z)) (a b : A) : Prop :=
  lexCompare keys a b = 0.

#[global] Instance tiedWith_dec {A} (keys : list (A → A → Z)) a b :
  Decision (tiedWith keys a b).
Proof. unfold tiedWith. apply _. Defined.

(** A comparison function is consistent on a domain: swapping the
    arguments flips the sign, and "not after" is transitive. *)
Definition consistentOn {A} (domain : A → Prop) (compare : A → A → Z) : Prop :=
  (∀ a b, domain a → domain b → (compare a b < 0 ↔ 0 < compare b a))
  ∧ (∀ a b c, domain a → domain b → domain c →
       compare a b ≤ 0 → compare b c ≤ 0 → compare a c ≤ 0).

(** The collation by code units, a stand-in for the collator where a
    concrete one is needed. *)
Definition codeUnitCollate (a b : string) : Z :=
  compareCodeUnits (textCodeUnits a) (textCodeUnits b).

(** The sum of the scores of the tags of a definition. *)
Definition tagScoreSum (definition : TermDefinition.t Tag.t) : Z :=
  foldr Z.add 0 ((fun tag => Tag.score tag) <$> TermDefinition.tags definition).

(** Headword index lists: longer lists first, then, among lists of one
    length, position by position with smaller indices first. *)
Definition headwordIndexOrder : list nat → list nat → Z :=
  lexCompare [descending len; pairwiseCompare (ascending Z.of_nat)].

(** The keys of the definition order, in order. *)
Definition definitionKeys
  : list (TermDefinition.t Tag.t → TermDefinition.t Tag.t → Z) :=
  [ ascending (fun definition => TermDefinition.frequencyOrder definition);
    descending (fun definition => TermDefinition.dictionaryPriority definition);
    descending (fun definition => TermDefinition.score definition);
    (fun definition1 definition2 =>
       headwordIndexOrder (TermDefinition.headwordIndices definition1)
                          (TermDefinition.headwordIndices definition2));
    ascending (fun definition => TermDefinition.dictionaryIndex definition);
    descending tagScoreSum;
    ascending (fun definition => Z.of_nat (TermDefinition.index definition)) ].

(** The ascending lexicographic order of index lists: the first position
    where the lists differ decides, and a proper prefix comes first. *)
Fixpoint lexicographicCompare (l1 l2 : list nat) : Z :=
  match l1, l2 with
  | [], [] => 0
  | [], _ :: _ => -1
  | _ :: _, [] => 1
  | x :: rest1, y :: rest2 =>
      if Z.of_nat x - Z.of_nat y =? 0 then lexicographicCompare rest1 rest2
      else Z.of_nat x - Z.of_nat y
  end.

(** The keys of the definition order with the headword index lists
    compared lexicographically. *)
Definition lexicographicDefinitionKeys
  : list (TermDefinition.t Tag.t → TermDefinition.t Tag.t → Z) :=
  [ ascending (fun definition => TermDefinition.frequencyOrder definition);
    descending (fun definition => TermDefinition.dictionaryPriority definition);
    descending (fun definition => TermDefinition.score definition);
    (fun definition1 definition2 =>
       lexicographicCompare (TermDefinition.headwordIndices definition1)
                            (TermDefinition.headwordIndices definition2));
    ascending (fun definition => TermDefinition.dictionaryIndex definition);
    descending tagScoreSum;
    ascending (fun definition => Z.of_nat (TermDefinition.index definition)) ].

(** *** Sort frequencies *)

(** The frequencies that an entry has from a dictionary for the headwords
    that satisfy [inScope]. *)
Definition frequenciesFrom {T} (dictionary : string) (inScope : nat → Prop)
    `{∀ i, Decision (inScope i)} (entry : TermDictionaryEntry.t T) : list Z :=
  (fun item => TermFrequency.frequency item)
    <$> filter (fun item => TermFrequency.dictionary item = dictionary
                            ∧ inScope (TermFrequency.headwordIndex item))
               (TermDictionaryEntry.frequencies entry).

(** The order value that the sort-frequency rule gives to a list of
    frequencies: the minimum when ascending, the negated maximum when
    descending, and [MAX_SAFE_INTEGER] or 0 when there is none. *)
Definition frequencyOrderFor (ascending : bool) (frequencies : list Z) : Z :=
  match frequencies with
  | [] => if ascending then MAX_SAFE_INTEGER else 0
  | frequency :: rest =>
      if ascending then foldr Z.min frequency rest
      else - foldr Z.max frequency rest
  end.

(** ** Runs of [findTerms] *)

(** Every call that a computation adds to the calls made so far satisfies
    [P]; the calls made before are kept. *)
Definition emitsOnly {A} (P : DatabaseCall → Prop) (m : DB A) : Prop :=
  ∀ calls, ∃ new, (m calls).2 = calls ++ new ∧ Forall P new.

(** A term is usable as a key of the object of
    [_groupDeinflectionsByTerm]. *)
Definition plainKey (term : string) : Prop := term ∉ objectPrototypeKeys.

(** What is expected of a row of [findTermsBulk] asked for [count] terms:
    its [index] is the position of one of them, and the [formOf] of a
    ['non-lemma'] row is a plain key. *)
Definition databaseEntryWellFormed (count : nat) (databaseEntry : DatabaseEntry.t)
  : Prop :=
  (DatabaseEntry.index databaseEntry < count)%nat
  ∧ ("non-lemma"%string ∈ DatabaseEntry.definitionTags databaseEntry →
     plainKey (default ""%string (DatabaseEntry.formOf databaseEntry))).

(** The rows of the database carry the position of the term they answer. *)
Definition databaseWellFormed (database : Database.t) : Prop :=
  (∀ termList enabledDictionaryMap matchType,
     Forall (databaseEntryWellFormed (length termList))
            (Database.findTermsBulk database termList enabledDictionaryMap
               matchType))
  ∧ (∀ termList enabledDictionaryMap,
       Forall (fun meta => (TermMeta.index meta < length termList)%nat)
              (Database.findTermMetaBulk database termList enabledDictionaryMap)).

(** What [_getAlgorithmDeinflections] and [_createDeinflection] establish
    of the first candidates: they refer to hypothesis objects of the store,
    have no database entry yet and are not marked as dictionary
    deinflections; in addition their deinflected text is a plain key. *)
Definition candidatesWellFormed (candidates : HypStore * list Deinflection.t)
  : Prop :=
  Forall (fun deinflection =>
            validRefs candidates.1 (Deinflection.inflectionHypotheses deinflection)
            ∧ Deinflection.databaseEntries deinflection = []
            ∧ Deinflection.isDictionaryDeinflection deinflection = false
            ∧ plainKey (Deinflection.deinflectedText deinflection))
         candidates.2.

(** The text that [_findTermsInternal] looks up. *)
Definition filteredText (collaborators : Collaborators.t)
    (options : FindTermsOptions.t) (text : string) : string :=
  if FindTermsOptions.removeNonJapaneseCharacters options
  then _getJapaneseOnlyText (Collaborators.isCodePointJapanese collaborators) text
  else text.

(** The calls that simple mode may make: term lookups, and term metadata
    lookups restricted to the sort-frequency dictionary. *)
Definition simpleModeCall (options : FindTermsOptions.t) (call : DatabaseCall)
  : Prop :=
  match call with
  | FindTermsBulk _ _ _ => True
  | FindTermMetaBulk _ dictionaries =>
      ∃ dictionary,
        FindTermsOptions.sortFrequencyDictionary options = Some dictionary
        ∧ dictionaries
          = dom (FindTermsOptions.enabledDictionaryMap options) ∩ {[dictionary]}
  | _ => False
  end.

Definition isFindTermsBulk (call : DatabaseCall) : Prop :=
  match call with
  | FindTermsBulk _ _ _ => True
  | _ => False
  end.

(** Every tag list of an entry is empty. *)
Definition allTagListsEmpty (dictionaryEntry : TermDictionaryEntry.t Tag.t)
  : Prop :=
  Forall (fun headword => Headword.tags headword = [])
         (TermDictionaryEntry.headwords dictionaryEntry)
  ∧ Forall (fun definition => TermDefinition.tags definition = [])
           (TermDictionaryEntry.definitions dictionaryEntry)
  ∧ Forall (fun pronunciation =>
              Forall (fun pitch => Pitch.tags pitch = [])
                     (TermPronunciation.pitches pronunciation)
              ∧ Forall (fun transcription =>
                          PhoneticTranscription.tags transcription = [])
                       (TermPronunciation.phoneticTranscriptions pronunciation))
           (TermDictionaryEntry.pronunciations dictionaryEntry).

(** The [formOf] of a ['non-lemma'] row is a plain key. *)
Definition lemmaFormOk (databaseEntry : DatabaseEntry.t) : Prop :=
  "non-lemma"%string ∈ DatabaseEntry.definitionTags databaseEntry →
  plainKey (default ""%string (DatabaseEntry.formOf databaseEntry)).

(** A candidate of the algorithm, with the database entries found for
    it. *)
Definition algorithmCandidate (store : HypStore) (deinflection : Deinflection.t)
  : Prop :=
  validRefs store (Deinflection.inflectionHypotheses deinflection)
  ∧ Deinflection.isDictionaryDeinflection deinflection = false
  ∧ Forall lemmaFormOk (Deinflection.databaseEntries deinflection).

(** A candidate synthesized by dictionary deinflection. *)
Definition synthesizedCandidate (store : HypStore) (deinflection : Deinflection.t)
  : Prop :=
  validRefs store (Deinflection.inflectionHypotheses deinflection)
  ∧ Deinflection.isDictionaryDeinflection deinflection = true.

(** An entry as simple mode builds it: one headword and one definition. *)
Definition singleEntry {T} (dictionaryEntry : TermDictionaryEntry.t T) : Prop :=
  length (TermDictionaryEntry.headwords dictionaryEntry) = 1%nat
  ∧ length (TermDictionaryEntry.definitions dictionaryEntry) = 1%nat.

(** ** Further notions used in statements *)

(** The ids of the definitions of the entries, in order. *)
Definition definitionIds {T} (dictionaryEntries : list (TermDictionaryEntry.t T))
  : list Z :=
  dictionaryEntry ← dictionaryEntries;
  (fun definition => TermDefinition.id definition)
    <$> TermDictionaryEntry.definitions dictionaryEntry.

(** An entry as [_findTermsInternal] creates it: primary, with one headword
    and one definition that is not tagged ['non-lemma']. *)
Definition foundEntry (dictionaryEntry : TermDictionaryEntry.t TagGroup.t)
  : Prop :=
  TermDictionaryEntry.isPrimary dictionaryEntry = true
  ∧ singleEntry dictionaryEntry
  ∧ Forall (fun definition =>
              Forall (fun tagGroup =>
                        "non-lemma"%string ∉ TagGroup.tagNames tagGroup)
                     (TermDefinition.tags definition))
           (TermDictionaryEntry.definitions dictionaryEntry).

(** The positions of the deinflections whose deinflected text is [term],
    in ascending order. *)
Definition positionsOf (term : string) (deinflections : list Deinflection.t)
  : list nat :=
  (fun pair : nat * Deinflection.t => pair.1)
    <$> filter (fun pair : nat * Deinflection.t =>
                  Deinflection.deinflectedText pair.2 = term)
               (imap (fun position deinflection => (position, deinflection))
                     deinflections).

(** The order in which an object enumerates two of its keys: array
    indices in ascending order before all other keys. *)
Definition keyBefore (key1 key2 : string) : Prop :=
  match arrayIndexOf key1, arrayIndexOf key2 with
  | Some n, Some m => (n < m)%N
  | Some _, None => True
  | None, Some _ => False
  | None, None => key1 ≠ key2
  end.

(** An object as assignments build it: its keys are distinct and in the
    order of enumeration. *)
Definition objectWellFormed {V} (object : list (string * V)) : Prop :=
  StronglySorted keyBefore (object.*1).

(** The deinflection with more database entries pushed. *)
Definition Deinflection_withEntries (deinflection : Deinflection.t)
    (databaseEntries : list DatabaseEntry.t) : Deinflection.t :=
  Deinflection.mk
    (Deinflection.originalText deinflection)
    (Deinflection.transformedText deinflection)
    (Deinflection.deinflectedText deinflection)
    (Deinflection.rules deinflection)
    (Deinflection.inflectionHypotheses deinflection)
    (Deinflection.databaseEntries deinflection ++ databaseEntries)
    (Deinflection.isDictionaryDeinflection deinflection).

(** The test of [_matchEntriesToDeinflections] on the rules. *)
Definition rulesAccepted (collaborators : Collaborators.t) (checkRules : bool)
    (deinflection : Deinflection.t) (databaseEntry : DatabaseEntry.t) : Prop :=
  (negb checkRules
   || _rulesFit (Deinflection.rules deinflection)
        (Collaborators.rulesToRuleFlags collaborators
           (DatabaseEntry.rules databaseEntry))) = true.

#[global] Instance rulesAccepted_dec collaborators checkRules deinflection
    databaseEntry :
  Decision (rulesAccepted collaborators checkRules deinflection databaseEntry).
Proof. unfold rulesAccepted. apply _. Defined.

(** A row of the database answers the term of a candidate: its index is
    the position of the deinflected text in the list of terms asked for,
    and its rules are accepted. *)
Definition answers (collaborators : Collaborators.t) (checkRules : bool)
    (termList : list string) (deinflection : Deinflection.t)
    (databaseEntry : DatabaseEntry.t) : Prop :=
  termList !! DatabaseEntry.index databaseEntry
  = Some (Deinflection.deinflectedText deinflection)
  ∧ rulesAccepted collaborators checkRules deinflection databaseEntry.

#[global] Instance answers_dec collaborators checkRules termList deinflection
    databaseEntry :
  Decision (answers collaborators checkRules termList deinflection databaseEntry).
Proof. unfold answers, rulesAccepted. apply _. Defined.

(** The position belongs to the array that the index selects. *)
Definition selects (arrays : list (list nat)) (index position : nat) : Prop :=
  ∃ positions, arrays !! index = Some positions ∧ position ∈ positions.

#[global] Instance selects_dec arrays index position :
  Decision (selects arrays index position).
Proof.
  unfold selects. destruct (arrays !! index) as [positions|].
  - destruct (decide (position ∈ positions)) as [Hin|Hout].
    + left. by exists positions.
    + right. intros (positions' & [= <-] & ?). done.
  - right. by intros (? & ? & _).
Defined.


(** The entry has definitions and all of them come from excluded
    dictionaries. *)
Definition allDefinitionsExcluded {T} (excludeDictionaryDefinitions : gset string)
    (dictionaryEntry : TermDictionaryEntry.t T) : Prop :=
  TermDictionaryEntry.definitions dictionaryEntry ≠ []
  ∧ Forall (fun definition =>
              TermDefinition.dictionary definition ∈ excludeDictionaryDefinitions)
           (TermDictionaryEntry.definitions dictionaryEntry).

#[global] Instance allDefinitionsExcluded_dec {T} excludeDictionaryDefinitions
    (dictionaryEntry : TermDictionaryEntry.t T) :
  Decision (allDefinitionsExcluded excludeDictionaryDefinitions dictionaryEntry).
Proof. unfold allDefinitionsExcluded. apply _. Defined.

(** A definition of the list refers to the headword at this position. *)
Definition referenced {T} (definitions : list (TermDefinition.t T))
    (headwordIndex : nat) : Prop :=
  Exists (fun definition =>
            headwordIndex ∈ TermDefinition.headwordIndices definition)
         definitions.

#[global] Instance referenced_dec {T} (definitions : list (TermDefinition.t T))
    headwordIndex :
  Decision (referenced definitions headwordIndex).
Proof. unfold referenced. apply _. Defined.

(** The headword indices of the definitions, pronunciations and
    frequencies of the entry are positions of its array of headwords. *)
Definition headwordIndicesInRange {T} (dictionaryEntry : TermDictionaryEntry.t T)
  : Prop :=
  let bound := length (TermDictionaryEntry.headwords dictionaryEntry) in
  Forall (fun definition =>
            Forall (fun headwordIndex => (headwordIndex < bound)%nat)
                   (TermDefinition.headwordIndices definition))
         (TermDictionaryEntry.definitions dictionaryEntry)
  ∧ Forall (fun item => (TermPronunciation.headwordIndex item < bound)%nat)
           (TermDictionaryEntry.pronunciations dictionaryEntry)
  ∧ Forall (fun item => (TermFrequency.headwordIndex item < bound)%nat)
           (TermDictionaryEntry.frequencies dictionaryEntry).

(** The key under which [_addTermHeadwords] stores a headword. *)
Definition headwordKey {T} (headword : Headword.t T) : string * string :=
  (Headword.term headword, Headword.reading headword).

(** The body of the loop of [_addTermHeadwords], on the map and the array
    [headwordIndexMap]. *)
Definition addTermHeadword
    (state : list (Headword.t TagGroup.t) * list nat)
    (newHeadword : Headword.t TagGroup.t)
  : list (Headword.t TagGroup.t) * list nat :=
  let '(headwordsMap, headwordIndexMap) := state in
  let term := Headword.term newHeadword in
  let reading := Headword.reading newHeadword in
  let '(headwordsMap, position, headword) :=
    match headwordsMap_get headwordsMap term reading with
    | Some (position, headword) => (headwordsMap, position, headword)
    | None =>
        let headword :=
          Headword.mk (length headwordsMap) term reading [] [] [] in
        (headwordsMap ++ [headword], length headwordsMap, headword)
    end in
  (<[position := Headword_absorb headword newHeadword]> headwordsMap,
   headwordIndexMap ++ [Headword.index headword]).

(** The headwords of a map are numbered by their position and no two have
    the same term and reading. *)
Definition headwordsMapWellFormed {T} (headwordsMap : list (Headword.t T))
  : Prop :=
  NoDup (headwordKey <$> headwordsMap)
  ∧ ∀ position headword,
      headwordsMap !! position = Some headword →
      Headword.index headword = position.

(** The key under which [_addTermDefinitions] stores a definition. *)
Definition definitionKeyOf {T} (definition : TermDefinition.t T) : list string :=
  definitionKey (TermDefinition.dictionary definition)
                (TermDefinition.entries definition).

(** The body of the loop of [_addTermDefinitions], on the array and the
    map. *)
Definition addTermDefinition (headwordIndexMap : list nat)
    (state : list (TermDefinition.t TagGroup.t) * gmap (list string) nat)
    (newDefinition : TermDefinition.t TagGroup.t)
  : list (TermDefinition.t TagGroup.t) * gmap (list string) nat :=
  let '(definitions, definitionsMap) := state in
  let dictionary := TermDefinition.dictionary newDefinition in
  let entries := TermDefinition.entries newDefinition in
  let key := definitionKey dictionary entries in
  match definitionsMap !! key with
  | None =>
      let definition :=
        TermDefinition.mk (length definitions) [] dictionary
          (TermDefinition.dictionaryIndex newDefinition)
          (TermDefinition.dictionaryPriority newDefinition)
          (TermDefinition.id newDefinition)
          (TermDefinition.score newDefinition)
          0
          (TermDefinition.sequences newDefinition)
          (TermDefinition.isPrimary newDefinition)
          [] entries in
      (definitions
         ++ [TermDefinition_merge false definition newDefinition
               headwordIndexMap],
       <[key := length definitions]> definitionsMap)
  | Some position =>
      (alter (fun definition =>
                TermDefinition_merge true definition newDefinition
                  headwordIndexMap)
             position definitions,
       definitionsMap)
  end.

(** The headword indices of the definitions of the entry are positions of
    its array of headwords. *)
Definition definitionIndicesInRange {T}
    (dictionaryEntry : TermDictionaryEntry.t T) : Prop :=
  Forall (fun definition =>
            Forall (fun headwordIndex =>
                      (headwordIndex
                       < length (TermDictionaryEntry.headwords dictionaryEntry))%nat)
                   (TermDefinition.headwordIndices definition))
         (TermDictionaryEntry.definitions dictionaryEntry).

(** The array [definitions] holds what the definitions [processed], each
    with the index map of its entry, have brought: its definitions are
    numbered by their position, every headword index of one comes from a
    processed definition of the same dictionary and content, and every
    headword index of a processed definition is found in one. *)
Definition definitionsFrom
    (processed : list (TermDefinition.t TagGroup.t * list nat))
    (definitions : list (TermDefinition.t TagGroup.t)) : Prop :=
  (∀ position definition,
     definitions !! position = Some definition →
     TermDefinition.index definition = position)
  ∧ (∀ definition i,
       definition ∈ definitions →
       i ∈ TermDefinition.headwordIndices definition →
       ∃ newDefinition headwordIndexMap j,
         (newDefinition, headwordIndexMap) ∈ processed
         ∧ definitionKeyOf newDefinition = definitionKeyOf definition
         ∧ j ∈ TermDefinition.headwordIndices newDefinition
         ∧ i = headwordIndexMap !!! j)
  ∧ (∀ newDefinition headwordIndexMap j,
       (newDefinition, headwordIndexMap) ∈ processed →
       j ∈ TermDefinition.headwordIndices newDefinition →
       ∃ definition,
         definition ∈ definitions
         ∧ definitionKeyOf definition = definitionKeyOf newDefinition
         ∧ headwordIndexMap !!! j ∈ TermDefinition.headwordIndices definition).

(** The map [definitionsMap] sends the key of every definition of the
    array to its position, and the headword indices of the definitions are
    in strictly ascending order. *)
Definition definitionsMapFor
    (definitions : list (TermDefinition.t TagGroup.t))
    (definitionsMap : gmap (list string) nat) : Prop :=
  (∀ key position,
     definitionsMap !! key = Some position
     ↔ ∃ definition,
         definitions !! position = Some definition
         ∧ definitionKeyOf definition = key)
  ∧ Forall (fun definition =>
              StronglySorted lt (TermDefinition.headwordIndices definition))
           definitions.

(** The sorted names of the part-of-speech tags of a definition. *)
Definition partOfSpeechOf (definition : TermDefinition.t Tag.t) : list string :=
  _getTagNamesWithCategory (TermDefinition.tags definition) "partOfSpeech".

(** The definition comes from the dictionary of the one before it and has
    the same part-of-speech tag names. *)
Definition repeatsPartOfSpeech (previous definition : TermDefinition.t Tag.t)
  : Prop :=
  TermDefinition.dictionary previous = TermDefinition.dictionary definition
  ∧ partOfSpeechOf previous = partOfSpeechOf definition.

#[global] Instance repeatsPartOfSpeech_dec previous definition :
  Decision (repeatsPartOfSpeech previous definition).
Proof. unfold repeatsPartOfSpeech. apply _. Defined.

(** The definition with its part-of-speech tags marked as redundant. *)
Definition withRedundantPartOfSpeech (definition : TermDefinition.t Tag.t)
  : TermDefinition.t Tag.t :=
  TermDefinition_setTags definition
    ((fun tag =>
        if decide (Tag.category tag = "partOfSpeech"%string)
        then Tag_setRedundant tag else tag)
       <$> TermDefinition.tags definition).

(** A definition that stands behind [previous], if any. *)
Definition flaggedBehind (previous : option (TermDefinition.t Tag.t))
    (definition : TermDefinition.t Tag.t) : TermDefinition.t Tag.t :=
  match previous with
  | Some previous =>
      if decide (repeatsPartOfSpeech previous definition)
      then withRedundantPartOfSpeech definition
      else definition
  | None => definition
  end.

(** For each headword index of the list that has a frequency from the
    dictionary in the entry, the last such frequency. *)
Definition lastFrequencies {T} (dictionary : string)
    (entry : TermDictionaryEntry.t T) (headwordIndices : list nat) : list Z :=
  omap (fun headwordIndex =>
          last (frequenciesFrom dictionary (fun i => i = headwordIndex) entry))
       headwordIndices.

(** The frequencies that the entry has from the dictionary are safe
    integers. *)
Definition safeFrequencies {T} (dictionary : string)
    (entry : TermDictionaryEntry.t T) : Prop :=
  Forall (fun frequency => MIN_SAFE_INTEGER ≤ frequency ≤ MAX_SAFE_INTEGER)
         (frequenciesFrom dictionary (fun _ => True) entry).

(** The keys of the order of pronunciations and frequencies: descending
    dictionary priority, then ascending headword index, then ascending
    dictionary index, then ascending index. *)
Definition simpleDataKeys {A} `{SimpleData A} : list (A → A → Z) :=
  [ descending simpleDictionaryPriority;
    ascending (fun value => Z.of_nat (simpleHeadwordIndex value));
    ascending simpleDictionaryIndex;
    ascending (fun value => Z.of_nat (simpleIndex value)) ].

(** The ['non-lemma'] database entries of the candidates, each with its
    candidate, in the order of the candidates and of their entries. *)
Definition nonLemmaEntries (hits : list Deinflection.t)
  : list (Deinflection.t * DatabaseEntry.t) :=
  hit ← hits;
  (fun entry => (hit, entry))
    <$> filter (fun entry =>
                  "non-lemma"%string ∈ DatabaseEntry.definitionTags entry)
               (Deinflection.databaseEntries hit).

(** The candidate that [_getDictionaryDeinflections] makes from a
    ['non-lemma'] database entry of a candidate [hit]: it is marked as a
    dictionary deinflection, has no rules, keeps the original and the
    transformed text of the hit, its deinflected text is the [formOf] of
    the entry (the empty string when there is none), and its hypothesis
    objects hold, for every hypothesis of the entry, one hypothesis for
    every hypothesis of the hit. *)
Definition lemmaCandidateFrom (store : HypStore)
    (source : Deinflection.t * DatabaseEntry.t) (deinflection : Deinflection.t)
  : Prop :=
  Deinflection.isDictionaryDeinflection deinflection = true
  ∧ Deinflection.rules deinflection = 0
  ∧ Deinflection.deinflectedText deinflection
    = default ""%string (DatabaseEntry.formOf source.2)
  ∧ Deinflection.originalText deinflection = Deinflection.originalText source.1
  ∧ Deinflection.transformedText deinflection
    = Deinflection.transformedText source.1
  ∧ ∃ algHypotheses,
      mapM (fun ref : HypRef => store !! ref)
           (Deinflection.inflectionHypotheses source.1)
      = Some algHypotheses
      ∧ mapM (fun ref : HypRef => store !! ref)
             (Deinflection.inflectionHypotheses deinflection)
        = Some (dictionaryHypotheses algHypotheses
                  (default [] (DatabaseEntry.inflectionHypotheses source.2))).

(** The candidate [deinflection'] is [deinflection] with more database
    entries. *)
Definition withMoreEntries (deinflection deinflection' : Deinflection.t) : Prop :=
  ∃ databaseEntries,
    deinflection' = Deinflection_withEntries deinflection databaseEntries.

(** The number of queries [_getDeinflections] makes. *)
Definition deinflectionQueries (options : FindTermsOptions.t)
    (candidates : list Deinflection.t) : nat :=
  match candidates with
  | [] => 0
  | _ :: _ =>
      if decide (FindTermsOptions.deinflectionSource options = "algorithm"%string)
      then 1
      else 2
  end.

(** The keys of the entries, each once, in the order in which the entries
    bring them up. *)
Definition headwordGroupKeys (store : HypStore)
    (dictionaryEntries : list (TermDictionaryEntry.t TagGroup.t))
  : list (string * string * list InflectionHypothesis.t) :=
  _addUniqueSimple [] (omap (headwordGroupKey store) dictionaryEntries).

(** The entries that have the key, in their order. *)
Definition headwordGroup (store : HypStore)
    (key : string * string * list InflectionHypothesis.t)
    (dictionaryEntries : list (TermDictionaryEntry.t TagGroup.t))
  : list (TermDictionaryEntry.t TagGroup.t) :=
  filter (fun dictionaryEntry =>
            headwordGroupKey store dictionaryEntry = Some key)
         dictionaryEntries.

(** What [_addUniqueSources] compares of two sources. *)
Definition sourceIdentity (source : Source.t)
  : string * string * string * MatchType * MatchSource :=
  (Source.deinflectedText source, Source.transformedText source,
   Source.originalText source, Source.matchType source,
   Source.matchSource source).

(** The tag name is listed for the dictionary in the tag groups. *)
Definition listsTagName (tagGroups : list TagGroup.t)
    (dictionary tagName : string) : Prop :=
  ∃ tagGroup,
    tagGroup ∈ tagGroups
    ∧ TagGroup.dictionary tagGroup = dictionary
    ∧ tagName ∈ TagGroup.tagNames tagGroup.

(** The sources have one with this identity; a primary one with this
    identity. *)
Definition hasSource (sources : list Source.t)
    (identity : string * string * string * MatchType * MatchSource) : Prop :=
  ∃ source, source ∈ sources ∧ sourceIdentity source = identity.

Definition hasPrimarySource (sources : list Source.t)
    (identity : string * string * string * MatchType * MatchSource) : Prop :=
  ∃ source,
    source ∈ sources
    ∧ sourceIdentity source = identity
    ∧ Source.isPrimary source = true.

(** The headword holds what the headwords [members] bring: it has their
    sources, primary where one of theirs is, the tag names they list for a
    dictionary, and their word classes, and nothing else. *)
Definition unitesHeadwords (members : list (Headword.t TagGroup.t))
    (headword : Headword.t TagGroup.t) : Prop :=
  (∀ identity,
     hasSource (Headword.sources headword) identity
     ↔ ∃ member, member ∈ members
                 ∧ hasSource (Headword.sources member) identity)
  ∧ (∀ identity,
       hasPrimarySource (Headword.sources headword) identity
       ↔ ∃ member, member ∈ members
                   ∧ hasPrimarySource (Headword.sources member) identity)
  ∧ (∀ dictionary tagName,
       listsTagName (Headword.tags headword) dictionary tagName
       ↔ ∃ member, member ∈ members
                   ∧ listsTagName (Headword.tags member) dictionary tagName)
  ∧ (∀ wordClass,
       wordClass ∈ Headword.wordClasses headword
       ↔ ∃ member, member ∈ members
                   ∧ wordClass ∈ Headword.wordClasses member).

(** The headwords of the list with the term and the reading of the
    headword, in their order. *)
Definition sameHeadwords (headword : Headword.t TagGroup.t)
    (headwords : list (Headword.t TagGroup.t)) : list (Headword.t TagGroup.t) :=
  filter (fun member => headwordKey member = headwordKey headword) headwords.

(** A target of [_addTermMeta] stands for the headword at its index in the
    entry at its position. *)
Definition targetHeadword (dictionaryEntries : list (TermDictionaryEntry.t TagGroup.t))
    (target : MetaTarget.t) : option (Headword.t TagGroup.t) :=
  dictionaryEntry ← dictionaryEntries !! MetaTarget.entry target;
  TermDictionaryEntry.headwords dictionaryEntry !! MetaTarget.headwordIndex target.

(** The targets of the map stand for headwords with the term and the
    reading under which they are stored. *)
Definition targetsValid
    (dictionaryEntries : list (TermDictionaryEntry.t TagGroup.t))
    (headwordMap : list (string * list (string * list MetaTarget.t))) : Prop :=
  ∀ term readingMap reading targets target,
    (term, readingMap) ∈ headwordMap →
    (reading, targets) ∈ readingMap →
    target ∈ targets →
    ∃ headword,
      targetHeadword dictionaryEntries target = Some headword
      ∧ Headword.term headword = term
      ∧ Headword.reading headword = reading.

(** The frequency comes from a row of the database for the term of the
    headword it is attached to and, when the row names a reading, for the
    reading of that headword. *)
Definition frequencyFrom (termList : list string) (metas : list TermMeta.t)
    (headwords : list (Headword.t TagGroup.t)) (item : TermFrequency.t) : Prop :=
  ∃ meta headword,
    meta ∈ metas
    ∧ headwords !! TermFrequency.headwordIndex item = Some headword
    ∧ termList !! TermMeta.index meta = Some (Headword.term headword)
    ∧ TermFrequency.dictionary item = TermMeta.dictionary meta
    ∧ match TermMeta.data meta with
      | MetaFrequency _ => TermFrequency.hasReading item = false
      | MetaReadingFrequency reading _ =>
          reading = Headword.reading headword
          ∧ TermFrequency.hasReading item = true
      | _ => False
      end.

(** The pronunciation comes from a row of the database for the term and
    the reading of the headword it is attached to. *)
Definition pronunciationFrom (termList : list string) (metas : list TermMeta.t)
    (headwords : list (Headword.t TagGroup.t))
    (item : TermPronunciation.t TagGroup.t) : Prop :=
  ∃ meta headword,
    meta ∈ metas
    ∧ headwords !! TermPronunciation.headwordIndex item = Some headword
    ∧ termList !! TermMeta.index meta = Some (Headword.term headword)
    ∧ TermPronunciation.dictionary item = TermMeta.dictionary meta
    ∧ match TermMeta.data meta with
      | MetaPitch reading _ =>
          reading = Headword.reading headword
          ∧ TermPronunciation.phoneticTranscriptions item = []
      | MetaIpa reading _ =>
          reading = Headword.reading headword
          ∧ TermPronunciation.pitches item = []
      | _ => False
      end.

(** The entry [dictionaryEntry'] is [dictionaryEntry] with more
    frequencies and pronunciations, which come from the rows [metas] and
    are numbered by their position. *)
Definition metaExtends (termList : list string) (metas : list TermMeta.t)
    (dictionaryEntry dictionaryEntry' : TermDictionaryEntry.t TagGroup.t)
  : Prop :=
  dictionaryEntry'
  = TermDictionaryEntry_setData dictionaryEntry
      (TermDictionaryEntry.frequencyOrder dictionaryEntry)
      (TermDictionaryEntry.headwords dictionaryEntry)
      (TermDictionaryEntry.definitions dictionaryEntry)
      (TermDictionaryEntry.pronunciations dictionaryEntry')
      (TermDictionaryEntry.frequencies dictionaryEntry')
  ∧ ∃ newFrequencies newPronunciations,
      TermDictionaryEntry.frequencies dictionaryEntry'
      = TermDictionaryEntry.frequencies dictionaryEntry ++ newFrequencies
      ∧ TermDictionaryEntry.pronunciations dictionaryEntry'
        = TermDictionaryEntry.pronunciations dictionaryEntry
          ++ newPronunciations
      ∧ Forall (frequencyFrom termList metas
                  (TermDictionaryEntry.headwords dictionaryEntry))
               newFrequencies
      ∧ Forall (pronunciationFrom termList metas
                  (TermDictionaryEntry.headwords dictionaryEntry))
               newPronunciations
      ∧ (∀ i item,
           newFrequencies !! i = Some item →
           TermFrequency.index item
           = (length (TermDictionaryEntry.frequencies dictionaryEntry) + i)%nat)
      ∧ (∀ i item,
           newPronunciations !! i = Some item →
           TermPronunciation.index item
           = (length (TermDictionaryEntry.pronunciations dictionaryEntry)
              + i)%nat).

(** ** Notions for the expansion of tags *)

(** [cache.get(query)] on the cache of a dictionary; [None] when the cache
    holds nothing for the query, [Some None] when it holds [null]. *)
Definition cacheGet (tagCache : TagCache) (dictionary query : string)
  : option (option DatabaseTag.t) :=
  cache ← tagCache !! dictionary; cache !! query.

(** The pairs of a dictionary and a tag name that tag groups list, in
    order. *)
Definition tagOccurrences (tagGroups : list TagGroup.t)
  : list (string * string) :=
  tagGroup ← tagGroups;
  (fun tagName => (TagGroup.dictionary tagGroup, tagName))
    <$> TagGroup.tagNames tagGroup.

(** Some target lists the tag name for the dictionary. *)
Definition tagUsed (tagTargets : list (list TagGroup.t))
    (dictionary tagName : string) : Prop :=
  ∃ tagGroups, tagGroups ∈ tagTargets
               ∧ (dictionary, tagName) ∈ tagOccurrences tagGroups.

(** What the items give to a target: [f] of an item, once for every time
    the target is among the targets of the item. *)
Definition itemsFor {X} (f : TagItem.t → X) (target : nat)
    (allItems : list TagItem.t) : list X :=
  item ← allItems;
  (fun _ => f item) <$> filter (fun t => t = target) (TagItem.targets item).

Definition TagItem_key (item : TagItem.t) : string * string :=
  (TagItem.dictionary item, TagItem.tagName item).

Definition TagItem_tag (item : TagItem.t) : Tag.t :=
  _createTag (TagItem.databaseTag item) (TagItem.tagName item)
    (TagItem.dictionary item).

(** [targetMap.get(dictionary).get(tagName)], as a position in
    [allItems]. *)
Definition positionOf (targetMap : list (string * list (string * nat)))
    (dictionary tagName : string) : option nat :=
  dictionaryItems ← mapGet dictionary targetMap; mapGet tagName dictionaryItems.

(** The items and the map of positions describe each other. *)
Definition itemsIndexed (position : string → string → option nat)
    (allItems : list TagItem.t) : Prop :=
  (∀ p item, allItems !! p = Some item →
     position (TagItem.dictionary item) (TagItem.tagName item) = Some p
     ∧ TagItem.query item = _getNameBase (TagItem.tagName item)
     ∧ TagItem.databaseTag item = None)
  ∧ (∀ dictionary tagName p, position dictionary tagName = Some p →
       ∃ item, allItems !! p = Some item
               ∧ TagItem.dictionary item = dictionary
               ∧ TagItem.tagName item = tagName).

(** The two items differ at most in their database tag. *)
Definition sameTagItem (item1 item2 : TagItem.t) : Prop :=
  TagItem.query item1 = TagItem.query item2
  ∧ TagItem.dictionary item1 = TagItem.dictionary item2
  ∧ TagItem.tagName item1 = TagItem.tagName item2
  ∧ TagItem.targets item1 = TagItem.targets item2.

(** The item after the look into the cache. *)
Definition resolveCached (tagCache : TagCache) (item : TagItem.t) : TagItem.t :=
  match cacheGet tagCache (TagItem.dictionary item) (TagItem.query item) with
  | Some databaseTag => TagItem_setDatabaseTag databaseTag item
  | None => item
  end.

Definition positionWith (dictionary : string)
    (dictionaryItems : list (string * nat))
    (position : string → string → option nat)
    (dictionary' tagName : string) : option nat :=
  if decide (dictionary' = dictionary) then mapGet tagName dictionaryItems
  else position dictionary' tagName.

Definition mapsNoDup (targetMap : list (string * list (string * nat))) : Prop :=
  NoDup (targetMap.*1)
  ∧ ∀ dictionary dictionaryItems,
      (dictionary, dictionaryItems) ∈ targetMap → NoDup (dictionaryItems.*1).

(** The cache holds nothing for the item at the position. *)
Definition uncachedAt (tagCache : TagCache) (allItems : list TagItem.t)
    (p : nat) : Prop :=
  ∃ item, allItems !! p = Some item
          ∧ cacheGet tagCache (TagItem.dictionary item) (TagItem.query item)
            = None.

(** The state of the loop over [targetMap.entries()] after it has visited
    the positions [visited] of the items [orig], from the cache
    [tagCache0]. *)
Definition lookedUp (tagCache0 : TagCache) (orig : list TagItem.t)
    (visited : list nat) (state : TagCache * list TagItem.t * list nat) : Prop :=
  (∀ d q, cacheGet state.1.1 d q = cacheGet tagCache0 d q)
  ∧ length state.1.2 = length orig
  ∧ (∀ p item, orig !! p = Some item →
       state.1.2 !! p = Some item
       ∨ state.1.2 !! p = Some (resolveCached tagCache0 item))
  ∧ (∀ p item, p ∈ visited → orig !! p = Some item →
       state.1.2 !! p = Some (resolveCached tagCache0 item))
  ∧ (∀ p, p ∈ state.2 ↔ p ∈ visited ∧ uncachedAt tagCache0 orig p).

(** The state of the loop over the answer of the database after it has
    treated the positions [treated] of [nonCachedItems], from the cache
    [tagCache2] and the items [allItems2]. *)
Definition stored (answers : list (option DatabaseTag.t))
    (tagCache2 : TagCache) (allItems2 : list TagItem.t) (treated : list nat)
    (state : TagCache * list TagItem.t) : Prop :=
  let queries := tagQueries allItems2 treated in
  Forall2 sameTagItem allItems2 state.2
  ∧ (∀ p c, state.2 !! p = Some c → p ∉ treated → allItems2 !! p = Some c)
  ∧ (∀ p c, state.2 !! p = Some c → p ∈ treated →
       ∃ i, queries !! i = Some (TagItem.query c, TagItem.dictionary c)
            ∧ TagItem.databaseTag c = default None (answers !! i))
  ∧ (∀ d q, (q, d) ∉ queries → cacheGet state.1 d q = cacheGet tagCache2 d q)
  ∧ (∀ d q v, cacheGet state.1 d q = Some v →
       cacheGet tagCache2 d q = Some v
       ∨ ∃ i, queries !! i = Some (q, d) ∧ v = default None (answers !! i))
  ∧ (∀ q d, (q, d) ∈ queries → is_Some (cacheGet state.1 d q)).

(** The database tag of the item for a dictionary and a tag name. *)
Definition databaseTagFor (allItems : list TagItem.t)
    (dictionary tagName : string) : option DatabaseTag.t :=
  default None
    ((fun found => TagItem.databaseTag found.2)
       <$> list_find (fun item => TagItem_key item = (dictionary, tagName))
                     allItems).

(** The tag that [_createTag] makes for a pair of a dictionary and a tag
    name, from the database tag that [databaseTagOf] gives for the pair. *)
Definition tagFor (databaseTagOf : string → string → option DatabaseTag.t)
    (pair : string * string) : Tag.t :=
  _createTag (databaseTagOf pair.1 pair.2) pair.2 pair.1.

(** The value of the cache for the base name of a tag name, [null] when
    there is none. *)
Definition cachedTagOf (tagCache : TagCache) (dictionary tagName : string)
  : option DatabaseTag.t :=
  default None (cacheGet tagCache dictionary (_getNameBase tagName)).

(** The name and the category of a tag: two tags with the same ones are
    merged by [_mergeSimilarTags]. *)
Definition tagClass (tag : Tag.t) : string * string :=
  (Tag.name tag, Tag.category tag).

(** The order that [_groupTags] sorts by: the smaller [order] first, and
    among equal ones by the collation of the names. *)
Definition tagBefore (collate : string → string → Z) (a b : Tag.t) : Prop :=
  Tag.order a < Tag.order b
  ∨ (Tag.order a = Tag.order b ∧ collate (Tag.name a) (Tag.name b) ≤ 0).

(** The colon, U+003A. *)
Definition colon : Ascii.ascii := Ascii.ascii_of_nat 58.

(** The text holds no colon. *)
Fixpoint noColon (text : string) : Prop :=
  match text with
  | EmptyString => True
  | String c text => c ≠ colon ∧ noColon text
  end.

(** ** Notions for text *)

(** The text that code points make up. *)
Definition joinText (cs : list string) : string :=
  foldr String.append EmptyString cs.

(** The text is empty, or starts with the byte that the other starts
    with. *)
Definition sameStart (text other : string) : Prop :=
  text = EmptyString
  ∨ ∃ byte rest rest', text = String byte rest ∧ other = String byte rest'.

(** ** A small lookup used to exercise the statements

    The text "ab" has been found once: the database entry 7 gave an entry
    with the hypothesis (algorithm, [past]) at address 0.  A dictionary
    deinflection of the same text finds the database entry again, with the
    hypothesis (dictionary, [past; past]) at address 1. *)

Definition exampleDatabaseEntry : DatabaseEntry.t :=
  DatabaseEntry.mk 0 Exact Term "ab" "" [] [] [] ["gloss"%string] 0 "D" 7 (-1)
    None None.

Definition exampleEntry : TermDictionaryEntry.t TagGroup.t :=
  _createTermDictionaryEntryFromDatabaseEntry exampleDatabaseEntry "ab" "ab" "ab"
    [0%nat] true ∅.

Definition exampleStore : HypStore :=
  [InflectionHypothesis.mk Algorithm ["past"%string];
   InflectionHypothesis.mk Dictionary ["past"%string; "past"%string]].

Definition exampleState : FindState.t :=
  FindState.mk exampleStore [exampleEntry] {[7]} 2.

Definition exampleDeinflection : Deinflection.t :=
  Deinflection.mk "ab" "ab" "ab" 0 [1%nat] [exampleDatabaseEntry] true.

(** Three entries as merge mode builds them for a scan of the text "x":
    three sequences of the main dictionary "D" share the headword "x".
    Members found by the scan are primary; the others were added by the
    lookup of the sequence. *)
Definition sequenceMember (id sequence : Z) (term gloss : string)
    (isPrimary : bool) : TermDictionaryEntry.t TagGroup.t :=
  let sourceText := if isPrimary then "x"%string else term in
  _createTermDictionaryEntryFromDatabaseEntry
    (DatabaseEntry.mk 0 Exact Term term "" [] [] [] [gloss] 0 "D" id sequence
       None None)
    sourceText sourceText sourceText [] isPrimary
    {["D"%string := DictionaryDetails.mk 0 0 false]}.

(** Headwords [x], two definitions. *)
Definition cycleEntryA : TermDictionaryEntry.t TagGroup.t :=
  _createGroupedDictionaryEntry
    [sequenceMember 1 1 "x" "g1" true; sequenceMember 2 1 "x" "g2" true] true.

(** Headwords [x; yy], one definition shared by both. *)
Definition cycleEntryB : TermDictionaryEntry.t TagGroup.t :=
  _createGroupedDictionaryEntry
    [sequenceMember 3 2 "x" "h" true; sequenceMember 4 2 "yy" "h" false] true.

(** Headwords [x; z], three definitions. *)
Definition cycleEntryC : TermDictionaryEntry.t TagGroup.t :=
  _createGroupedDictionaryEntry
    [sequenceMember 5 3 "x" "k1" true; sequenceMember 6 3 "z" "k2" false;
     sequenceMember 7 3 "x" "k3" true] true.

(** An entry for the shorter source text "a". *)
Definition exampleShortEntry : TermDictionaryEntry.t TagGroup.t :=
  _createTermDictionaryEntryFromDatabaseEntry
    (DatabaseEntry.mk 0 Exact Term "a" "" [] [] [] ["gloss"%string] 0 "D" 8 (-1)
       None None)
    "a" "a" "a" [] true ∅.

(** Two definitions of one entry that differ only in their headword
    indices and their original position. *)
Definition exampleDefinition (index : nat) (headwordIndices : list nat)
  : TermDefinition.t Tag.t :=
  TermDefinition.mk index headwordIndices "D" 0 0 (Z.of_nat index) 0 0 [1] true
    [] ["gloss"%string].

(** A tag of dictionary "D", as [_createTag] builds it. *)
Definition exampleTag : Tag.t :=
  Tag.mk "n" "partOfSpeech" 0 0 ["noun"%string] ["D"%string] false.

(** A tag of the same name and category from dictionary "E". *)
Definition exampleTagE : Tag.t :=
  Tag.mk "n" "partOfSpeech" (-1) 5 ["noun"%string; "name"%string] ["E"%string]
    false.

(** An entry with one headword that has two frequencies, 5 and 10, from the
    dictionary "F", and one definition for that headword. *)
Definition exampleFrequencyEntry : TermDictionaryEntry.t Tag.t :=
  TermDictionaryEntry.mk true [] 0 0 0 0 1 2
    [Headword.mk 0 "ab" "ab" [] [] []]
    [exampleDefinition 0 [0%nat]]
    []
    [TermFrequency.mk 0 0 "F" 1 0 false 5 None false;
     TermFrequency.mk 1 0 "F" 1 0 true 10 None false].

(** ** A small dictionary used to exercise [findTerms]

    The dictionary "D" has the term "ab", with a term tag and a definition
    tag; the dictionary "F" has a frequency and a pitch accent for it.  The
    algorithm proposes the candidates "ab" and "a" for every text. *)

Definition exampleTermRow : DatabaseEntry.t :=
  DatabaseEntry.mk 0 Exact Term "ab" "" ["n"%string] ["common"%string] []
    ["gloss"%string] 0 "D" 7 (-1) None None.

Definition exampleDatabase : Database.t :=
  Database.mk
    (fun termList _ _ =>
       if decide (termList !! 0%nat = Some "ab"%string) then [exampleTermRow]
       else [])
    (fun termList enabledDictionaryMap =>
       if decide (termList !! 0%nat = Some "ab"%string
                  ∧ is_Some (enabledDictionaryMap !! "F"%string))
       then [TermMeta.mk 0 (MetaFrequency (FrequencyNumber 5)) "F";
             TermMeta.mk 0
               (MetaPitch "ab"
                  [PitchData.mk 1 (Some ["lit"%string]) PositionsOther
                     (PositionsNumber 1)])
               "F"]
       else []).

Definition exampleCollaborators : Collaborators.t :=
  Collaborators.mk (fun _ => true) (fun _ => 0)
    (fun _ _ =>
       ([InflectionHypothesis.mk Algorithm ["past"%string];
         InflectionHypothesis.mk Algorithm []],
        [Deinflection.mk "ab" "ab" "ab" 0 [0%nat] [] false;
         Deinflection.mk "a" "a" "a" 0 [1%nat] [] false]))
    (fun _ => 0) defaultCompare.

Definition exampleOptions : FindTermsOptions.t :=
  FindTermsOptions.mk
    {[ "D"%string := DictionaryDetails.mk 0 0 false;
       "F"%string := DictionaryDetails.mk 1 0 false ]}
    None (Some "F"%string) "ascending" false true "both" false Exact
    {| Variants.textReplacements := [None];
       Variants.collapseEmphaticSequences := "false";
       Variants.textTransformations := [] |}.

(** The dictionary "F" with two frequencies for the term "ab": 5 for the
    term and 10 for the term with the reading "ab". *)
Definition exampleFrequencyDatabase : Database.t :=
  Database.mk
    (Database.findTermsBulk exampleDatabase)
    (fun termList enabledDictionaryMap =>
       if decide (termList !! 0%nat = Some "ab"%string
                  ∧ is_Some (enabledDictionaryMap !! "F"%string))
       then [TermMeta.mk 0 (MetaFrequency (FrequencyNumber 5)) "F";
             TermMeta.mk 0 (MetaReadingFrequency "ab" (FrequencyNumber 10)) "F"]
       else []).

(** ** A Japanese lookup

    The dictionary "D" has two rows for the term 食べる, the second with the
    higher score.  For every text the algorithm proposes one candidate: the
    text as the past of 食べる.  The code points from U+3040 on count as
    Japanese. *)

Definition exampleTaberuRow (id score : Z) : DatabaseEntry.t :=
  DatabaseEntry.mk 0 Exact Term "食べる" "たべる" [] [] ["v1"%string]
    ["to eat"%string] score "D" id (-1) None None.

Definition exampleJapaneseDatabase : Database.t :=
  Database.mk
    (fun termList _ _ =>
       if decide (termList !! 0%nat = Some "食べる"%string)
       then [exampleTaberuRow 1 1; exampleTaberuRow 2 5]
       else [])
    (fun _ _ => []).

Definition exampleJapaneseCollaborators : Collaborators.t :=
  Collaborators.mk (fun codePoint => (12352 <=? codePoint)%N) (fun _ => 0)
    (fun text _ =>
       ([InflectionHypothesis.mk Algorithm ["past"%string]],
        [Deinflection.mk text text "食べる" 0 [0%nat] [] false]))
    (fun _ => 0) defaultCompare.

Definition exampleJapaneseOptions : FindTermsOptions.t :=
  FindTermsOptions.mk
    {[ "D"%string := DictionaryDetails.mk 0 0 false ]}
    None None "ascending" true true "both" false Exact
    {| Variants.textReplacements := [None];
       Variants.collapseEmphaticSequences := "false";
       Variants.textTransformations := [] |}.

(** A database entry for the inflected form "ab" of "abc", of an id that
    the example state has not seen. *)
Definition exampleNonLemmaEntry : DatabaseEntry.t :=
  DatabaseEntry.mk 0 Exact Term "ab" "" ["non-lemma"%string] [] []
    ["gloss"%string] 0 "D" 9 (-1) (Some "abc"%string) None.

(** ** Entries used to exercise the further properties *)

(** An entry with the headwords "a", "b" and "c", one definition for the
    first and the third, and a frequency for each of the last two. *)
Definition exampleThreeHeadwords : TermDictionaryEntry.t Tag.t :=
  TermDictionaryEntry.mk true [] 0 0 0 0 1 1
    [Headword.mk 0 "a" "" [] [] [];
     Headword.mk 1 "b" "" [] [] [];
     Headword.mk 2 "c" "" [] [] []]
    [exampleDefinition 0 [0; 2]%nat]
    []
    [TermFrequency.mk 0 1 "F" 1 0 false 5 None false;
     TermFrequency.mk 1 2 "F" 1 0 false 10 None false].

(** A dictionary whose entry for "ab" is a form of the lemma "abc", which
    it does not have. *)
Definition exampleFormRow : DatabaseEntry.t :=
  DatabaseEntry.mk 0 Exact Term "ab" "" ["non-lemma"%string] [] []
    ["gloss"%string] 0 "D" 9 (-1) (Some "abc"%string)
    (Some [["plural"%string]]).

Definition exampleFormDatabase : Database.t :=
  Database.mk
    (fun termList _ _ =>
       if decide (termList !! 0%nat = Some "ab"%string) then [exampleFormRow]
       else [])
    (fun _ _ => []).

(** A cache that holds a tag for the query [pos] of the dictionary
    [names], and a target that names it. *)
Definition exampleDatabaseTag : DatabaseTag.t :=
  DatabaseTag.mk (Some "partOfSpeech") (Some "noun") (Some 3) None.

Definition exampleTagCache : TagCache :=
  {["names" := {["pos" := Some exampleDatabaseTag]}]}.

Definition exampleTagTargets : list (list TagGroup.t) :=
  [[TagGroup.mk "names" ["pos:1"; "pos:2"]]].

(** Three tags to group: the first and the last have the same name and
    category. *)
Definition exampleTagsToGroup : list Tag.t :=
  [Tag.mk "v5" "partOfSpeech" 2 0 [] ["names"] false;
   Tag.mk "arch" "archaism" 1 0 [] ["names"] false;
   Tag.mk "v5" "partOfSpeech" 0 5 [] ["other"] false].

(** * Proofs *)

(** ** Text *)

Section TextFacts.

Lemma codeUnits_pos (c : string) : 1 ≤ codeUnits c.
Proof.
  unfold codeUnits, codeUnitsOf, len. destruct (_ <=? _)%N; simpl; lia.
Qed.

Lemma codeUnits_sum_nonneg (cs : list string) :
  0 ≤ foldr (fun c length => codeUnits c + length) 0 cs.
Proof.
  induction cs as [|c cs IH]; simpl; [lia|].
  pose proof (codeUnits_pos c). lia.
Qed.

Lemma strlen_nil : strlen EmptyString = 0.
Proof. unfold strlen, textCodeUnits. by simp codePoints. Qed.


(** The length of a text is the sum of the lengths of its code points. *)
Lemma strlen_codePoints (text : string) :
  strlen text = foldr (fun c length => codeUnits c + length) 0 (codePoints text).
Proof.
  unfold strlen, textCodeUnits.
  induction (codePoints text) as [|c cs IH]; [done|].
  rewrite bind_cons. cbn [foldr]. rewrite <- IH.
  unfold codeUnits, len. rewrite length_app. lia.
Qed.

(** Only the empty text has the length 0. *)
Lemma strlen_cons_pos (byte : Ascii.ascii) (rest : string) :
  0 < strlen (String byte rest).
Proof.
  rewrite strlen_codePoints. simp codePoints. simpl.
  pose proof (codeUnits_pos
                (String byte (takeContinuation (continuationCount byte) rest).1)).
  pose proof (codeUnits_sum_nonneg
                (codePoints (takeContinuation (continuationCount byte) rest).2)).
  lia.
Qed.

Lemma compareCodeUnits_flip (a b : list N) :
  compareCodeUnits a b = - compareCodeUnits b a.
Proof.
  revert b. induction a as [|x a IH]; intros [|y b]; simpl; try done.
  destruct (N.ltb_spec x y), (N.ltb_spec y x); try lia. apply IH.
Qed.

Lemma compareCodeUnits_range (a b : list N) :
  -1 ≤ compareCodeUnits a b ≤ 1.
Proof.
  revert b. induction a as [|x a IH]; intros [|y b]; simpl; try lia.
  destruct (x <? y)%N; [lia|]. destruct (y <? x)%N; [lia|]. apply IH.
Qed.

Lemma compareCodeUnits_trans (a b c : list N) :
  compareCodeUnits a b ≤ 0 → compareCodeUnits b c ≤ 0 →
  compareCodeUnits a c ≤ 0.
Proof.
  revert b c. induction a as [|x a IH]; intros [|y b] [|z c]; simpl; try lia.
  destruct (N.ltb_spec x y), (N.ltb_spec y x), (N.ltb_spec y z),
    (N.ltb_spec z y), (N.ltb_spec x z), (N.ltb_spec z x);
    try lia; try apply IH.
Qed.

End TextFacts.

(** * Theorems *)

(** ** Text-variant generation *)

Section VariantFacts.
Import Variants.

Lemma fold_left_mul_product (ns : list nat) (acc : nat) :
  fold_left (fun acc length => (acc * length)%nat) ns acc
  = (acc * product ns)%nat.
Proof.
  revert acc; induction ns as [|n ns IH]; intros acc; simpl.
  - lia.
  - rewrite IH. lia.
Qed.

Lemma _generateArrayVariants_length {V} (space : list (string * list V)) :
  length (_generateArrayVariants space)
  = product ((fun kv => length kv.2) <$> space).
Proof.
  unfold _generateArrayVariants.
  rewrite length_fmap, length_seq, fold_left_mul_product. lia.
Qed.

Lemma _getTextOptionEntryVariants_length (setting : string) :
  length (_getTextOptionEntryVariants setting) = transformOutcomes setting.
Proof.
  unfold _getTextOptionEntryVariants, transformOutcomes.
  destruct (String.eqb_spec setting "true") as [->|_]; [reflexivity|].
  destruct (String.eqb setting "variant"); reflexivity.
Qed.

Lemma _getCollapseEmphaticOptions_length (setting : string) :
  length (_getCollapseEmphaticOptions setting) = collapseOutcomes setting.
Proof.
  unfold _getCollapseEmphaticOptions, collapseOutcomes.
  destruct (String.eqb setting "true"); [reflexivity|].
  destruct (String.eqb setting "full"); reflexivity.
Qed.

(** Every yielded variant assigns to each axis, in key order, one of the
    outcomes of that axis. *)
Lemma buildVariant_chooses {V} (space : list (string * list V)) (i : nat) :
  Forall (fun kv => kv.2 ≠ []) space →
  Forall2 (fun choice axis =>
             choice.1 = axis.1 ∧ ∃ v, choice.2 = Some v ∧ v ∈ axis.2)
          (buildVariant space i) space.
Proof.
  revert i; induction space as [|[key entryVariants] rest IH]; intros i Hne.
  - constructor.
  - inversion Hne as [|? ? Hhd Htl]; subst. simpl in *.
    constructor; [|by apply IH].
    split; [reflexivity|].
    assert (Hlt : (i `mod` length entryVariants < length entryVariants)%nat).
    { apply Nat.mod_upper_bound. destruct entryVariants; simpl; [done|lia]. }
    destruct (lookup_lt_is_Some_2 _ _ Hlt) as [v Hv].
    exists v; split; [done|]. by eapply list_elem_of_lookup_2.
Qed.

(** Every combination of per-axis outcome positions is yielded: the
    mixed-radix reading of the variant index is onto the product. *)
Lemma buildVariant_onto {V} (space : list (string * list V)) (choice : list nat) :
  Forall2 (fun c axis => (c < length axis.2)%nat) choice space →
  ∃ variantIndex,
    (variantIndex < product ((fun kv => length kv.2) <$> space))%nat
    ∧ buildVariant space variantIndex
      = zip_with (fun c axis => (axis.1, axis.2 !! c)) choice space.
Proof.
  induction 1 as [|c [key entryVariants] choice space Hc _ IH]; simpl in *.
  - exists 0%nat. split; [lia|reflexivity].
  - destruct IH as (j & Hj & Hbuild).
    exists (c + length entryVariants * j)%nat. split.
    + fold (product ((fun kv => length kv.2) <$> space)).
      set (P := product _) in *.
      assert (length entryVariants * (j + 1) ≤ length entryVariants * P)%nat
        by (apply Nat.mul_le_mono_l; lia).
      lia.
    + assert (length entryVariants ≠ 0)%nat by lia.
      replace (c + length entryVariants * j)%nat
        with (c + j * length entryVariants)%nat by lia.
      rewrite Nat.Div0.mod_add, Nat.div_add by done.
      rewrite Nat.mod_small, Nat.div_small by done.
      simpl. by rewrite Hbuild.
Qed.

End VariantFacts.

(** ** Grouping entries *)

Section GroupFacts.

Lemma mergeDictionaryEntryData_inflectionHypotheses check data definitionEntry :
  GroupData.inflectionHypotheses
    (mergeDictionaryEntryData check data definitionEntry)
  = chooseHypotheses (GroupData.inflectionHypotheses data) definitionEntry.1.
Proof.
  destruct definitionEntry as [entry indexMap].
  unfold mergeDictionaryEntryData, chooseHypotheses; simpl.
  destruct (TermDictionaryEntry.isPrimary entry);
    [destruct (GroupData.inflectionHypotheses data)|];
    repeat match goal with
           | |- context [let '(_, _) := ?p in _] => destruct p
           end; reflexivity.
Qed.

Lemma merge_loop_inflectionHypotheses check definitionEntries data :
  GroupData.inflectionHypotheses
    (fold_left (mergeDictionaryEntryData check) definitionEntries data)
  = fold_left chooseHypotheses (fst <$> definitionEntries)
      (GroupData.inflectionHypotheses data).
Proof.
  revert data; induction definitionEntries as [|de des IH]; intros data.
  - reflexivity.
  - simpl. rewrite IH, mergeDictionaryEntryData_inflectionHypotheses.
    reflexivity.
Qed.

(** The first loop of [_createGroupedDictionaryEntry] pairs every member,
    in order, with its headword index map. *)
Lemma headword_loop_members (dictionaryEntries : list (TermDictionaryEntry.t TagGroup.t))
    headwords0 (definitionEntries0 : list (TermDictionaryEntry.t TagGroup.t * list nat)) :
  fst <$> (fold_left
      (fun '(headwords, definitionEntries) dictionaryEntry =>
         let '(headwords, headwordIndexMap) :=
           _addTermHeadwords headwords
             (TermDictionaryEntry.headwords dictionaryEntry) in
         (headwords, definitionEntries ++ [(dictionaryEntry, headwordIndexMap)]))
      dictionaryEntries (headwords0, definitionEntries0)).2
  = (fst <$> definitionEntries0) ++ dictionaryEntries.
Proof.
  revert headwords0 definitionEntries0.
  induction dictionaryEntries as [|e es IH]; intros hs des; simpl.
  - by rewrite app_nil_r.
  - destruct (_addTermHeadwords hs (TermDictionaryEntry.headwords e)) as [hs' m].
    rewrite IH, fmap_app. simpl. by rewrite <- app_assoc.
Qed.

Lemma grouped_inflectionHypotheses_fold dictionaryEntries check :
  TermDictionaryEntry.inflectionHypotheses
    (_createGroupedDictionaryEntry dictionaryEntries check)
  = default [] (fold_left chooseHypotheses dictionaryEntries None).
Proof.
  unfold _createGroupedDictionaryEntry.
  pose proof (headword_loop_members dictionaryEntries [] []) as Hmem.
  destruct (fold_left _ dictionaryEntries ([], [])) as [headwords definitionEntries].
  simpl in *. rewrite merge_loop_inflectionHypotheses, Hmem. reflexivity.
Qed.

(** After any prefix of the group, the chosen list is that of the first
    primary member of minimal length. *)
Lemma chooseHypotheses_shortest_first dictionaryEntries :
  match primaryMembers dictionaryEntries with
  | [] => fold_left chooseHypotheses dictionaryEntries None = None
  | _ :: _ =>
      ∃ before member after,
        primaryMembers dictionaryEntries = before ++ member :: after
        ∧ fold_left chooseHypotheses dictionaryEntries None
          = Some (TermDictionaryEntry.inflectionHypotheses member)
        ∧ Forall (fun other =>
                    (length (TermDictionaryEntry.inflectionHypotheses member)
                     < length (TermDictionaryEntry.inflectionHypotheses other))%nat)
                 before
        ∧ Forall (fun other =>
                    (length (TermDictionaryEntry.inflectionHypotheses member)
                     ≤ length (TermDictionaryEntry.inflectionHypotheses other))%nat)
                 after
  end.
Proof.
  unfold primaryMembers.
  induction dictionaryEntries as [|entry entries IH] using rev_ind; [done|].
  rewrite filter_app, fold_left_app. cbn [fold_left].
  rewrite filter_cons, filter_nil.
  set (previous := fold_left chooseHypotheses entries None) in *.
  destruct (TermDictionaryEntry.isPrimary entry) eqn:Hprimary.
  - rewrite decide_True by done.
    assert (Hstep : chooseHypotheses previous entry =
              match previous with
              | None => Some (TermDictionaryEntry.inflectionHypotheses entry)
              | Some current =>
                  if len (TermDictionaryEntry.inflectionHypotheses entry) <? len current
                  then Some (TermDictionaryEntry.inflectionHypotheses entry)
                  else Some current
              end)
      by (unfold chooseHypotheses; by rewrite Hprimary).
    rewrite Hstep; clear Hstep.
    destruct (filter _ entries) as [|p ps] eqn:Hfilter.
    + rewrite IH. cbn [app]. exists [], entry, []. by repeat split.
    + destruct IH as (before & member & after & Heq & Hfold & Hbefore & Hafter).
      rewrite Hfold, Heq.
      destruct ((before ++ member :: after) ++ [entry]) eqn:Happ;
        [by destruct before|]. rewrite <- Happ. clear Happ.
      destruct (Z.ltb_spec (len (TermDictionaryEntry.inflectionHypotheses entry))
                           (len (TermDictionaryEntry.inflectionHypotheses member)))
        as [Hlt|Hge]; unfold len in *.
      * exists (before ++ member :: after), entry, []. split; [done|].
        split; [done|]. split; [|done].
        apply Forall_app; split; [|apply Forall_cons; split].
        -- eapply Forall_impl; [exact Hbefore|]. simpl; intros; lia.
        -- lia.
        -- eapply Forall_impl; [exact Hafter|]. simpl; intros; lia.
      * exists before, member, (after ++ [entry]).
        split; [by rewrite <- app_assoc|]. split; [done|]. split; [done|].
        apply Forall_app; split; [done|].
        apply Forall_cons; split; [lia|done].
  - rewrite decide_False by (by intros ?). rewrite app_nil_r.
    assert (Hstep : chooseHypotheses previous entry = previous)
      by (unfold chooseHypotheses; by rewrite Hprimary).
    rewrite Hstep. exact IH.
Qed.

(** The counting loop of [_createGroupedDictionaryEntry]. *)
Lemma hasPrimaryTermSource_spec (headword : Headword.t TagGroup.t) :
  hasPrimaryTermSource (Headword.sources headword) = true
  ↔ PrimaryTermHeadword headword.
Proof.
  unfold PrimaryTermHeadword.
  induction (Headword.sources headword) as [|source rest IH]; simpl.
  - split; [done|by inversion 1].
  - rewrite Exists_cons, <- IH.
    destruct (Source.isPrimary source); simpl.
    + case_bool_decide; intuition congruence.
    + intuition congruence.
Qed.

Lemma count_loop_spec (headwords : list (Headword.t TagGroup.t)) (count : Z) :
  fold_left
    (fun sourceTermExactMatchCount headword =>
       if hasPrimaryTermSource (Headword.sources headword)
       then sourceTermExactMatchCount + 1
       else sourceTermExactMatchCount)
    headwords count
  = count + len (filter PrimaryTermHeadword headwords).
Proof.
  revert count; induction headwords as [|h hs IH]; intros count; simpl.
  - unfold len; simpl; lia.
  - rewrite IH, filter_cons.
    destruct (hasPrimaryTermSource (Headword.sources h)) eqn:Hh.
    + rewrite decide_True by (by apply hasPrimaryTermSource_spec).
      unfold len; simpl; lia.
    + rewrite decide_False; [done|].
      rewrite <- hasPrimaryTermSource_spec. by rewrite Hh.
Qed.

Lemma grouped_sourceTermExactMatchCount dictionaryEntries check :
  TermDictionaryEntry.sourceTermExactMatchCount
    (_createGroupedDictionaryEntry dictionaryEntries check)
  = primaryTermHeadwordCount
      (_createGroupedDictionaryEntry dictionaryEntries check).
Proof.
  unfold _createGroupedDictionaryEntry, primaryTermHeadwordCount.
  destruct (fold_left _ dictionaryEntries ([], [])) as [headwords definitionEntries].
  simpl. rewrite count_loop_spec. lia.
Qed.

End GroupFacts.

(** ** The loops of [_findTermsInternal] *)

Section FindTermsFacts.

Lemma foldlM_app {A B} (f : A → B → option A) (xs ys : list B) (acc : A) :
  foldlM f (xs ++ ys) acc = foldlM f xs acc ≫= foldlM f ys.
Proof.
  revert acc; induction xs as [|x xs IH]; intros acc; simpl; [done|].
  destruct (f acc x); simpl; [apply IH|done].
Qed.

Lemma foldlM_snoc {A B} (f : A → B → option A) (xs : list B) (x : B) (acc : A) :
  foldlM f (xs ++ [x]) acc = foldlM f xs acc ≫= fun acc' => f acc' x.
Proof.
  rewrite foldlM_app. destruct (foldlM f xs acc) as [acc'|]; simpl; [|done].
  by destruct (f acc' x).
Qed.

(** A loop whose body preserves an invariant and never throws, neither
    throws nor breaks the invariant. *)
Lemma foldlM_invariant {A B} (I : A → Prop) (P : B → Prop)
    (f : A → B → option A) (items : list B) (acc : A) :
  (∀ a b, I a → P b → ∃ a', f a b = Some a' ∧ I a') →
  I acc → Forall P items →
  ∃ acc', foldlM f items acc = Some acc' ∧ I acc'.
Proof.
  intros Hstep. revert acc.
  induction items as [|b bs IH]; intros acc Hacc Hitems; simpl.
  - eauto.
  - inversion Hitems as [|? ? Hb Hbs]; subst.
    destruct (Hstep acc b Hacc Hb) as (a' & -> & Ha'). simpl. by apply IH.
Qed.

Lemma validRefs_mono (store store' : HypStore) refs :
  (length store ≤ length store')%nat → validRefs store refs → validRefs store' refs.
Proof.
  intros Hle Hrefs. eapply Forall_impl; [exact Hrefs|]. simpl; intros; lia.
Qed.

Lemma findDuplicate_total (store : HypStore) existingHypotheses inflections :
  validRefs store existingHypotheses →
  ∃ duplicate,
    findDuplicate store existingHypotheses inflections = Some duplicate
    ∧ ∀ ref, duplicate = Some ref → ref ∈ existingHypotheses.
Proof.
  induction 1 as [|ref rest Href _ IH]; simpl.
  - exists None. by split.
  - destruct (lookup_lt_is_Some_2 _ _ Href) as [hypothesis ->]. simpl.
    destruct (_areInflectionHyphothesesEqual _ _).
    + exists (Some ref). split; [done|]. intros ? [= <-]. by left.
    + destruct IH as (duplicate & -> & Hin). exists duplicate.
      split; [done|]. intros ? ->. right. by apply Hin.
Qed.

Lemma mergeHypothesis_total existingHypotheses
    (store : HypStore) newHypotheses ref :
  validRefs store existingHypotheses → (ref < length store)%nat →
  ∃ store' newHypotheses',
    mergeHypothesis existingHypotheses (store, newHypotheses) ref
    = Some (store', newHypotheses')
    ∧ length store' = length store.
Proof.
  intros Hexisting Href. unfold mergeHypothesis.
  destruct (lookup_lt_is_Some_2 _ _ Href) as [hypothesis ->]. simpl.
  destruct (findDuplicate_total store existingHypotheses
              (InflectionHypothesis.inflections hypothesis) Hexisting)
    as (duplicate & -> & Hin). simpl.
  destruct duplicate as [duplicate|]; [|by eauto].
  assert (duplicate < length store)%nat as Hdup.
  { eapply Forall_forall in Hexisting; [exact Hexisting|]. by apply Hin. }
  destruct (lookup_lt_is_Some_2 _ _ Hdup) as [duplicateHypothesis ->]. simpl.
  case_decide; eexists _, _; (split; [done|]); [by rewrite length_insert|done].
Qed.

Lemma mergeInflectionHypotheses_total (store : HypStore)
    existingHypotheses inflectionHypotheses :
  validRefs store existingHypotheses → validRefs store inflectionHypotheses →
  ∃ store' merged,
    mergeInflectionHypotheses store existingHypotheses inflectionHypotheses
    = Some (store', merged)
    ∧ (length store ≤ length store')%nat
    ∧ validRefs store' merged.
Proof.
  intros Hexisting Hnew. unfold mergeInflectionHypotheses.
  destruct (foldlM_invariant
              (fun acc : HypStore * list InflectionHypothesis.t =>
                 length acc.1 = length store)
              (fun ref => (ref < length store)%nat)
              (mergeHypothesis existingHypotheses) inflectionHypotheses
              (store, []))
    as ([store1 newHypotheses] & -> & Hlen); [|done|done|].
  - intros [store1 newHypotheses1] ref Hlen Href. simpl in Hlen.
    destruct (mergeHypothesis_total existingHypotheses store1 newHypotheses1 ref)
      as (store2 & newHypotheses2 & Heq & Hlen2).
    + eapply validRefs_mono; [|exact Hexisting]. lia.
    + lia.
    + exists (store2, newHypotheses2). split; [done|]. simpl. lia.
  - simpl in *. eexists _, _. split; [done|].
    rewrite length_app. split; [lia|].
    apply Forall_app; split.
    + eapply validRefs_mono; [|exact Hexisting]. rewrite length_app. lia.
    + apply Forall_forall. intros ref Hin%elem_of_seq.
      rewrite length_app. lia.
Qed.

Lemma created_entry_fields databaseEntry originalText transformedText
    deinflectedText reasons isPrimary enabledDictionaryMap :
  let entry :=
    _createTermDictionaryEntryFromDatabaseEntry databaseEntry originalText
      transformedText deinflectedText reasons isPrimary enabledDictionaryMap in
  TermDictionaryEntry.inflectionHypotheses entry = reasons
  ∧ TermDictionaryEntry.isPrimary entry = isPrimary
  ∧ firstTransformedText entry = Some transformedText
  ∧ hasDefinitionId (DatabaseEntry.id databaseEntry) entry.
Proof.
  unfold _createTermDictionaryEntryFromDatabaseEntry, hasDefinitionId.
  destruct (_getDictionaryOrder _ _) as [dictionaryIndex dictionaryPriority].
  simpl. repeat split. by apply Exists_cons_hd.
Qed.

(** The body of the inner loop never throws between two database entries,
    keeps the invariant, only extends the store and leaves
    [originalTextLength] alone. *)
Lemma addDatabaseEntry_total enabledDictionaryMap deinflection state databaseEntry :
  findStateInvariant state →
  validRefs (FindState.store state) (Deinflection.inflectionHypotheses deinflection) →
  ∃ state',
    addDatabaseEntry enabledDictionaryMap deinflection state databaseEntry
    = Some state'
    ∧ findStateInvariant state'
    ∧ (length (FindState.store state) ≤ length (FindState.store state'))%nat
    ∧ FindState.originalTextLength state' = FindState.originalTextLength state.
Proof.
  intros [Hentries Hids] Hnew. unfold addDatabaseEntry.
  case_decide as Hid.
  - (* a later sighting *)
    destruct (list_find (hasDefinitionId (DatabaseEntry.id databaseEntry))
                (FindState.dictionaryEntries state))
      as [[position existingEntry]|] eqn:Hfind; cycle 1.
    { apply list_find_None in Hfind. apply Hids in Hid.
      apply Exists_exists in Hid as (entry & Hin & Hhas).
      eapply Forall_forall in Hfind; [|exact Hin]. done. }
    apply list_find_Some in Hfind as (Hlookup & Hhas & _). simpl.
    pose proof (Forall_lookup_1 _ _ _ _ Hentries Hlookup) as [Hrefs [text Htext]].
    rewrite Htext. simpl.
    destruct (strlen text <=? strlen (Deinflection.transformedText deinflection));
      [|by exists state].
    destruct (mergeInflectionHypotheses_total _ _ _ Hrefs Hnew)
      as (store' & merged & -> & Hlen & Hmerged). simpl.
    eexists. split; [done|]. split; [|by split]. split; simpl.
    + apply Forall_insert.
      * eapply Forall_impl; [exact Hentries|]. simpl.
        intros entry [? ?]. split; [by eapply validRefs_mono|done].
      * split; [done|]. by exists text.
    + intros id Hin. apply Hids in Hin.
      apply Exists_exists in Hin as (entry & Hin & Hentry).
      apply list_elem_of_lookup in Hin as [i Hi].
      destruct (decide (i = position)) as [->|Hne].
      * apply Exists_exists. eexists. split.
        -- eapply list_elem_of_lookup_2, list_lookup_insert_eq.
           by eapply lookup_lt_Some.
        -- rewrite Hlookup in Hi. by injection Hi as ->.
      * apply Exists_exists. exists entry. split; [|done].
        eapply list_elem_of_lookup_2. by rewrite list_lookup_insert_ne.
  - case_decide; [by exists state|].
    pose proof (created_entry_fields databaseEntry
                  (Deinflection.originalText deinflection)
                  (Deinflection.transformedText deinflection)
                  (Deinflection.deinflectedText deinflection)
                  (Deinflection.inflectionHypotheses deinflection) true
                  enabledDictionaryMap) as (Hhyps & _ & Htext & Hhas).
    eexists. split; [done|]. split; [|by split]. split; simpl.
    + apply Forall_app; split; [done|]. apply Forall_singleton.
      rewrite Hhyps, Htext. by split.
    + intros id [->%elem_of_singleton|Hin]%elem_of_union.
      * apply Exists_app. right. by apply Exists_cons_hd.
      * apply Exists_app. left. by apply Hids.
Qed.

Lemma addDatabaseEntries_total enabledDictionaryMap deinflection databaseEntries state :
  findStateInvariant state →
  validRefs (FindState.store state) (Deinflection.inflectionHypotheses deinflection) →
  ∃ state',
    foldlM (addDatabaseEntry enabledDictionaryMap deinflection) databaseEntries state
    = Some state'
    ∧ findStateInvariant state'
    ∧ (length (FindState.store state) ≤ length (FindState.store state'))%nat
    ∧ FindState.originalTextLength state' = FindState.originalTextLength state.
Proof.
  intros Hinv Hnew.
  destruct (foldlM_invariant
              (fun state' =>
                 findStateInvariant state'
                 ∧ (length (FindState.store state) ≤ length (FindState.store state'))%nat
                 ∧ FindState.originalTextLength state'
                   = FindState.originalTextLength state)
              (fun _ => True)
              (addDatabaseEntry enabledDictionaryMap deinflection)
              databaseEntries state) as (state' & Heq & Hstate'); try done.
  - intros state1 databaseEntry (Hinv1 & Hlen1 & Hotl1) _.
    destruct (addDatabaseEntry_total enabledDictionaryMap deinflection state1
                databaseEntry Hinv1) as (state2 & -> & Hinv2 & Hlen2 & Hotl2).
    { by eapply validRefs_mono. }
    exists state2. split; [done|]. split; [done|]. split; [lia|congruence].
  - by apply Forall_true.
  - by exists state'.
Qed.

Lemma addDeinflection_total enabledDictionaryMap state deinflection :
  findStateInvariant state →
  validRefs (FindState.store state) (Deinflection.inflectionHypotheses deinflection) →
  ∃ state',
    addDeinflection enabledDictionaryMap state deinflection = Some state'
    ∧ findStateInvariant state'
    ∧ (length (FindState.store state) ≤ length (FindState.store state'))%nat
    ∧ FindState.originalTextLength state'
      = originalTextLengthAfter (FindState.originalTextLength state) deinflection.
Proof.
  intros Hinv Hnew. unfold addDeinflection, originalTextLengthAfter.
  destruct (Deinflection.databaseEntries deinflection) as [|e es] eqn:Hhits.
  { exists state.
    rewrite decide_False
      by (unfold countsForOriginalTextLength; rewrite Hhits; by intros [? _]).
    split; [done|]. split; [done|]. by split. }
  replace (len (e :: es) =? 0) with false
    by (symmetry; apply Z.eqb_neq; unfold len; simpl; lia).
  destruct (Deinflection.isDictionaryDeinflection deinflection) eqn:Hdict;
    simpl negb; cbv iota.
  - rewrite decide_False
      by (unfold countsForOriginalTextLength; rewrite Hdict; by intros [_ ?]).
    by apply addDatabaseEntries_total.
  - rewrite decide_True
      by (unfold countsForOriginalTextLength; by rewrite Hhits, Hdict).
    destruct (addDatabaseEntries_total enabledDictionaryMap deinflection (e :: es)
                (FindState.mk (FindState.store state)
                   (FindState.dictionaryEntries state) (FindState.ids state)
                   (Z.max (FindState.originalTextLength state)
                      (strlen (Deinflection.originalText deinflection)))))
      as (state' & Heq & Hinv' & Hlen & Hotl); [done|done|].
    by exists state'.
Qed.

(** The outer loop never throws on deinflections that refer to objects of
    the initial store, and folds [originalTextLength] over them. *)
Lemma addDeinflections_total enabledDictionaryMap (store0 : HypStore)
    deinflections state :
  validDeinflections store0 deinflections →
  findStateInvariant state →
  (length store0 ≤ length (FindState.store state))%nat →
  ∃ state',
    foldlM (addDeinflection enabledDictionaryMap) deinflections state = Some state'
    ∧ findStateInvariant state'
    ∧ FindState.originalTextLength state'
      = fold_left originalTextLengthAfter deinflections
          (FindState.originalTextLength state).
Proof.
  intros Hvalid. revert state.
  induction Hvalid as [|deinflection deinflections Hd _ IH]; intros state Hinv Hlen.
  - by exists state.
  - simpl.
    destruct (addDeinflection_total enabledDictionaryMap state deinflection Hinv)
      as (state1 & -> & Hinv1 & Hlen1 & Hotl1).
    { by eapply validRefs_mono. }
    simpl. destruct (IH state1 Hinv1) as (state' & -> & Hinv' & Hotl'); [lia|].
    exists state'. split; [done|]. split; [done|]. by rewrite Hotl', Hotl1.
Qed.


End FindTermsFacts.

(** ** Merging the inflection hypotheses of a later sighting *)

Section MergeFacts.

Lemma _areInflectionHyphothesesEqual_spec (hypotheses1 hypotheses2 : list string) :
  _areInflectionHyphothesesEqual hypotheses1 hypotheses2 = true
  ↔ (list_to_set hypotheses1 : gset string) = list_to_set hypotheses2.
Proof.
  unfold _areInflectionHyphothesesEqual.
  rewrite andb_true_iff, bool_decide_eq_true, forallb_forall. split.
  - intros [Hsize Hall].
    apply set_subseteq_size_eq.
    + intros x Hx. specialize (Hall x).
      rewrite <- list_elem_of_In, elem_of_elements, bool_decide_eq_true in Hall.
      by apply Hall.
    + lia.
  - intros ->. split; [done|]. intros x.
    rewrite <- list_elem_of_In, elem_of_elements, bool_decide_eq_true. done.
Qed.

Lemma sameInflections_refl h : sameInflections h h.
Proof. done. Qed.

Lemma sameInflections_sym h1 h2 : sameInflections h1 h2 → sameInflections h2 h1.
Proof. unfold sameInflections. congruence. Qed.

Lemma sameInflections_trans h1 h2 h3 :
  sameInflections h1 h2 → sameInflections h2 h3 → sameInflections h1 h3.
Proof. unfold sameInflections. congruence. Qed.

Lemma sameInflections_setBoth_l h1 h2 :
  sameInflections (setBoth h1) h2 ↔ sameInflections h1 h2.
Proof. done. Qed.

(** [find] returns the address at the position of the first value that
    equals the new hypothesis. *)
Lemma findDuplicate_spec (store : HypStore) refs values new :
  pointsTo store refs values →
  findDuplicate store refs (InflectionHypothesis.inflections new)
  = Some (match list_find (fun h => sameInflections h new) values with
          | Some (d, _) => refs !! d
          | None => None
          end).
Proof.
  induction 1 as [|ref h refs values Href _ IH]; simpl; [done|].
  rewrite Href. simpl. unfold decide_rel.
  destruct (_areInflectionHyphothesesEqual _ _) eqn:Hequal.
  - apply _areInflectionHyphothesesEqual_spec in Hequal.
    rewrite decide_True by done. done.
  - rewrite decide_False; cycle 1.
    { intros Hsame. apply _areInflectionHyphothesesEqual_spec in Hsame.
      congruence. }
    rewrite IH. destruct (list_find _ values) as [[d h']|]; done.
Qed.

Lemma lookup_promoteDuplicates hs ns i :
  promoteDuplicates hs ns !! i
  = (fun h => if decide (promoted hs ns i h) then setBoth h else h) <$> hs !! i.
Proof. apply list_lookup_imap. Qed.

Lemma promoted_snoc hs ns n i h :
  promoted hs (ns ++ [n]) i h
  ↔ promoted hs ns i h
    ∨ (¬ Exists (sameInflections h) (take i hs)
       ∧ sameInflections h n
       ∧ InflectionHypothesis.source n ≠ InflectionHypothesis.source h).
Proof.
  unfold promoted. rewrite Exists_app, Exists_cons, Exists_nil. tauto.
Qed.

(** The first existing hypothesis that equals [n] is the only one whose
    promotion [n] can change. *)
Lemma promoted_snoc_other hs ns n d hd i h :
  hs !! d = Some hd → sameInflections hd n →
  (∀ j h', hs !! j = Some h' → (j < d)%nat → ¬ sameInflections h' n) →
  hs !! i = Some h → i ≠ d →
  promoted hs (ns ++ [n]) i h ↔ promoted hs ns i h.
Proof.
  intros Hd Hsame Hfirst Hi Hne. rewrite promoted_snoc.
  split; [|tauto]. intros [?|(Hfirsti & Hsamei & _)]; [done|]. exfalso.
  destruct (decide (i < d)%nat) as [Hlt|Hge].
  - by eapply Hfirst.
  - apply Hfirsti. apply Exists_exists. exists hd. split.
    + eapply list_elem_of_lookup_2 with (i := d).
      rewrite lookup_take, decide_True by lia. done.
    + eapply sameInflections_trans; [exact Hsamei|].
      by apply sameInflections_sym.
Qed.

Lemma first_equal_is_first_of_class hs n d hd :
  hs !! d = Some hd → sameInflections hd n →
  (∀ j h', hs !! j = Some h' → (j < d)%nat → ¬ sameInflections h' n) →
  ¬ Exists (sameInflections hd) (take d hs).
Proof.
  intros Hd Hsame Hfirst (h & Hin & Hh)%Exists_exists.
  apply list_elem_of_lookup in Hin as [j Hj].
  rewrite lookup_take in Hj. case_decide; [|done].
  eapply Hfirst; [exact Hj|done|].
  eapply sameInflections_trans; [|exact Hsame]. by apply sameInflections_sym.
Qed.

Lemma sameInflections_promote (P : Prop) `{Decision P} h x :
  sameInflections (if decide P then setBoth h else h) x ↔ sameInflections h x.
Proof. by destruct (decide P). Qed.

Lemma inflections_promote (P : Prop) `{Decision P} h :
  InflectionHypothesis.inflections (if decide P then setBoth h else h)
  = InflectionHypothesis.inflections h.
Proof. by destruct (decide P). Qed.

Lemma pointsTo_lookup (store : HypStore) refs hs i r h :
  pointsTo store refs hs → refs !! i = Some r → hs !! i = Some h →
  store !! r = Some h.
Proof.
  intros Hpoints Hr Hh.
  exact (Forall2_lookup_lr _ _ _ _ _ _ Hpoints Hr Hh).
Qed.

Lemma hypothesis_eta h :
  InflectionHypothesis.mk (InflectionHypothesis.source h)
    (InflectionHypothesis.inflections h) = h.
Proof. by destruct h. Qed.

(** One iteration of the [forEach]: the store holds the existing
    hypotheses as promoted by the new hypotheses seen so far; after the
    iteration it holds them as promoted by one more. *)
Lemma mergeHypothesis_step (store0 : HypStore) refs hs nsP
    (store : HypStore) newP r n :
  NoDup refs → pointsTo store0 refs hs → store0 !! r = Some n →
  pointsTo store refs (promoteDuplicates hs nsP) →
  (∀ a, a ∉ refs → store !! a = store0 !! a) →
  ∃ store',
    mergeHypothesis refs (store, newP) r
    = Some (store', newP ++ addedHypotheses hs [n])
    ∧ pointsTo store' refs (promoteDuplicates hs (nsP ++ [n]))
    ∧ (∀ a, a ∉ refs → store' !! a = store0 !! a)
    ∧ length store' = length store.
Proof.
  intros Hnodup Hhs Hr Hcur Hother.
  (* the value read for the new hypothesis *)
  assert (∃ n', store !! r = Some n'
                ∧ InflectionHypothesis.inflections n'
                  = InflectionHypothesis.inflections n
                ∧ (n' = n
                   ∨ ∃ i, refs !! i = Some r ∧ hs !! i = Some n
                          ∧ promoted hs nsP i n ∧ n' = setBoth n))
    as (n' & Hr' & Hinfl & Hrel).
  { destruct (decide (r ∈ refs)) as [Hin|Hnotin].
    - apply list_elem_of_lookup in Hin as [i Hi].
      destruct (Forall2_lookup_l _ _ _ _ _ Hhs Hi) as (h & Hh & Hstore0).
      assert (h = n) as -> by congruence.
      destruct (Forall2_lookup_l _ _ _ _ _ Hcur Hi) as (y & Hy & Hstore).
      rewrite lookup_promoteDuplicates, Hh in Hy. simpl in Hy.
      injection Hy as <-.
      case_decide as Hp.
      + exists (setBoth n). split; [done|]. split; [done|]. right. by exists i.
      + exists n. by repeat split; [|left].
    - exists n. rewrite Hother by done. by repeat split; [|left]. }
  assert (Hsame' : ∀ h, sameInflections h n' ↔ sameInflections h n).
  { intros h. unfold sameInflections. by rewrite Hinfl. }
  unfold mergeHypothesis. rewrite Hr'. simpl.
  rewrite (findDuplicate_spec store refs (promoteDuplicates hs nsP) n' Hcur).
  simpl.
  destruct (list_find (fun h => sameInflections h n') (promoteDuplicates hs nsP))
    as [[d y]|] eqn:Hfind.
  - (* a duplicate exists *)
    apply list_find_Some in Hfind as (Hy & Hyn & Hfirst).
    rewrite lookup_promoteDuplicates in Hy.
    destruct (hs !! d) as [hd|] eqn:Hd; [|done]. simpl in Hy.
    injection Hy as Hy.
    assert (Hhdn : sameInflections hd n).
    { apply Hsame' in Hyn. subst y. by apply sameInflections_promote in Hyn. }
    assert (Hfirsths : ∀ j h', hs !! j = Some h' → (j < d)%nat
                               → ¬ sameInflections h' n).
    { intros j h' Hj Hlt Hh'. eapply (Hfirst j); [|done|].
      - rewrite lookup_promoteDuplicates, Hj. done.
      - apply Hsame'. by apply sameInflections_promote. }
    destruct (Forall2_lookup_r _ _ _ _ _ Hhs Hd) as (a & Ha & Hstore0a).
    destruct (Forall2_lookup_l _ _ _ _ _ Hcur Ha) as (y' & Hy' & Hstorea).
    rewrite lookup_promoteDuplicates, Hd in Hy'. simpl in Hy'.
    injection Hy' as Hy'. rewrite Hy in Hy'. subst y'.
    rewrite Ha. simpl. rewrite Hstorea. simpl.
    assert (Hadded : addedHypotheses hs [n] = []).
    { unfold addedHypotheses. rewrite filter_cons, filter_nil.
      rewrite decide_False; [done|]. intros Hnone. apply Hnone.
      apply Exists_exists. exists hd. split; [|done].
      by eapply list_elem_of_lookup_2. }
    rewrite Hadded, app_nil_r.
    pose proof (first_equal_is_first_of_class hs n d hd Hd Hhdn Hfirsths)
      as Hclass.
    (* the promotions at the other positions do not change *)
    assert (Hothers : ∀ i h, hs !! i = Some h → i ≠ d →
              (if decide (promoted hs (nsP ++ [n]) i h) then setBoth h else h)
              = (if decide (promoted hs nsP i h) then setBoth h else h)).
    { intros i h Hi Hne. apply decide_ext.
      exact (promoted_snoc_other hs nsP n d hd i h Hd Hhdn Hfirsths Hi Hne). }
    assert (Hunchanged :
              (if decide (promoted hs (nsP ++ [n]) d hd) then setBoth hd else hd) = y
              → pointsTo store refs (promoteDuplicates hs (nsP ++ [n]))).
    { intros Hatd.
      replace (promoteDuplicates hs (nsP ++ [n]))
        with (promoteDuplicates hs nsP); [done|].
      apply imap_ext. intros i h Hi. destruct (decide (i = d)) as [->|Hne].
      - assert (h = hd) as -> by congruence. by rewrite Hatd, Hy.
      - symmetry. by apply Hothers. }
    destruct Hrel as [->|(i & Hi & Hin & Hpi & ->)].
    + (* the new hypothesis was read unchanged *)
      destruct (decide (InflectionHypothesis.source y
                        ≠ InflectionHypothesis.source n)) as [Hsource|Hsource].
      * (* the sources differ: the duplicate becomes 'both' *)
        eexists. split; [done|]. split; [|split].
        -- apply Forall2_same_length_lookup. split.
           { unfold promoteDuplicates. rewrite length_imap.
             by eapply Forall2_length. }
           intros i ri z Hri Hz.
           rewrite lookup_promoteDuplicates in Hz.
           destruct (hs !! i) as [h|] eqn:Hi; [|done]. simpl in Hz.
           injection Hz as <-.
           destruct (decide (i = d)) as [->|Hne].
           ++ assert (ri = a) as -> by congruence.
              assert (h = hd) as -> by congruence.
              rewrite list_lookup_insert_eq by (by eapply lookup_lt_Some).
              f_equal. replace (InflectionHypothesis.inflections y)
                with (InflectionHypothesis.inflections hd)
                by (subst y; by rewrite inflections_promote).
              rewrite decide_True; [done|].
              apply promoted_snoc.
              destruct (decide (promoted hs nsP d hd)) as [?|Hnp]; [by left|].
              right. split; [done|]. split; [done|].
              subst y. done.
           ++ rewrite list_lookup_insert_ne; cycle 1.
              { intros <-. apply Hne. symmetry. by eapply NoDup_lookup. }
              rewrite Hothers by done.
              eapply pointsTo_lookup; [exact Hcur|exact Hri|].
              rewrite lookup_promoteDuplicates, Hi. done.
        -- intros a' Ha'. rewrite list_lookup_insert_ne; [by apply Hother|].
           intros <-. apply Ha'. by eapply list_elem_of_lookup_2.
        -- by rewrite length_insert.
      * (* the sources agree: nothing changes *)
        exists store. split; [done|]. split; [|by split].
        apply Hunchanged. apply dec_stable in Hsource.
        subst y. apply decide_ext. rewrite promoted_snoc.
        split; [|tauto]. intros [?|(_ & _ & Hdiff)]; [done|].
        destruct (decide (promoted hs nsP d hd)) as [Hp|Hp]; [done|].
        simpl in Hsource. congruence.
    + (* the new hypothesis is an existing one that was promoted: it is its
         own duplicate *)
      assert (i = d) as ->.
      { destruct Hpi as [Hfirsti _].
        destruct (decide (i < d)%nat) as [Hlt|Hge].
        - exfalso. eapply Hfirsths; [exact Hin|done|apply sameInflections_refl].
        - destruct (decide (i = d)) as [|Hne]; [done|]. exfalso.
          apply Hfirsti. apply Exists_exists. exists hd. split.
          + eapply list_elem_of_lookup_2 with (i := d).
            rewrite lookup_take, decide_True by lia. done.
          + by apply sameInflections_sym. }
      assert (hd = n) as -> by congruence.
      rewrite decide_True in Hy by done. subst y.
      rewrite decide_False by (simpl; by intros ?).
      exists store. split; [done|]. split; [|by split].
      apply Hunchanged. rewrite decide_True; [done|].
      apply promoted_snoc. by left.
  - (* no duplicate: the hypothesis is new *)
    apply list_find_None in Hfind.
    assert (Hnone : ¬ Exists (fun h => sameInflections h n) hs).
    { intros (h & Hin & Hh)%Exists_exists.
      apply list_elem_of_lookup in Hin as [i Hi].
      eapply Forall_lookup_1 with (i := i) in Hfind.
      - apply Hfind. apply Hsame'.
        instantiate (1 := if decide (promoted hs nsP i h) then setBoth h else h).
        by apply sameInflections_promote.
      - rewrite lookup_promoteDuplicates, Hi. done. }
    assert (n' = n) as ->.
    { destruct Hrel as [?|(i & _ & Hin & _)]; [done|]. exfalso.
      apply Hnone. apply Exists_exists. exists n.
      split; [by eapply list_elem_of_lookup_2|apply sameInflections_refl]. }
    exists store. rewrite hypothesis_eta. split.
    + unfold addedHypotheses. rewrite filter_cons, filter_nil.
      by rewrite decide_True.
    + split; [|by split].
      replace (promoteDuplicates hs (nsP ++ [n]))
        with (promoteDuplicates hs nsP); [done|].
      apply imap_ext. intros i h Hi. symmetry. apply decide_ext.
      rewrite promoted_snoc. split; [|tauto].
      intros [?|(_ & Hsame & _)]; [done|]. exfalso. apply Hnone.
      apply Exists_exists. exists h. split; [|done].
      by eapply list_elem_of_lookup_2.
Qed.

Lemma promoteDuplicates_nil hs : promoteDuplicates hs [] = hs.
Proof.
  apply list_eq. intros i. rewrite lookup_promoteDuplicates.
  destruct (hs !! i) as [h|]; [|done]. simpl.
  rewrite decide_False; [done|]. intros [_ Hex]. by apply Exists_nil in Hex.
Qed.

(** The whole [forEach]. *)
Lemma mergeHypothesis_loop_spec (store0 : HypStore) refs hs newRefs ns :
  NoDup refs → pointsTo store0 refs hs → pointsTo store0 newRefs ns →
  ∃ store,
    foldlM (mergeHypothesis refs) newRefs (store0, [])
    = Some (store, addedHypotheses hs ns)
    ∧ pointsTo store refs (promoteDuplicates hs ns)
    ∧ (∀ a, a ∉ refs → store !! a = store0 !! a)
    ∧ length store = length store0.
Proof.
  intros Hnodup Hhs. revert ns.
  induction newRefs as [|r newRefs IH] using rev_ind; intros ns Hns.
  - apply Forall2_nil_inv_l in Hns as ->. exists store0.
    rewrite promoteDuplicates_nil. by repeat split.
  - apply Forall2_app_inv_l in Hns as (nsP & nsr & HnsP & Hnsr & ->).
    apply Forall2_cons_inv_l in Hnsr as (n & nil' & Hr & Hnil & ->).
    apply Forall2_nil_inv_l in Hnil as ->.
    destruct (IH nsP HnsP) as (store1 & Hloop & Hcur & Hother & Hlen).
    rewrite foldlM_snoc, Hloop. cbn [mbind option_bind].
    destruct (mergeHypothesis_step store0 refs hs nsP store1
                (addedHypotheses hs nsP) r n Hnodup Hhs Hr Hcur Hother)
      as (store2 & -> & Hcur2 & Hother2 & Hlen2).
    exists store2. split.
    + unfold addedHypotheses. by rewrite filter_app.
    + split; [done|]. split; [done|]. lia.
Qed.

(** The merge of a later sighting: the existing entry's hypotheses become
    [mergedHypotheses], held at distinct addresses; objects outside the
    existing entry's hypotheses are not written. *)
Lemma mergeInflectionHypotheses_spec (store0 : HypStore) refs hs newRefs ns :
  NoDup refs → pointsTo store0 refs hs → pointsTo store0 newRefs ns →
  ∃ store merged,
    mergeInflectionHypotheses store0 refs newRefs = Some (store, merged)
    ∧ pointsTo store merged (mergedHypotheses hs ns)
    ∧ NoDup merged
    ∧ (∀ a, a ∉ refs → (a < length store0)%nat → store !! a = store0 !! a).
Proof.
  intros Hnodup Hhs Hns. unfold mergeInflectionHypotheses.
  destruct (mergeHypothesis_loop_spec store0 refs hs newRefs ns Hnodup Hhs Hns)
    as (store1 & -> & Hcur & Hother & Hlen).
  simpl. eexists _, _. split; [done|].
  assert (Hvalid : Forall (fun ref => (ref < length store1)%nat) refs).
  { apply Forall_forall. intros ref [i Hi]%list_elem_of_lookup.
    destruct (Forall2_lookup_l _ _ _ _ _ Hcur Hi) as (h & _ & Hh).
    by eapply lookup_lt_Some. }
  split; [|split].
  - unfold mergedHypotheses. apply Forall2_app.
    + eapply Forall2_impl; [exact Hcur|]. simpl. intros ref h Hh.
      by apply lookup_app_l_Some.
    + apply Forall2_same_length_lookup. split; [by rewrite length_seq|].
      intros i ref h Href Hh. apply lookup_seq in Href as [-> _].
      rewrite lookup_app_r by lia.
      replace (length store1 + i - length store1)%nat with i by lia. done.
  - apply NoDup_app. split; [done|]. split; [|apply NoDup_seq].
    intros ref Hin Hseq%elem_of_seq.
    eapply Forall_forall in Hvalid; [|exact Hin]. lia.
  - intros a Ha Hlt. rewrite lookup_app_l by lia. by apply Hother.
Qed.

End MergeFacts.

(** ** The stable sort *)

Lemma filter_none {A} (P : A → Prop) `{∀ x, Decision (P x)} (l : list A) :
  Forall (fun x => ¬ P x) l → filter P l = [].
Proof.
  induction 1 as [|x l Hx _ IH]; [done|].
  by rewrite filter_cons, decide_False.
Qed.

Lemma filter_all {A} (P : A → Prop) `{∀ x, Decision (P x)} (l : list A) :
  Forall P l → filter P l = l.
Proof.
  induction 1 as [|x l Hx _ IH]; [done|].
  by rewrite filter_cons, decide_True, IH.
Qed.

Section StableSort.
Context {A : Type} (compare : A → A → Z) (domain : A → Prop).

Lemma sortInsert_Permutation (x : A) (sorted : list A) :
  sortInsert compare x sorted ≡ₚ x :: sorted.
Proof.
  induction sorted as [|y rest IH]; simpl; [done|].
  destruct (compare x y <=? 0); [done|].
  rewrite IH. apply Permutation_swap.
Qed.

Lemma arraySort_Permutation (array : list A) :
  arraySort compare array ≡ₚ array.
Proof.
  induction array as [|x array IH]; simpl; [done|].
  by rewrite sortInsert_Permutation, IH.
Qed.

Lemma arraySort_domain (array : list A) :
  Forall domain array → Forall domain (arraySort compare array).
Proof. intros H. by rewrite arraySort_Permutation. Qed.

(** Insertion puts the element behind the elements it must follow. *)
Lemma sortInsert_split (x : A) (sorted : list A) :
  ∃ before after,
    sorted = before ++ after
    ∧ sortInsert compare x sorted = before ++ x :: after
    ∧ Forall (fun y => 0 < compare x y) before.
Proof.
  induction sorted as [|y rest IH]; simpl.
  - by exists [], [].
  - destruct (Z.leb_spec (compare x y) 0) as [Hle|Hgt].
    + by exists [], (y :: rest).
    + destruct IH as (before & after & -> & -> & Hbefore).
      exists (y :: before), after. split; [done|]. split; [done|].
      by apply Forall_cons.
Qed.

Hypothesis compare_consistent : consistentOn domain compare.

Lemma sortInsert_sorted (x : A) (sorted : list A) :
  domain x → Forall domain sorted →
  StronglySorted (fun a b => compare a b ≤ 0) sorted →
  StronglySorted (fun a b => compare a b ≤ 0) (sortInsert compare x sorted).
Proof.
  destruct compare_consistent as [Hanti Htrans].
  intros Hx Hdomain Hsorted.
  induction Hsorted as [|y rest Hrest IH Hy]; simpl.
  - repeat constructor.
  - inversion Hdomain as [|? ? Hdy Hdrest]; subst.
    destruct (Z.leb_spec (compare x y) 0) as [Hle|Hgt].
    + constructor; [by constructor|].
      constructor; [done|].
      apply Forall_forall. intros z Hz.
      eapply (Htrans x y z); [done|done| |done|].
      * by eapply Forall_forall in Hdrest.
      * by eapply Forall_forall in Hy.
    + constructor; [by apply IH|].
      rewrite sortInsert_Permutation. constructor; [|done].
      apply Hanti in Hgt; [lia|done|done].
Qed.

(** With a consistent comparison function the result is sorted. *)
Lemma arraySort_sorted (array : list A) :
  Forall domain array →
  StronglySorted (fun a b => compare a b ≤ 0) (arraySort compare array).
Proof.
  induction 1 as [|x array Hx Harray IH]; simpl; [constructor|].
  apply sortInsert_sorted; [done| |done]. by apply arraySort_domain.
Qed.

(** With a consistent comparison function the sort is stable: the elements
    that tie with a given one keep their order. *)
Lemma arraySort_stable (x : A) (array : list A) :
  domain x → Forall domain array →
  filter (fun y => compare x y = 0) (arraySort compare array)
  = filter (fun y => compare x y = 0) array.
Proof.
  destruct compare_consistent as [Hanti Htrans].
  intros Hx. induction 1 as [|z array Hz Harray IH]; simpl; [done|].
  destruct (sortInsert_split z (arraySort compare array))
    as (before & after & Hsplit & -> & Hbefore).
  rewrite filter_cons, <- IH, Hsplit, !filter_app, filter_cons.
  assert (Hdomain : Forall domain (before ++ after))
    by (rewrite <- Hsplit; by apply arraySort_domain).
  apply Forall_app in Hdomain as [Hdbefore _].
  destruct (decide (compare x z = 0)) as [Htie|Hne]; [|done].
  replace (filter (fun y => compare x y = 0) before) with (@nil A); [done|].
  symmetry. apply filter_none, Forall_forall. intros y Hy Hxy.
  eapply Forall_forall in Hbefore; [|exact Hy].
  eapply Forall_forall in Hdbefore; [|exact Hy].
  assert (compare z x ≤ 0).
  { pose proof (Hanti x z Hx Hz). pose proof (Hanti z x Hz Hx). lia. }
  pose proof (Htrans z x y Hz Hx Hdbefore). lia.
Qed.

End StableSort.

Lemma sortInsert_ext {A} (compare1 compare2 : A → A → Z) x (sorted : list A) :
  (∀ a b, compare1 a b = compare2 a b) →
  sortInsert compare1 x sorted = sortInsert compare2 x sorted.
Proof.
  intros Hext. induction sorted as [|y rest IH]; simpl; [done|].
  by rewrite Hext, IH.
Qed.

Lemma arraySort_ext {A} (compare1 compare2 : A → A → Z) (array : list A) :
  (∀ a b, compare1 a b = compare2 a b) →
  arraySort compare1 array = arraySort compare2 array.
Proof.
  intros Hext. induction array as [|x array IH]; simpl; [done|].
  by rewrite IH, (sortInsert_ext compare1 compare2).
Qed.

Lemma StronglySorted_lookup_lt {A} (R : A → A → Prop) (l : list A) i j x y :
  StronglySorted R l → l !! i = Some x → l !! j = Some y → (i < j)%nat → R x y.
Proof.
  intros Hsorted. revert i j.
  induction Hsorted as [|z l _ IH Hz]; intros i j Hi Hj Hlt; [done|].
  destruct i as [|i], j as [|j]; try lia; simpl in *.
  - injection Hi as ->. eapply Forall_forall in Hz; [exact Hz|].
    by eapply list_elem_of_lookup_2.
  - eapply IH; [exact Hi|exact Hj|lia].
Qed.

(** ** Orders given by a list of keys *)

Section KeyOrders.
Context {A : Type} (domain : A → Prop).

Lemma ascending_consistent (key : A → Z) : consistentOn domain (ascending key).
Proof. unfold ascending. split; intros; lia. Qed.

Lemma descending_consistent (key : A → Z) : consistentOn domain (descending key).
Proof. unfold descending. split; intros; lia. Qed.

Lemma lexCompare_consistent (keys : list (A → A → Z)) :
  Forall (consistentOn domain) keys → consistentOn domain (lexCompare keys).
Proof.
  induction 1 as [|key keys [Hanti Htrans] _ [IHanti IHtrans]]; simpl.
  - split; intros; lia.
  - split.
    + intros a b Ha Hb.
      pose proof (Hanti a b Ha Hb). pose proof (Hanti b a Hb Ha).
      pose proof (IHanti a b Ha Hb).
      destruct (Z.eqb_spec (key a b) 0), (Z.eqb_spec (key b a) 0); lia.
    + intros a b c Ha Hb Hc.
      pose proof (Hanti a b Ha Hb). pose proof (Hanti b a Hb Ha).
      pose proof (Hanti b c Hb Hc). pose proof (Hanti c b Hc Hb).
      pose proof (Hanti a c Ha Hc). pose proof (Hanti c a Hc Ha).
      pose proof (Htrans a b c Ha Hb Hc). pose proof (Htrans c a b Hc Ha Hb).
      pose proof (Htrans b c a Hb Hc Ha). pose proof (Htrans c b a Hc Hb Ha).
      pose proof (Htrans b a c Hb Ha Hc). pose proof (Htrans a c b Ha Hc Hb).
      pose proof (IHtrans a b c Ha Hb Hc).
      destruct (Z.eqb_spec (key a b) 0), (Z.eqb_spec (key b c) 0),
        (Z.eqb_spec (key a c) 0); lia.
Qed.

End KeyOrders.

Lemma consistentOn_pullback {A B} (f : A → B) (domainA : A → Prop)
    (domainB : B → Prop) (compare : B → B → Z) :
  (∀ a, domainA a → domainB (f a)) →
  consistentOn domainB compare →
  consistentOn domainA (fun a1 a2 => compare (f a1) (f a2)).
Proof.
  intros Hf [Hanti Htrans]. split.
  - intros a b Ha Hb. apply Hanti; by apply Hf.
  - intros a b c Ha Hb Hc. apply Htrans; by apply Hf.
Qed.

Lemma pairwiseCompare_nil_l {A} (compare : A → A → Z) l :
  pairwiseCompare compare [] l = 0.
Proof. done. Qed.

Lemma pairwiseCompare_nil_r {A} (compare : A → A → Z) l :
  pairwiseCompare compare l [] = 0.
Proof. by destruct l. Qed.

Lemma pairwiseCompare_cons {A} (compare : A → A → Z) x y l1 l2 :
  pairwiseCompare compare (x :: l1) (y :: l2)
  = if compare x y =? 0 then pairwiseCompare compare l1 l2 else compare x y.
Proof. done. Qed.

(** Position by position comparison is consistent on lists of one
    length. *)
Lemma pairwiseCompare_consistent {A} (compare : A → A → Z) (k : nat) :
  consistentOn (fun _ => True) compare →
  consistentOn (fun l => length l = k) (pairwiseCompare compare).
Proof.
  intros [Hanti Htrans]. induction k as [|k [IHanti IHtrans]].
  - split.
    + intros [|??] [|??]; simpl; intros; try done; rewrite ?pairwiseCompare_nil_l; lia.
    + intros [|??] [|??] [|??]; simpl; intros; try done.
  - split.
    + intros [|x l1] [|y l2] Hl1 Hl2; try done.
      rewrite !pairwiseCompare_cons.
      pose proof (Hanti x y I I). pose proof (Hanti y x I I).
      pose proof (IHanti l1 l2 ltac:(by injection Hl1) ltac:(by injection Hl2)).
      destruct (Z.eqb_spec (compare x y) 0), (Z.eqb_spec (compare y x) 0); lia.
    + intros [|x l1] [|y l2] [|z l3] Hl1 Hl2 Hl3; try done.
      rewrite !pairwiseCompare_cons.
      pose proof (Hanti x y I I). pose proof (Hanti y x I I).
      pose proof (Hanti y z I I). pose proof (Hanti z y I I).
      pose proof (Hanti x z I I). pose proof (Hanti z x I I).
      pose proof (Htrans x y z I I I). pose proof (Htrans z x y I I I).
      pose proof (Htrans y z x I I I). pose proof (Htrans z y x I I I).
      pose proof (Htrans y x z I I I). pose proof (Htrans x z y I I I).
      pose proof (IHtrans l1 l2 l3 ltac:(by injection Hl1)
                    ltac:(by injection Hl2) ltac:(by injection Hl3)).
      destruct (Z.eqb_spec (compare x y) 0), (Z.eqb_spec (compare y z) 0),
        (Z.eqb_spec (compare x z) 0); lia.
Qed.

(** ** The entry order *)

Section EntryOrder.
Context {T : Type} (collate : string → string → Z).

Lemma termOrder_unfold (term1 term2 : string) :
  termOrder collate term1 term2
  = if strlen term2 - strlen term1 =? 0 then collate term1 term2
    else strlen term2 - strlen term1.
Proof.
  unfold termOrder, descending. simpl.
  destruct (strlen term2 - strlen term1 =? 0); [|done].
  by destruct (Z.eqb_spec (collate term1 term2) 0).
Qed.

(** The loop over the headwords compares the terms position by position. *)
Lemma compareHeadwordTerms_spec (headwords1 headwords2 : list (Headword.t T)) :
  compareHeadwordTerms collate headwords1 headwords2
  = pairwiseCompare (termOrder collate)
      ((fun headword => Headword.term headword) <$> headwords1)
      ((fun headword => Headword.term headword) <$> headwords2).
Proof.
  revert headwords2.
  induction headwords1 as [|h1 r1 IH]; intros [|h2 r2]; try done.
  simpl compareHeadwordTerms. rewrite !fmap_cons, pairwiseCompare_cons.
  rewrite termOrder_unfold, IH.
  destruct (Z.eqb_spec (strlen (Headword.term h2) - strlen (Headword.term h1)) 0)
    as [Hlen|Hlen]; simpl.
  - by destruct (collate (Headword.term h1) (Headword.term h2) =? 0).
  - by destruct (Z.eqb_spec (strlen (Headword.term h2)
                             - strlen (Headword.term h1)) 0).
Qed.

(** The comparison function takes the keys of the entry order in turn. *)
Lemma compareTermDictionaryEntries_spec (v1 v2 : TermDictionaryEntry.t T) :
  compareTermDictionaryEntries collate v1 v2
  = lexCompare (entryKeys collate) v1 v2.
Proof.
  unfold compareTermDictionaryEntries, entryKeys, lexCompare,
    ascending, descending.
  rewrite compareHeadwordTerms_spec.
  repeat match goal with
         | |- context [negb (?x =? 0)] => destruct (x =? 0); simpl negb; cbv iota
         end; try reflexivity.
  by destruct (Z.eqb_spec (TermDictionaryEntry.dictionaryIndex v1
                           - TermDictionaryEntry.dictionaryIndex v2) 0).
Qed.

Hypothesis collate_consistent : consistentOn (fun _ => True) collate.

Lemma termOrder_consistent : consistentOn (fun _ => True) (termOrder collate).
Proof.
  apply lexCompare_consistent.
  apply Forall_cons; split; [apply descending_consistent|].
  apply Forall_cons; split; [exact collate_consistent|apply Forall_nil_2].
Qed.

(** On entries with one number of headwords the entry order is
    consistent. *)
Lemma entryKeys_consistent (k : nat) :
  consistentOn
    (fun entry : TermDictionaryEntry.t T =>
       length (TermDictionaryEntry.headwords entry) = k)
    (lexCompare (entryKeys collate)).
Proof.
  apply lexCompare_consistent. unfold entryKeys.
  repeat (apply Forall_cons; split);
    try apply ascending_consistent; try apply descending_consistent;
    [|apply Forall_nil_2].
  apply (consistentOn_pullback
           (fun entry : TermDictionaryEntry.t T =>
              (fun headword => Headword.term headword)
                <$> TermDictionaryEntry.headwords entry)
           _ (fun terms => length terms = k)).
  - intros entry Hk. by rewrite length_fmap.
  - apply pairwiseCompare_consistent, termOrder_consistent.
Qed.

End EntryOrder.

Lemma codeUnitCollate_consistent : consistentOn (fun _ => True) codeUnitCollate.
Proof.
  unfold codeUnitCollate. split.
  - intros a b _ _.
    rewrite (compareCodeUnits_flip (textCodeUnits b) (textCodeUnits a)). lia.
  - intros a b c _ _ _. apply compareCodeUnits_trans.
Qed.

(** ** The definition order *)

(** A key that is consistent on the lists of each length may follow the
    comparison of the lengths. *)
Lemma headwordIndexOrder_consistent :
  consistentOn (fun _ => True) headwordIndexOrder.
Proof.
  assert (Hpair : ∀ k, consistentOn (fun l : list nat => length l = k)
                         (pairwiseCompare (ascending Z.of_nat))).
  { intros k. apply pairwiseCompare_consistent, ascending_consistent. }
  unfold headwordIndexOrder, descending, len. simpl. split.
  - intros a b _ _.
    destruct (Hpair (length a)) as [Hanti _].
    destruct (Z.eqb_spec (Z.of_nat (length b) - Z.of_nat (length a)) 0),
      (Z.eqb_spec (Z.of_nat (length a) - Z.of_nat (length b)) 0); try lia.
    pose proof (Hanti a b eq_refl ltac:(lia)).
    destruct (Z.eqb_spec (pairwiseCompare (ascending Z.of_nat) a b) 0),
      (Z.eqb_spec (pairwiseCompare (ascending Z.of_nat) b a) 0); lia.
  - intros a b c _ _ _.
    destruct (Hpair (length a)) as [Hanti Htrans].
    destruct (Z.eqb_spec (Z.of_nat (length b) - Z.of_nat (length a)) 0),
      (Z.eqb_spec (Z.of_nat (length c) - Z.of_nat (length b)) 0),
      (Z.eqb_spec (Z.of_nat (length c) - Z.of_nat (length a)) 0); try lia.
    pose proof (Htrans a b c eq_refl ltac:(lia) ltac:(lia)).
    destruct (Z.eqb_spec (pairwiseCompare (ascending Z.of_nat) a b) 0),
      (Z.eqb_spec (pairwiseCompare (ascending Z.of_nat) b c) 0),
      (Z.eqb_spec (pairwiseCompare (ascending Z.of_nat) a c) 0); lia.
Qed.

Lemma definitionKeys_consistent :
  consistentOn (fun _ => True) (lexCompare definitionKeys).
Proof.
  apply lexCompare_consistent. unfold definitionKeys.
  repeat (apply Forall_cons; split);
    try apply ascending_consistent; try apply descending_consistent;
    [|apply Forall_nil_2].
  apply (consistentOn_pullback
           (fun definition : TermDefinition.t Tag.t =>
              TermDefinition.headwordIndices definition)
           _ (fun _ => True)); [done|].
  apply headwordIndexOrder_consistent.
Qed.

Lemma compareHeadwordIndices_spec (headwordIndices1 headwordIndices2 : list nat) :
  compareHeadwordIndices headwordIndices1 headwordIndices2
  = pairwiseCompare (ascending Z.of_nat) headwordIndices1 headwordIndices2.
Proof.
  revert headwordIndices2.
  induction headwordIndices1 as [|x r1 IH]; intros [|y r2]; try done.
  simpl compareHeadwordIndices. rewrite pairwiseCompare_cons, IH.
  unfold ascending. by destruct (Z.of_nat x - Z.of_nat y =? 0).
Qed.

Lemma scoreFromTags_spec (definition : TermDefinition.t Tag.t) :
  scoreFromTags definition = tagScoreSum definition.
Proof.
  unfold scoreFromTags, tagScoreSum.
  assert (Hfold : ∀ (tags : list Tag.t) start,
            fold_left (fun a b => a + Tag.score b) tags start
            = start + foldr Z.add 0 ((fun tag => Tag.score tag) <$> tags)).
  { induction tags as [|tag tags IH]; intros start; [simpl; lia|].
    rewrite fmap_cons. cbn [fold_left foldr]. rewrite IH. lia. }
  rewrite Hfold. lia.
Qed.

(** The comparison function takes the keys of the definition order in
    turn. *)
Lemma compareTermDefinitions_spec (v1 v2 : TermDefinition.t Tag.t) :
  compareTermDefinitions v1 v2 = lexCompare definitionKeys v1 v2.
Proof.
  unfold compareTermDefinitions, definitionKeys, headwordIndexOrder, lexCompare,
    ascending, descending.
  rewrite compareHeadwordIndices_spec, !scoreFromTags_spec.
  unfold ascending.
  repeat match goal with
         | |- context [negb (?x =? 0)] =>
             destruct (Z.eqb_spec x 0); simpl negb; cbv iota
         end; try reflexivity; try lia.
  all: repeat match goal with
         | |- context [?x =? 0] => destruct (Z.eqb_spec x 0)
         end; try reflexivity; try lia.
Qed.

(** ** Merging similar tags *)

Section TagFacts.

Lemma similarTags_refl tag : similarTags tag tag.
Proof. done. Qed.

Lemma similarTags_sym tag1 tag2 : similarTags tag1 tag2 → similarTags tag2 tag1.
Proof. unfold similarTags. intros [-> ->]. done. Qed.

Lemma similarTags_trans tag1 tag2 tag3 :
  similarTags tag1 tag2 → similarTags tag2 tag3 → similarTags tag1 tag3.
Proof. unfold similarTags. intros [<- <-] [<- <-]. done. Qed.

Lemma similarTags_mergeTag tag1 tag2 tag :
  similarTags (mergeTag tag1 tag2) tag ↔ similarTags tag1 tag.
Proof. done. Qed.

Lemma similarTags_fold tag1 others tag :
  similarTags (fold_left mergeTag others tag1) tag ↔ similarTags tag1 tag.
Proof.
  revert tag1. induction others as [|tag2 others IH]; intros tag1; simpl; [done|].
  by rewrite IH.
Qed.

(** The inner loop takes over the similar tags, in order, and keeps the
    others. *)
Lemma absorbSimilarTags_spec (tag1 : Tag.t) (rest : list Tag.t) :
  absorbSimilarTags tag1 rest
  = (fold_left mergeTag (filter (similarTags tag1) rest) tag1,
     filter (fun tag => ¬ similarTags tag1 tag) rest).
Proof.
  revert tag1. induction rest as [|tag2 rest IH]; intros tag1; simpl; [done|].
  rewrite !filter_cons.
  destruct (decide (similarTags tag1 tag2)) as [Hsim|Hsim].
  - rewrite decide_False by (by intros ?). rewrite IH. reflexivity.
  - rewrite decide_True by done. by rewrite IH.
Qed.

Lemma _mergeSimilarTags_cons (tag1 : Tag.t) (rest : list Tag.t) :
  _mergeSimilarTags (tag1 :: rest)
  = fold_left mergeTag (filter (similarTags tag1) rest) tag1
      :: _mergeSimilarTags (filter (fun tag => ¬ similarTags tag1 tag) rest).
Proof. simp _mergeSimilarTags. by rewrite absorbSimilarTags_spec. Qed.

(** Every tag of the result is the first tag of its class after it has
    taken over the later tags of the class, in order; the classes of the
    result are those of the list, once each. *)
Lemma _mergeSimilarTags_classes (tags : list Tag.t) :
  (∀ tag, tag ∈ tags →
     ∃ merged, merged ∈ _mergeSimilarTags tags ∧ similarTags merged tag)
  ∧ (∀ i j merged1 merged2,
       _mergeSimilarTags tags !! i = Some merged1 →
       _mergeSimilarTags tags !! j = Some merged2 →
       similarTags merged1 merged2 → i = j)
  ∧ (∀ merged, merged ∈ _mergeSimilarTags tags →
       ∃ first others,
         filter (similarTags merged) tags = first :: others
         ∧ merged = fold_left mergeTag others first).
Proof.
  remember (length tags) as n eqn:Hn.
  revert tags Hn. induction n as [n IH] using lt_wf_ind. intros tags Hn.
  destruct tags as [|tag1 rest].
  { simp _mergeSimilarTags. split; [|split].
    - intros tag Hin. by apply elem_of_nil in Hin.
    - intros i j ? ? Hi. done.
    - intros merged Hin. by apply elem_of_nil in Hin. }
  rewrite _mergeSimilarTags_cons.
  set (merged1 := fold_left mergeTag (filter (similarTags tag1) rest) tag1).
  set (rest' := filter (fun tag => ¬ similarTags tag1 tag) rest).
  assert (Hmerged1 : ∀ tag, similarTags merged1 tag ↔ similarTags tag1 tag)
    by (intros tag; apply similarTags_fold).
  destruct (IH (length rest')) with (tags := rest')
    as (IHcover & IHdistinct & IHclass); [|done|].
  { subst n rest'. simpl. pose proof (length_filter (fun tag => ¬ similarTags tag1 tag) rest). lia. }
  assert (Hrest' : ∀ merged, merged ∈ _mergeSimilarTags rest' →
                             ¬ similarTags tag1 merged).
  { intros merged Hin Hsim.
    destruct (IHclass merged Hin) as (first & others & Hclass & ->).
    assert (first ∈ filter (similarTags (fold_left mergeTag others first)) rest')
      as Hfirst by (rewrite Hclass; by left).
    apply list_elem_of_filter in Hfirst as [_ Hfirst].
    apply list_elem_of_filter in Hfirst as [Hfirst _].
    apply Hfirst. eapply similarTags_trans; [exact Hsim|].
    apply similarTags_fold, similarTags_refl. }
  split; [|split].
  - intros tag [->|Hin]%elem_of_cons.
    + exists merged1. split; [by left|]. apply Hmerged1, similarTags_refl.
    + destruct (decide (similarTags tag1 tag)) as [Hsim|Hsim].
      * exists merged1. split; [by left|]. by apply Hmerged1.
      * destruct (IHcover tag) as (merged & Hmerged & Hsimilar).
        { by apply list_elem_of_filter. }
        exists merged. split; [by right|done].
  - intros [|i] [|j] m1 m2 Hi Hj Hsim; simpl in *; [done| | |].
    + injection Hi as <-. exfalso. apply (Hrest' m2).
      * by eapply list_elem_of_lookup_2.
      * by apply Hmerged1.
    + injection Hj as <-. exfalso. apply (Hrest' m1).
      * by eapply list_elem_of_lookup_2.
      * apply similarTags_sym in Hsim. by apply Hmerged1.
    + f_equal. by eapply IHdistinct.
  - intros merged [->|Hin]%elem_of_cons.
    + exists tag1, (filter (similarTags tag1) rest). split; [|done].
      rewrite filter_cons, decide_True by (apply Hmerged1, similarTags_refl).
      f_equal. apply list_filter_iff. intros tag. apply Hmerged1.
    + destruct (IHclass merged Hin) as (first & others & Hclass & ->).
      exists first, others. split; [|done].
      rewrite filter_cons, decide_False; cycle 1.
      { intros Hsim. apply (Hrest' _ Hin). by apply similarTags_sym. }
      rewrite <- Hclass. subst rest'. rewrite list_filter_filter.
      apply list_filter_iff. intros tag. split; [|tauto].
      intros Hsim. split; [done|]. intros Hsim1.
      apply (Hrest' _ Hin). eapply similarTags_trans; [exact Hsim1|].
      by apply similarTags_sym.
Qed.

(** [_addUniqueSimple] keeps the list, appends the new items that are not
    in it yet, and introduces no repetition. *)
Lemma _addUniqueSimple_spec {A} `{EqDecision A} (items newItems : list A) :
  (∀ x, x ∈ _addUniqueSimple items newItems ↔ x ∈ items ∨ x ∈ newItems)
  ∧ (NoDup items → NoDup (_addUniqueSimple items newItems))
  ∧ ∃ added, _addUniqueSimple items newItems = items ++ added.
Proof.
  unfold _addUniqueSimple. revert items.
  induction newItems as [|item newItems IH]; intros items; simpl.
  - split; [|split; [done|]].
    + intros x. rewrite elem_of_nil. tauto.
    + exists []. by rewrite app_nil_r.
  - destruct (decide (item ∈ items)) as [Hin|Hnotin].
    + destruct (IH items) as (Helem & Hnodup & Hprefix).
      split; [|by split]. intros x. rewrite Helem, elem_of_cons.
      split; [tauto|]. intros [?|[->|?]]; tauto.
    + destruct (IH (items ++ [item])) as (Helem & Hnodup & [added Hprefix]).
      split; [|split].
      * intros x. rewrite Helem, elem_of_app, list_elem_of_singleton, elem_of_cons.
        tauto.
      * intros Hitems. apply Hnodup. apply NoDup_app. split; [done|].
        split; [|apply NoDup_singleton].
        intros x Hx ->%list_elem_of_singleton. done.
      * exists (item :: added). by rewrite Hprefix, <- app_assoc.
Qed.

(** The fields of a tag that has taken over other tags. *)
Lemma mergeTag_fold_fields (first : Tag.t) (others : list Tag.t) :
  let merged := fold_left mergeTag others first in
  Tag.name merged = Tag.name first
  ∧ Tag.category merged = Tag.category first
  ∧ (∀ tag, tag ∈ first :: others → Tag.order merged ≤ Tag.order tag)
  ∧ (∃ tag, tag ∈ first :: others ∧ Tag.order merged = Tag.order tag)
  ∧ (∀ tag, tag ∈ first :: others → Tag.score tag ≤ Tag.score merged)
  ∧ (∃ tag, tag ∈ first :: others ∧ Tag.score merged = Tag.score tag)
  ∧ Tag.dictionaries merged
    = mjoin ((fun tag => Tag.dictionaries tag) <$> first :: others)
  ∧ Tag.content merged
    = fold_left _addUniqueSimple ((fun tag => Tag.content tag) <$> others)
        (Tag.content first)
  ∧ (∀ x, x ∈ Tag.content merged
          ↔ ∃ tag, tag ∈ first :: others ∧ x ∈ Tag.content tag)
  ∧ (NoDup (Tag.content first) → NoDup (Tag.content merged)).
Proof.
  revert first. induction others as [|tag2 others IH]; intros first; simpl.
  - repeat split; try done.
    + intros tag ->%list_elem_of_singleton. lia.
    + exists first. split; [by left|done].
    + intros tag ->%list_elem_of_singleton. lia.
    + exists first. split; [by left|done].
    + by rewrite app_nil_r.
    + intros Hx. exists first. split; [by left|done].
    + intros (tag & ->%list_elem_of_singleton & Hx). done.
  - destruct (IH (mergeTag first tag2))
      as (Hname & Hcategory & Hmin & (tmin & Htmin & Hmineq) & Hmax
          & (tmax & Htmax & Hmaxeq) & Hdictionaries & Hcontent & Helem & Hnodup).
    simpl in *.
    destruct (_addUniqueSimple_spec (Tag.content first) (Tag.content tag2))
      as (Hunique_elem & Hunique_nodup & _).
    split; [done|]. split; [done|]. split; [|split; [|split; [|split]]].
    + intros tag [->|[->|Hin]%elem_of_cons]%elem_of_cons.
      * specialize (Hmin (mergeTag first tag2) ltac:(by left)). simpl in Hmin. lia.
      * specialize (Hmin (mergeTag first tag2) ltac:(by left)). simpl in Hmin. lia.
      * apply Hmin. by right.
    + apply elem_of_cons in Htmin as [->|Hin].
      * simpl in Hmineq.
        destruct (Z.min_spec (Tag.order first) (Tag.order tag2)) as [[_ Heq]|[_ Heq]].
        -- exists first. split; [by left|lia].
        -- exists tag2. split; [right; by left|lia].
      * exists tmin. split; [by do 2 right|done].
    + intros tag [->|[->|Hin]%elem_of_cons]%elem_of_cons.
      * specialize (Hmax (mergeTag first tag2) ltac:(by left)). simpl in Hmax. lia.
      * specialize (Hmax (mergeTag first tag2) ltac:(by left)). simpl in Hmax. lia.
      * apply Hmax. by right.
    + apply elem_of_cons in Htmax as [->|Hin].
      * simpl in Hmaxeq.
        destruct (Z.max_spec (Tag.score first) (Tag.score tag2)) as [[_ Heq]|[_ Heq]].
        -- exists tag2. split; [right; by left|lia].
        -- exists first. split; [by left|lia].
      * exists tmax. split; [by do 2 right|done].
    + split; [by rewrite Hdictionaries, <- app_assoc|].
      split; [done|]. split.
      * intros x. rewrite Helem. split.
        -- intros (tag & [->|Hin]%elem_of_cons & Hx).
           ++ simpl in Hx. apply Hunique_elem in Hx as [Hx|Hx].
              ** exists first. split; [by left|done].
              ** exists tag2. split; [right; by left|done].
           ++ exists tag. split; [by do 2 right|done].
        -- intros (tag & [->|[->|Hin]%elem_of_cons]%elem_of_cons & Hx).
           ++ exists (mergeTag first tag2). split; [by left|].
              simpl. apply Hunique_elem. by left.
           ++ exists (mergeTag first tag2). split; [by left|].
              simpl. apply Hunique_elem. by right.
           ++ exists tag. split; [by right|done].
      * intros Hfirst. apply Hnodup. by apply Hunique_nodup.
Qed.

End TagFacts.

(** ** Computations that query the database *)

Section DatabaseFacts.

Lemma DB_bind_Some {A B} (m : DB A) (f : A → DB B) calls x calls' :
  m calls = (Some x, calls') → (m ≫= f) calls = f x calls'.
Proof. intros Hm. unfold mbind, DB_bind. by rewrite Hm. Qed.

Lemma DB_bind_inv {A B} (m : DB A) (f : A → DB B) calls y calls'' :
  (m ≫= f) calls = (Some y, calls'') →
  ∃ x calls', m calls = (Some x, calls') ∧ f x calls' = (Some y, calls'').
Proof.
  unfold mbind, DB_bind. destruct (m calls) as [[x|] calls']; [|done].
  intros Hf. by exists x, calls'.
Qed.

Lemma emitsOnly_ret {A} P (x : A) : emitsOnly P (mret x).
Proof. intros calls. exists []. by rewrite app_nil_r. Qed.

Lemma emitsOnly_liftOption {A} P (result : option A) :
  emitsOnly P (liftOption result).
Proof. intros calls. exists []. by rewrite app_nil_r. Qed.

Lemma emitsOnly_bind {A B} P (m : DB A) (f : A → DB B) :
  emitsOnly P m → (∀ x, emitsOnly P (f x)) → emitsOnly P (m ≫= f).
Proof.
  intros Hm Hf calls. destruct (Hm calls) as (new1 & Hcalls1 & Hnew1).
  unfold mbind, DB_bind. destruct (m calls) as [[x|] calls1]; simpl in Hcalls1.
  - destruct (Hf x calls1) as (new2 & -> & Hnew2). subst calls1.
    exists (new1 ++ new2). rewrite app_assoc. split; [done|].
    by apply Forall_app.
  - by exists new1.
Qed.

Lemma emitsOnly_mono {A} (P Q : DatabaseCall → Prop) (m : DB A) :
  (∀ call, P call → Q call) → emitsOnly P m → emitsOnly Q m.
Proof.
  intros HPQ Hm calls. destruct (Hm calls) as (new & ? & Hnew).
  exists new. split; [done|]. by eapply Forall_impl.
Qed.

Lemma emitsOnly_findTermsBulk (P : DatabaseCall → Prop) database termList
    enabledDictionaryMap matchType :
  P (FindTermsBulk termList (dom enabledDictionaryMap) matchType) →
  emitsOnly P (findTermsBulk database termList enabledDictionaryMap matchType).
Proof. intros HP calls. eexists. split; [done|]. by apply Forall_singleton. Qed.

Lemma emitsOnly_findTermMetaBulk (P : DatabaseCall → Prop) database termList
    enabledDictionaryMap :
  P (FindTermMetaBulk termList (dom enabledDictionaryMap)) →
  emitsOnly P (findTermMetaBulk database termList enabledDictionaryMap).
Proof. intros HP calls. eexists. split; [done|]. by apply Forall_singleton. Qed.

Lemma emitsOnly_addEntriesToDeinflections collaborators database deinflections
    enabledDictionaryMap matchType checkRules :
  emitsOnly isFindTermsBulk
    (_addEntriesToDeinflections collaborators database deinflections
       enabledDictionaryMap matchType checkRules).
Proof.
  unfold _addEntriesToDeinflections.
  apply emitsOnly_bind; [apply emitsOnly_liftOption|]. intros map.
  apply emitsOnly_bind; [by apply emitsOnly_findTermsBulk|]. intros entries.
  apply emitsOnly_liftOption.
Qed.

Lemma emitsOnly_getDictionaryDeinflections collaborators database store
    deinflections enabledDictionaryMap matchType :
  emitsOnly isFindTermsBulk
    (_getDictionaryDeinflections collaborators database store deinflections
       enabledDictionaryMap matchType).
Proof.
  unfold _getDictionaryDeinflections.
  apply emitsOnly_bind; [apply emitsOnly_liftOption|]. intros [store' ds].
  apply emitsOnly_bind; [apply emitsOnly_addEntriesToDeinflections|]. intros ds'.
  apply emitsOnly_ret.
Qed.

Lemma emitsOnly_getDeinflections collaborators database text
    enabledDictionaryMap options :
  emitsOnly isFindTermsBulk
    (_getDeinflections collaborators database text enabledDictionaryMap options).
Proof.
  unfold _getDeinflections.
  destruct (initialDeinflections collaborators text options) as [store ds].
  destruct (len ds =? 0); [apply emitsOnly_ret|].
  apply emitsOnly_bind; [apply emitsOnly_addEntriesToDeinflections|]. intros ds'.
  case_decide; [|apply emitsOnly_ret].
  apply emitsOnly_bind; [apply emitsOnly_getDictionaryDeinflections|].
  intros [store' dds]. apply emitsOnly_ret.
Qed.

Lemma emitsOnly_findTermsInternal collaborators database text
    enabledDictionaryMap options :
  emitsOnly isFindTermsBulk
    (_findTermsInternal collaborators database text enabledDictionaryMap options).
Proof.
  unfold _findTermsInternal.
  destruct (strlen _ =? 0); [apply emitsOnly_ret|].
  apply emitsOnly_bind; [apply emitsOnly_getDeinflections|].
  intros [store ds]. apply emitsOnly_liftOption.
Qed.

End DatabaseFacts.

(** ** The deinflections never throw on well-formed answers *)

Section DeinflectionFacts.

Lemma Forall_imap_pair {A} (P : A → Prop) (items : list A) :
  Forall P items →
  Forall (fun pair : nat * A => P pair.2)
         (imap (fun position item => (position, item)) items).
Proof.
  intros Hitems. apply Forall_lookup. intros i [position item].
  rewrite list_lookup_imap. intros Hlookup.
  destruct (items !! i) as [item'|] eqn:Hitem; [|done].
  injection Hlookup as <- <-. simpl.
  by eapply (Forall_lookup_1 _ _ _ _ Hitems).
Qed.

Lemma _groupDeinflectionsByTerm_total deinflections :
  Forall (fun deinflection => plainKey (Deinflection.deinflectedText deinflection))
         deinflections →
  is_Some (_groupDeinflectionsByTerm deinflections).
Proof.
  intros Hplain. unfold _groupDeinflectionsByTerm.
  destruct (foldlM_invariant (fun _ : list (string * list nat) => True)
              (fun pair : nat * Deinflection.t =>
                 plainKey (Deinflection.deinflectedText pair.2))
              (fun map '(position, deinflection) =>
                 let term := Deinflection.deinflectedText deinflection in
                 if decide (term ∈ objectPrototypeKeys) then None
                 else
                   let deinflectionArray := default [] (objectGet term map) in
                   Some (objectSet term (deinflectionArray ++ [position]) map))
              (imap (fun position deinflection => (position, deinflection))
                    deinflections)
              []) as (map & Heq & _).
  - intros map [position deinflection] _ Hkey. simpl in *.
    rewrite decide_False by exact Hkey. eauto.
  - done.
  - by apply (Forall_imap_pair
                (fun deinflection =>
                   plainKey (Deinflection.deinflectedText deinflection))).
  - by exists map.
Qed.

(** A property of deinflections that pushing a database entry of the kind
    [Q] keeps is kept by [_matchEntriesToDeinflections], which does not
    throw when every index is in range. *)
Lemma _matchEntriesToDeinflections_total (P : Deinflection.t → Prop)
    (Q : DatabaseEntry.t → Prop) collaborators databaseEntries
    (uniqueDeinflectionArrays : list (list nat)) checkRules deinflections :
  (∀ deinflection databaseEntry,
     P deinflection → Q databaseEntry →
     P (Deinflection_pushDatabaseEntry deinflection databaseEntry)) →
  Forall (fun databaseEntry =>
            (DatabaseEntry.index databaseEntry < length uniqueDeinflectionArrays)%nat
            ∧ Q databaseEntry)
         databaseEntries →
  Forall P deinflections →
  ∃ deinflections',
    _matchEntriesToDeinflections collaborators databaseEntries
      uniqueDeinflectionArrays checkRules deinflections = Some deinflections'
    ∧ Forall P deinflections'.
Proof.
  intros Hpush Hentries Hdeinflections. unfold _matchEntriesToDeinflections.
  eapply (foldlM_invariant (Forall P)); [|exact Hdeinflections|exact Hentries].
  intros ds databaseEntry Hds [Hindex HQ]. simpl.
  destruct (lookup_lt_is_Some_2 _ _ Hindex) as [positions ->]. simpl.
  eexists. split; [done|].
  clear Hindex. revert ds Hds.
  induction positions as [|position positions IH]; intros ds Hds; simpl; [done|].
  apply IH. apply Forall_alter; [done|].
  intros deinflection _ Hd. destruct (_ || _); [by apply Hpush|done].
Qed.

Lemma _addEntriesToDeinflections_total (P : Deinflection.t → Prop)
    (Q : DatabaseEntry.t → Prop) collaborators database deinflections
    enabledDictionaryMap matchType checkRules calls :
  databaseWellFormed database →
  (∀ deinflection databaseEntry,
     P deinflection → Q databaseEntry →
     P (Deinflection_pushDatabaseEntry deinflection databaseEntry)) →
  (∀ count databaseEntry, databaseEntryWellFormed count databaseEntry → Q databaseEntry) →
  Forall (fun deinflection => plainKey (Deinflection.deinflectedText deinflection))
         deinflections →
  Forall P deinflections →
  ∃ deinflections' calls',
    _addEntriesToDeinflections collaborators database deinflections
      enabledDictionaryMap matchType checkRules calls
    = (Some deinflections', calls')
    ∧ Forall P deinflections'.
Proof.
  intros [Hdatabase _] Hpush HQ Hplain HP. unfold _addEntriesToDeinflections.
  destruct (_groupDeinflectionsByTerm_total deinflections Hplain) as [map Hmap].
  rewrite Hmap.
  destruct (_matchEntriesToDeinflections_total P Q collaborators
              (Database.findTermsBulk database (map.*1) enabledDictionaryMap
                 matchType)
              (map.*2) checkRules deinflections Hpush)
    as (deinflections' & Hmatch & HP'); [|done|].
  - eapply Forall_impl; [apply Hdatabase|]. simpl.
    intros databaseEntry Hwf. split; [|by eapply HQ].
    destruct Hwf as [Hindex _]. by rewrite !length_fmap in *.
  - exists deinflections'. eexists. split; [|done].
    unfold mbind, DB_bind, liftOption, findTermsBulk. simpl. by rewrite Hmatch.
Qed.

End DeinflectionFacts.

(** ** [_getDeinflections] and [_findTermsInternal] return *)

Section GetDeinflectionsFacts.

Lemma synthesizedCandidate_mono (store store' : HypStore) deinflection :
  (length store ≤ length store')%nat →
  synthesizedCandidate store deinflection →
  synthesizedCandidate store' deinflection.
Proof. intros Hle [Hrefs Hflag]. split; [by eapply validRefs_mono|done]. Qed.

(** What the loops of [_getDictionaryDeinflections] keep: the store only
    grows, and the collected deinflections are synthesized candidates
    without database entries whose deinflected text is a plain key. *)
Lemma collectDictionaryDeinflections_total (store : HypStore) deinflections :
  Forall (algorithmCandidate store) deinflections →
  ∃ store' dictionaryDeinflections,
    collectDictionaryDeinflections store deinflections
    = Some (store', dictionaryDeinflections)
    ∧ (length store ≤ length store')%nat
    ∧ Forall (fun deinflection =>
                synthesizedCandidate store' deinflection
                ∧ plainKey (Deinflection.deinflectedText deinflection))
             dictionaryDeinflections.
Proof.
  intros Hcandidates. unfold collectDictionaryDeinflections.
  set (I := fun acc : HypStore * list Deinflection.t =>
              (length store ≤ length acc.1)%nat
              ∧ Forall (fun deinflection =>
                          synthesizedCandidate acc.1 deinflection
                          ∧ plainKey (Deinflection.deinflectedText deinflection))
                       acc.2).
  match goal with
  | |- ∃ _ _, foldlM ?f _ _ = _ ∧ _ =>
      destruct (foldlM_invariant I (algorithmCandidate store) f deinflections
                  (store, [])) as ([store' dds] & Heq & Hlen & Hdds)
  end.
  - intros [store1 dds1] deinflection [Hlen1 Hdds1] (Hrefs & _ & Hforms).
    simpl in Hlen1, Hdds1.
    destruct (mapM_is_Some_2 (fun ref : HypRef => store1 !! ref)
                (Deinflection.inflectionHypotheses deinflection))
      as [algHypotheses ->].
    { eapply Forall_impl; [exact Hrefs|]. simpl. intros ref Href.
      apply lookup_lt_is_Some_2. lia. }
    simpl. eexists. split; [done|].
    assert (I (store1, dds1)) as Hacc by done.
    revert Hacc. generalize (store1, dds1).
    induction Hforms as [|entry entries Hentry _ IH]; intros acc Hacc; simpl;
      [done|].
    apply IH. destruct acc as [store2 dds2]. destruct Hacc as [Hlen2 Hdds2].
    simpl in Hlen2, Hdds2.
    case_decide as Htag; [|done]. split; simpl.
    + rewrite length_app. lia.
    + apply Forall_app; split.
      * eapply Forall_impl; [exact Hdds2|]. simpl. intros d [Hd ?].
        split; [|done]. eapply synthesizedCandidate_mono; [|exact Hd].
        rewrite length_app. lia.
      * apply Forall_singleton. split; [split; [|done]|by apply Hentry].
        simpl. apply Forall_seq. intros ref Href. rewrite length_app. lia.
  - split; simpl; [lia|done].
  - done.
  - by exists store', dds.
Qed.

Lemma _getDictionaryDeinflections_total collaborators database (store : HypStore)
    deinflections enabledDictionaryMap matchType calls :
  databaseWellFormed database →
  Forall (algorithmCandidate store) deinflections →
  ∃ store' dictionaryDeinflections calls',
    _getDictionaryDeinflections collaborators database store deinflections
      enabledDictionaryMap matchType calls
    = (Some (store', dictionaryDeinflections), calls')
    ∧ (length store ≤ length store')%nat
    ∧ Forall (synthesizedCandidate store') dictionaryDeinflections.
Proof.
  intros Hdatabase Hcandidates. unfold _getDictionaryDeinflections.
  destruct (collectDictionaryDeinflections_total store deinflections Hcandidates)
    as (store' & dds & Hcollect & Hlen & Hdds).
  destruct (_addEntriesToDeinflections_total (synthesizedCandidate store')
              (fun _ => True) collaborators database dds enabledDictionaryMap
              matchType false calls Hdatabase)
    as (dds' & calls' & Hadd & Hdds'); try done.
  - eapply Forall_impl; [exact Hdds|]. by intros d [_ ?].
  - eapply Forall_impl; [exact Hdds|]. by intros d [? _].
  - exists store', dds', calls'. split; [|done].
    unfold mbind at 1, DB_bind at 1, liftOption. rewrite Hcollect.
    by rewrite (DB_bind_Some _ _ _ _ _ Hadd).
Qed.

Lemma algorithmCandidate_push store deinflection databaseEntry :
  algorithmCandidate store deinflection → lemmaFormOk databaseEntry →
  algorithmCandidate store
    (Deinflection_pushDatabaseEntry deinflection databaseEntry).
Proof.
  intros (Hrefs & Hflag & Hforms) Hentry. split; [done|]. split; [done|].
  simpl. apply Forall_app. split; [done|]. by apply Forall_singleton.
Qed.

(** [_getDeinflections] returns the candidates of the algorithm that have
    a database hit, followed by the synthesized candidates; all refer to
    objects of the returned store. *)
Lemma _getDeinflections_total collaborators database text enabledDictionaryMap
    options calls :
  databaseWellFormed database →
  candidatesWellFormed (initialDeinflections collaborators text options) →
  ∃ store algorithmHits synthesized calls',
    _getDeinflections collaborators database text enabledDictionaryMap options
      calls
    = (Some (store, algorithmHits ++ synthesized), calls')
    ∧ validDeinflections store (algorithmHits ++ synthesized)
    ∧ Forall countsForOriginalTextLength algorithmHits
    ∧ Forall (fun deinflection =>
                Deinflection.isDictionaryDeinflection deinflection = true)
             synthesized.
Proof.
  intros Hdatabase Hcandidates. unfold _getDeinflections.
  destruct (initialDeinflections collaborators text options)
    as [store deinflections].
  unfold candidatesWellFormed in Hcandidates. simpl in Hcandidates.
  destruct (len deinflections =? 0).
  { exists store, [], [], calls.
    split; [done|]. split; [by constructor|]. split; by constructor. }
  destruct (_addEntriesToDeinflections_total (algorithmCandidate store)
              lemmaFormOk collaborators database deinflections
              enabledDictionaryMap (FindTermsOptions.matchType options)
              (FindTermsOptions.deinflectionPosFilter options) calls Hdatabase)
    as (found & calls1 & Hadd & Hfound).
  - apply algorithmCandidate_push.
  - by intros count databaseEntry [_ ?].
  - eapply Forall_impl; [exact Hcandidates|]. by intros d (_ & _ & _ & ?).
  - eapply Forall_impl; [exact Hcandidates|].
    intros d (Hrefs & Hentries & Hflag & _). split; [done|]. split; [done|].
    rewrite Hentries. constructor.
  - rewrite (DB_bind_Some _ _ _ _ _ Hadd).
    set (hits := filter (fun deinflection =>
                           0 < len (Deinflection.databaseEntries deinflection))
                        found).
    assert (Forall (algorithmCandidate store) hits) as Hhits.
    { apply Forall_forall. intros d [_ Hin]%list_elem_of_filter.
      by eapply Forall_forall in Hfound. }
    assert (Forall countsForOriginalTextLength hits) as Hcount.
    { apply Forall_forall. intros d [Hlen Hin]%list_elem_of_filter.
      eapply Forall_forall in Hfound as (_ & Hflag & _); [|exact Hin].
      split; [|done]. intros Hnil. rewrite Hnil in Hlen. unfold len in Hlen.
      simpl in Hlen. lia. }
    case_decide.
    + destruct (_getDictionaryDeinflections_total collaborators database store
                  hits enabledDictionaryMap (FindTermsOptions.matchType options)
                  calls1 Hdatabase Hhits)
        as (store' & dds & calls2 & Hdict & Hlen & Hdds).
      rewrite (DB_bind_Some _ _ _ _ _ Hdict).
      exists store', hits, dds, calls2. split; [done|]. split; [|split; [done|]].
      * apply Forall_app. split.
        -- eapply Forall_impl; [exact Hhits|]. intros d (Hrefs & _).
           by eapply validRefs_mono.
        -- eapply Forall_impl; [exact Hdds|]. by intros d [? _].
      * eapply Forall_impl; [exact Hdds|]. by intros d [_ ?].
    + exists store, hits, [], calls1. rewrite app_nil_r.
      split; [done|]. split; [|by split].
      eapply Forall_impl; [exact Hhits|]. by intros d (? & _).
Qed.

(** [_findTermsInternal] returns; its [originalTextLength] is folded over
    the deinflections that [_getDeinflections] returns. *)
Lemma _findTermsInternal_total collaborators database text enabledDictionaryMap
    options calls :
  databaseWellFormed database →
  candidatesWellFormed
    (initialDeinflections collaborators
       (filteredText collaborators options text) options) →
  ∃ state calls',
    _findTermsInternal collaborators database text enabledDictionaryMap options
      calls = (Some state, calls')
    ∧ findStateInvariant state
    ∧ (filteredText collaborators options text = ""%string →
       state = FindState.mk [] [] ∅ 0)
    ∧ (filteredText collaborators options text ≠ ""%string →
       ∃ store algorithmHits synthesized,
         _getDeinflections collaborators database
           (filteredText collaborators options text) enabledDictionaryMap
           options calls
         = (Some (store, algorithmHits ++ synthesized), calls')
         ∧ Forall countsForOriginalTextLength algorithmHits
         ∧ Forall (fun deinflection =>
                     Deinflection.isDictionaryDeinflection deinflection = true)
                  synthesized
         ∧ FindState.originalTextLength state
           = fold_left originalTextLengthAfter (algorithmHits ++ synthesized) 0).
Proof.
  intros Hdatabase Hcandidates. unfold _findTermsInternal.
  fold (filteredText collaborators options text).
  destruct (filteredText collaborators options text) as [|c rest] eqn:Htext.
  { simpl. eexists _, _. split; [done|]. split; [|by split].
    split; [by constructor|]. intros id Hin. by apply not_elem_of_empty in Hin. }
  replace (strlen (String c rest) =? 0) with false
    by (symmetry; apply Z.eqb_neq; pose proof (strlen_cons_pos c rest); lia).
  destruct (_getDeinflections_total collaborators database (String c rest)
              enabledDictionaryMap options calls Hdatabase Hcandidates)
    as (store & hits & synthesized & calls' & Hget & Hvalid & Hhits & Hsynth).
  rewrite (DB_bind_Some _ _ _ _ _ Hget).
  destruct (addDeinflections_total enabledDictionaryMap store
              (hits ++ synthesized) (FindState.mk store [] ∅ 0) Hvalid)
    as (state & Heq & Hinv & Hotl).
  { split; [by constructor|]. intros id Hin. by apply not_elem_of_empty in Hin. }
  { done. }
  exists state, calls'. unfold liftOption. rewrite Heq.
  split; [done|]. split; [done|]. split; [done|]. intros _.
  by exists store, hits, synthesized.
Qed.

End GetDeinflectionsFacts.

(** ** Simple mode *)

Section SimpleModeFacts.

Lemma _addTermMeta_run collaborators database dictionaryEntries
    enabledDictionaryMap calls result calls' :
  _addTermMeta collaborators database dictionaryEntries enabledDictionaryMap calls
  = (result, calls') →
  calls' = calls ++ [FindTermMetaBulk ((collectMetaTargets dictionaryEntries).*1)
                       (dom enabledDictionaryMap)].
Proof.
  unfold _addTermMeta, mbind, DB_bind, findTermMetaBulk, liftOption.
  by intros [= _ <-].
Qed.

Lemma emitsOnly_addTermMeta (P : DatabaseCall → Prop) collaborators database
    dictionaryEntries enabledDictionaryMap :
  (∀ termList, P (FindTermMetaBulk termList (dom enabledDictionaryMap))) →
  emitsOnly P
    (_addTermMeta collaborators database dictionaryEntries enabledDictionaryMap).
Proof.
  intros HP. unfold _addTermMeta.
  apply emitsOnly_bind; [by apply emitsOnly_findTermMetaBulk|].
  intros metas. apply emitsOnly_liftOption.
Qed.

Lemma _addTermMeta_total collaborators database dictionaryEntries
    enabledDictionaryMap calls :
  databaseWellFormed database →
  ∃ dictionaryEntries' calls',
    _addTermMeta collaborators database dictionaryEntries enabledDictionaryMap
      calls = (Some dictionaryEntries', calls').
Proof.
  intros [_ Hdatabase].
  unfold _addTermMeta, mbind, DB_bind, findTermMetaBulk, liftOption.
  match goal with
  | |- ∃ _ _, (foldlM ?f ?metas ?acc, _) = _ =>
      destruct (foldlM_invariant (fun _ => True)
                  (fun meta =>
                     (TermMeta.index meta
                      < length ((collectMetaTargets dictionaryEntries).*1))%nat)
                  f metas acc) as (entries' & -> & _)
  end.
  - intros entries meta _ Hindex.
    destruct (_getDictionaryOrder _ _) as [dictionaryIndex dictionaryPriority].
    rewrite length_fmap in Hindex.
    destruct (lookup_lt_is_Some_2 ((collectMetaTargets dictionaryEntries).*2)
                (TermMeta.index meta)) as [map2 ->].
    { by rewrite length_fmap. }
    simpl. eauto.
  - done.
  - apply Hdatabase.
  - eauto.
Qed.

Lemma dom_sortDictionaryMap sortFrequencyDictionary
    (enabledDictionaryMap : EnabledDictionaryMap) :
  dom (sortDictionaryMap sortFrequencyDictionary enabledDictionaryMap)
  = dom enabledDictionaryMap ∩ {[sortFrequencyDictionary]}.
Proof.
  unfold sortDictionaryMap. rewrite filter_cons, filter_nil.
  destruct (enabledDictionaryMap !! sortFrequencyDictionary) as [details|]
    eqn:Hlookup.
  - rewrite decide_True by eauto. simpl. rewrite Hlookup.
    rewrite dom_insert_L, dom_empty_L.
    apply (elem_of_dom_2 (D := gset string)) in Hlookup.
    apply set_eq. intros key.
    rewrite elem_of_union, elem_of_intersection, elem_of_singleton, elem_of_empty.
    split; [intros [->|[]]; by split|intros [_ ->]; by left].
  - rewrite decide_False by (by intros [? ?]). simpl. rewrite dom_empty_L.
    apply (not_elem_of_dom (D := gset string)) in Hlookup.
    apply set_eq. intros key.
    rewrite elem_of_intersection, elem_of_singleton, elem_of_empty.
    split; [done|]. intros [Hin ->]. by apply Hlookup.
Qed.

(** *** Tags *)

Lemma expansionTags_empty tagGroups : expansionTags tagGroups = [].
Proof. by destruct tagGroups. Qed.

Lemma _clearTermTags_empty dictionaryEntries :
  Forall allTagListsEmpty (_clearTermTags dictionaryEntries).
Proof.
  unfold _clearTermTags, _getTermTagTargets. apply Forall_fmap, Forall_true.
  intros dictionaryEntry. unfold allTagListsEmpty. simpl.
  split; [|split]; apply Forall_fmap, Forall_true; intros item; simpl.
  - apply expansionTags_empty.
  - apply expansionTags_empty.
  - split; apply Forall_fmap, Forall_true; intros x; apply expansionTags_empty.
Qed.

Lemma _updateSortFrequencies_empty dictionaryEntries dictionary ascending :
  Forall allTagListsEmpty dictionaryEntries →
  Forall allTagListsEmpty
    (_updateSortFrequencies dictionaryEntries dictionary ascending).
Proof.
  intros Hempty. unfold _updateSortFrequencies. apply Forall_fmap.
  eapply Forall_impl; [exact Hempty|]. simpl.
  intros dictionaryEntry (Hheadwords & Hdefinitions & Hpronunciations).
  unfold updateEntrySortFrequencies, allTagListsEmpty.
  destruct (scanFrequencies _ _) as [[frequencyMap frequencyMin] frequencyMax].
  simpl. split; [done|]. split; [|done].
  apply Forall_fmap. eapply Forall_impl; [exact Hdefinitions|]. simpl.
  intros definition Htags. by destruct (scanHeadwordIndices _ _).
Qed.

Lemma arraySort_Forall {A} (P : A → Prop) (compare : A → A → Z) (array : list A) :
  Forall P array → Forall P (arraySort compare array).
Proof.
  intros Harray. by rewrite arraySort_Permutation.
Qed.

Lemma sortDictionaryEntries_Forall {T} (P : TermDictionaryEntry.t T → Prop)
    stringComparerCompare (dictionaryEntries : list (TermDictionaryEntry.t T)) :
  Forall P dictionaryEntries →
  Forall P (sortDictionaryEntries stringComparerCompare dictionaryEntries).
Proof.
  intros HP. unfold sortDictionaryEntries, _sortTermDictionaryEntries.
  destruct (1 <? _); [by apply arraySort_Forall|done].
Qed.

Lemma flagRedundantStep_empty definitions lastDictionary lastPartOfSpeech flagged :
  Forall (fun definition => TermDefinition.tags definition = []) definitions →
  (fold_left flagRedundantStep definitions
     (lastDictionary, lastPartOfSpeech, flagged)).2
  = flagged ++ definitions.
Proof.
  intros Hempty. revert lastDictionary lastPartOfSpeech flagged.
  induction Hempty as [|definition definitions Htags _ IH];
    intros lastDictionary lastPartOfSpeech flagged; cbn [fold_left].
  - simpl. by rewrite app_nil_r.
  - assert (∃ dictionary partOfSpeech,
              flagRedundantStep (lastDictionary, lastPartOfSpeech, flagged)
                definition
              = (dictionary, partOfSpeech, flagged ++ [definition]))
      as (dictionary & partOfSpeech & ->).
    { unfold flagRedundantStep. rewrite Htags. simpl.
      replace (TermDefinition_setTags definition []) with definition
        by (destruct definition; simpl in Htags; by subst).
      repeat case_decide; eauto. }
    rewrite IH. by rewrite <- app_assoc.
Qed.

(** Definitions without tags are left as they are. *)
Lemma _flagRedundantDefinitionTags_empty definitions :
  Forall (fun definition => TermDefinition.tags definition = []) definitions →
  _flagRedundantDefinitionTags definitions = definitions.
Proof. intros Hempty. by apply flagRedundantStep_empty. Qed.

Lemma finishDictionaryEntry_empty dictionaryEntry :
  allTagListsEmpty dictionaryEntry →
  allTagListsEmpty (finishDictionaryEntry dictionaryEntry).
Proof.
  intros (Hheadwords & Hdefinitions & Hpronunciations).
  unfold finishDictionaryEntry, allTagListsEmpty. simpl.
  split; [done|]. split.
  - rewrite _flagRedundantDefinitionTags_empty by done.
    unfold sortDefinitions, _sortTermDictionaryEntryDefinitions.
    destruct (1 <? _); [by apply arraySort_Forall|done].
  - unfold _sortTermDictionaryEntrySimpleData.
    destruct (1 <? _); [by apply arraySort_Forall|done].
Qed.

End SimpleModeFacts.

(** ** The example dictionary is well formed *)

Lemma exampleDatabase_wellFormed : databaseWellFormed exampleDatabase.
Proof.
  split.
  - intros termList enabledDictionaryMap matchType. simpl.
    case_decide as Hfirst; [|constructor].
    apply Forall_singleton. split; simpl.
    + by eapply lookup_lt_Some.
    + intros Htag%list_elem_of_singleton. discriminate.
  - intros termList enabledDictionaryMap. simpl.
    case_decide as Hfirst; [|constructor].
    destruct Hfirst as [Hfirst _]. apply lookup_lt_Some in Hfirst.
    by repeat constructor.
Qed.

Lemma exampleCandidates_wellFormed text :
  candidatesWellFormed
    (initialDeinflections exampleCollaborators text exampleOptions).
Proof.
  unfold candidatesWellFormed, plainKey, validRefs. simpl.
  repeat first [ apply Forall_nil_2 | apply Forall_cons_2 | split ];
    simpl; try lia; try done.
  all: intros Hin; repeat (apply elem_of_cons in Hin as [Hin|Hin]; [done|]);
    by apply elem_of_nil in Hin.
Qed.



(** ** The sort frequency of an entry *)

Section FrequencyFacts.

Lemma foldr_min_init (l : list Z) (a x : Z) :
  foldr Z.min (Z.min a x) l = Z.min x (foldr Z.min a l).
Proof. induction l as [|y l IH]; simpl; lia. Qed.

Lemma foldr_max_init (l : list Z) (a x : Z) :
  foldr Z.max (Z.max a x) l = Z.max x (foldr Z.max a l).
Proof. induction l as [|y l IH]; simpl; lia. Qed.

Lemma fold_left_min_foldr (l : list Z) (a : Z) :
  fold_left Z.min l a = foldr Z.min a l.
Proof.
  revert a. induction l as [|x l IH]; intros a; simpl; [done|].
  by rewrite IH, foldr_min_init.
Qed.

Lemma fold_left_max_foldr (l : list Z) (a : Z) :
  fold_left Z.max l a = foldr Z.max a l.
Proof.
  revert a. induction l as [|x l IH]; intros a; simpl; [done|].
  by rewrite IH, foldr_max_init.
Qed.

Lemma foldr_min_bounded (rest : list Z) (x bound : Z) :
  x ≤ bound → Forall (fun y => y ≤ bound) rest →
  Z.min x (foldr Z.min bound rest) = foldr Z.min x rest.
Proof. intros Hx. induction 1 as [|y rest Hy _ IH]; simpl; lia. Qed.

Lemma foldr_max_bounded (rest : list Z) (x bound : Z) :
  bound ≤ x → Forall (fun y => bound ≤ y) rest →
  Z.max x (foldr Z.max bound rest) = foldr Z.max x rest.
Proof. intros Hx. induction 1 as [|y rest Hy _ IH]; simpl; lia. Qed.

(** The running minimum and maximum of the loop over [frequencies] are
    those of the frequencies of the dictionary. *)
Lemma scanFrequencies_min_max {T} dictionary (entry : TermDictionaryEntry.t T) :
  let frequencies := frequenciesFrom dictionary (fun _ => True) entry in
  let scan := scanFrequencies dictionary (TermDictionaryEntry.frequencies entry) in
  scan.1.2 = foldr Z.min MAX_SAFE_INTEGER frequencies
  ∧ scan.2 = foldr Z.max MIN_SAFE_INTEGER frequencies.
Proof.
  intros frequencies scan. subst frequencies scan.
  unfold scanFrequencies, frequenciesFrom.
  rewrite <- fold_left_min_foldr, <- fold_left_max_foldr.
  generalize (∅ : gmap nat Z) as frequencyMap.
  generalize MAX_SAFE_INTEGER as frequencyMin.
  generalize MIN_SAFE_INTEGER as frequencyMax.
  induction (TermDictionaryEntry.frequencies entry) as [|item items IH];
    intros frequencyMax frequencyMin frequencyMap; [done|].
  rewrite filter_cons. cbn [fold_left].
  destruct (decide (TermFrequency.dictionary item ≠ dictionary)) as [Hne|Heq].
  - rewrite decide_False by (by intros [? _]). apply IH.
  - rewrite decide_True by (split; [by destruct (decide
      (TermFrequency.dictionary item = dictionary))|done]).
    rewrite fmap_cons. cbn [fold_left]. apply IH.
Qed.

(** The entries do receive what the rule says of their frequencies from the
    dictionary, as long as these are safe integers. *)
Lemma updateEntrySortFrequencies_frequencyOrder {T} dictionary ascending
    (entry : TermDictionaryEntry.t T) :
  Forall (fun frequency => MIN_SAFE_INTEGER ≤ frequency ≤ MAX_SAFE_INTEGER)
         (frequenciesFrom dictionary (fun _ => True) entry) →
  TermDictionaryEntry.frequencyOrder
    (updateEntrySortFrequencies dictionary ascending entry)
  = frequencyOrderFor ascending (frequenciesFrom dictionary (fun _ => True) entry).
Proof.
  intros Hsafe.
  pose proof (scanFrequencies_min_max dictionary entry) as [Hmin Hmax].
  unfold updateEntrySortFrequencies.
  destruct (scanFrequencies dictionary (TermDictionaryEntry.frequencies entry))
    as [[frequencyMap frequencyMin] frequencyMax].
  simpl in Hmin, Hmax. simpl. subst frequencyMin frequencyMax.
  unfold frequencyOrderOf, frequencyOrderFor.
  destruct (frequenciesFrom dictionary (fun _ => True) entry)
    as [|frequency rest]; [done|].
  apply Forall_cons in Hsafe as [Hfrequency Hrest]. simpl.
  rewrite (foldr_min_bounded rest frequency MAX_SAFE_INTEGER)
    by (first [lia | eapply Forall_impl; [exact Hrest|]; simpl; lia]).
  rewrite (foldr_max_bounded rest frequency MIN_SAFE_INTEGER)
    by (first [lia | eapply Forall_impl; [exact Hrest|]; simpl; lia]).
  assert (foldr Z.min frequency rest ≤ frequency) as Hlow
    by (clear; induction rest; simpl; lia).
  assert (frequency ≤ foldr Z.max frequency rest) as Hhigh
    by (clear; induction rest; simpl; lia).
  replace (_ <=? _) with true by (symmetry; apply Z.leb_le; lia).
  done.
Qed.

End FrequencyFacts.

(** ** The entries of simple mode *)

Section SimpleEntryFacts.

Lemma foldlM_preserves {A B} (I : A → Prop) (f : A → B → option A)
    (items : list B) (acc acc' : A) :
  (∀ a b a', I a → f a b = Some a' → I a') →
  I acc → foldlM f items acc = Some acc' → I acc'.
Proof.
  intros Hstep. revert acc.
  induction items as [|b bs IH]; intros acc Hacc; simpl.
  - by intros [= <-].
  - destruct (f acc b) as [a'|] eqn:Hf; simpl; [|done].
    apply IH. by eapply Hstep.
Qed.

Lemma fold_left_preserves {A B} (I : A → Prop) (f : A → B → A)
    (items : list B) (acc : A) :
  (∀ a b, I a → I (f a b)) → I acc → I (fold_left f items acc).
Proof.
  intros Hstep. revert acc.
  induction items as [|b bs IH]; intros acc Hacc; simpl; [done|].
  by apply IH, Hstep.
Qed.

Lemma addDatabaseEntry_single enabledDictionaryMap deinflection state
    databaseEntry state' :
  Forall singleEntry (FindState.dictionaryEntries state) →
  addDatabaseEntry enabledDictionaryMap deinflection state databaseEntry
  = Some state' →
  Forall singleEntry (FindState.dictionaryEntries state').
Proof.
  intros Hsingle. unfold addDatabaseEntry.
  case_decide as Hid.
  - destruct (list_find _ _) as [[position existingEntry]|] eqn:Hfind;
      simpl; [|done].
    apply list_find_Some in Hfind as (Hlookup & _ & _).
    destruct (firstTransformedText existingEntry) as [text|]; simpl; [|done].
    destruct (_ <=? _); [|by intros [= <-]].
    destruct (mergeInflectionHypotheses _ _ _) as [[store merged]|]; simpl;
      [|done].
    intros [= <-]. simpl. apply Forall_insert; [done|].
    by eapply (Forall_lookup_1 _ _ _ _ Hsingle) in Hlookup.
  - case_decide; intros [= <-]; [done|]. simpl.
    apply Forall_app. split; [done|]. apply Forall_singleton.
    unfold singleEntry, _createTermDictionaryEntryFromDatabaseEntry.
    by destruct (_getDictionaryOrder _ _).
Qed.

Lemma addDeinflection_single enabledDictionaryMap state deinflection state' :
  Forall singleEntry (FindState.dictionaryEntries state) →
  addDeinflection enabledDictionaryMap state deinflection = Some state' →
  Forall singleEntry (FindState.dictionaryEntries state').
Proof.
  intros Hsingle. unfold addDeinflection.
  destruct (len _ =? 0); [by intros [= <-]|].
  apply (foldlM_preserves
           (fun state => Forall singleEntry (FindState.dictionaryEntries state))).
  - intros a b a'. apply addDatabaseEntry_single.
  - by destruct (negb _).
Qed.

Lemma _findTermsInternal_single collaborators database text enabledDictionaryMap
    options calls state calls' :
  _findTermsInternal collaborators database text enabledDictionaryMap options
    calls = (Some state, calls') →
  Forall singleEntry (FindState.dictionaryEntries state).
Proof.
  unfold _findTermsInternal.
  destruct (strlen _ =? 0); [by intros [= <- _]|].
  intros ([store deinflections] & calls1 & _ & Hloop)%DB_bind_inv.
  unfold liftOption in Hloop. injection Hloop as Hloop _.
  revert Hloop.
  apply (foldlM_preserves
           (fun state => Forall singleEntry (FindState.dictionaryEntries state)));
    [|apply Forall_nil_2].
  intros a b a'. apply addDeinflection_single.
Qed.

Lemma _removeExcludedDefinitions_single dictionaryEntries
    excludeDictionaryDefinitions :
  Forall singleEntry dictionaryEntries →
  Forall singleEntry
    (_removeExcludedDefinitions dictionaryEntries excludeDictionaryDefinitions).
Proof.
  intros Hsingle. unfold _removeExcludedDefinitions.
  apply Forall_forall. intros entry' Hin.
  apply list_elem_of_omap in Hin as (entry & Hin & Hentry).
  eapply Forall_forall in Hsingle as [Hheadwords Hdefinitions]; [|exact Hin].
  unfold removeExcludedFromEntry, _removeArrayItemsWithDictionary in Hentry.
  destruct (TermDictionaryEntry.definitions entry) as [|definition [|? ?]];
    try done.
  rewrite filter_cons, filter_nil in Hentry.
  destruct (decide (TermDefinition.dictionary definition
                    ∉ excludeDictionaryDefinitions)); simpl in Hentry.
  - injection Hentry as <-. split; simpl; [|done]. by rewrite length_fmap.
  - done.
Qed.

Lemma addTermMetaToTargets_Forall (P : TermDictionaryEntry.t TagGroup.t → Prop)
    convertStringToNumber data dictionary dictionaryIndex dictionaryPriority
    dictionaryEntries readingTargets :
  (∀ entry frequency, P entry → P (pushFrequency frequency entry)) →
  (∀ entry pronunciation, P entry → P (pushPronunciation pronunciation entry)) →
  Forall P dictionaryEntries →
  Forall P
    (addTermMetaToTargets convertStringToNumber data dictionary dictionaryIndex
       dictionaryPriority dictionaryEntries readingTargets).
Proof.
  intros Hfrequency Hpronunciation Hentries.
  destruct readingTargets as [reading targets]. unfold addTermMetaToTargets.
  assert (∀ hasReading frequency,
            Forall P
              (fold_left
                 (fun '(dictionaryEntries, frequency) target =>
                    let '(frequency, displayValue, displayValueParsed) :=
                      _getFrequencyInfo convertStringToNumber frequency in
                    (alter (pushFrequency
                              (fun index =>
                                 TermFrequency.mk index
                                   (MetaTarget.headwordIndex target) dictionary
                                   dictionaryIndex dictionaryPriority hasReading
                                   frequency displayValue displayValueParsed))
                           (MetaTarget.entry target) dictionaryEntries,
                     FrequencyNumber frequency))
                 targets (dictionaryEntries, frequency)).1) as Hfrequencies.
  { intros hasReading frequency.
    apply (fold_left_preserves
             (fun acc : list (TermDictionaryEntry.t TagGroup.t) * FrequencyValue =>
                Forall P acc.1)); [|done].
    intros [entries value] target Hacc. simpl in Hacc.
    destruct (_getFrequencyInfo _ _) as [[? ?] ?]. simpl.
    apply Forall_alter; [done|]. intros entry _. apply Hfrequency. }
  assert (∀ pitches phoneticTranscriptions,
            Forall P
              (fold_left
                 (fun dictionaryEntries target =>
                    alter (pushPronunciation
                             (fun index =>
                                TermPronunciation.mk index
                                  (MetaTarget.headwordIndex target) dictionary
                                  dictionaryIndex dictionaryPriority pitches
                                  phoneticTranscriptions))
                          (MetaTarget.entry target) dictionaryEntries)
                 targets dictionaryEntries)) as Hpronunciations.
  { intros pitches phoneticTranscriptions.
    apply (fold_left_preserves (Forall P)); [|done].
    intros entries target Hacc.
    apply Forall_alter; [done|]. intros entry _. apply Hpronunciation. }
  destruct data; repeat case_decide; auto.
Qed.

Lemma _addTermMeta_Forall (P : TermDictionaryEntry.t TagGroup.t → Prop)
    collaborators database dictionaryEntries enabledDictionaryMap calls
    dictionaryEntries' calls' :
  (∀ entry frequency, P entry → P (pushFrequency frequency entry)) →
  (∀ entry pronunciation, P entry → P (pushPronunciation pronunciation entry)) →
  Forall P dictionaryEntries →
  _addTermMeta collaborators database dictionaryEntries enabledDictionaryMap calls
  = (Some dictionaryEntries', calls') →
  Forall P dictionaryEntries'.
Proof.
  intros Hfrequency Hpronunciation Hentries.
  unfold _addTermMeta, mbind, DB_bind, findTermMetaBulk, liftOption.
  intros [= Hloop _]. revert Hloop.
  apply (foldlM_preserves (Forall P)); [|done].
  intros entries meta entries' Hacc.
  destruct (_getDictionaryOrder _ _) as [dictionaryIndex dictionaryPriority].
  destruct (_ !! _) as [map2|]; simpl; [|done].
  intros [= <-]. apply (fold_left_preserves (Forall P)); [|done].
  intros. by apply addTermMetaToTargets_Forall.
Qed.

(** Every entry that simple mode returns has one headword. *)
Lemma findTerms_simple_single collaborators database text options calls result
    calls' :
  findTerms_simple collaborators database text options calls
  = (Some result, calls') →
  Forall (fun entry => length (TermDictionaryEntry.headwords entry) = 1%nat)
         (FindTermsResult.dictionaryEntries result).
Proof.
  unfold findTerms_simple.
  intros (state & calls1 & Hstate & Hrun)%DB_bind_inv.
  apply DB_bind_inv in Hrun as (entries & calls2 & Hmeta & Hrun).
  injection Hrun as <- _. simpl.
  apply _findTermsInternal_single in Hstate.
  assert (Forall singleEntry entries) as Hentries.
  { assert (Forall singleEntry
              match FindTermsOptions.excludeDictionaryDefinitions options with
              | Some excludeDictionaryDefinitions =>
                  _removeExcludedDefinitions (FindState.dictionaryEntries state)
                    excludeDictionaryDefinitions
              | None => FindState.dictionaryEntries state
              end) as Hremoved.
    { destruct (FindTermsOptions.excludeDictionaryDefinitions options);
        [by apply _removeExcludedDefinitions_single|done]. }
    destruct (FindTermsOptions.sortFrequencyDictionary options).
    - eapply (_addTermMeta_Forall singleEntry); [| |exact Hremoved|exact Hmeta];
        by intros entry ? [? ?].
    - by injection Hmeta as <- _. }
  apply Forall_fmap. apply sortDictionaryEntries_Forall.
  assert (Forall (fun entry : TermDictionaryEntry.t Tag.t =>
                    length (TermDictionaryEntry.headwords entry) = 1%nat)
                 (_clearTermTags entries)) as Hcleared.
  { unfold _clearTermTags, _getTermTagTargets. apply Forall_fmap.
    eapply Forall_impl; [exact Hentries|]. simpl.
    intros entry [Hheadwords _]. by rewrite length_fmap. }
  destruct (FindTermsOptions.sortFrequencyDictionary options); [|done].
  unfold _updateSortFrequencies. apply Forall_fmap.
  eapply Forall_impl; [exact Hcleared|]. simpl.
  intros entry Hheadwords. unfold updateEntrySortFrequencies.
  by destruct (scanFrequencies _ _) as [[? ?] ?].
Qed.

End SimpleEntryFacts.

(** ** The order of the entries that simple mode returns *)

Section SimpleOrderFacts.

Lemma flagRedundantStep_length definitions state :
  length (fold_left flagRedundantStep definitions state).2
  = (length state.2 + length definitions)%nat.
Proof.
  revert state. induction definitions as [|definition definitions IH];
    intros [[lastDictionary lastPartOfSpeech] flagged]; cbn [fold_left].
  - simpl. lia.
  - rewrite IH. unfold flagRedundantStep.
    repeat case_decide; simpl; rewrite length_app; simpl; lia.
Qed.

Lemma finishDictionaryEntry_definitions_length dictionaryEntry :
  len (TermDictionaryEntry.definitions (finishDictionaryEntry dictionaryEntry))
  = len (TermDictionaryEntry.definitions dictionaryEntry).
Proof.
  unfold finishDictionaryEntry, len. simpl. f_equal.
  unfold sortDefinitions, _sortTermDictionaryEntryDefinitions.
  destruct (1 <? _); [rewrite arraySort_Permutation|];
    unfold _flagRedundantDefinitionTags; by rewrite flagRedundantStep_length.
Qed.

(** The last loop of [findTerms] changes no key of the entry order. *)
Lemma finishDictionaryEntry_keys collate entry1 entry2 :
  lexCompare (entryKeys collate) (finishDictionaryEntry entry1)
    (finishDictionaryEntry entry2)
  = lexCompare (entryKeys collate) entry1 entry2.
Proof.
  unfold entryKeys, lexCompare, ascending, descending.
  by rewrite !finishDictionaryEntry_definitions_length.
Qed.

(** The entries that simple mode returns are in the order of the keys,
    whenever the collation is consistent. *)
Lemma findTerms_simple_sorted collaborators database text options calls result
    calls' :
  consistentOn (fun _ => True)
    (Collaborators.stringComparerCompare collaborators) →
  findTerms_simple collaborators database text options calls
  = (Some result, calls') →
  StronglySorted
    (notAfter (entryKeys (Collaborators.stringComparerCompare collaborators)))
    (FindTermsResult.dictionaryEntries result).
Proof.
  intros Hcollate Hrun.
  pose proof (findTerms_simple_single _ _ _ _ _ _ _ Hrun) as Hsingle.
  unfold findTerms_simple in Hrun.
  apply DB_bind_inv in Hrun as (state & calls1 & _ & Hrun).
  apply DB_bind_inv in Hrun as (entries & calls2 & _ & Hrun).
  injection Hrun as <- _. simpl in *.
  set (collate := Collaborators.stringComparerCompare collaborators) in *.
  match goal with
  | |- StronglySorted _ (_ <$> sortDictionaryEntries _ ?unsorted) =>
      set (dictionaryEntries := unsorted) in *
  end.
  apply Forall_fmap in Hsingle.
  eapply (StronglySorted_fmap _ (notAfter (entryKeys collate))).
  { intros entry1 entry2 Horder. unfold notAfter.
    rewrite finishDictionaryEntry_keys. exact Horder. }
  assert (Forall (fun entry : TermDictionaryEntry.t Tag.t =>
                    length (TermDictionaryEntry.headwords entry) = 1%nat)
                 dictionaryEntries) as Hheadwords.
  { assert (sortDictionaryEntries collate dictionaryEntries ≡ₚ dictionaryEntries)
      as Hperm.
    { unfold sortDictionaryEntries, _sortTermDictionaryEntries.
      destruct (1 <? _); [apply arraySort_Permutation|done]. }
    rewrite Hperm in Hsingle.
    eapply Forall_impl; [exact Hsingle|]. by intros entry. }
  unfold sortDictionaryEntries, _sortTermDictionaryEntries.
  destruct (1 <? len dictionaryEntries) eqn:Hlen.
  - rewrite (arraySort_ext _ (lexCompare (entryKeys collate)))
      by apply compareTermDictionaryEntries_spec.
    by eapply (arraySort_sorted _ _ (entryKeys_consistent collate Hcollate 1)).
  - apply Z.ltb_ge in Hlen. unfold len in Hlen.
    destruct dictionaryEntries as [|e [|e' es]]; simpl in Hlen; try lia;
      repeat constructor.
Qed.

End SimpleOrderFacts.

(** ** C5: number of generated text variants *)

Section VariantCount.
Import Variants.

(** C5, as stated, fails: with collapse-emphatic-sequences switched on
    (setting ['true']) the axis has two outcomes, not one; with one
    replacement variant and no text transformation two variants are
    generated. *)
Lemma collapse_emphatic_on_emits_two_outcomes :
  _getCollapseEmphaticOptions "true" = [(false, false); (true, false)]
  ∧ length (_getCollapseEmphaticOptions "true") ≠ 1%nat
  ∧ length (arrayVariants {| textReplacements := [None];
                             collapseEmphaticSequences := "true";
                             textTransformations := [] |}) = 2%nat.
Proof. split; [reflexivity|]. split; [discriminate|reflexivity]. Qed.

(** C5 (amended): a text-transformation axis set to ['variant'] has the two
    outcomes (not applied, applied), set to ['true'] the single outcome
    (applied) and set to anything else the single outcome (not applied);
    the collapse-emphatic axis has one outcome when off, two when on
    (['true']: not collapsed, collapsed) and three when ['full'] (not
    collapsed, collapsed, fully collapsed); the text-replacements axis has
    one outcome per configured replacement variant; the number of generated
    variants is the product of these counts over all axes. *)
Theorem variant_count_is_product_over_axes (options : Options) :
  (∀ setting, _getTextOptionEntryVariants setting =
     if decide (setting = "variant"%string) then [false; true]
     else if decide (setting = "true"%string) then [true] else [false])
  ∧ (∀ setting, _getCollapseEmphaticOptions setting =
       if decide (setting = "true"%string) then [(false, false); (true, false)]
       else if decide (setting = "full"%string)
            then [(false, false); (true, false); (true, true)]
            else [(false, false)])
  ∧ length (arrayVariants options)
    = (length (textReplacements options)
       * (collapseOutcomes (collapseEmphaticSequences options)
          * product ((fun kv => transformOutcomes kv.2)
                       <$> textTransformations options)))%nat.
Proof.
  split; [|split].
  - intros setting. unfold _getTextOptionEntryVariants.
    destruct (String.eqb_spec setting "true") as [->|Hne1]; [reflexivity|].
    destruct (String.eqb_spec setting "variant") as [->|Hne2]; [reflexivity|].
    rewrite !decide_False by done. reflexivity.
  - intros setting. unfold _getCollapseEmphaticOptions.
    destruct (String.eqb_spec setting "true") as [->|Hne1]; [reflexivity|].
    destruct (String.eqb_spec setting "full") as [->|Hne2]; [reflexivity|].
    rewrite !decide_False by done. reflexivity.
  - unfold arrayVariants. rewrite _generateArrayVariants_length.
    unfold variantVectorSpace, _getTextReplacementsVariants. simpl.
    rewrite !length_fmap, _getCollapseEmphaticOptions_length.
    do 2 f_equal. rewrite <- list_fmap_compose.
    induction (textTransformations options) as [|kv kvs IH]; simpl.
    + reflexivity.
    + rewrite length_fmap, _getTextOptionEntryVariants_length.
      f_equal. exact IH.
Qed.

End VariantCount.

(** ** C9: inflection hypotheses of a grouped entry *)

(** C9: the inflection hypotheses of the entry folded from a group are
    those of the first primary member whose list has minimal length (every
    primary member before it has a strictly longer list, every primary
    member after it a list at least as long); members that are not primary
    take no part, and with no primary member the result is the empty
    list. *)
Theorem grouped_inflectionHypotheses_first_shortest_primary
    (dictionaryEntries : list (TermDictionaryEntry.t TagGroup.t))
    (checkDuplicateDefinitions : bool) :
  let result :=
    TermDictionaryEntry.inflectionHypotheses
      (_createGroupedDictionaryEntry dictionaryEntries checkDuplicateDefinitions) in
  match primaryMembers dictionaryEntries with
  | [] => result = []
  | _ :: _ =>
      ∃ before member after,
        primaryMembers dictionaryEntries = before ++ member :: after
        ∧ result = TermDictionaryEntry.inflectionHypotheses member
        ∧ Forall (fun other =>
                    (length (TermDictionaryEntry.inflectionHypotheses member)
                     < length (TermDictionaryEntry.inflectionHypotheses other))%nat)
                 before
        ∧ Forall (fun other =>
                    (length (TermDictionaryEntry.inflectionHypotheses member)
                     ≤ length (TermDictionaryEntry.inflectionHypotheses other))%nat)
                 after
  end.
Proof.
  intros result. subst result.
  rewrite grouped_inflectionHypotheses_fold.
  pose proof (chooseHypotheses_shortest_first dictionaryEntries) as Hfold.
  destruct (primaryMembers dictionaryEntries) as [|p ps].
  - by rewrite Hfold.
  - destruct Hfold as (before & member & after & Heq & Hfold & Hbefore & Hafter).
    exists before, member, after. by rewrite Hfold.
Qed.

(** ** C3: the count of exact source-term matches *)

(** C3, as stated, fails twice.  A primary entry built from a database
    entry that matched the term by prefix (term "abc" found for the
    deinflected text "ab") has count 0, although its only headword has a
    primary source with match source ['term'].  And the count of a grouped
    entry is not recomputed when headwords are removed from it: two primary
    exact matches of "ab" with the readings "x" and "y", from the
    dictionaries "D" and "E", are folded into an entry of two headwords and
    count 2; after the definitions of "E" have been removed the entry has
    the one headword of reading "x", and still the count 2. *)
Lemma sourceTermExactMatchCount_differs_from_headword_count :
  (let databaseEntry :=
     DatabaseEntry.mk 0 Prefix Term "abc" "" [] [] [] ["gloss"%string] 0 "D" 1 (-1)
       None None in
   let entry :=
     _createTermDictionaryEntryFromDatabaseEntry databaseEntry "ab" "ab" "ab" []
       true ∅ in
   TermDictionaryEntry.sourceTermExactMatchCount entry = 0
   ∧ primaryTermHeadwordCount entry = 1
   ∧ TermDictionaryEntry.sourceTermExactMatchCount entry
     ≠ primaryTermHeadwordCount entry)
  ∧ (let first :=
       _createTermDictionaryEntryFromDatabaseEntry
         (DatabaseEntry.mk 0 Exact Term "ab" "x" [] [] [] ["gloss"%string] 0 "D" 1 5
            None None)
         "ab" "ab" "ab" [] true ∅ in
     let second :=
       _createTermDictionaryEntryFromDatabaseEntry
         (DatabaseEntry.mk 0 Exact Term "ab" "y" [] [] [] ["sense"%string] 0 "E" 2 5
            None None)
         "ab" "ab" "ab" [] true ∅ in
     let grouped := _createGroupedDictionaryEntry [first; second] true in
     TermDictionaryEntry.sourceTermExactMatchCount grouped = 2
     ∧ primaryTermHeadwordCount grouped = 2
     ∧ ∃ entry,
         _removeExcludedDefinitions [grouped] {["E"%string]} = [entry]
         ∧ ((λ headword, Headword.reading headword)
              <$> TermDictionaryEntry.headwords entry)
           = ["x"%string]
         ∧ TermDictionaryEntry.sourceTermExactMatchCount entry = 2
         ∧ primaryTermHeadwordCount entry = 1).
Proof.
  split.
  - vm_compute. split; [reflexivity|]. split; [reflexivity|discriminate].
  - cbv zeta. split; [by vm_compute|]. split; [by vm_compute|].
    eexists. split; [vm_compute; reflexivity|].
    split; [reflexivity|]. split; [reflexivity|]. by vm_compute.
Qed.

(** C3 (amended): for an entry as [_createGroupedDictionaryEntry] returns
    it, folded from a group, the count equals the number of its headwords
    that have at least one primary source with match source ['term']
    (nothing is said of the count after headwords have been removed from
    the entry); for an entry built directly from one database
    entry it is 1 exactly when the entry is primary and the deinflected text
    equals the database entry's term, and 0 otherwise; when such an entry
    is folded as a group of its own the count becomes 1 exactly when it is
    primary and the database entry's match source is ['term']. *)
Theorem sourceTermExactMatchCount_by_construction :
  (∀ dictionaryEntries checkDuplicateDefinitions,
     let entry :=
       _createGroupedDictionaryEntry dictionaryEntries checkDuplicateDefinitions in
     TermDictionaryEntry.sourceTermExactMatchCount entry
     = primaryTermHeadwordCount entry)
  ∧ (∀ databaseEntry originalText transformedText deinflectedText reasons
       isPrimary enabledDictionaryMap,
       TermDictionaryEntry.sourceTermExactMatchCount
         (_createTermDictionaryEntryFromDatabaseEntry databaseEntry originalText
            transformedText deinflectedText reasons isPrimary enabledDictionaryMap)
       = if bool_decide (isPrimary = true
                         ∧ deinflectedText = DatabaseEntry.term databaseEntry)
         then 1 else 0)
  ∧ (∀ databaseEntry originalText transformedText deinflectedText reasons
       isPrimary enabledDictionaryMap checkDuplicateDefinitions,
       TermDictionaryEntry.sourceTermExactMatchCount
         (_createGroupedDictionaryEntry
            [_createTermDictionaryEntryFromDatabaseEntry databaseEntry
               originalText transformedText deinflectedText reasons isPrimary
               enabledDictionaryMap]
            checkDuplicateDefinitions)
       = if bool_decide (isPrimary = true
                         ∧ DatabaseEntry.matchSource databaseEntry = Term)
         then 1 else 0).
Proof.
  split; [|split].
  - intros. apply grouped_sourceTermExactMatchCount.
  - intros. unfold _createTermDictionaryEntryFromDatabaseEntry.
    destruct (_getDictionaryOrder _ _) as [dictionaryIndex dictionaryPriority].
    simpl. destruct isPrimary; simpl.
    + repeat case_bool_decide; intuition congruence.
    + reflexivity.
  - intros. rewrite grouped_sourceTermExactMatchCount.
    unfold primaryTermHeadwordCount, _createGroupedDictionaryEntry,
      _createTermDictionaryEntryFromDatabaseEntry.
    destruct (_getDictionaryOrder _ _) as [dictionaryIndex dictionaryPriority].
    simpl. unfold _addTermHeadwords. simpl.
    rewrite filter_cons, filter_nil.
    unfold len. case_decide as Hp; case_bool_decide as Hq; simpl; try done.
    + exfalso. apply Hq. unfold PrimaryTermHeadword in Hp. simpl in Hp.
      apply Exists_cons in Hp as [Hp|Hp]; [exact Hp|by inversion Hp].
    + exfalso. apply Hp. unfold PrimaryTermHeadword. simpl.
      apply Exists_cons. by left.
Qed.

(** ** C4: the returned original text length *)



(** ** C2: deduplication of database entries by id *)

(** C2, as stated, fails twice.  Hypotheses are compared as sets of
    inflection names, not as multisets: the existing entry of id 7 has the
    hypothesis (algorithm, [past]); a later sighting brings the hypothesis
    (dictionary, [past; past]); the two inflection lists differ as
    multisets, yet the merge treats the new hypothesis as a duplicate: the
    existing hypothesis becomes ['both'] and nothing is appended.  And the
    first sighting of an id does not append an entry when the database
    entry is tagged ['non-lemma']: the sighting of id 9 leaves the entries
    and the ids as they are. *)
Lemma hypotheses_equal_as_sets_and_non_lemma_skipped :
  (¬ (["past"%string; "past"%string] ≡ₚ ["past"%string])
   ∧ _areInflectionHyphothesesEqual ["past"%string; "past"%string]
       ["past"%string]
     = true
   ∧ addDatabaseEntry ∅ exampleDeinflection exampleState exampleDatabaseEntry
     = Some (FindState.mk
               [InflectionHypothesis.mk Both ["past"%string];
                InflectionHypothesis.mk Dictionary
                  ["past"%string; "past"%string]]
               [exampleEntry] {[7]} 2))
  ∧ ((DatabaseEntry.id exampleNonLemmaEntry ∉ FindState.ids exampleState)
     ∧ addDatabaseEntry ∅ exampleDeinflection exampleState exampleNonLemmaEntry
       = Some exampleState).
Proof.
  split; [split; [|split]|split].
  - intros Hperm. apply Permutation_length in Hperm. discriminate.
  - vm_compute. reflexivity.
  - vm_compute. reflexivity.
  - simpl. intros Hin%elem_of_singleton. discriminate.
  - vm_compute. reflexivity.
Qed.

(** C2 (amended): in the entry construction of [_findTermsInternal],
    database entries are deduplicated by id.  The first sighting of an id
    appends a new primary entry and records the id, unless the database
    entry is tagged ['non-lemma']: then it is skipped and nothing changes.
    At a later sighting the existing entry is the first
    entry with a definition of that id; if the transformed text is at least
    as long as the existing entry's, the hypotheses of the sighting are
    merged into the existing entry: two hypotheses are equal when their
    inflection lists have the same set of elements, the first existing
    hypothesis equal to a new one with a different source gets the source
    ['both'], and the new hypotheses equal to no existing one are appended;
    if the transformed text is strictly shorter, nothing changes. *)
Theorem addDatabaseEntry_deduplicates_by_id
    (enabledDictionaryMap : EnabledDictionaryMap)
    (deinflection : Deinflection.t) (state : FindState.t)
    (databaseEntry : DatabaseEntry.t) :
  let id := DatabaseEntry.id databaseEntry in
  let entries := FindState.dictionaryEntries state in
  let transformedText := Deinflection.transformedText deinflection in
  let result :=
    addDatabaseEntry enabledDictionaryMap deinflection state databaseEntry in
  findStateInvariant state →
  (id ∉ FindState.ids state →
   "non-lemma"%string ∉ DatabaseEntry.definitionTags databaseEntry →
   ∃ entry,
     entry = _createTermDictionaryEntryFromDatabaseEntry databaseEntry
               (Deinflection.originalText deinflection) transformedText
               (Deinflection.deinflectedText deinflection)
               (Deinflection.inflectionHypotheses deinflection) true
               enabledDictionaryMap
     ∧ TermDictionaryEntry.isPrimary entry = true
     ∧ result = Some (FindState.mk (FindState.store state) (entries ++ [entry])
                        ({[id]} ∪ FindState.ids state)
                        (FindState.originalTextLength state)))
  ∧ (id ∉ FindState.ids state →
     "non-lemma"%string ∈ DatabaseEntry.definitionTags databaseEntry →
     result = Some state)
  ∧ (id ∈ FindState.ids state →
     ∃ position existingEntry existingText,
       list_find (hasDefinitionId id) entries = Some (position, existingEntry)
       ∧ firstTransformedText existingEntry = Some existingText
       ∧ (strlen transformedText < strlen existingText → result = Some state)
       ∧ (strlen existingText ≤ strlen transformedText →
          ∀ existingHypotheses newHypotheses,
            NoDup (TermDictionaryEntry.inflectionHypotheses existingEntry) →
            pointsTo (FindState.store state)
              (TermDictionaryEntry.inflectionHypotheses existingEntry)
              existingHypotheses →
            pointsTo (FindState.store state)
              (Deinflection.inflectionHypotheses deinflection) newHypotheses →
            ∃ store merged,
              result
              = Some (FindState.mk store
                        (<[position :=
                             TermDictionaryEntry_setInflectionHypotheses
                               existingEntry merged]> entries)
                        (FindState.ids state)
                        (FindState.originalTextLength state))
              ∧ pointsTo store merged
                  (mergedHypotheses existingHypotheses newHypotheses)
              ∧ NoDup merged)).
Proof.
  intros id entries transformedText result [Hentries Hids].
  subst result. unfold addDatabaseEntry. fold id. split; [|split].
  - intros Hnew Hlemma. rewrite decide_False, decide_False by done.
    eexists. split; [reflexivity|]. split; [|reflexivity].
    apply created_entry_fields.
  - intros Hnew Hlemma. by rewrite decide_False, decide_True by done.
  - intros Hseen. rewrite decide_True by done.
    destruct (list_find (hasDefinitionId id) (FindState.dictionaryEntries state))
      as [[position existingEntry]|] eqn:Hfind; cycle 1.
    { apply list_find_None in Hfind. apply Hids in Hseen.
      apply Exists_exists in Hseen as (entry & Hin & Hhas).
      eapply Forall_forall in Hfind; [|exact Hin]. done. }
    pose proof Hfind as (Hlookup & _ & _)%list_find_Some.
    pose proof (Forall_lookup_1 _ _ _ _ Hentries Hlookup) as [_ [text Htext]].
    exists position, existingEntry, text. fold entries in Hfind |- *.
    split; [done|]. split; [done|]. simpl. rewrite Htext. simpl.
    fold transformedText. split.
    + intros Hshorter.
      by replace (strlen text <=? strlen transformedText) with false
        by (symmetry; apply Z.leb_gt; lia).
    + intros Hlonger existingHypotheses newHypotheses Hnodup Hexisting Hnew.
      replace (strlen text <=? strlen transformedText) with true
        by (symmetry; apply Z.leb_le; lia).
      destruct (mergeInflectionHypotheses_spec _ _ _ _ _ Hnodup Hexisting Hnew)
        as (store & merged & -> & Hmerged & Hnodup' & _).
      simpl. by exists store, merged.
Qed.

Lemma exampleState_invariant : findStateInvariant exampleState.
Proof.
  split.
  - apply Forall_singleton. split.
    + apply Forall_singleton. simpl. lia.
    + by eexists.
  - intros id Hin. simpl in Hin. apply elem_of_singleton in Hin as ->.
    apply Exists_cons_hd. by apply Exists_cons_hd.
Qed.

(** The statement applies to the later sighting of the example: the
    existing hypothesis becomes ['both'] and nothing is appended. *)
Lemma addDatabaseEntry_deduplicates_by_id_witness :
  findStateInvariant exampleState
  ∧ ∃ position existingEntry store merged,
      list_find (hasDefinitionId 7) (FindState.dictionaryEntries exampleState)
      = Some (position, existingEntry)
      ∧ addDatabaseEntry ∅ exampleDeinflection exampleState exampleDatabaseEntry
        = Some (FindState.mk store
                  (<[position :=
                       TermDictionaryEntry_setInflectionHypotheses
                         existingEntry merged]>
                     (FindState.dictionaryEntries exampleState))
                  (FindState.ids exampleState)
                  (FindState.originalTextLength exampleState))
      ∧ pointsTo store merged [InflectionHypothesis.mk Both ["past"%string]].
Proof.
  split; [exact exampleState_invariant|].
  destruct (addDatabaseEntry_deduplicates_by_id ∅ exampleDeinflection
              exampleState exampleDatabaseEntry exampleState_invariant)
    as (_ & _ & Hlater).
  destruct (Hlater ltac:(simpl; by apply elem_of_singleton))
    as (position & existingEntry & text & Hfind & Htext & _ & Hmerge).
  assert (Hfound : list_find (hasDefinitionId 7)
                     (FindState.dictionaryEntries exampleState)
                   = Some (0%nat, exampleEntry)) by reflexivity.
  cbn [DatabaseEntry.id exampleDatabaseEntry] in Hfind.
  rewrite Hfound in Hfind. injection Hfind as <- <-.
  injection Htext as <-.
  destruct (Hmerge ltac:(vm_compute; discriminate)
              [InflectionHypothesis.mk Algorithm ["past"%string]]
              [InflectionHypothesis.mk Dictionary ["past"%string; "past"%string]]
              ltac:(apply NoDup_singleton)
              ltac:(by repeat constructor)
              ltac:(by repeat constructor))
    as (store & merged & Hresult & Hpoints & _).
  exists 0%nat, exampleEntry, store, merged.
  split; [exact Hfound|]. split; [exact Hresult|exact Hpoints].
Defined.

(** ** C1: the order of the returned entries *)

(** C1: the comparison function of the entry sort is not transitive on
    lists that merge mode can return, so the sort does not order them by
    the keys.  The three entries share their first headword and tie on
    every key before the headword terms; the headword comparison stops at
    the end of the shorter headword list without comparing the lengths
    (the sort of the definitions compares the lengths of the headword
    index lists first), so A (one headword, two definitions) comes before B
    by definition count, B (second headword "yy") before C (second headword
    "z") by term length, and C (three definitions) before A by definition
    count.  No arrangement of the three is in the order of the keys, and
    so neither is what the sort returns. *)
Lemma entry_order_cycle_in_merge_mode :
  compareTermDictionaryEntries codeUnitCollate cycleEntryA cycleEntryB < 0
  ∧ compareTermDictionaryEntries codeUnitCollate cycleEntryB cycleEntryC < 0
  ∧ compareTermDictionaryEntries codeUnitCollate cycleEntryC cycleEntryA < 0
  ∧ (∀ arrangement,
       arrangement ≡ₚ [cycleEntryA; cycleEntryB; cycleEntryC] →
       ¬ StronglySorted (notAfter (entryKeys codeUnitCollate)) arrangement)
  ∧ ¬ StronglySorted (notAfter (entryKeys codeUnitCollate))
        (sortDictionaryEntries codeUnitCollate
           [cycleEntryA; cycleEntryB; cycleEntryC]).
Proof.
  split; [by vm_compute|]. split; [by vm_compute|]. split; [by vm_compute|].
  assert (∀ arrangement,
            arrangement ≡ₚ [cycleEntryA; cycleEntryB; cycleEntryC] →
            ¬ StronglySorted (notAfter (entryKeys codeUnitCollate)) arrangement)
    as Hnone; [|split; [exact Hnone|]].
  2:{ apply Hnone. unfold sortDictionaryEntries, _sortTermDictionaryEntries.
      destruct (1 <? _); [apply arraySort_Permutation|done]. }
  intros arrangement Hperm Hsorted.
  assert (HBA : ¬ notAfter (entryKeys codeUnitCollate) cycleEntryB cycleEntryA)
    by (unfold notAfter; vm_compute; by intros ?).
  assert (HCB : ¬ notAfter (entryKeys codeUnitCollate) cycleEntryC cycleEntryB)
    by (unfold notAfter; vm_compute; by intros ?).
  assert (HAC : ¬ notAfter (entryKeys codeUnitCollate) cycleEntryA cycleEntryC)
    by (unfold notAfter; vm_compute; by intros ?).
  assert (cycleEntryA ∈ arrangement) as [iA HiA]%list_elem_of_lookup
    by (rewrite Hperm; set_solver).
  assert (cycleEntryB ∈ arrangement) as [iB HiB]%list_elem_of_lookup
    by (rewrite Hperm; set_solver).
  assert (cycleEntryC ∈ arrangement) as [iC HiC]%list_elem_of_lookup
    by (rewrite Hperm; set_solver).
  assert (iA ≠ iB) by (intros ->; rewrite HiA in HiB; by vm_compute in HiB).
  assert (iB ≠ iC) by (intros ->; rewrite HiB in HiC; by vm_compute in HiC).
  assert (iC ≠ iA) by (intros ->; rewrite HiC in HiA; by vm_compute in HiA).
  assert (¬ (iB < iA)%nat)
    by (intros Hlt; apply HBA; by eapply StronglySorted_lookup_lt).
  assert (¬ (iC < iB)%nat)
    by (intros Hlt; apply HCB; by eapply StronglySorted_lookup_lt).
  assert (¬ (iA < iC)%nat)
    by (intros Hlt; apply HAC; by eapply StronglySorted_lookup_lt).
  lia.
Qed.

(** ** C7: the order of the definitions of an entry *)

(** C7, as stated, fails: headword index lists are not compared
    lexicographically.  Of two definitions that differ only in their
    headword indices, [0] and [1; 2], and their original positions, the
    lexicographic order puts [0] first; the sort moves the definition with
    the longer list [1; 2] to the front. *)
Lemma headword_indices_not_lexicographic :
  lexCompare lexicographicDefinitionKeys
    (exampleDefinition 0 [0%nat]) (exampleDefinition 1 [1%nat; 2%nat]) < 0
  ∧ sortDefinitions [exampleDefinition 0 [0%nat]; exampleDefinition 1 [1%nat; 2%nat]]
    = [exampleDefinition 1 [1%nat; 2%nat]; exampleDefinition 0 [0%nat]]
  ∧ ¬ StronglySorted (notAfter lexicographicDefinitionKeys)
        (sortDefinitions
           [exampleDefinition 0 [0%nat]; exampleDefinition 1 [1%nat; 2%nat]]).
Proof.
  split; [by vm_compute|]. split; [by vm_compute|].
  intros Hsorted.
  assert (notAfter lexicographicDefinitionKeys
            (exampleDefinition 1 [1%nat; 2%nat]) (exampleDefinition 0 [0%nat]))
    as Horder.
  { eapply (StronglySorted_lookup_lt _ _ 0 1); [exact Hsorted| | |lia];
      by vm_compute. }
  revert Horder. unfold notAfter. vm_compute. by intros H.
Qed.

(** C7 (amended): the definitions of an entry are sorted by ascending
    [frequencyOrder], then descending [dictionaryPriority], then descending
    [score], then descending number of headword indices, then, position by
    position, ascending headword index, then ascending [dictionaryIndex],
    then descending sum of tag scores, then ascending original index; the
    result is a rearrangement of the definitions, and definitions that tie
    on all keys keep their order. *)
Theorem sortDefinitions_orders_by_keys (definitions : list (TermDefinition.t Tag.t)) :
  let sorted := sortDefinitions definitions in
  (∀ definition1 definition2,
     compareTermDefinitions definition1 definition2
     = lexCompare definitionKeys definition1 definition2)
  ∧ sorted ≡ₚ definitions
  ∧ StronglySorted (notAfter definitionKeys) sorted
  ∧ ∀ definition,
      filter (tiedWith definitionKeys definition) sorted
      = filter (tiedWith definitionKeys definition) definitions.
Proof.
  intros sorted. subst sorted.
  split; [apply compareTermDefinitions_spec|].
  unfold sortDefinitions, _sortTermDictionaryEntryDefinitions.
  destruct (1 <? len definitions) eqn:Hlen.
  - rewrite (arraySort_ext _ (lexCompare definitionKeys))
      by apply compareTermDefinitions_spec.
    split; [apply arraySort_Permutation|]. split.
    + eapply (arraySort_sorted _ _ definitionKeys_consistent).
      by apply Forall_true.
    + intros definition.
      eapply (arraySort_stable _ _ definitionKeys_consistent); [done|].
      by apply Forall_true.
  - split; [done|]. split; [|done].
    apply Z.ltb_ge in Hlen. unfold len in Hlen.
    destruct definitions as [|d [|d' ds]]; simpl in Hlen; try lia;
      repeat constructor.
Qed.

(** ** C8: merging similar tags *)

(** C8, as stated, fails for the dictionaries: they are appended as they
    are.  Two tags of one name and category that both come from dictionary
    "D" are merged into one tag that lists "D" twice. *)
Lemma merged_tag_repeats_dictionary :
  _mergeSimilarTags [exampleTag; exampleTag]
  = [Tag.mk "n" "partOfSpeech" 0 0 ["noun"%string] ["D"%string; "D"%string] false]
  ∧ ∃ merged,
      merged ∈ _mergeSimilarTags [exampleTag; exampleTag]
      ∧ ¬ NoDup (Tag.dictionaries merged).
Proof.
  assert (Hresult : _mergeSimilarTags [exampleTag; exampleTag]
                    = [Tag.mk "n" "partOfSpeech" 0 0 ["noun"%string]
                         ["D"%string; "D"%string] false])
    by (vm_compute; reflexivity).
  split; [exact Hresult|]. rewrite Hresult.
  eexists. split; [by left|]. simpl.
  intros Hnodup. apply NoDup_cons in Hnodup as [Hnotin _].
  apply Hnotin. by left.
Qed.

(** C8 (amended): [_mergeSimilarTags] leaves one tag for every (name,
    category) of the list.  That tag has the name and category of its
    class, the minimum of the orders and the maximum of the scores of the
    tags of the class, the dictionaries of the tags of the class appended
    in list order (repetitions are kept), and as content the content of the
    first tag of the class followed by the content elements of the later
    tags that are not in it yet: every content element of the class appears,
    and none appears twice when the first tag's content has no
    repetition. *)
Theorem mergeSimilarTags_merges_classes (tags : list Tag.t) :
  let result := _mergeSimilarTags tags in
  (∀ tag, tag ∈ tags → ∃ merged, merged ∈ result ∧ similarTags merged tag)
  ∧ (∀ i j merged1 merged2,
       result !! i = Some merged1 → result !! j = Some merged2 →
       similarTags merged1 merged2 → i = j)
  ∧ (∀ merged, merged ∈ result →
       ∃ first others,
         filter (similarTags merged) tags = first :: others
         ∧ Tag.name merged = Tag.name first
         ∧ Tag.category merged = Tag.category first
         ∧ (∀ tag, tag ∈ first :: others → Tag.order merged ≤ Tag.order tag)
         ∧ (∃ tag, tag ∈ first :: others ∧ Tag.order merged = Tag.order tag)
         ∧ (∀ tag, tag ∈ first :: others → Tag.score tag ≤ Tag.score merged)
         ∧ (∃ tag, tag ∈ first :: others ∧ Tag.score merged = Tag.score tag)
         ∧ Tag.dictionaries merged
           = mjoin ((fun tag => Tag.dictionaries tag) <$> first :: others)
         ∧ Tag.content merged
           = fold_left _addUniqueSimple ((fun tag => Tag.content tag) <$> others)
               (Tag.content first)
         ∧ (∀ x, x ∈ Tag.content merged
                 ↔ ∃ tag, tag ∈ first :: others ∧ x ∈ Tag.content tag)
         ∧ (NoDup (Tag.content first) → NoDup (Tag.content merged))).
Proof.
  intros result. subst result.
  destruct (_mergeSimilarTags_classes tags) as (Hcover & Hdistinct & Hclass).
  split; [done|]. split; [done|].
  intros merged Hin.
  destruct (Hclass merged Hin) as (first & others & Hfilter & ->).
  exists first, others. split; [done|].
  apply mergeTag_fold_fields.
Qed.

(** The statement applies to a list of two similar tags from the
    dictionaries "D" and "E". *)
Lemma mergeSimilarTags_merges_classes_witness :
  exampleTag ∈ [exampleTag; exampleTagE]
  ∧ ∃ merged,
      merged ∈ _mergeSimilarTags [exampleTag; exampleTagE]
      ∧ Tag.order merged ≤ -1
      ∧ 5 ≤ Tag.score merged
      ∧ Tag.dictionaries merged = ["D"%string; "E"%string].
Proof.
  split; [by left|].
  destruct (mergeSimilarTags_merges_classes [exampleTag; exampleTagE])
    as (Hcover & _ & Hclass).
  destruct (Hcover exampleTag ltac:(by left)) as (merged & Hin & Hsimilar).
  exists merged. split; [exact Hin|].
  destruct (Hclass merged Hin)
    as (first & others & Hfilter & _ & _ & Hmin & _ & Hmax & _ & Hdictionaries & _).
  rewrite (list_filter_iff _ (similarTags exampleTag)) in Hfilter; cycle 1.
  { intros tag. split; intros Hsim.
    - eapply similarTags_trans; [|exact Hsim]. by apply similarTags_sym.
    - eapply similarTags_trans; [exact Hsimilar|exact Hsim]. }
  vm_compute in Hfilter. injection Hfilter as <- <-.
  split; [apply (Hmin exampleTagE); right; by left|].
  split; [apply (Hmax exampleTagE); right; by left|].
  exact Hdictionaries.
Defined.

(** ** C6: the sort frequencies *)

(** C6 at an entry whose only headword has two frequencies, 5 and 10, from
    the sort dictionary, in ascending order: the entry receives the minimum
    5, but its definition, whose headword indices are [0], receives 10:
    the frequency map keeps one frequency for each headword, the last one,
    and the definitions are computed from the map.  The rule restricted to
    the headword indices of the definition gives 5.  [findTerms] reaches
    this entry in simple mode when the dictionary "F" has the frequency 5
    for the term "ab" and the frequency 10 for its reading. *)
Theorem updateSortFrequencies_definition_gets_last_frequency :
  (fun entry =>
     (TermDictionaryEntry.frequencyOrder entry,
      (fun definition => TermDefinition.frequencyOrder definition)
        <$> TermDictionaryEntry.definitions entry))
    <$> _updateSortFrequencies [exampleFrequencyEntry] "F" true
  = [(5, [10])]
  ∧ frequencyOrderFor true
      (frequenciesFrom "F" (fun _ => True) exampleFrequencyEntry) = 5
  ∧ frequencyOrderFor true
      (frequenciesFrom "F" (fun i => i ∈ [0%nat]) exampleFrequencyEntry) = 5
  ∧ (fun result =>
       (fun entry =>
          ((fun item => TermFrequency.frequency item)
             <$> TermDictionaryEntry.frequencies entry,
           TermDictionaryEntry.frequencyOrder entry,
           (fun definition =>
              (TermDefinition.headwordIndices definition,
               TermDefinition.frequencyOrder definition))
             <$> TermDictionaryEntry.definitions entry))
         <$> FindTermsResult.dictionaryEntries result)
      <$> (findTerms_simple exampleCollaborators exampleFrequencyDatabase "ab"
             exampleOptions []).1
    = Some [([5; 10], 5, [([0%nat], 10)])].
Proof. repeat split; vm_compute; reflexivity. Qed.

(** ** C10: simple mode *)

(** C10: a call of [findTerms] in simple mode adds to the calls of the
    database only term lookups and, when a sort-frequency dictionary is
    set, term metadata lookups for exactly that dictionary (if it is
    enabled, for no dictionary otherwise); it makes no tag metadata lookup
    and, when no sort-frequency dictionary is set, no term metadata lookup.
    In the value it returns every tag list of the headwords, definitions,
    pitches and phonetic transcriptions is empty, and when a sort-frequency
    dictionary is set the term metadata lookup has been made.  On
    well-formed answers of the database and the deinflector the call
    returns. *)
Theorem simple_mode_clears_tags_and_restricts_lookups
    (collaborators : Collaborators.t) (database : Database.t) (text : string)
    (options : FindTermsOptions.t) (calls : list DatabaseCall) :
  let run := findTerms_simple collaborators database text options calls in
  let enabledDictionaryMap := FindTermsOptions.enabledDictionaryMap options in
  (∃ new,
     run.2 = calls ++ new
     ∧ Forall (simpleModeCall options) new
     ∧ (∀ items, FindTagMetaBulk items ∉ new)
     ∧ (FindTermsOptions.sortFrequencyDictionary options = None →
        ∀ termList dictionaries, FindTermMetaBulk termList dictionaries ∉ new))
  ∧ (∀ result,
       run.1 = Some result →
       Forall allTagListsEmpty (FindTermsResult.dictionaryEntries result)
       ∧ ∀ dictionary,
           FindTermsOptions.sortFrequencyDictionary options = Some dictionary →
           ∃ termList,
             FindTermMetaBulk termList (dom enabledDictionaryMap ∩ {[dictionary]})
             ∈ run.2)
  ∧ (databaseWellFormed database →
     candidatesWellFormed
       (initialDeinflections collaborators
          (filteredText collaborators options text) options) →
     is_Some run.1).
Proof.
  intros run enabledDictionaryMap. split; [|split].
  - assert (emitsOnly (simpleModeCall options)
              (findTerms_simple collaborators database text options)) as Hemits.
    { unfold findTerms_simple. apply emitsOnly_bind.
      - eapply emitsOnly_mono; [|apply emitsOnly_findTermsInternal].
        by intros [].
      - intros state. apply emitsOnly_bind; [|intros; apply emitsOnly_ret].
        destruct (FindTermsOptions.sortFrequencyDictionary options)
          as [dictionary|] eqn:Hsort; [|apply emitsOnly_ret].
        apply emitsOnly_addTermMeta. intros termList. simpl.
        exists dictionary. split; [done|]. apply dom_sortDictionaryMap. }
    destruct (Hemits calls) as (new & Hnew & Hcalls).
    exists new. split; [done|]. split; [done|]. split.
    + intros items Hin. eapply Forall_forall in Hcalls; [|exact Hin]. done.
    + intros Hnone termList dictionaries Hin.
      eapply Forall_forall in Hcalls; [|exact Hin]. simpl in Hcalls.
      destruct Hcalls as (dictionary & Hsome & _). congruence.
  - intros result Hresult.
    assert (findTerms_simple collaborators database text options calls
            = (Some result, run.2)) as Hrun.
    { subst run. destruct (findTerms_simple _ _ _ _ _) as [? ?].
      simpl in *. by subst. }
    unfold findTerms_simple in Hrun.
    apply DB_bind_inv in Hrun as (state & calls1 & _ & Hrun).
    apply DB_bind_inv in Hrun as (entries & calls2 & Hmeta & Hrun).
    injection Hrun as <- Hcalls. split.
    + simpl. apply Forall_fmap.
      eapply Forall_impl; [|intros entry; apply finishDictionaryEntry_empty].
      apply sortDictionaryEntries_Forall.
      destruct (FindTermsOptions.sortFrequencyDictionary options);
        [apply _updateSortFrequencies_empty|]; apply _clearTermTags_empty.
    + intros dictionary Hsort. rewrite Hsort in Hmeta.
      apply _addTermMeta_run in Hmeta. rewrite dom_sortDictionaryMap in Hmeta.
      eexists. rewrite <- Hcalls, Hmeta. apply elem_of_app. right. by left.
  - intros Hdatabase Hcandidates. subst run. unfold findTerms_simple.
    destruct (_findTermsInternal_total collaborators database text
                (FindTermsOptions.enabledDictionaryMap options) options calls
                Hdatabase Hcandidates) as (state & calls1 & Hrun & _).
    rewrite (DB_bind_Some _ _ _ _ _ Hrun).
    destruct (FindTermsOptions.sortFrequencyDictionary options) as [dictionary|].
    + match goal with
      | |- context [_addTermMeta ?c ?d ?e ?m] =>
          destruct (_addTermMeta_total c d e m calls1 Hdatabase)
            as (entries & calls2 & Hmeta)
      end.
      rewrite (DB_bind_Some _ _ _ _ _ Hmeta). simpl. eauto.
    + simpl. eauto.
Qed.

(** The statement applies to the lookup of "ab" in the example dictionary,
    whose rows have term tags, definition tags and pitch tags: the call
    returns one entry without tags after a term lookup and a term metadata
    lookup in the dictionary "F". *)
Lemma simple_mode_clears_tags_and_restricts_lookups_witness :
  databaseWellFormed exampleDatabase
  ∧ ∃ result,
      (findTerms_simple exampleCollaborators exampleDatabase "ab" exampleOptions
         []).1 = Some result
      ∧ length (FindTermsResult.dictionaryEntries result) = 1%nat
      ∧ Forall allTagListsEmpty (FindTermsResult.dictionaryEntries result)
      ∧ (findTerms_simple exampleCollaborators exampleDatabase "ab"
           exampleOptions []).2
        = [FindTermsBulk ["ab"; "a"]%string {["D"%string; "F"%string]} Exact;
           FindTermsBulk [] {["D"%string; "F"%string]} Exact;
           FindTermMetaBulk ["ab"%string] {["F"%string]}].
Proof.
  split; [exact exampleDatabase_wellFormed|].
  destruct (simple_mode_clears_tags_and_restricts_lookups exampleCollaborators
              exampleDatabase "ab" exampleOptions [])
    as (_ & Hreturned & Htotal).
  destruct (Htotal exampleDatabase_wellFormed (exampleCandidates_wellFormed _))
    as [result Hresult].
  exists result. split; [exact Hresult|].
  split; [|split; [exact (proj1 (Hreturned result Hresult))|]].
  - vm_compute in Hresult. injection Hresult as <-. reflexivity.
  - vm_compute. reflexivity.
Defined.

(** * Further properties of the translator *)

(** ** The variants are the Cartesian product *)

Section VariantEnumeration.
Import Variants.

Lemma product_pos_Forall (ns : list nat) :
  (0 < product ns)%nat → Forall (fun n => n ≠ 0%nat) ns.
Proof.
  induction ns as [|n ns IH]; simpl; [constructor|].
  intros Hpos. constructor; [lia|]. apply IH. nia.
Qed.

Lemma buildVariant_inj {V} (space : list (string * list V)) (i j : nat) :
  Forall (fun axis => NoDup axis.2) space →
  (i < product ((fun kv => length kv.2) <$> space))%nat →
  (j < product ((fun kv => length kv.2) <$> space))%nat →
  buildVariant space i = buildVariant space j → i = j.
Proof.
  intros Hnodup. revert i j.
  induction Hnodup as [|[key entryVariants] space Haxis _ IH]; intros i j;
    simpl in *.
  - lia.
  - fold (product ((fun kv => length kv.2) <$> space)).
    set (P := product _) in *. set (n := length entryVariants).
    intros Hi Hj [= Hvalue Hrest].
    assert (n ≠ 0)%nat as Hn by (intros Hn; rewrite Hn in Hi; lia).
    pose proof (Nat.mod_upper_bound i n Hn) as Himod.
    pose proof (Nat.mod_upper_bound j n Hn) as Hjmod.
    destruct (lookup_lt_is_Some_2 entryVariants (i `mod` n) Himod) as [v Hv].
    assert (i `mod` n = j `mod` n)%nat as Hmod.
    { eapply NoDup_lookup; [exact Haxis|exact Hv|]. by rewrite <- Hvalue. }
    assert (i `div` n = j `div` n)%nat as Hdiv.
    { apply IH; [| |exact Hrest]; apply Nat.Div0.div_lt_upper_bound; lia. }
    rewrite (Nat.div_mod_eq i n), (Nat.div_mod_eq j n). congruence.
Qed.

Lemma buildVariant_covers {V} (space : list (string * list V))
    (variant : list (string * option V)) :
  Forall2 (fun choice axis =>
             choice.1 = axis.1 ∧ ∃ v, choice.2 = Some v ∧ v ∈ axis.2)
          variant space →
  ∃ variantIndex,
    (variantIndex < product ((fun kv => length kv.2) <$> space))%nat
    ∧ buildVariant space variantIndex = variant.
Proof.
  induction 1 as [|[key value] [key' entryVariants] variant space Hhead _ IH];
    simpl in *.
  - exists 0%nat. split; [lia|done].
  - destruct Hhead as (-> & v & -> & Hv).
    apply list_elem_of_lookup in Hv as [c Hc].
    pose proof (lookup_lt_Some _ _ _ Hc) as Hlt.
    destruct IH as (j & Hj & Hbuild).
    exists (c + j * length entryVariants)%nat. split.
    + fold (product ((fun kv => length kv.2) <$> space)).
      set (P := product _) in *.
      assert (length entryVariants * (j + 1) ≤ length entryVariants * P)%nat
        by (apply Nat.mul_le_mono_l; lia).
      lia.
    + assert (length entryVariants ≠ 0)%nat by lia.
      rewrite Nat.Div0.mod_add, Nat.div_add by done.
      rewrite Nat.mod_small, Nat.div_small by done.
      simpl. by rewrite Hc, Hbuild.
Qed.

(** X1: when no axis lists an outcome twice, [_generateArrayVariants]
    yields every combination of one outcome for each axis, in key order,
    and yields no combination twice and nothing else; with an axis that
    has no outcome it yields nothing. *)
Theorem generateArrayVariants_is_cartesian_product {V}
    (space : list (string * list V)) :
  Forall (fun axis => NoDup axis.2) space →
  NoDup (_generateArrayVariants space)
  ∧ (∀ variant,
       variant ∈ _generateArrayVariants space
       ↔ Forall2 (fun choice axis =>
                    choice.1 = axis.1 ∧ ∃ v, choice.2 = Some v ∧ v ∈ axis.2)
                 variant space)
  ∧ (Exists (fun axis => axis.2 = []) space → _generateArrayVariants space = []).
Proof.
  intros Hnodup. unfold _generateArrayVariants.
  rewrite fold_left_mul_product, Nat.mul_1_l.
  set (total := product ((fun kv => length kv.2) <$> space)).
  split; [|split].
  - apply NoDup_fmap_2_strong; [|apply NoDup_seq].
    intros i j Hi%elem_of_seq Hj%elem_of_seq.
    apply buildVariant_inj; [done|lia|lia].
  - intros variant. rewrite list_elem_of_fmap. split.
    + intros (i & -> & Hi%elem_of_seq). apply buildVariant_chooses.
      assert (0 < total)%nat as Hpos by lia.
      apply product_pos_Forall in Hpos.
      pose proof (proj1 (Forall_fmap
                           (fun kv : string * list V => length kv.2)
                           (fun n : nat => n ≠ 0%nat) space)
                    Hpos) as Haxes.
      eapply Forall_impl; [exact Haxes|]. simpl. intros [key vs] Hlen Hvs.
      simpl in *. by rewrite Hvs in Hlen.
    + intros Hchoice. destruct (buildVariant_covers space variant Hchoice)
        as (i & Hi & Hbuild).
      exists i. split; [done|]. apply elem_of_seq. lia.
  - intros Hempty. replace total with 0%nat; [done|]. subst total.
    clear Hnodup. induction Hempty as [[key vs] rest Hvs|[key vs] rest _ IH];
      simpl in *.
    + by rewrite Hvs.
    + change (0 = length vs
                  * product ((fun kv : string * list V => length kv.2) <$> rest))%nat.
      rewrite <- IH. lia.
Qed.

(** The statement applies to the axes of a lookup with two replacement
    variants, collapsing of emphatic sequences switched on and one text
    transformation in both variants: eight variants, all different. *)
Lemma generateArrayVariants_is_cartesian_product_witness :
  NoDup (arrayVariants {| textReplacements := [None; Some []];
                          collapseEmphaticSequences := "true";
                          textTransformations :=
                            [("decapitalize", "variant")]%string |})
  ∧ length (arrayVariants {| textReplacements := [None; Some []];
                             collapseEmphaticSequences := "true";
                             textTransformations :=
                               [("decapitalize", "variant")]%string |})
    = 8%nat.
Proof.
  split; [|reflexivity].
  apply (generateArrayVariants_is_cartesian_product
           (variantVectorSpace
              {| textReplacements := [None; Some []];
                 collapseEmphaticSequences := "true";
                 textTransformations := [("decapitalize", "variant")]%string |})).
  repeat first [ apply Forall_nil_2 | apply Forall_cons_2 ]; simpl;
    repeat first [ apply NoDup_nil_2 | apply NoDup_cons_2 ];
    rewrite ?elem_of_cons, ?elem_of_nil; intuition discriminate.
Defined.

End VariantEnumeration.

(** ** The Japanese part of a text *)

Section CodePointFacts.

Lemma takeContinuation_app (count : nat) (text : string) :
  text = (takeContinuation count text).1 +:+ (takeContinuation count text).2.
Proof.
  revert text.
  induction count as [|count IH]; intros [|byte rest]; simpl; try done.
  destruct (isContinuationByte byte); [|done].
  specialize (IH rest). destruct (takeContinuation count rest) as [taken rest'].
  simpl in *. by rewrite IH at 1.
Qed.

(** The bytes taken stay the bytes taken in front of a text that starts
    like the rest. *)
Lemma takeContinuation_stable (count : nat) (text other : string) :
  sameStart other (takeContinuation count text).2 →
  takeContinuation count ((takeContinuation count text).1 +:+ other)
  = ((takeContinuation count text).1, other).
Proof.
  revert text.
  induction count as [|count IH]; intros [|byte rest]; simpl; try done.
  - intros [->|(b & r & r' & _ & [=])]. done.
  - destruct (isContinuationByte byte) eqn:Hbyte.
    + specialize (IH rest).
      destruct (takeContinuation count rest) as [taken rest'].
      cbn [fst snd] in *. intros Hstart.
      change (String byte taken +:+ other) with (String byte (taken +:+ other)).
      cbn [takeContinuation]. by rewrite Hbyte, (IH Hstart).
    + cbn [fst snd]. intros [->|(b & r & r' & -> & [= <- _])]; [done|].
      change (EmptyString +:+ String byte r) with (String byte r).
      cbn [takeContinuation]. by rewrite Hbyte.
Qed.

Lemma joinText_app (cs1 cs2 : list string) :
  joinText (cs1 ++ cs2) = joinText cs1 +:+ joinText cs2.
Proof.
  induction cs1 as [|c cs1 IH]; [done|].
  change (c +:+ joinText (cs1 ++ cs2) = (c +:+ joinText cs1) +:+ joinText cs2).
  rewrite IH. clear IH. induction c as [|byte c IH]; [done|].
  change (String byte (c +:+ joinText cs1 +:+ joinText cs2)
          = String byte ((c +:+ joinText cs1) +:+ joinText cs2)).
  by rewrite IH.
Qed.

(** The code points of a text make up the text. *)
Lemma codePoints_join (text : string) : joinText (codePoints text) = text.
Proof.
  funelim (codePoints text); [done|].
  simp codePoints.
  change (String byte
            ((takeContinuation (continuationCount byte) rest).1
             +:+ joinText
                   (codePoints
                      (takeContinuation (continuationCount byte) rest).2))
          = String byte rest).
  rewrite H. by rewrite <- takeContinuation_app.
Qed.

Lemma joinText_sameStart (k : nat) (text : string) :
  sameStart (joinText (take k (codePoints text))) text.
Proof.
  destruct k as [|k]; [by left|].
  destruct text as [|byte rest]; [by left|].
  simp codePoints. right. by eexists _, _, _.
Qed.

(** The first code points of a text are the code points of the text they
    make up, and so are the last. *)
Lemma codePoints_take (k : nat) (text : string) :
  codePoints (joinText (take k (codePoints text))) = take k (codePoints text).
Proof.
  revert text. induction k as [|k IH]; intros text.
  { rewrite take_0. by simp codePoints. }
  destruct text as [|byte rest]; [by simp codePoints|].
  simp codePoints. cbn [take].
  set (taken := (takeContinuation (continuationCount byte) rest).1).
  set (rest' := (takeContinuation (continuationCount byte) rest).2).
  change (codePoints
            (String byte (taken +:+ joinText (take k (codePoints rest'))))
          = String byte taken :: take k (codePoints rest')).
  simp codePoints.
  unfold taken. rewrite takeContinuation_stable by apply joinText_sameStart.
  cbn [fst snd]. by rewrite IH.
Qed.

Lemma codePoints_drop (k : nat) (text : string) :
  codePoints (joinText (drop k (codePoints text))) = drop k (codePoints text).
Proof.
  remember (String.length text) as n eqn:Hn. revert k text Hn.
  induction n as [n IH] using lt_wf_ind. intros k text ->.
  destruct k as [|k]; [by rewrite drop_0, codePoints_join|].
  destruct text as [|byte rest]; [by simp codePoints|].
  simp codePoints. cbn [drop].
  eapply IH; [|done].
  pose proof (takeContinuation_length (continuationCount byte) rest).
  simpl. lia.
Qed.

Lemma codePoints_split (text : string) (cs1 cs2 : list string) :
  codePoints text = cs1 ++ cs2 →
  text = joinText cs1 +:+ joinText cs2
  ∧ codePoints (joinText cs1) = cs1 ∧ codePoints (joinText cs2) = cs2.
Proof.
  intros Hsplit. split; [|split].
  - by rewrite <- joinText_app, <- Hsplit, codePoints_join.
  - pose proof (codePoints_take (length cs1) text) as Htake.
    by rewrite Hsplit, take_app_length in Htake.
  - pose proof (codePoints_drop (length cs1) text) as Hdrop.
    by rewrite Hsplit, drop_app_length in Hdrop.
Qed.

Lemma japaneseOnlyLength_spec (isCodePointJapanese : N → bool)
    (cs : list string) (length : Z) :
  match japaneseOnlyLength isCodePointJapanese cs length with
  | Some length' =>
      ∃ cs1 c cs2,
        cs = cs1 ++ c :: cs2
        ∧ Forall (fun c => isCodePointJapanese (codePointAt0 c) = true) cs1
        ∧ isCodePointJapanese (codePointAt0 c) = false
        ∧ length' = length + foldr (fun c n => codeUnits c + n) 0 cs1
  | None => Forall (fun c => isCodePointJapanese (codePointAt0 c) = true) cs
  end.
Proof.
  revert length. induction cs as [|c cs IH]; intros length; simpl; [done|].
  destruct (isCodePointJapanese (codePointAt0 c)) eqn:Hc; simpl.
  - specialize (IH (length + codeUnits c)).
    destruct (japaneseOnlyLength _ cs _) as [length'|].
    + destruct IH as (cs1 & c' & cs2 & -> & Hall & Hc' & ->).
      exists (c :: cs1), c', cs2. split; [done|]. split; [by constructor|].
      split; [done|]. simpl. lia.
    + by constructor.
  - exists [], c, cs. split; [done|]. split; [constructor|].
    split; [done|]. simpl. lia.
Qed.

Lemma takeCodeUnits_prefix (cs1 cs2 : list string) :
  takeCodeUnits (foldr (fun c n => codeUnits c + n) 0 cs1) (cs1 ++ cs2)
  = joinText cs1.
Proof.
  induction cs1 as [|c cs1 IH]; simpl.
  - by destruct cs2.
  - pose proof (codeUnits_pos c).
    pose proof (codeUnits_sum_nonneg cs1).
    replace (0 <? codeUnits c + foldr (fun c n => codeUnits c + n) 0 cs1)
      with true by (symmetry; apply Z.ltb_lt; lia).
    replace (codeUnits c + foldr (fun c n => codeUnits c + n) 0 cs1
             - codeUnits c)
      with (foldr (fun c n => codeUnits c + n) 0 cs1) by lia.
    by rewrite IH.
Qed.

End CodePointFacts.

(** X2: [_getJapaneseOnlyText] returns the longest prefix of the text made
    of Japanese code points only: the text is the result followed by a rest
    that is empty or starts with a code point that is not Japanese, and the
    cut falls between two code points of the text; a text of Japanese code
    points is returned whole, and the result is left unchanged by a second
    call. *)
Theorem getJapaneseOnlyText_longest_japanese_prefix
    (isCodePointJapanese : N → bool) (text : string) :
  let result := _getJapaneseOnlyText isCodePointJapanese text in
  (∃ rest,
     text = result +:+ rest
     ∧ codePoints text = codePoints result ++ codePoints rest
     ∧ match codePoints rest with
       | [] => True
       | c :: _ => isCodePointJapanese (codePointAt0 c) = false
       end)
  ∧ Forall (fun c => isCodePointJapanese (codePointAt0 c) = true)
           (codePoints result)
  ∧ (Forall (fun c => isCodePointJapanese (codePointAt0 c) = true)
            (codePoints text)
     ↔ result = text)
  ∧ _getJapaneseOnlyText isCodePointJapanese result = result.
Proof.
  intros result.
  pose proof (japaneseOnlyLength_spec isCodePointJapanese (codePoints text) 0)
    as Hloop.
  destruct (japaneseOnlyLength isCodePointJapanese (codePoints text) 0)
    as [cut|] eqn:Hcut.
  - destruct Hloop as (cs1 & c & cs2 & Hsplit & Hall & Hc & ->).
    assert (result = joinText cs1) as ->.
    { unfold result, _getJapaneseOnlyText, substringTo.
      by rewrite Hcut, Hsplit, Z.add_0_l, takeCodeUnits_prefix. }
    destruct (codePoints_split text cs1 (c :: cs2) Hsplit)
      as (Htext & Hcs1 & Hcs2).
    split; [|split; [|split]].
    + exists (joinText (c :: cs2)). split; [done|]. rewrite Hcs1, Hcs2.
      by split.
    + by rewrite Hcs1.
    + split.
      * intros Hwhole. rewrite Hsplit in Hwhole.
        apply Forall_app in Hwhole as [_ Hwhole].
        apply Forall_cons in Hwhole as [Hwhole _]. congruence.
      * intros Heq. rewrite <- Heq in Hsplit at 1. rewrite Hcs1 in Hsplit.
        apply (f_equal length) in Hsplit. rewrite length_app in Hsplit.
        simpl in Hsplit. lia.
    + unfold _getJapaneseOnlyText. rewrite Hcs1.
      pose proof (japaneseOnlyLength_spec isCodePointJapanese cs1 0) as Hloop.
      destruct (japaneseOnlyLength isCodePointJapanese cs1 0); [|done].
      destruct Hloop as (cs1' & c' & cs2' & -> & _ & Hc' & _).
      apply Forall_app in Hall as [_ Hall].
      apply Forall_cons in Hall as [Hall _]. congruence.
  - assert (result = text) as ->.
    { unfold result, _getJapaneseOnlyText. by rewrite Hcut. }
    split; [|split; [|split]].
    + exists EmptyString. split.
      * clear. induction text as [|byte text IH]; [done|].
        change (String byte text = String byte (text +:+ EmptyString)).
        by rewrite <- IH.
      * simp codePoints. by rewrite app_nil_r.
    + done.
    + done.
    + unfold _getJapaneseOnlyText. by rewrite Hcut.
Qed.

(** ** The entries that [_findTermsInternal] returns *)

Section FoundEntries.

(** The invariant of the loops: the entries are as the loop creates them,
    no id occurs twice among their definitions, and [ids] holds exactly
    these ids. *)
Lemma addDatabaseEntry_found enabledDictionaryMap deinflection state
    databaseEntry state' :
  Forall foundEntry (FindState.dictionaryEntries state)
  ∧ NoDup (definitionIds (FindState.dictionaryEntries state))
  ∧ (∀ id, id ∈ FindState.ids state
           ↔ id ∈ definitionIds (FindState.dictionaryEntries state)) →
  addDatabaseEntry enabledDictionaryMap deinflection state databaseEntry
  = Some state' →
  Forall foundEntry (FindState.dictionaryEntries state')
  ∧ NoDup (definitionIds (FindState.dictionaryEntries state'))
  ∧ (∀ id, id ∈ FindState.ids state'
           ↔ id ∈ definitionIds (FindState.dictionaryEntries state')).
Proof.
  intros (Hfound & Hnodup & Hids). unfold addDatabaseEntry.
  case_decide as Hid.
  - destruct (list_find _ _) as [[position existingEntry]|] eqn:Hfind;
      simpl; [|done].
    apply list_find_Some in Hfind as (Hlookup & _ & _).
    destruct (firstTransformedText existingEntry) as [text|]; simpl; [|done].
    destruct (_ <=? _); [|by intros [= <-]].
    destruct (mergeInflectionHypotheses _ _ _) as [[store merged]|]; simpl;
      [|done].
    intros [= <-]. simpl.
    assert (definitionIds
              (<[position := TermDictionaryEntry_setInflectionHypotheses
                               existingEntry merged]>
                 (FindState.dictionaryEntries state))
            = definitionIds (FindState.dictionaryEntries state)) as Hsame.
    { unfold definitionIds.
      rewrite <- (list_insert_id _ _ _ Hlookup) at 2.
      rewrite !insert_take_drop by (by eapply lookup_lt_Some).
      by rewrite !bind_app, !bind_cons. }
    rewrite Hsame. split; [|done].
    apply Forall_insert; [done|].
    by eapply (Forall_lookup_1 _ _ _ _ Hfound) in Hlookup.
  - case_decide as Htag; intros [= <-]; [done|]. simpl.
    unfold definitionIds in *. rewrite bind_app, bind_cons.
    change (@mbind list _ _ _ _ []) with (@nil Z). rewrite app_nil_r.
    unfold _createTermDictionaryEntryFromDatabaseEntry in *.
    destruct (_getDictionaryOrder _ _) as [dictionaryIndex dictionaryPriority].
    simpl. split; [|split].
    + apply Forall_app. split; [done|]. apply Forall_singleton.
      split; [done|]. split; [done|]. simpl. apply Forall_singleton. simpl.
      destruct (0 <? len (DatabaseEntry.definitionTags databaseEntry));
        [by apply Forall_singleton|constructor].
    + apply NoDup_app. split; [done|]. split; [|apply NoDup_singleton].
      intros id Hin ->%list_elem_of_singleton. apply Hid. by apply Hids.
    + intros id. rewrite elem_of_union, elem_of_singleton, elem_of_app,
        list_elem_of_singleton, Hids. tauto.
Qed.

Lemma addDeinflections_found enabledDictionaryMap deinflections state state' :
  Forall foundEntry (FindState.dictionaryEntries state)
  ∧ NoDup (definitionIds (FindState.dictionaryEntries state))
  ∧ (∀ id, id ∈ FindState.ids state
           ↔ id ∈ definitionIds (FindState.dictionaryEntries state)) →
  foldlM (addDeinflection enabledDictionaryMap) deinflections state = Some state' →
  Forall foundEntry (FindState.dictionaryEntries state')
  ∧ NoDup (definitionIds (FindState.dictionaryEntries state'))
  ∧ (∀ id, id ∈ FindState.ids state'
           ↔ id ∈ definitionIds (FindState.dictionaryEntries state')).
Proof.
  apply (foldlM_preserves
           (fun state =>
              Forall foundEntry (FindState.dictionaryEntries state)
              ∧ NoDup (definitionIds (FindState.dictionaryEntries state))
              ∧ (∀ id, id ∈ FindState.ids state
                       ↔ id ∈ definitionIds (FindState.dictionaryEntries state)))).
  intros a deinflection a' Ha. unfold addDeinflection.
  destruct (len _ =? 0); [by intros [= <-]|].
  apply (foldlM_preserves
           (fun state =>
              Forall foundEntry (FindState.dictionaryEntries state)
              ∧ NoDup (definitionIds (FindState.dictionaryEntries state))
              ∧ (∀ id, id ∈ FindState.ids state
                       ↔ id ∈ definitionIds (FindState.dictionaryEntries state)))).
  - intros b databaseEntry b'. apply addDatabaseEntry_found.
  - by destruct (negb _).
Qed.

End FoundEntries.

(** X3: in what [_findTermsInternal] returns, every entry is primary and
    has one headword and one definition, no definition is tagged
    ['non-lemma'], and no database id occurs in two definitions: a database
    entry that several candidates find gives one entry. *)
Theorem findTermsInternal_returns_one_entry_for_each_id
    (collaborators : Collaborators.t) (database : Database.t) (text : string)
    (enabledDictionaryMap : EnabledDictionaryMap) (options : FindTermsOptions.t)
    (calls calls' : list DatabaseCall) (state : FindState.t) :
  _findTermsInternal collaborators database text enabledDictionaryMap options
    calls = (Some state, calls') →
  Forall foundEntry (FindState.dictionaryEntries state)
  ∧ NoDup (definitionIds (FindState.dictionaryEntries state))
  ∧ (∀ id, id ∈ FindState.ids state
           ↔ id ∈ definitionIds (FindState.dictionaryEntries state)).
Proof.
  unfold _findTermsInternal.
  destruct (strlen _ =? 0).
  { intros [= <- _]. simpl. split; [constructor|]. split; [constructor|].
    intros id. by rewrite elem_of_empty, elem_of_nil. }
  intros ([store deinflections] & calls1 & _ & Hloop)%DB_bind_inv.
  unfold liftOption in Hloop. injection Hloop as Hloop _.
  eapply addDeinflections_found; [|exact Hloop]. simpl.
  split; [constructor|]. split; [constructor|].
  intros id. by rewrite elem_of_empty, elem_of_nil.
Qed.

(** The statement applies to the lookup of "ab" in the example dictionary:
    one entry, for the database id 7. *)
Lemma findTermsInternal_returns_one_entry_for_each_id_witness :
  ∃ state calls',
    _findTermsInternal exampleCollaborators exampleDatabase "ab"
      (FindTermsOptions.enabledDictionaryMap exampleOptions) exampleOptions []
    = (Some state, calls')
    ∧ definitionIds (FindState.dictionaryEntries state) = [7]
    ∧ NoDup (definitionIds (FindState.dictionaryEntries state)).
Proof.
  destruct (_findTermsInternal exampleCollaborators exampleDatabase "ab"
              (FindTermsOptions.enabledDictionaryMap exampleOptions)
              exampleOptions []) as [[state|] calls'] eqn:Hrun;
    [|vm_compute in Hrun; discriminate].
  exists state, calls'. split; [reflexivity|]. split.
  - vm_compute in Hrun. injection Hrun as <- _. reflexivity.
  - exact (proj1 (proj2 (findTermsInternal_returns_one_entry_for_each_id _ _ _ _
                           _ _ _ _ Hrun))).
Defined.

(** ** The order of the result of simple mode *)

(** X4: when the collation is consistent, the entries that [findTerms]
    returns in simple mode are in the order of the keys of the entry sort
    (the changes that the last loop makes to an entry move no entry), and
    each of them has exactly one headword. *)
Theorem findTerms_simple_returns_sorted_single_headword_entries
    (collaborators : Collaborators.t) (database : Database.t) (text : string)
    (options : FindTermsOptions.t) (calls calls' : list DatabaseCall)
    (result : FindTermsResult.t) :
  consistentOn (fun _ => True)
    (Collaborators.stringComparerCompare collaborators) →
  findTerms_simple collaborators database text options calls
  = (Some result, calls') →
  StronglySorted
    (notAfter (entryKeys (Collaborators.stringComparerCompare collaborators)))
    (FindTermsResult.dictionaryEntries result)
  ∧ Forall (fun entry => length (TermDictionaryEntry.headwords entry) = 1%nat)
           (FindTermsResult.dictionaryEntries result).
Proof.
  intros Hcollate Hrun. split.
  - by eapply findTerms_simple_sorted.
  - by eapply findTerms_simple_single.
Qed.

(** The statement applies to the lookup of 食べたab in the Japanese example
    dictionary, which has two rows for 食べる: the entry of the second row,
    with the higher score, comes first. *)
Lemma findTerms_simple_returns_sorted_single_headword_entries_witness :
  ∃ result calls',
    findTerms_simple exampleJapaneseCollaborators exampleJapaneseDatabase
      "食べたab" exampleJapaneseOptions []
    = (Some result, calls')
    ∧ (fun entry =>
         (fun definition => TermDefinition.id definition)
           <$> TermDictionaryEntry.definitions entry)
        <$> FindTermsResult.dictionaryEntries result
      = [[2]; [1]]
    ∧ FindTermsResult.originalTextLength result = 3
    ∧ StronglySorted (notAfter (entryKeys defaultCompare))
        (FindTermsResult.dictionaryEntries result)
    ∧ Forall (fun entry => length (TermDictionaryEntry.headwords entry) = 1%nat)
             (FindTermsResult.dictionaryEntries result).
Proof.
  destruct (findTerms_simple exampleJapaneseCollaborators
              exampleJapaneseDatabase "食べたab" exampleJapaneseOptions [])
    as [[result|] calls'] eqn:Hrun;
    [|vm_compute in Hrun; discriminate].
  exists result, calls'. split; [reflexivity|].
  pose proof (findTerms_simple_returns_sorted_single_headword_entries
                exampleJapaneseCollaborators exampleJapaneseDatabase
                "食べたab" exampleJapaneseOptions [] calls' result
                codeUnitCollate_consistent Hrun) as [Hsorted Hsingle].
  vm_compute in Hrun. injection Hrun as <- _.
  split; [reflexivity|]. split; [reflexivity|]. split; [exact Hsorted|].
  exact Hsingle.
Defined.

(** ** Objects used as maps *)

Section ArrayIndexFacts.

Lemma digitOf_inj (c1 c2 : Ascii.ascii) (d : N) :
  digitOf c1 = Some d → digitOf c2 = Some d → c1 = c2.
Proof.
  unfold digitOf. intros H1 H2.
  destruct (_ && _) eqn:Hc1 in H1; [|done].
  destruct (_ && _) eqn:Hc2 in H2; [|done].
  injection H1 as H1. injection H2 as H2.
  apply andb_true_iff in Hc1 as [Hlo1%N.leb_le _].
  apply andb_true_iff in Hc2 as [Hlo2%N.leb_le _].
  rewrite <- (Ascii.ascii_N_embedding c1), <- (Ascii.ascii_N_embedding c2).
  f_equal. lia.
Qed.

Lemma digitOf_bound (c : Ascii.ascii) (d : N) : digitOf c = Some d → (d < 10)%N.
Proof.
  unfold digitOf. destruct (_ && _) eqn:Hc; [|done]. intros [= <-].
  apply andb_true_iff in Hc as [_ Hhi%N.leb_le]. lia.
Qed.

(** The value of a numeral lies between the values of its prefix followed
    by zeros and by nines. *)
Lemma digitsValue_bounds (digits : string) (value n : N) :
  digitsValue digits value = Some n →
  (value * 10 ^ N.of_nat (String.length digits) ≤ n
   < (value + 1) * 10 ^ N.of_nat (String.length digits))%N.
Proof.
  revert value. induction digits as [|c digits IH]; intros value; simpl.
  - intros [= <-]. simpl. lia.
  - destruct (digitOf c) as [d|] eqn:Hd; simpl; [|done].
    intros Hn. apply IH in Hn. apply digitOf_bound in Hd.
    rewrite Nat2N.inj_succ, N.pow_succ_r'.
    set (p := (10 ^ N.of_nat (String.length digits))%N) in *. nia.
Qed.

Lemma digitsValue_inj (digits1 digits2 : string) (value1 value2 n : N) :
  String.length digits1 = String.length digits2 →
  digitsValue digits1 value1 = Some n → digitsValue digits2 value2 = Some n →
  value1 = value2 ∧ digits1 = digits2.
Proof.
  revert digits2 value1 value2.
  induction digits1 as [|c1 digits1 IH]; intros [|c2 digits2] value1 value2;
    simpl; try done.
  - intros _ [= <-] [= <-]. done.
  - intros [= Hlen].
    destruct (digitOf c1) as [d1|] eqn:Hd1; simpl; [|done].
    destruct (digitOf c2) as [d2|] eqn:Hd2; simpl; [|done].
    intros H1 H2. destruct (IH _ _ _ Hlen H1 H2) as [Hvalue ->].
    pose proof (digitOf_bound _ _ Hd1). pose proof (digitOf_bound _ _ Hd2).
    assert (value1 = value2 ∧ d1 = d2) as [-> ->] by lia.
    split; [done|]. f_equal. by eapply digitOf_inj.
Qed.

Lemma arrayIndexOf_Some (key : string) (n : N) :
  arrayIndexOf key = Some n →
  (∃ c, key = String c EmptyString ∧ Ascii.N_of_ascii c = 48%N ∧ n = 0%N)
  ∨ (∃ c digits, key = String c digits ∧ Ascii.N_of_ascii c ≠ 48%N
                 ∧ digitsValue key 0 = Some n).
Proof.
  unfold arrayIndexOf. destruct key as [|c digits]; [done|].
  destruct (decide (Ascii.N_of_ascii c = 48%N)) as [Hc|Hc].
  - case_decide as Hdigits; [|done]. intros [= <-]. left. exists c. by subst.
  - destruct (digitsValue (String c digits) 0) as [m|] eqn:Hm; [|done].
    cbn [mbind option_bind]. destruct (m <? 4294967295)%N; [|done].
    intros [= ->]. right. by exists c, digits.
Qed.

Lemma digitsValue_range (c : Ascii.ascii) (digits : string) (m : N) :
  Ascii.N_of_ascii c ≠ 48%N →
  digitsValue (String c digits) 0 = Some m →
  (10 ^ N.of_nat (String.length digits) ≤ m
   < 10 ^ N.of_nat (S (String.length digits)))%N.
Proof.
  intros Hc. simpl.
  destruct (digitOf c) as [d|] eqn:Hd; simpl; [|done].
  intros Hm%digitsValue_bounds. pose proof (digitOf_bound _ _ Hd).
  assert (d ≠ 0)%N.
  { intros ->. unfold digitOf in Hd. destruct (_ && _) eqn:Hb; [|done].
    injection Hd as Hd. apply andb_true_iff in Hb as [Hlo%N.leb_le _]. lia. }
  rewrite Nat2N.inj_succ, N.pow_succ_r'.
  set (p := (10 ^ N.of_nat (String.length digits))%N) in *. nia.
Qed.

(** Two keys that denote the same array index are the same key. *)
Lemma arrayIndexOf_inj (key1 key2 : string) (n : N) :
  arrayIndexOf key1 = Some n → arrayIndexOf key2 = Some n → key1 = key2.
Proof.
  intros [(c1 & -> & Hc1 & ->)|(c1 & digits1 & -> & Hc1 & Hm1)]%arrayIndexOf_Some
         [(c2 & -> & Hc2 & Hn)|(c2 & digits2 & -> & Hc2 & Hm2)]%arrayIndexOf_Some.
  - f_equal.
    rewrite <- (Ascii.ascii_N_embedding c1), <- (Ascii.ascii_N_embedding c2).
    congruence.
  - apply digitsValue_range in Hm2; [|done].
    pose proof (N.pow_nonzero 10 (N.of_nat (String.length digits2))). lia.
  - subst n. apply digitsValue_range in Hm1; [|done].
    pose proof (N.pow_nonzero 10 (N.of_nat (String.length digits1))). lia.
  - pose proof (digitsValue_range _ _ _ Hc1 Hm1) as Hr1.
    pose proof (digitsValue_range _ _ _ Hc2 Hm2) as Hr2.
    assert (String.length digits1 = String.length digits2) as Hlen.
    { destruct (Nat.lt_trichotomy (String.length digits1) (String.length digits2))
        as [Hlt|[Heq|Hgt]]; [|done|]; exfalso.
      - assert (10 ^ N.of_nat (S (String.length digits1))
                ≤ 10 ^ N.of_nat (String.length digits2))%N
          by (apply N.pow_le_mono_r; lia).
        lia.
      - assert (10 ^ N.of_nat (S (String.length digits2))
                ≤ 10 ^ N.of_nat (String.length digits1))%N
          by (apply N.pow_le_mono_r; lia).
        lia. }
    eapply (digitsValue_inj (String c1 digits1) (String c2 digits2) 0 0 n);
      [simpl; by rewrite Hlen|done|done].
Qed.

End ArrayIndexFacts.

Section ObjectFacts.
Context {V : Type}.

Lemma objectGet_cons (key k : string) (v : V) (object : list (string * V)) :
  objectGet key ((k, v) :: object)
  = if decide (k = key) then Some v else objectGet key object.
Proof.
  unfold objectGet. simpl. destruct (decide (k = key)); [done|].
  by destruct (list_find _ object) as [[? [? ?]]|].
Qed.

(** Reading a property back after it was set. *)
Lemma objectGet_objectSet (key : string) (value : V) (object : list (string * V)) :
  objectGet key (objectSet key value object) = Some value.
Proof.
  induction object as [|[k v] object IH]; simpl.
  - by rewrite objectGet_cons, decide_True.
  - destruct (decide (k = key)) as [->|Hne].
    + by rewrite objectGet_cons, decide_True.
    + destruct (arrayIndexOf key) as [n|], (arrayIndexOf k) as [m|];
        try destruct (n <? m)%N;
        rewrite !objectGet_cons; repeat case_decide; done.
Qed.

(** Setting a property changes no other property. *)
Lemma objectGet_objectSet_ne (key key' : string) (value : V)
    (object : list (string * V)) :
  key' ≠ key →
  objectGet key' (objectSet key value object) = objectGet key' object.
Proof.
  intros Hkey. induction object as [|[k v] object IH]; simpl.
  - by rewrite objectGet_cons, decide_False.
  - destruct (decide (k = key)) as [->|Hne].
    + by rewrite !objectGet_cons, !decide_False.
    + destruct (arrayIndexOf key) as [n|], (arrayIndexOf k) as [m|];
        try destruct (n <? m)%N;
        rewrite !objectGet_cons; repeat case_decide; congruence.
Qed.

Lemma objectSet_keys (key : string) (value : V) (object : list (string * V))
    (k : string) :
  k ∈ (objectSet key value object).*1 → k = key ∨ k ∈ object.*1.
Proof.
  induction object as [|[k0 v0] object IH]; simpl.
  - intros ->%list_elem_of_singleton. by left.
  - destruct (decide (k0 = key)) as [->|Hne]; simpl.
    { intros [->|?]%elem_of_cons; [by left|]. right. by right. }
    destruct (arrayIndexOf key) as [n|], (arrayIndexOf k0) as [m|];
      try destruct (n <? m)%N; simpl; rewrite !elem_of_cons;
      intuition.
Qed.

Lemma keyBefore_irrefl (key : string) : ¬ keyBefore key key.
Proof. unfold keyBefore. destruct (arrayIndexOf key); [lia|]. by intros []. Qed.

Lemma keyBefore_trans_index (key k r : string) :
  is_Some (arrayIndexOf key) → keyBefore key k → keyBefore k r → keyBefore key r.
Proof.
  unfold keyBefore. intros [n ->].
  destruct (arrayIndexOf k), (arrayIndexOf r); try done; lia.
Qed.

(** An assignment keeps the keys distinct and in the order of
    enumeration. *)
Lemma objectSet_wellFormed (key : string) (value : V)
    (object : list (string * V)) :
  objectWellFormed object → objectWellFormed (objectSet key value object).
Proof.
  unfold objectWellFormed.
  induction object as [|[k v] object IH]; simpl; intros Hsorted.
  - repeat constructor.
  - apply StronglySorted_inv in Hsorted as [Hrest Hk].
    destruct (decide (k = key)) as [->|Hne]; [by constructor|].
    assert (keyBefore k key →
            StronglySorted keyBefore (k :: (objectSet key value object).*1))
      as Hbehind.
    { intros Hkey. constructor; [by apply IH|]. apply Forall_forall.
      intros r [->|Hr]%objectSet_keys; [done|]. by eapply Forall_forall in Hk. }
    assert (is_Some (arrayIndexOf key) → keyBefore key k →
            StronglySorted keyBefore (key :: k :: object.*1)) as Hfront.
    { intros Hindex Hkey. constructor; [by constructor|].
      constructor; [done|]. eapply Forall_impl; [exact Hk|]. simpl.
      intros r. by apply keyBefore_trans_index. }
    destruct (arrayIndexOf key) as [n|] eqn:Hn,
             (arrayIndexOf k) as [m|] eqn:Hm.
    + destruct (N.ltb_spec n m) as [Hlt|Hge]; simpl.
      * apply Hfront; [done|]. unfold keyBefore. by rewrite Hn, Hm.
      * apply Hbehind. unfold keyBefore. rewrite Hn, Hm.
        assert (m ≠ n) by (intros ->; apply Hne; by eapply arrayIndexOf_inj).
        lia.
    + simpl. apply Hfront; [done|]. unfold keyBefore. by rewrite Hn, Hm.
    + simpl. apply Hbehind. unfold keyBefore. by rewrite Hn, Hm.
    + simpl. apply Hbehind. unfold keyBefore. by rewrite Hn, Hm.
Qed.

(** In a well-formed object a key has one value, the one that is read. *)
Lemma objectGet_elem_of (key : string) (value : V) (object : list (string * V)) :
  objectWellFormed object →
  (key, value) ∈ object ↔ objectGet key object = Some value.
Proof.
  unfold objectWellFormed.
  induction object as [|[k v] object IH]; simpl; intros Hsorted.
  - split; [by intros ?%elem_of_nil|done].
  - apply StronglySorted_inv in Hsorted as [Hrest Hk].
    rewrite objectGet_cons, elem_of_cons. destruct (decide (k = key)) as [->|Hne].
    + split; [|intros [= ->]; by left].
      intros [[= ->]|Hin]; [done|]. exfalso.
      eapply (keyBefore_irrefl key). eapply Forall_forall in Hk; [exact Hk|].
      apply list_elem_of_fmap. by exists (key, value).
    + rewrite <- IH by done. split; [|by right].
      intros [[= -> ->]|?]; done.
Qed.

End ObjectFacts.

(** ** The grouping of the candidates by their deinflected text *)

Section GroupingFacts.

Lemma objectWellFormed_NoDup {V} (object : list (string * V)) :
  objectWellFormed object → NoDup (object.*1).
Proof.
  unfold objectWellFormed. induction 1 as [|key keys _ IH Hkey]; constructor;
    [|done].
  intros Hin. eapply Forall_forall in Hkey; [|exact Hin].
  by apply keyBefore_irrefl in Hkey.
Qed.

Lemma positionsOf_snoc term deinflections deinflection :
  positionsOf term (deinflections ++ [deinflection])
  = positionsOf term deinflections
    ++ (if decide (Deinflection.deinflectedText deinflection = term)
        then [length deinflections] else []).
Proof.
  unfold positionsOf. rewrite imap_app, filter_app, fmap_app. f_equal.
  simpl. rewrite filter_cons, filter_nil. simpl.
  rewrite Nat.add_0_r. by destruct (decide _).
Qed.

Lemma _groupDeinflectionsByTerm_spec deinflections map :
  _groupDeinflectionsByTerm deinflections = Some map →
  Forall (fun deinflection => plainKey (Deinflection.deinflectedText deinflection))
         deinflections
  ∧ objectWellFormed map
  ∧ ∀ term,
      objectGet term map
      = if decide (positionsOf term deinflections = []) then None
        else Some (positionsOf term deinflections).
Proof.
  unfold _groupDeinflectionsByTerm. revert map.
  induction deinflections as [|deinflection deinflections IH] using rev_ind;
    intros map.
  - intros [= <-]. split; [constructor|]. split; [constructor|]. done.
  - rewrite imap_app. cbn [imap]. rewrite foldlM_snoc. cbn [compose].
    destruct (foldlM _ _ []) as [map0|] eqn:Hmap0; simpl; [|done].
    destruct (IH map0 eq_refl) as (Hplain & Hwf & Hget).
    rewrite Nat.add_0_r.
    destruct (decide (Deinflection.deinflectedText deinflection
                      ∈ objectPrototypeKeys)) as [Hproto|Hproto]; [done|].
    intros [= <-]. split; [|split].
    + apply Forall_app. split; [done|]. by apply Forall_singleton.
    + by apply objectSet_wellFormed.
    + intros term. rewrite positionsOf_snoc.
      destruct (decide (Deinflection.deinflectedText deinflection = term))
        as [<-|Hne].
      * rewrite objectGet_objectSet, Hget.
        destruct (decide (positionsOf _ deinflections = [])) as [->|?];
          case_decide as Hnil; try done; by apply app_nil in Hnil as [_ ?].
      * rewrite objectGet_objectSet_ne by done. by rewrite Hget, app_nil_r.
Qed.

End GroupingFacts.


(** ** The database entries of the candidates *)

Section MatchFacts.

Lemma fold_alter_imap {A} (g : A → A) (positions : list nat) (l : list A) :
  NoDup positions →
  fold_left (fun l position => alter g position l) positions l
  = imap (fun i x => if decide (i ∈ positions) then g x else x) l.
Proof.
  intros Hnodup. revert l.
  induction Hnodup as [|position positions Hnotin _ IH]; intros l; simpl.
  - apply list_eq. intros i. rewrite list_lookup_imap.
    by destruct (l !! i).
  - rewrite IH. apply list_eq. intros i. rewrite !list_lookup_imap.
    destruct (decide (i = position)) as [->|Hne].
    + rewrite list_lookup_alter_eq. destruct (l !! position); simpl; [|done].
      rewrite decide_False by done. by rewrite decide_True by (by left).
    + rewrite list_lookup_alter_ne by done.
      destruct (l !! i); simpl; [|done]. f_equal.
      destruct (decide (i ∈ positions)).
      * by rewrite decide_True by (by right).
      * rewrite decide_False; [done|]. by intros [?|?]%elem_of_cons.
Qed.

Lemma Deinflection_withEntries_nil deinflection :
  Deinflection_withEntries deinflection [] = deinflection.
Proof. destruct deinflection. unfold Deinflection_withEntries. simpl. by rewrite app_nil_r. Qed.

Lemma Deinflection_withEntries_push deinflection databaseEntry databaseEntries :
  Deinflection_withEntries
    (Deinflection_pushDatabaseEntry deinflection databaseEntry) databaseEntries
  = Deinflection_withEntries deinflection (databaseEntry :: databaseEntries).
Proof.
  unfold Deinflection_withEntries, Deinflection_pushDatabaseEntry. simpl.
  by rewrite <- app_assoc.
Qed.

(** The loop of [_matchEntriesToDeinflections] pushes to a candidate the
    rows whose index selects an array that holds the candidate and whose
    rules are accepted, in the order of the rows. *)
Lemma _matchEntriesToDeinflections_spec collaborators databaseEntries
    (arrays : list (list nat)) checkRules deinflections deinflections' :
  Forall NoDup arrays →
  _matchEntriesToDeinflections collaborators databaseEntries arrays checkRules
    deinflections = Some deinflections' →
  deinflections'
  = imap (fun i deinflection =>
            Deinflection_withEntries deinflection
              (filter (fun databaseEntry =>
                         selects arrays (DatabaseEntry.index databaseEntry) i
                         ∧ rulesAccepted collaborators checkRules deinflection
                             databaseEntry)
                      databaseEntries))
         deinflections.
Proof.
  intros Harrays. unfold _matchEntriesToDeinflections.
  revert deinflections.
  induction databaseEntries as [|databaseEntry databaseEntries IH];
    intros deinflections; simpl.
  - intros [= <-]. apply list_eq. intros i. rewrite list_lookup_imap.
    destruct (deinflections !! i); simpl; [|done].
    by rewrite Deinflection_withEntries_nil.
  - destruct (arrays !! DatabaseEntry.index databaseEntry) as [positions|]
      eqn:Hpositions; simpl; [|done].
    rewrite fold_alter_imap
      by (by eapply (Forall_lookup_1 _ _ _ _ Harrays)).
    intros ->%IH. apply list_eq. intros i. rewrite !list_lookup_imap.
    destruct (deinflections !! i) as [deinflection|]; simpl; [|done]. f_equal.
    rewrite filter_cons.
    assert (selects arrays (DatabaseEntry.index databaseEntry) i ↔ i ∈ positions)
      as Hselects.
    { unfold selects. rewrite Hpositions. split; [by intros (? & [= <-] & ?)|].
      intros Hin. by exists positions. }
    assert (∀ deinflection',
              Deinflection.rules deinflection' = Deinflection.rules deinflection →
              filter (fun databaseEntry =>
                        selects arrays (DatabaseEntry.index databaseEntry) i
                        ∧ rulesAccepted collaborators checkRules deinflection'
                            databaseEntry)
                     databaseEntries
              = filter (fun databaseEntry =>
                          selects arrays (DatabaseEntry.index databaseEntry) i
                          ∧ rulesAccepted collaborators checkRules deinflection
                              databaseEntry)
                       databaseEntries) as Hsame.
    { intros deinflection' Hrules. apply list_filter_iff. intros entry.
      unfold rulesAccepted. by rewrite Hrules. }
    destruct (decide (i ∈ positions)) as [Hin|Hout].
    + rewrite Hsame by (by destruct (_ || _)).
      destruct (decide (rulesAccepted collaborators checkRules deinflection
                          databaseEntry)) as [Hok|Hno].
      * rewrite decide_True by (split; [by apply Hselects|done]).
        unfold rulesAccepted in Hok. rewrite Hok.
        by rewrite Deinflection_withEntries_push.
      * rewrite decide_False by (by intros [_ ?]).
        unfold rulesAccepted in Hno. apply not_true_is_false in Hno.
        by rewrite Hno.
    + rewrite decide_False by (intros [?%Hselects _]; done). done.
Qed.

Lemma elem_of_positionsOf term deinflections (i : nat) :
  i ∈ positionsOf term deinflections
  ↔ ∃ deinflection,
      deinflections !! i = Some deinflection
      ∧ Deinflection.deinflectedText deinflection = term.
Proof.
  unfold positionsOf. rewrite list_elem_of_fmap. split.
  - intros ([position deinflection] & -> & [Hterm Hin]%list_elem_of_filter).
    apply list_elem_of_lookup in Hin as [j Hj].
    rewrite list_lookup_imap in Hj.
    destruct (deinflections !! j) eqn:Hlookup; [|done].
    injection Hj as <- <-. simpl in *. eauto.
  - intros (deinflection & Hlookup & Hterm).
    exists (i, deinflection). split; [done|]. apply list_elem_of_filter.
    split; [done|]. apply list_elem_of_lookup. exists i.
    by rewrite list_lookup_imap, Hlookup.
Qed.

Lemma positionsOf_NoDup term deinflections :
  NoDup (positionsOf term deinflections).
Proof.
  unfold positionsOf.
  apply NoDup_fmap_2_strong.
  - intros [i1 d1] [i2 d2] [_ Hin1]%list_elem_of_filter
      [_ Hin2]%list_elem_of_filter. simpl. intros ->.
    apply list_elem_of_lookup in Hin1 as [j1 Hj1].
    apply list_elem_of_lookup in Hin2 as [j2 Hj2].
    rewrite list_lookup_imap in Hj1, Hj2.
    destruct (deinflections !! j1) eqn:H1; [|done].
    destruct (deinflections !! j2) eqn:H2; [|done].
    injection Hj1 as <- <-. injection Hj2 as -> <-. congruence.
  - apply NoDup_filter. apply NoDup_alt. intros j1 j2 [i d].
    rewrite !list_lookup_imap.
    destruct (deinflections !! j1); [|done]. destruct (deinflections !! j2); [|done].
    simpl. congruence.
Qed.

End MatchFacts.

(** X6: when [_addEntriesToDeinflections] returns, it has asked the
    database once, for the deinflected texts of the candidates without
    repetition, and every candidate has got, behind the database entries it
    had, the rows that answer its own deinflected text and whose rules are
    accepted, in the order of the rows; nothing else of a candidate has
    changed. *)
Theorem addEntriesToDeinflections_attaches_matching_rows
    (collaborators : Collaborators.t) (database : Database.t)
    (deinflections deinflections' : list Deinflection.t)
    (enabledDictionaryMap : EnabledDictionaryMap) (matchType : MatchType)
    (checkRules : bool) (calls calls' : list DatabaseCall) :
  _addEntriesToDeinflections collaborators database deinflections
    enabledDictionaryMap matchType checkRules calls
  = (Some deinflections', calls') →
  ∃ termList,
    calls' = calls ++ [FindTermsBulk termList (dom enabledDictionaryMap) matchType]
    ∧ NoDup termList
    ∧ (∀ term, term ∈ termList
               ↔ ∃ deinflection,
                   deinflection ∈ deinflections
                   ∧ Deinflection.deinflectedText deinflection = term)
    ∧ deinflections'
      = (fun deinflection =>
           Deinflection_withEntries deinflection
             (filter (answers collaborators checkRules termList deinflection)
                     (Database.findTermsBulk database termList
                        enabledDictionaryMap matchType)))
          <$> deinflections.
Proof.
  unfold _addEntriesToDeinflections.
  intros (map & calls0 & Hgroup & Hrun)%DB_bind_inv.
  unfold liftOption in Hgroup. injection Hgroup as Hgroup <-.
  apply DB_bind_inv in Hrun as (entries & calls1 & Hfind & Hmatch).
  unfold findTermsBulk in Hfind. injection Hfind as <- <-.
  unfold liftOption in Hmatch. injection Hmatch as Hmatch <-.
  destruct (_groupDeinflectionsByTerm_spec _ _ Hgroup) as (_ & Hwf & Hget).
  assert (∀ term positions,
            (term, positions) ∈ map
            ↔ positions = positionsOf term deinflections ∧ positions ≠ [])
    as Hmap.
  { intros term positions. rewrite (objectGet_elem_of _ _ _ Hwf), Hget.
    destruct (decide (positionsOf term deinflections = [])) as [Hnil|Hsome].
    - split; [done|]. intros [-> ?]. done.
    - split; [by intros [= <-]|]. by intros [-> _]. }
  exists (map.*1). split; [done|].
  split; [by apply objectWellFormed_NoDup|]. split.
  - intros term. rewrite list_elem_of_fmap. split.
    + intros ([term' positions] & -> & Hin). simpl.
      apply Hmap in Hin as [-> Hsome].
      destruct (positionsOf term' deinflections) as [|i rest] eqn:Hpos; [done|].
      assert (i ∈ positionsOf term' deinflections) as Hi
        by (rewrite Hpos; by left).
      apply elem_of_positionsOf in Hi as (d & Hlookup & Hterm).
      exists d. split; [by eapply list_elem_of_lookup_2|done].
    + intros (d & Hin & <-). apply list_elem_of_lookup in Hin as [i Hi].
      exists (Deinflection.deinflectedText d,
              positionsOf (Deinflection.deinflectedText d) deinflections).
      split; [done|]. apply Hmap. split; [done|].
      intros Hnil.
      assert (i ∈ positionsOf (Deinflection.deinflectedText d) deinflections)
        as Hin by (apply elem_of_positionsOf; eauto).
      rewrite Hnil in Hin. by apply elem_of_nil in Hin.
  - apply _matchEntriesToDeinflections_spec in Hmatch; cycle 1.
    { apply Forall_fmap, Forall_forall. intros [term positions] Hin. simpl.
      apply Hmap in Hin as [-> _]. apply positionsOf_NoDup. }
    rewrite Hmatch. apply list_eq. intros i.
    rewrite list_lookup_imap, list_lookup_fmap.
    destruct (deinflections !! i) as [d|] eqn:Hd; simpl; [|done].
    do 2 f_equal. apply list_filter_iff. intros entry.
    unfold answers.
    assert (selects (map.*2) (DatabaseEntry.index entry) i
            ↔ map.*1 !! DatabaseEntry.index entry
              = Some (Deinflection.deinflectedText d)) as Hselects; [|tauto].
    unfold selects. rewrite !list_lookup_fmap.
    destruct (map !! DatabaseEntry.index entry) as [[term positions]|]
      eqn:Hentry; simpl.
    + apply list_elem_of_lookup_2 in Hentry. apply Hmap in Hentry as [-> _].
      split.
      * intros (? & [= <-] & (d' & Hd' & <-)%elem_of_positionsOf). congruence.
      * intros [= ->]. eexists. split; [done|].
        apply elem_of_positionsOf. eauto.
    + split; [by intros (? & ? & _)|done].
Qed.

(** The statement applies to the candidates "ab", "a" and "ab" again and
    the example dictionary: the row for "ab" is attached to the first and
    to the third candidate. *)
Lemma addEntriesToDeinflections_attaches_matching_rows_witness :
  ∃ deinflections' calls',
    _addEntriesToDeinflections exampleCollaborators exampleDatabase
      [Deinflection.mk "ab" "ab" "ab" 0 [] [] false;
       Deinflection.mk "a" "a" "a" 0 [] [] false;
       Deinflection.mk "abx" "abx" "ab" 0 [] [] false]
      ∅ Exact true []
    = (Some deinflections', calls')
    ∧ ((fun deinflection => length (Deinflection.databaseEntries deinflection))
         <$> deinflections')
      = [1; 0; 1]%nat
    ∧ calls' = [FindTermsBulk ["ab"; "a"]%string ∅ Exact].
Proof.
  destruct (_addEntriesToDeinflections exampleCollaborators exampleDatabase
              [Deinflection.mk "ab" "ab" "ab" 0 [] [] false;
               Deinflection.mk "a" "a" "a" 0 [] [] false;
               Deinflection.mk "abx" "abx" "ab" 0 [] [] false]
              ∅ Exact true []) as [[deinflections'|] calls'] eqn:Hrun;
    [|vm_compute in Hrun; discriminate].
  exists deinflections', calls'. split; [reflexivity|].
  destruct (addEntriesToDeinflections_attaches_matching_rows _ _ _ _ _ _ _ _ _
              Hrun) as (termList & Hcalls & _).
  vm_compute in Hrun. injection Hrun as <- <-. split; reflexivity.
Defined.

(** ** Removing the definitions of excluded dictionaries *)

Section RemoveFacts.







End RemoveFacts.


(** ** Sorted insertion of headword indices *)

Section HeadwordIndexFacts.

(** The loop keeps [start <= end], has only smaller values in front of
    [start] and only larger values from [end] on; it ends with
    [start = end], or inside the loop when it meets the index. *)
Lemma headwordIndexSearch_spec (headwordIndices : list nat)
    (headwordIndex start end_ : nat) :
  StronglySorted lt headwordIndices →
  (start ≤ end_ ≤ length headwordIndices)%nat →
  (∀ i value, (i < start)%nat → headwordIndices !! i = Some value →
              (value < headwordIndex)%nat) →
  (∀ i value, (end_ ≤ i)%nat → headwordIndices !! i = Some value →
              (headwordIndex < value)%nat) →
  match headwordIndexSearch headwordIndices headwordIndex start end_ with
  | None => headwordIndex ∈ headwordIndices
  | Some position =>
      (position ≤ length headwordIndices)%nat
      ∧ (∀ i value, (i < position)%nat → headwordIndices !! i = Some value →
                    (value < headwordIndex)%nat)
      ∧ (∀ i value, (position ≤ i)%nat → headwordIndices !! i = Some value →
                    (headwordIndex < value)%nat)
  end.
Proof.
  intros Hsorted.
  funelim (headwordIndexSearch headwordIndices headwordIndex start end_);
    intros Hrange Hbefore Hafter.
  all: try match goal with
           | Hmiddle : _ !! _ = Some _ |- _ =>
               rename Hmiddle into Hvalue
           end.
  - (* the loop ends *)
    assert (start = end_) as -> by lia. split; [lia|]. by split.
  - (* the middle is out of range: impossible *)
    match goal with
    | Hnone : _ !! _ = None |- _ => apply lookup_ge_None in Hnone
    end.
    pose proof (Nat.div_mod_eq (start + end_) 2).
    pose proof (Nat.mod_upper_bound (start + end_) 2). lia.
  - (* the index is met *)
    subst. by eapply list_elem_of_lookup_2.
  - (* the middle value is smaller *)
    apply H; [done|..].
    + pose proof (Nat.div_mod_eq (start + end_) 2).
      pose proof (Nat.mod_upper_bound (start + end_) 2). lia.
    + intros i value' Hi Hlookup.
      destruct (decide (i = (start + end_) `div` 2)%nat) as [->|Hne].
      { assert (value' = value) by congruence. lia. }
      assert (value' < value)%nat; [|lia].
      eapply (StronglySorted_lookup_lt lt headwordIndices i); [done..|lia].
    + done.
  - (* the middle value is larger *)
    apply H; [done|..].
    + pose proof (Nat.div_mod_eq (start + end_) 2).
      pose proof (Nat.mod_upper_bound (start + end_) 2). lia.
    + done.
    + intros i value' Hi Hlookup.
      destruct (decide (i = (start + end_) `div` 2)%nat) as [->|Hne].
      { assert (value' = value) by congruence. lia. }
      assert (value < value')%nat; [|lia].
      eapply (StronglySorted_lookup_lt lt headwordIndices _ i); [done..|lia].
Qed.

(** The loop returns from inside only when it has met the index. *)
Lemma headwordIndexSearch_None (headwordIndices : list nat)
    (headwordIndex start end_ : nat) :
  headwordIndexSearch headwordIndices headwordIndex start end_ = None →
  headwordIndex ∈ headwordIndices.
Proof.
  funelim (headwordIndexSearch headwordIndices headwordIndex start end_);
    try done.
  intros _. subst. by eapply list_elem_of_lookup_2.
Qed.

Lemma elem_of_drop_lookup {A} (x : A) (n : nat) (l : list A) :
  x ∈ drop n l ↔ ∃ i, l !! i = Some x ∧ (n ≤ i)%nat.
Proof.
  rewrite list_elem_of_lookup. split.
  - intros [i Hi]. rewrite lookup_drop in Hi. exists (n + i)%nat. split; [done|lia].
  - intros (i & Hi & Hle). exists (i - n)%nat. rewrite lookup_drop.
    by replace (n + (i - n))%nat with i by lia.
Qed.

(** What the search has found when it ends outside the loop on an array
    that is not empty. *)
Lemma headwordIndexSearch_position (headwordIndices : list nat)
    (headwordIndex position : nat) :
  StronglySorted lt headwordIndices →
  headwordIndexSearch headwordIndices headwordIndex 0 (length headwordIndices)
  = Some position →
  (position ≤ length headwordIndices)%nat
  ∧ (∀ i value, (i < position)%nat → headwordIndices !! i = Some value →
                (value < headwordIndex)%nat)
  ∧ (∀ i value, (position ≤ i)%nat → headwordIndices !! i = Some value →
                (headwordIndex < value)%nat)
  ∧ headwordIndex ∉ headwordIndices.
Proof.
  intros Hsorted Hsearch.
  pose proof (headwordIndexSearch_spec headwordIndices headwordIndex 0
                (length headwordIndices) Hsorted) as Hspec.
  rewrite Hsearch in Hspec.
  destruct Hspec as (Hposition & Hbefore & Hafter).
  { lia. }
  { intros i value Hi. lia. }
  { intros i value Hi Hlookup. apply lookup_lt_Some in Hlookup. lia. }
  split; [done|]. split; [done|]. split; [done|].
  intros [i Hi]%list_elem_of_lookup.
  destruct (decide (i < position)%nat).
  - pose proof (Hbefore i _ ltac:(done) Hi). lia.
  - pose proof (Hafter i _ ltac:(lia) Hi). lia.
Qed.

Lemma _addUniqueTermHeadwordIndex_elem_of (headwordIndices : list nat)
    (headwordIndex value : nat) :
  value ∈ _addUniqueTermHeadwordIndex headwordIndices headwordIndex
  ↔ value = headwordIndex ∨ value ∈ headwordIndices.
Proof.
  unfold _addUniqueTermHeadwordIndex.
  destruct (decide (length headwordIndices = 0%nat)) as [Hempty|Hsome].
  { apply nil_length_inv in Hempty as ->. simpl.
    rewrite list_elem_of_singleton, elem_of_nil. tauto. }
  destruct (headwordIndexSearch _ _ _ _) as [position|] eqn:Hsearch.
  - case_decide as Hthere.
    + apply list_elem_of_lookup_2 in Hthere. split; [by right|].
      by intros [->|?].
    + rewrite <- (take_drop position headwordIndices) at 3.
      rewrite !elem_of_app, elem_of_cons. tauto.
  - apply headwordIndexSearch_None in Hsearch. split; [by right|].
    by intros [->|?].
Qed.

Lemma _addUniqueTermHeadwordIndex_sorted (headwordIndices : list nat)
    (headwordIndex : nat) :
  StronglySorted lt headwordIndices →
  StronglySorted lt (_addUniqueTermHeadwordIndex headwordIndices headwordIndex).
Proof.
  intros Hsorted. unfold _addUniqueTermHeadwordIndex.
  destruct (decide (length headwordIndices = 0%nat)) as [Hempty|Hsome].
  { apply nil_length_inv in Hempty as ->. simpl. repeat constructor. }
  destruct (headwordIndexSearch _ _ _ _) as [position|] eqn:Hsearch; [|done].
  case_decide as Hthere; [done|].
  destruct (headwordIndexSearch_position _ _ _ Hsorted Hsearch)
    as (Hposition & Hbefore & Hafter & _).
  rewrite <- (take_drop position headwordIndices) in Hsorted.
  apply StronglySorted_app in Hsorted as (Hcross & Htake & Hdrop).
  apply StronglySorted_app_2.
  - intros a b (i & Hi & Hlt)%elem_of_take [->|Hb]%elem_of_cons.
    + by eapply Hbefore.
    + apply Hcross; [|done]. apply elem_of_take. eauto.
  - done.
  - constructor; [done|]. apply Forall_forall.
    intros b (i & Hi & Hle)%elem_of_drop_lookup. by eapply Hafter.
Qed.

End HeadwordIndexFacts.

(** X8: [_addUniqueTermHeadwordIndex] leaves in the array the index and the
    elements that were there, and nothing else.  On an array in strictly
    ascending order the result is in strictly ascending order again: the
    array is unchanged when it holds the index, and one longer
    otherwise. *)
Theorem addUniqueTermHeadwordIndex_inserts_in_order
    (headwordIndices : list nat) (headwordIndex : nat) :
  let result := _addUniqueTermHeadwordIndex headwordIndices headwordIndex in
  (∀ value, value ∈ result ↔ value = headwordIndex ∨ value ∈ headwordIndices)
  ∧ (StronglySorted lt headwordIndices →
     StronglySorted lt result
     ∧ (headwordIndex ∈ headwordIndices → result = headwordIndices)
     ∧ (headwordIndex ∉ headwordIndices →
        length result = S (length headwordIndices))).
Proof.
  intros result. subst result.
  split; [intros value; apply _addUniqueTermHeadwordIndex_elem_of|].
  intros Hsorted.
  split; [by apply _addUniqueTermHeadwordIndex_sorted|].
  unfold _addUniqueTermHeadwordIndex.
  destruct (decide (length headwordIndices = 0%nat)) as [Hempty|Hsome].
  { apply nil_length_inv in Hempty as ->. simpl.
    split; [by intros ?%elem_of_nil|done]. }
  destruct (headwordIndexSearch _ _ _ _) as [position|] eqn:Hsearch.
  - destruct (headwordIndexSearch_position _ _ _ Hsorted Hsearch)
      as (Hposition & _ & _ & Hnotin).
    rewrite decide_False
      by (intros Hthere; by apply list_elem_of_lookup_2 in Hthere).
    split; [done|]. intros _. rewrite length_app. simpl.
    rewrite length_take, length_drop. lia.
  - split; [done|]. intros Hnotin.
    by apply headwordIndexSearch_None in Hsearch.
Qed.

(** The statement applies to the array [1; 4; 6]: 5 goes between 4 and
    6. *)
Lemma addUniqueTermHeadwordIndex_inserts_in_order_witness :
  StronglySorted lt [1; 4; 6]%nat
  ∧ _addUniqueTermHeadwordIndex [1; 4; 6]%nat 5 = [1; 4; 5; 6]%nat
  ∧ StronglySorted lt (_addUniqueTermHeadwordIndex [1; 4; 6]%nat 5).
Proof.
  assert (StronglySorted lt [1; 4; 6]%nat) as Hsorted
    by (repeat constructor; lia).
  split; [exact Hsorted|]. split; [vm_compute; reflexivity|].
  exact (proj1 (proj2 (addUniqueTermHeadwordIndex_inserts_in_order
                         [1; 4; 6]%nat 5) Hsorted)).
Defined.

(** ** Merging similar tags twice *)

Section MergeTwice.

Lemma _mergeSimilarTags_distinct (tags : list Tag.t) :
  (∀ i j tag1 tag2,
     tags !! i = Some tag1 → tags !! j = Some tag2 →
     similarTags tag1 tag2 → i = j) →
  _mergeSimilarTags tags = tags.
Proof.
  induction tags as [|tag1 rest IH]; intros Hdistinct; [by simp _mergeSimilarTags|].
  rewrite _mergeSimilarTags_cons.
  assert (Forall (fun tag => ¬ similarTags tag1 tag) rest) as Hrest.
  { apply Forall_forall. intros tag [j Hj]%list_elem_of_lookup Hsimilar.
    by specialize (Hdistinct 0%nat (S j) tag1 tag eq_refl Hj Hsimilar). }
  rewrite (filter_none _ rest Hrest), (filter_all _ rest Hrest). simpl.
  f_equal. apply IH. intros i j tag tag' Hi Hj Hsimilar.
  by specialize (Hdistinct (S i) (S j) tag tag' Hi Hj Hsimilar) as [= ->].
Qed.

End MergeTwice.

(** X9: [_mergeSimilarTags] leaves a list unchanged in which no two tags
    have the same name and category, and so a second call changes nothing
    after a first; the result is never longer than the list. *)
Theorem mergeSimilarTags_is_idempotent (tags : list Tag.t) :
  _mergeSimilarTags (_mergeSimilarTags tags) = _mergeSimilarTags tags
  ∧ (length (_mergeSimilarTags tags) ≤ length tags)%nat
  ∧ ((∀ i j tag1 tag2,
        tags !! i = Some tag1 → tags !! j = Some tag2 →
        similarTags tag1 tag2 → i = j) →
     _mergeSimilarTags tags = tags).
Proof.
  split; [|split].
  - apply _mergeSimilarTags_distinct.
    by destruct (_mergeSimilarTags_classes tags) as (_ & Hdistinct & _).
  - remember (length tags) as n eqn:Hn.
    revert tags Hn. induction n as [n IH] using lt_wf_ind. intros tags ->.
    destruct tags as [|tag1 rest]; [by simp _mergeSimilarTags|].
    rewrite _mergeSimilarTags_cons. simpl.
    pose proof (length_filter (fun tag => ¬ similarTags tag1 tag) rest) as Hle.
    assert (length (filter (fun tag => ¬ similarTags tag1 tag) rest)
            < length (tag1 :: rest))%nat as Hlt by (simpl; lia).
    specialize (IH _ Hlt _ eq_refl). lia.
  - apply _mergeSimilarTags_distinct.
Qed.

(** ** Removing unused headwords *)

Section UnusedHeadwordFacts.
Context {T : Type}.

Lemma removeIndices_elem_of (headwordIndices : list nat) (indices : gset nat)
    (i : nat) :
  i ∈ fold_left (fun removeHeadwordIndices headwordIndex =>
                   removeHeadwordIndices ∖ {[headwordIndex]})
                headwordIndices indices
  ↔ i ∈ indices ∧ i ∉ headwordIndices.
Proof.
  revert indices.
  induction headwordIndices as [|j rest IH]; intros indices; simpl.
  - split; [intros ?; split; [done|by intros ?%elem_of_nil]|by intros [? _]].
  - rewrite IH, elem_of_difference, elem_of_singleton, not_elem_of_cons. tauto.
Qed.

Lemma removeHeadwordIndices_elem_of (definitions : list (TermDefinition.t T))
    (indices : gset nat) (i : nat) :
  i ∈ fold_left
        (fun removeHeadwordIndices definition =>
           fold_left (fun removeHeadwordIndices headwordIndex =>
                        removeHeadwordIndices ∖ {[headwordIndex]})
                     (TermDefinition.headwordIndices definition)
                     removeHeadwordIndices)
        definitions indices
  ↔ i ∈ indices ∧ ¬ referenced definitions i.
Proof.
  revert indices. unfold referenced.
  induction definitions as [|definition rest IH]; intros indices; simpl.
  - split; [intros ?; split; [done|by intros ?%Exists_nil]|by intros [? _]].
  - rewrite IH, removeIndices_elem_of, Exists_cons. tauto.
Qed.

Lemma removeHeadwords_sublist removeHeadwordIndices
    (headwords : list (Headword.t T)) oldIndex indexRemap :
  sublist (removeHeadwords removeHeadwordIndices headwords oldIndex indexRemap).1
          headwords.
Proof.
  revert oldIndex indexRemap.
  induction headwords as [|h headwords IH]; intros oldIndex indexRemap; simpl.
  - constructor.
  - case_decide.
    + apply sublist_cons, IH.
    + specialize (IH (S oldIndex) (<[oldIndex := size indexRemap]> indexRemap)).
      destruct (removeHeadwords _ _ _ _) as [kept indexRemap']. simpl in *.
      by apply sublist_skip.
Qed.

(** The loop that fills [indexRemap]: an old position that is kept is
    mapped to the position of the same headword in the new array, a removed
    one is not mapped, and every new position is the image of an old
    one. *)
Lemma removeHeadwords_spec removeHeadwordIndices
    (headwords : list (Headword.t T)) oldIndex indexRemap kept indexRemap' :
  removeHeadwords removeHeadwordIndices headwords oldIndex indexRemap
  = (kept, indexRemap') →
  (∀ i, i ∈ dom indexRemap → (i < oldIndex)%nat) →
  (∀ i, (i < oldIndex)%nat → indexRemap' !! i = indexRemap !! i)
  ∧ (∀ i, (oldIndex ≤ i)%nat →
       match indexRemap' !! i with
       | Some j =>
           (i ∉ removeHeadwordIndices)
           ∧ (size indexRemap ≤ j)%nat
           ∧ is_Some (headwords !! (i - oldIndex)%nat)
           ∧ kept !! (j - size indexRemap)%nat = headwords !! (i - oldIndex)%nat
       | None =>
           i ∈ removeHeadwordIndices ∨ (length headwords ≤ i - oldIndex)%nat
       end)
  ∧ (∀ j, (j < length kept)%nat →
       ∃ i, indexRemap' !! i = Some (size indexRemap + j)%nat).
Proof.
  revert oldIndex indexRemap kept indexRemap'.
  induction headwords as [|h headwords IH];
    intros oldIndex indexRemap kept indexRemap' Hrun Hdom; simpl in Hrun.
  - injection Hrun as <- <-. split; [done|]. split.
    + intros i Hi. destruct (indexRemap !! i) as [j|] eqn:Hlookup.
      * apply elem_of_dom_2, Hdom in Hlookup. lia.
      * right. simpl. lia.
    + simpl. intros j Hj. lia.
  - destruct (decide (oldIndex ∈ removeHeadwordIndices)) as [Hremoved|Hkept].
    + destruct (IH _ _ _ _ Hrun) as (Hbelow & Hfrom & Honto).
      { intros i Hi. apply Hdom in Hi. lia. }
      split; [intros i Hi; apply Hbelow; lia|]. split; [|done].
      intros i Hi. destruct (decide (i = oldIndex)) as [->|Hne].
      * rewrite Hbelow by lia.
        destruct (indexRemap !! oldIndex) as [j|] eqn:Hlookup; [|by left].
        apply elem_of_dom_2, Hdom in Hlookup. lia.
      * specialize (Hfrom i ltac:(lia)).
        replace (i - oldIndex)%nat with (S (i - S oldIndex)) by lia.
        destruct (indexRemap' !! i) as [j|]; simpl; [done|].
        destruct Hfrom as [?|?]; [by left|right; lia].
    + destruct (removeHeadwords _ _ _ _) as [kept' remap'] eqn:Hrest.
      injection Hrun as <- <-.
      assert (indexRemap !! oldIndex = None) as Hfresh.
      { apply not_elem_of_dom. intros Hin%Hdom. lia. }
      assert (size (<[oldIndex := size indexRemap]> indexRemap)
              = S (size indexRemap)) as Hsize
        by by rewrite map_size_insert_None.
      destruct (IH _ _ _ _ Hrest) as (Hbelow & Hfrom & Honto).
      { intros i [->%elem_of_singleton|Hi%Hdom]%dom_insert%elem_of_union; lia. }
      rewrite Hsize in Hfrom, Honto.
      split; [|split].
      * intros i Hi. rewrite Hbelow by lia. by rewrite lookup_insert_ne by lia.
      * intros i Hi. destruct (decide (i = oldIndex)) as [->|Hne].
        -- rewrite Hbelow, lookup_insert_eq by lia.
           rewrite !Nat.sub_diag. simpl. by eauto.
        -- specialize (Hfrom i ltac:(lia)).
           replace (i - oldIndex)%nat with (S (i - S oldIndex)) by lia.
           destruct (remap' !! i) as [j|]; simpl.
           ++ destruct Hfrom as (? & ? & ? & Hsame).
              split; [done|]. split; [lia|]. split; [done|].
              by replace (j - size indexRemap)%nat
                with (S (j - S (size indexRemap))) by lia.
           ++ destruct Hfrom as [?|?]; [by left|right; lia].
      * intros [|j] Hj; simpl in Hj.
        -- exists oldIndex. rewrite Hbelow, lookup_insert_eq by lia.
           f_equal. lia.
        -- destruct (Honto j ltac:(lia)) as [i Hi]. exists i. rewrite Hi.
           f_equal. lia.
Qed.

Lemma omap_filter_Forall2 {A B} (f : A → option B) (l : list A) :
  Forall2 (fun x y => f x = Some y) (filter (fun x => is_Some (f x)) l) (omap f l).
Proof.
  induction l as [|x l IH]; simpl; [constructor|].
  rewrite filter_cons. destruct (f x) as [y|] eqn:Hx.
  - rewrite decide_True by by eauto. by constructor.
  - rewrite decide_False by by intros [? ?]. done.
Qed.

Lemma omap_total_Forall2 {A B} (f : A → option B) (l : list A) :
  Forall (fun x => is_Some (f x)) l →
  Forall2 (fun x y => f x = Some y) l (omap f l).
Proof.
  induction 1 as [|x l [y Hx] _ IH]; simpl; [constructor|].
  rewrite Hx. by constructor.
Qed.

Lemma _updateArrayItemsHeadwordIndex_spec {A} (headwordIndex : A → nat)
    (setHeadwordIndex : A → nat → A) (array : list A)
    (indexRemap : gmap nat nat) (used : nat → Prop) `{∀ i, Decision (used i)}
    (headwords kept : list (Headword.t T)) :
  (∀ item j, headwordIndex (setHeadwordIndex item j) = j) →
  (∀ i, used i ↔ is_Some (indexRemap !! i)) →
  (∀ i j, indexRemap !! i = Some j → kept !! j = headwords !! i) →
  Forall2
    (fun item item' =>
       item' = setHeadwordIndex item (headwordIndex item')
       ∧ kept !! headwordIndex item' = headwords !! headwordIndex item)
    (filter (fun item => used (headwordIndex item)) array)
    (_updateArrayItemsHeadwordIndex headwordIndex setHeadwordIndex array
       indexRemap).
Proof.
  intros Hset Hused Hsame. unfold _updateArrayItemsHeadwordIndex.
  induction array as [|item array IH]; simpl; [constructor|].
  rewrite filter_cons.
  destruct (indexRemap !! headwordIndex item) as [j|] eqn:Hj; simpl.
  - rewrite decide_True by (apply Hused; by eauto).
    constructor; [|done]. rewrite Hset. split; [done|]. by apply Hsame.
  - rewrite decide_False; [done|].
    intros [j' Hj']%Hused. by rewrite Hj in Hj'.
Qed.

End UnusedHeadwordFacts.

(** X10: on an entry whose headword indices are positions of its array of
    headwords, [_removeUnusedHeadwords] keeps, in their order and unchanged
    (their [index] included), the headwords that a definition refers to, so
    that every headword left is referred to.  Each definition has the same
    number of headword indices as before, and each new index is the
    position in the new array of the headword the old index stood for.
    The pronunciations and frequencies of a kept headword are kept and
    point at it again; those of a removed headword are removed. *)
Theorem removeUnusedHeadwords_keeps_referenced_headwords {T}
    (dictionaryEntry : TermDictionaryEntry.t T) :
  headwordIndicesInRange dictionaryEntry →
  let headwords := TermDictionaryEntry.headwords dictionaryEntry in
  let definitions := TermDictionaryEntry.definitions dictionaryEntry in
  let result := _removeUnusedHeadwords dictionaryEntry in
  let headwords' := TermDictionaryEntry.headwords result in
  sublist headwords' headwords
  ∧ (∀ j, (j < length headwords')%nat →
       referenced (TermDictionaryEntry.definitions result) j)
  ∧ Forall2
      (fun definition definition' =>
         definition'
         = TermDefinition_setHeadwordIndices definition
             (TermDefinition.headwordIndices definition')
         ∧ Forall2 (fun i i' => headwords' !! i' = headwords !! i)
                   (TermDefinition.headwordIndices definition)
                   (TermDefinition.headwordIndices definition'))
      definitions (TermDictionaryEntry.definitions result)
  ∧ Forall2
      (fun item item' =>
         item'
         = TermPronunciation_setHeadwordIndex item
             (TermPronunciation.headwordIndex item')
         ∧ headwords' !! TermPronunciation.headwordIndex item'
           = headwords !! TermPronunciation.headwordIndex item)
      (filter (fun item =>
                 referenced definitions (TermPronunciation.headwordIndex item))
              (TermDictionaryEntry.pronunciations dictionaryEntry))
      (TermDictionaryEntry.pronunciations result)
  ∧ Forall2
      (fun item item' =>
         item'
         = TermFrequency_setHeadwordIndex item
             (TermFrequency.headwordIndex item')
         ∧ headwords' !! TermFrequency.headwordIndex item'
           = headwords !! TermFrequency.headwordIndex item)
      (filter (fun item =>
                 referenced definitions (TermFrequency.headwordIndex item))
              (TermDictionaryEntry.frequencies dictionaryEntry))
      (TermDictionaryEntry.frequencies result).
Proof.
  intros (Hdefinitions & Hpronunciations & Hfrequencies).
  cbn zeta. unfold _removeUnusedHeadwords.
  set (removeHeadwordIndices := fold_left _ _ _).
  assert (∀ i, i ∈ removeHeadwordIndices
               ↔ (i < length (TermDictionaryEntry.headwords dictionaryEntry))%nat
                 ∧ ¬ referenced (TermDictionaryEntry.definitions dictionaryEntry) i)
    as Hremoved.
  { intros i. unfold removeHeadwordIndices.
    rewrite removeHeadwordIndices_elem_of, elem_of_list_to_set, elem_of_seq.
    split; intros [? ?]; (split; [lia|done]). }
  case_decide as Hsize.
  - apply size_empty_iff in Hsize.
    assert (∀ i, (i < length (TermDictionaryEntry.headwords dictionaryEntry))%nat →
                 referenced (TermDictionaryEntry.definitions dictionaryEntry) i)
      as Hall.
    { intros i Hi.
      destruct (decide (referenced
                          (TermDictionaryEntry.definitions dictionaryEntry) i))
        as [?|Hnot]; [done|].
      assert (i ∈ removeHeadwordIndices) as Hin by by apply Hremoved.
      rewrite Hsize in Hin. by apply not_elem_of_empty in Hin. }
    split; [done|]. split; [done|]. split; [|split].
    + apply Forall2_same_length_lookup_2; [done|].
      intros i definition definition' Hi Hi'.
      rewrite Hi in Hi'. injection Hi' as <-.
      split; [by destruct definition|].
      apply Forall2_same_length_lookup_2; [done|].
      intros k j j' Hj Hj'. rewrite Hj in Hj'. by injection Hj' as <-.
    + rewrite filter_all.
      * apply Forall2_same_length_lookup_2; [done|].
        intros i item item' Hi Hi'.
        rewrite Hi in Hi'. injection Hi' as <-. by destruct item.
      * eapply Forall_impl; [exact Hpronunciations|]. intros item. apply Hall.
    + rewrite filter_all.
      * apply Forall2_same_length_lookup_2; [done|].
        intros i item item' Hi Hi'.
        rewrite Hi in Hi'. injection Hi' as <-. by destruct item.
      * eapply Forall_impl; [exact Hfrequencies|]. intros item. apply Hall.
  - pose proof (removeHeadwords_sublist removeHeadwordIndices
                  (TermDictionaryEntry.headwords dictionaryEntry) 0 ∅) as Hsub.
    destruct (removeHeadwords _ _ _ _) as [kept indexRemap] eqn:Hrun.
    destruct (removeHeadwords_spec _ _ _ _ _ _ Hrun) as (_ & Hfrom & Honto).
    { intros i Hi. rewrite dom_empty_L in Hi. by apply not_elem_of_empty in Hi. }
    rewrite map_size_empty in Hfrom, Honto.
    assert (∀ i, referenced (TermDictionaryEntry.definitions dictionaryEntry) i →
                 (i < length (TermDictionaryEntry.headwords dictionaryEntry))%nat →
                 ∃ j, indexRemap !! i = Some j
                      ∧ kept !! j
                        = TermDictionaryEntry.headwords dictionaryEntry !! i)
      as Hmapped.
    { intros i Hreferenced Hi. specialize (Hfrom i ltac:(lia)).
      rewrite !Nat.sub_0_r in Hfrom.
      destruct (indexRemap !! i) as [j|].
      - exists j. split; [done|]. destruct Hfrom as (_ & _ & _ & Hsame).
        by rewrite Nat.sub_0_r in Hsame.
      - destruct Hfrom as [Hin%Hremoved|?]; [|lia]. by destruct Hin. }
    assert (∀ i j, indexRemap !! i = Some j →
                   referenced (TermDictionaryEntry.definitions dictionaryEntry) i)
      as Hback.
    { intros i j Hi. specialize (Hfrom i ltac:(lia)).
      rewrite Hi, !Nat.sub_0_r in Hfrom.
      destruct Hfrom as (Hout & _ & Hsome%lookup_lt_is_Some & _).
      destruct (decide (referenced
                          (TermDictionaryEntry.definitions dictionaryEntry) i))
        as [?|Hnot]; [done|].
      destruct Hout. by apply Hremoved. }
    assert (∀ i, referenced (TermDictionaryEntry.definitions dictionaryEntry) i
                 ↔ is_Some (indexRemap !! i)) as Hused.
    { intros i. split; [|by intros [j Hj]; eapply Hback].
      intros Hreferenced. destruct (Hmapped i Hreferenced) as (j & Hj & _);
        [|by eauto].
      apply Exists_exists in Hreferenced as (definition & Hin & Hmember).
      eapply Forall_forall in Hdefinitions; [|exact Hin].
      by eapply Forall_forall in Hdefinitions. }
    assert (∀ i j, indexRemap !! i = Some j →
                   kept !! j
                   = TermDictionaryEntry.headwords dictionaryEntry !! i)
      as Hsame.
    { intros i j Hj. specialize (Hfrom i ltac:(lia)).
      rewrite Hj, !Nat.sub_0_r in Hfrom. by destruct Hfrom as (_ & _ & _ & ?). }
    simpl. split; [done|].
    assert (Forall2
              (fun definition definition' =>
                 definition'
                 = TermDefinition_setHeadwordIndices definition
                     (TermDefinition.headwordIndices definition')
                 ∧ Forall2 (fun i i' =>
                              indexRemap !! i = Some i'
                              ∧ kept !! i'
                                = TermDictionaryEntry.headwords dictionaryEntry !! i)
                           (TermDefinition.headwordIndices definition)
                           (TermDefinition.headwordIndices definition'))
              (TermDictionaryEntry.definitions dictionaryEntry)
              (_updateDefinitionHeadwordIndices
                 (TermDictionaryEntry.definitions dictionaryEntry) indexRemap))
      as Hupdated.
    { unfold _updateDefinitionHeadwordIndices. apply Forall2_fmap_r.
      apply Forall2_same_length_lookup_2; [done|].
      intros k definition definition' Hk Hk'.
      rewrite Hk in Hk'. injection Hk' as <-.
      split; [done|]. simpl.
      assert (definition ∈ TermDictionaryEntry.definitions dictionaryEntry)
        as Hin by by eapply list_elem_of_lookup_2.
      eapply Forall_forall in Hdefinitions; [|exact Hin].
      assert (Forall (fun i => ∃ j, indexRemap !! i = Some j
                                    ∧ kept !! j
                                      = TermDictionaryEntry.headwords
                                          dictionaryEntry !! i)
                     (TermDefinition.headwordIndices definition)) as Hindices.
      { apply Forall_forall. intros i Hi. apply Hmapped.
        - apply Exists_exists. by exists definition.
        - by eapply Forall_forall in Hdefinitions. }
      clear Hdefinitions Hin Hk.
      induction Hindices as [|i rest (j & Hj & Hequal) _ IH]; simpl;
        [constructor|].
      rewrite Hj. by constructor. }
    split; [|split; [|split]].
    + intros j Hj. destruct (Honto j Hj) as [i Hi]. simpl in Hi.
      pose proof (Hback _ _ Hi) as (definition & Hin & Hmember)%Exists_exists.
      apply list_elem_of_lookup in Hin as [k Hk].
      destruct (Forall2_lookup_l _ _ _ _ _ Hupdated Hk)
        as (definition' & Hk' & _ & Hindices).
      apply Exists_exists. exists definition'.
      split; [by eapply list_elem_of_lookup_2|].
      apply list_elem_of_lookup in Hmember as [m Hm].
      destruct (Forall2_lookup_l _ _ _ _ _ Hindices Hm) as (j' & Hm' & Hj' & _).
      rewrite Hi in Hj'. injection Hj' as <-. by eapply list_elem_of_lookup_2.
    + eapply Forall2_impl; [exact Hupdated|].
      intros definition definition' [? Hindices]. split; [done|].
      eapply Forall2_impl; [exact Hindices|]. by intros i i' [_ ?].
    + apply _updateArrayItemsHeadwordIndex_spec; [done|exact Hused|exact Hsame].
    + apply _updateArrayItemsHeadwordIndex_spec; [done|exact Hused|exact Hsame].
Qed.

Lemma removeUnusedHeadwords_keeps_referenced_headwords_witness :
  headwordIndicesInRange exampleThreeHeadwords
  ∧ (fun headword => Headword.term headword)
      <$> TermDictionaryEntry.headwords
            (_removeUnusedHeadwords exampleThreeHeadwords)
    = ["a"; "c"]%string
  ∧ (fun definition => TermDefinition.headwordIndices definition)
      <$> TermDictionaryEntry.definitions
            (_removeUnusedHeadwords exampleThreeHeadwords)
    = [[0; 1]%nat]
  ∧ (fun item => TermFrequency.headwordIndex item)
      <$> TermDictionaryEntry.frequencies
            (_removeUnusedHeadwords exampleThreeHeadwords)
    = [1%nat]
  ∧ sublist
      (TermDictionaryEntry.headwords
         (_removeUnusedHeadwords exampleThreeHeadwords))
      (TermDictionaryEntry.headwords exampleThreeHeadwords).
Proof.
  assert (headwordIndicesInRange exampleThreeHeadwords) as Hrange.
  { unfold headwordIndicesInRange. simpl.
    repeat (constructor; try lia). }
  split; [exact Hrange|].
  split; [vm_compute; reflexivity|].
  split; [vm_compute; reflexivity|].
  split; [vm_compute; reflexivity|].
  exact (proj1 (removeUnusedHeadwords_keeps_referenced_headwords
                  exampleThreeHeadwords Hrange)).
Defined.

(** ** The values a grouped entry takes from its members *)

Section GroupedFields.

Lemma mergeDictionaryEntryData_fields check data definitionEntry :
  let data' := mergeDictionaryEntryData check data definitionEntry in
  let dictionaryEntry := definitionEntry.1 in
  GroupData.score data'
  = Z.max (GroupData.score data) (TermDictionaryEntry.score dictionaryEntry)
  ∧ GroupData.dictionaryIndex data'
    = Z.min (GroupData.dictionaryIndex data)
            (TermDictionaryEntry.dictionaryIndex dictionaryEntry)
  ∧ GroupData.dictionaryPriority data'
    = Z.max (GroupData.dictionaryPriority data)
            (TermDictionaryEntry.dictionaryPriority dictionaryEntry)
  ∧ GroupData.isPrimary data'
    = GroupData.isPrimary data || TermDictionaryEntry.isPrimary dictionaryEntry
  ∧ GroupData.maxTransformedTextLength data'
    = if TermDictionaryEntry.isPrimary dictionaryEntry
      then Z.max (GroupData.maxTransformedTextLength data)
                 (TermDictionaryEntry.maxTransformedTextLength dictionaryEntry)
      else GroupData.maxTransformedTextLength data.
Proof.
  destruct definitionEntry as [dictionaryEntry headwordIndexMap].
  unfold mergeDictionaryEntryData. simpl.
  destruct (TermDictionaryEntry.isPrimary dictionaryEntry).
  - destruct check.
    + destruct (_addTermDefinitions _ _ _ _). simpl.
      by rewrite orb_true_r.
    + simpl. by rewrite orb_true_r.
  - destruct check.
    + destruct (_addTermDefinitions _ _ _ _). simpl.
      by rewrite orb_false_r.
    + simpl. by rewrite orb_false_r.
Qed.

Lemma merge_loop_fields check definitionEntries data :
  let data' :=
    fold_left (mergeDictionaryEntryData check) definitionEntries data in
  let members := definitionEntries.*1 in
  GroupData.score data'
  = fold_left Z.max
      ((fun entry => TermDictionaryEntry.score entry) <$> members)
      (GroupData.score data)
  ∧ GroupData.dictionaryIndex data'
    = fold_left Z.min
        ((fun entry => TermDictionaryEntry.dictionaryIndex entry) <$> members)
        (GroupData.dictionaryIndex data)
  ∧ GroupData.dictionaryPriority data'
    = fold_left Z.max
        ((fun entry => TermDictionaryEntry.dictionaryPriority entry)
           <$> members)
        (GroupData.dictionaryPriority data)
  ∧ GroupData.isPrimary data'
    = GroupData.isPrimary data
      || existsb (fun entry => TermDictionaryEntry.isPrimary entry) members
  ∧ GroupData.maxTransformedTextLength data'
    = fold_left Z.max
        ((fun entry => TermDictionaryEntry.maxTransformedTextLength entry)
           <$> filter (fun entry => TermDictionaryEntry.isPrimary entry = true)
                      members)
        (GroupData.maxTransformedTextLength data).
Proof.
  revert data.
  induction definitionEntries as [|definitionEntry rest IH]; intros data.
  - simpl. by rewrite orb_false_r.
  - cbn [fold_left]. cbn zeta.
    destruct (IH (mergeDictionaryEntryData check data definitionEntry))
      as (-> & -> & -> & -> & ->).
    destruct (mergeDictionaryEntryData_fields check data definitionEntry)
      as (-> & -> & -> & -> & ->).
    rewrite fmap_cons. cbn [fmap list_fmap fold_left existsb].
    rewrite filter_cons, orb_assoc.
    repeat split.
    destruct (TermDictionaryEntry.isPrimary definitionEntry.1) eqn:Hprimary.
    + by rewrite decide_True.
    + by rewrite decide_False.
Qed.

End GroupedFields.

(** X11: the entry that [_createGroupedDictionaryEntry] builds has the
    greatest score and dictionary priority and the least dictionary index
    of the entries of the group; it is primary exactly when one of them is,
    and its greatest transformed text length is that of the primary ones (0
    without any).  Its frequency order is 0 and it has no pronunciations
    and no frequencies, whatever the entries of the group had.  For an
    empty group the score and the priority are [Number.MIN_SAFE_INTEGER]
    and the dictionary index is [Number.MAX_SAFE_INTEGER]. *)
Theorem createGroupedDictionaryEntry_combines_member_values
    (dictionaryEntries : list (TermDictionaryEntry.t TagGroup.t))
    (checkDuplicateDefinitions : bool) :
  let grouped :=
    _createGroupedDictionaryEntry dictionaryEntries checkDuplicateDefinitions in
  TermDictionaryEntry.score grouped
  = foldr Z.max MIN_SAFE_INTEGER
      ((fun entry => TermDictionaryEntry.score entry) <$> dictionaryEntries)
  ∧ TermDictionaryEntry.dictionaryIndex grouped
    = foldr Z.min MAX_SAFE_INTEGER
        ((fun entry => TermDictionaryEntry.dictionaryIndex entry)
           <$> dictionaryEntries)
  ∧ TermDictionaryEntry.dictionaryPriority grouped
    = foldr Z.max MIN_SAFE_INTEGER
        ((fun entry => TermDictionaryEntry.dictionaryPriority entry)
           <$> dictionaryEntries)
  ∧ (TermDictionaryEntry.isPrimary grouped = true
     ↔ Exists (fun entry => TermDictionaryEntry.isPrimary entry = true)
              dictionaryEntries)
  ∧ TermDictionaryEntry.maxTransformedTextLength grouped
    = foldr Z.max 0
        ((fun entry => TermDictionaryEntry.maxTransformedTextLength entry)
           <$> filter (fun entry => TermDictionaryEntry.isPrimary entry = true)
                      dictionaryEntries)
  ∧ TermDictionaryEntry.frequencyOrder grouped = 0
  ∧ TermDictionaryEntry.pronunciations grouped = []
  ∧ TermDictionaryEntry.frequencies grouped = [].
Proof.
  cbn zeta. unfold _createGroupedDictionaryEntry.
  pose proof (headword_loop_members dictionaryEntries [] []) as Hmembers.
  destruct (fold_left _ dictionaryEntries ([], []))
    as [headwords definitionEntries].
  simpl in Hmembers. cbn [TermDictionaryEntry.score
    TermDictionaryEntry.dictionaryIndex TermDictionaryEntry.dictionaryPriority
    TermDictionaryEntry.isPrimary TermDictionaryEntry.maxTransformedTextLength
    TermDictionaryEntry.frequencyOrder TermDictionaryEntry.pronunciations
    TermDictionaryEntry.frequencies].
  destruct (merge_loop_fields
              (if len definitionEntries <=? 1 then false
               else checkDuplicateDefinitions)
              definitionEntries
              (GroupData.mk MIN_SAFE_INTEGER MAX_SAFE_INTEGER MIN_SAFE_INTEGER
                 0 false [] ∅ None))
    as (-> & -> & -> & -> & ->).
  rewrite Hmembers. cbn [GroupData.score GroupData.dictionaryIndex
    GroupData.dictionaryPriority GroupData.isPrimary
    GroupData.maxTransformedTextLength orb].
  rewrite !fold_left_max_foldr, fold_left_min_foldr.
  repeat split; try done.
  - intros (entry & Hin & Hprimary)%existsb_exists. apply Exists_exists.
    exists entry. split; [by apply list_elem_of_In|done].
  - intros (entry & Hin & Hprimary)%Exists_exists. apply existsb_exists.
    exists entry. split; [by apply list_elem_of_In|done].
Qed.

(** ** The headwords of a grouped entry *)

Section HeadwordMapFacts.

Lemma fold_left_pair_ext {A B C} (f g : A * B → C → A * B) (l : list C)
    (state : A * B) :
  (∀ a b c, f (a, b) c = g (a, b) c) →
  fold_left f l state = fold_left g l state.
Proof.
  intros Hext. revert state.
  induction l as [|c l IH]; intros [a b]; simpl; [done|].
  by rewrite Hext, IH.
Qed.

Lemma _addTermHeadwords_fold headwordsMap headwords :
  _addTermHeadwords headwordsMap headwords
  = fold_left addTermHeadword headwords (headwordsMap, []).
Proof.
  unfold _addTermHeadwords. apply fold_left_pair_ext. by intros.
Qed.

Lemma Headword_absorb_key headword newHeadword :
  headwordKey (Headword_absorb headword newHeadword) = headwordKey headword.
Proof. reflexivity. Qed.

(** One headword: the keys of the map grow by the key if it is new, and
    the index pushed is the position of the key in the map. *)
Lemma addTermHeadword_spec headwordsMap headwordIndexMap newHeadword :
  headwordsMapWellFormed headwordsMap →
  let state := addTermHeadword (headwordsMap, headwordIndexMap) newHeadword in
  headwordsMapWellFormed state.1
  ∧ headwordKey <$> state.1
    = _addUniqueSimple (headwordKey <$> headwordsMap) [headwordKey newHeadword]
  ∧ ∃ position,
      state.2 = headwordIndexMap ++ [position]
      ∧ (headwordKey <$> state.1) !! position = Some (headwordKey newHeadword).
Proof.
  intros [Hnodup Hindex]. unfold addTermHeadword, headwordsMap_get.
  destruct (list_find _ headwordsMap) as [[position headword]|] eqn:Hfind.
  - apply list_find_Some in Hfind as (Hposition & [Hterm Hreading] & _).
    assert (headwordKey headword = headwordKey newHeadword) as Hkey
      by (unfold headwordKey; by rewrite Hterm, Hreading).
    assert (headwordKey <$> <[position := Headword_absorb headword newHeadword]>
                              headwordsMap
            = headwordKey <$> headwordsMap) as Hkeys.
    { rewrite list_fmap_insert, Headword_absorb_key.
      apply list_insert_id. by rewrite list_lookup_fmap, Hposition. }
    cbn zeta. cbn [fst snd]. unfold headwordsMapWellFormed.
    split; [split|split].
    + by rewrite Hkeys.
    + intros i h Hi.
      destruct (decide (i = position)) as [->|Hne].
      * rewrite list_lookup_insert_eq in Hi by by eapply lookup_lt_Some.
        injection Hi as <-. simpl. by apply Hindex.
      * rewrite list_lookup_insert_ne in Hi by done. by apply Hindex.
    + rewrite Hkeys. unfold _addUniqueSimple. simpl.
      rewrite decide_True; [done|].
      rewrite <- Hkey. apply list_elem_of_fmap. exists headword.
      split; [done|]. by eapply list_elem_of_lookup_2.
    + exists position. rewrite (Hindex _ _ Hposition). split; [done|].
      by rewrite Hkeys, list_lookup_fmap, Hposition, <- Hkey.
  - apply list_find_None in Hfind.
    assert (headwordKey newHeadword ∉ headwordKey <$> headwordsMap) as Hnew.
    { intros (headword & Hkey & Hin)%list_elem_of_fmap.
      eapply Forall_forall in Hfind; [|exact Hin]. apply Hfind.
      by injection Hkey as <- <-. }
    cbn zeta. cbn [fst snd Headword.index]. unfold headwordsMapWellFormed.
    rewrite (insert_app_r_alt headwordsMap) by lia.
    rewrite Nat.sub_diag. cbn [insert list_insert].
    rewrite fmap_app. cbn [fmap list_fmap]. rewrite Headword_absorb_key.
    change (headwordKey (Headword.mk _ _ _ _ _ _))
      with (headwordKey newHeadword).
    split; [split|split].
    + apply NoDup_app. split; [done|]. split; [|apply NoDup_singleton].
      by intros key Hin ->%list_elem_of_singleton.
    + intros i h Hi. apply lookup_app_Some in Hi as [Hi|[Hlength Hi]].
      * by apply Hindex.
      * apply list_lookup_singleton_Some in Hi as [Hzero <-]. simpl. lia.
    + unfold _addUniqueSimple. simpl. by rewrite decide_False.
    + exists (length headwordsMap). split; [done|].
      rewrite lookup_app_r by by rewrite length_fmap.
      by rewrite length_fmap, Nat.sub_diag.
Qed.

Lemma _addUniqueSimple_app {A} `{EqDecision A} (items new1 new2 : list A) :
  _addUniqueSimple items (new1 ++ new2)
  = _addUniqueSimple (_addUniqueSimple items new1) new2.
Proof. unfold _addUniqueSimple. by rewrite fold_left_app. Qed.

Lemma addTermHeadword_loop headwords headwordsMap headwordIndexMap :
  headwordsMapWellFormed headwordsMap →
  let state :=
    fold_left addTermHeadword headwords (headwordsMap, headwordIndexMap) in
  headwordsMapWellFormed state.1
  ∧ headwordKey <$> state.1
    = _addUniqueSimple (headwordKey <$> headwordsMap) (headwordKey <$> headwords)
  ∧ ∃ added,
      state.2 = headwordIndexMap ++ added
      ∧ Forall2 (fun newHeadword position =>
                   (headwordKey <$> state.1) !! position
                   = Some (headwordKey newHeadword))
                headwords added.
Proof.
  revert headwordsMap headwordIndexMap.
  induction headwords as [|newHeadword rest IH];
    intros headwordsMap headwordIndexMap Hmap.
  - simpl. split; [done|]. split; [done|]. exists []. split; [|constructor].
    by rewrite app_nil_r.
  - cbn [fold_left]. cbn zeta.
    destruct (addTermHeadword_spec headwordsMap headwordIndexMap newHeadword Hmap)
      as (Hmap' & Hkeys & position & Hpushed & Hposition).
    destruct (addTermHeadword (headwordsMap, headwordIndexMap) newHeadword)
      as [headwordsMap' headwordIndexMap'] eqn:Hstep.
    cbn [fst snd] in *.
    destruct (IH headwordsMap' headwordIndexMap' Hmap')
      as (Hfinal & Hkeys' & added & Hmapped & Hadded).
    split; [done|]. split.
    + rewrite Hkeys', Hkeys, fmap_cons.
      change (headwordKey newHeadword :: (headwordKey <$> rest))
        with ([headwordKey newHeadword] ++ (headwordKey <$> rest)).
      by rewrite _addUniqueSimple_app.
    + exists (position :: added). split.
      * by rewrite Hmapped, Hpushed, <- app_assoc.
      * constructor; [|done]. rewrite Hkeys'.
        destruct (_addUniqueSimple_spec (headwordKey <$> headwordsMap')
                    (headwordKey <$> rest)) as (_ & _ & [more ->]).
        by apply lookup_app_l_Some.
Qed.

End HeadwordMapFacts.

Section GroupedHeadwords.

(** The first loop of [_createGroupedDictionaryEntry]: the map after it,
    and the index maps it has recorded for the entries. *)
Lemma headword_loop_spec
    (dictionaryEntries : list (TermDictionaryEntry.t TagGroup.t))
    headwordsMap
    (definitionEntries : list (TermDictionaryEntry.t TagGroup.t * list nat)) :
  headwordsMapWellFormed headwordsMap →
  let state :=
    fold_left
      (fun '(headwords, definitionEntries) dictionaryEntry =>
         let '(headwords, headwordIndexMap) :=
           _addTermHeadwords headwords
             (TermDictionaryEntry.headwords dictionaryEntry) in
         (headwords, definitionEntries ++ [(dictionaryEntry, headwordIndexMap)]))
      dictionaryEntries (headwordsMap, definitionEntries) in
  headwordsMapWellFormed state.1
  ∧ headwordKey <$> state.1
    = _addUniqueSimple (headwordKey <$> headwordsMap)
        (headwordKey
           <$> (dictionaryEntries
                  ≫= fun dictionaryEntry =>
                       TermDictionaryEntry.headwords dictionaryEntry))
  ∧ ∃ added,
      state.2 = definitionEntries ++ added
      ∧ Forall2
          (fun dictionaryEntry definitionEntry =>
             definitionEntry.1 = dictionaryEntry
             ∧ Forall2 (fun newHeadword position =>
                          (headwordKey <$> state.1) !! position
                          = Some (headwordKey newHeadword))
                       (TermDictionaryEntry.headwords dictionaryEntry)
                       definitionEntry.2)
          dictionaryEntries added.
Proof.
  revert headwordsMap definitionEntries.
  induction dictionaryEntries as [|dictionaryEntry rest IH];
    intros headwordsMap definitionEntries Hmap.
  - simpl. split; [done|]. split; [done|]. exists []. split; [|constructor].
    by rewrite app_nil_r.
  - cbn [fold_left]. cbn zeta.
    rewrite _addTermHeadwords_fold.
    destruct (addTermHeadword_loop
                (TermDictionaryEntry.headwords dictionaryEntry) headwordsMap []
                Hmap) as (Hmap' & Hkeys & mapped & Hmapped & Hpositions).
    destruct (fold_left addTermHeadword _ (headwordsMap, []))
      as [headwordsMap' headwordIndexMap].
    cbn [fst snd] in *. rewrite app_nil_l in Hmapped. subst mapped.
    destruct (IH headwordsMap'
                (definitionEntries ++ [(dictionaryEntry, headwordIndexMap)])
                Hmap') as (Hfinal & Hkeys' & added & Hadded & Hentries).
    split; [done|]. split.
    + rewrite Hkeys', Hkeys, bind_cons, fmap_app.
      by rewrite _addUniqueSimple_app.
    + exists ((dictionaryEntry, headwordIndexMap) :: added). split.
      * by rewrite Hadded, <- app_assoc.
      * constructor; [|done]. split; [done|]. cbn [fst snd].
        eapply Forall2_impl; [exact Hpositions|].
        intros newHeadword position Hposition. rewrite Hkeys'.
        destruct (_addUniqueSimple_spec (headwordKey <$> headwordsMap')
                    (headwordKey
                       <$> (rest ≫= fun dictionaryEntry =>
                                      TermDictionaryEntry.headwords
                                        dictionaryEntry)))
          as (_ & _ & [more ->]).
        by apply lookup_app_l_Some.
Qed.

Lemma headwordsMapWellFormed_nil {T} : headwordsMapWellFormed (@nil (Headword.t T)).
Proof. split; [constructor|]. by intros position headword ?. Qed.

End GroupedHeadwords.

(** X12: the headwords of the entry that [_createGroupedDictionaryEntry]
    builds are numbered by their position, and no two of them have the same
    term and reading.  A pair of term and reading occurs among them exactly
    when a headword of an entry of the group has it, and the pairs stand in
    the order in which the entries of the group bring them up. *)
Theorem createGroupedDictionaryEntry_has_one_headword_for_each_term_and_reading
    (dictionaryEntries : list (TermDictionaryEntry.t TagGroup.t))
    (checkDuplicateDefinitions : bool) :
  let headwords :=
    TermDictionaryEntry.headwords
      (_createGroupedDictionaryEntry dictionaryEntries
         checkDuplicateDefinitions) in
  NoDup (headwordKey <$> headwords)
  ∧ (∀ position headword,
       headwords !! position = Some headword →
       Headword.index headword = position)
  ∧ (∀ key,
       key ∈ headwordKey <$> headwords
       ↔ ∃ dictionaryEntry headword,
           dictionaryEntry ∈ dictionaryEntries
           ∧ headword ∈ TermDictionaryEntry.headwords dictionaryEntry
           ∧ headwordKey headword = key)
  ∧ headwordKey <$> headwords
    = _addUniqueSimple []
        (headwordKey
           <$> (dictionaryEntries
                  ≫= fun dictionaryEntry =>
                       TermDictionaryEntry.headwords dictionaryEntry)).
Proof.
  cbn zeta. unfold _createGroupedDictionaryEntry.
  destruct (headword_loop_spec dictionaryEntries [] []
              headwordsMapWellFormed_nil) as ([Hnodup Hindex] & Hkeys & _).
  destruct (fold_left _ dictionaryEntries ([], []))
    as [headwords definitionEntries].
  cbn [fst snd TermDictionaryEntry.headwords] in *.
  split; [done|]. split; [done|]. split; [|done].
  intros key. rewrite Hkeys.
  destruct (_addUniqueSimple_spec []
              (headwordKey
                 <$> (dictionaryEntries
                        ≫= fun dictionaryEntry =>
                             TermDictionaryEntry.headwords dictionaryEntry)))
    as (-> & _ & _).
  rewrite elem_of_nil, list_elem_of_fmap. split.
  - intros [[]|(headword & -> & (dictionaryEntry & Hin & Hentry)%list_elem_of_bind)].
    by exists dictionaryEntry, headword.
  - intros (dictionaryEntry & headword & Hentry & Hin & <-). right.
    exists headword. split; [done|]. apply list_elem_of_bind.
    by exists dictionaryEntry.
Qed.

(** ** The definitions of a grouped entry *)

Section GroupedDefinitions.

Lemma _addTermDefinitions_fold definitions definitionsMap newDefinitions
    headwordIndexMap :
  _addTermDefinitions definitions definitionsMap newDefinitions headwordIndexMap
  = fold_left (addTermDefinition headwordIndexMap) newDefinitions
      (definitions, definitionsMap).
Proof.
  unfold _addTermDefinitions. apply fold_left_pair_ext. by intros.
Qed.

Lemma addIndices_elem_of (headwordIndexMap headwordIndices : list nat)
    (newHeadwordIndices : list nat) (i : nat) :
  i ∈ fold_left (fun newHeadwordIndices headwordIndex =>
                   _addUniqueTermHeadwordIndex newHeadwordIndices
                     (headwordIndexMap !!! headwordIndex))
                headwordIndices newHeadwordIndices
  ↔ i ∈ newHeadwordIndices
    ∨ ∃ j, j ∈ headwordIndices ∧ i = headwordIndexMap !!! j.
Proof.
  revert newHeadwordIndices.
  induction headwordIndices as [|j rest IH]; intros newHeadwordIndices; simpl.
  - split; [by left|]. intros [?|(j & ?%elem_of_nil & _)]; done.
  - rewrite IH, _addUniqueTermHeadwordIndex_elem_of. split.
    + intros [[->|?]|(j' & Hj' & ->)].
      * right. exists j. split; [by left|done].
      * by left.
      * right. exists j'. split; [by right|done].
    + intros [?|(j' & [->|Hj']%elem_of_cons & ->)].
      * left. by right.
      * left. by left.
      * right. by exists j'.
Qed.

Lemma addIndices_sorted (headwordIndexMap headwordIndices : list nat)
    (newHeadwordIndices : list nat) :
  StronglySorted lt newHeadwordIndices →
  StronglySorted lt
    (fold_left (fun newHeadwordIndices headwordIndex =>
                  _addUniqueTermHeadwordIndex newHeadwordIndices
                    (headwordIndexMap !!! headwordIndex))
               headwordIndices newHeadwordIndices).
Proof.
  revert newHeadwordIndices.
  induction headwordIndices as [|j rest IH]; intros newHeadwordIndices Hsorted;
    simpl; [done|].
  by apply IH, _addUniqueTermHeadwordIndex_sorted.
Qed.

Lemma definitionsFrom_nil : definitionsFrom [] [].
Proof.
  split; [|split].
  - by intros position definition ?.
  - by intros definition i ?%elem_of_nil.
  - by intros newDefinition headwordIndexMap j ?%elem_of_nil.
Qed.

Lemma definitionsMapFor_nil : definitionsMapFor [] ∅.
Proof.
  split; [|constructor]. intros key position. rewrite lookup_empty. split.
  - done.
  - by intros (definition & ? & _).
Qed.

(** A definition goes through the checked path. *)
Lemma addTermDefinition_spec headwordIndexMap processed definitions
    definitionsMap newDefinition :
  definitionsFrom processed definitions →
  definitionsMapFor definitions definitionsMap →
  let state :=
    addTermDefinition headwordIndexMap (definitions, definitionsMap)
      newDefinition in
  definitionsFrom (processed ++ [(newDefinition, headwordIndexMap)]) state.1
  ∧ definitionsMapFor state.1 state.2.
Proof.
  intros (Hindex & Hsound & Hcomplete) (Hmap & Hsorted).
  unfold addTermDefinition. cbn zeta.
  fold (definitionKeyOf newDefinition).
  destruct (definitionsMap !! definitionKeyOf newDefinition)
    as [position|] eqn:Hlookup; cbn [fst snd].
  - (* the definition is merged into the one at [position] *)
    apply Hmap in Hlookup as (found & Hfound & Hkey).
    set (merged := TermDefinition_merge true found newDefinition
                     headwordIndexMap).
    assert (alter (fun definition =>
                     TermDefinition_merge true definition newDefinition
                       headwordIndexMap) position definitions
            = <[position := merged]> definitions) as ->.
    { apply list_eq. intros k.
      destruct (decide (k = position)) as [->|Hne].
      - rewrite list_lookup_alter_eq, Hfound. simpl.
        by rewrite list_lookup_insert_eq by by eapply lookup_lt_Some.
      - by rewrite list_lookup_alter_ne, list_lookup_insert_ne by done. }
    assert (∀ i, i ∈ TermDefinition.headwordIndices merged
                 ↔ i ∈ TermDefinition.headwordIndices found
                   ∨ ∃ j, j ∈ TermDefinition.headwordIndices newDefinition
                          ∧ i = headwordIndexMap !!! j) as Hmerged
      by (intros i; apply addIndices_elem_of).
    assert (∀ k definition,
              <[position := merged]> definitions !! k = Some definition →
              (k = position ∧ definition = merged)
              ∨ (k ≠ position ∧ definitions !! k = Some definition))
      as Hcases.
    { intros k definition Hk.
      destruct (decide (k = position)) as [->|Hne].
      - rewrite list_lookup_insert_eq in Hk by by eapply lookup_lt_Some.
        left. split; [done|]. by injection Hk.
      - rewrite list_lookup_insert_ne in Hk by done. by right. }
    split; [split; [|split]|split].
    + intros k definition [[-> ->]|[_ Hk]]%Hcases; [|by apply Hindex].
      simpl. by apply Hindex.
    + intros definition i [k Hk]%list_elem_of_lookup Hi.
      apply Hcases in Hk as [[-> ->]|[_ Hk]].
      * apply Hmerged in Hi as [Hi|(j & Hj & ->)].
        -- destruct (Hsound found i) as (d & m & j & Hin & Hsame & Hj & ->);
             [by eapply list_elem_of_lookup_2|done|].
           exists d, m, j. split; [apply elem_of_app; by left|]. by split.
        -- exists newDefinition, headwordIndexMap, j.
           split; [apply elem_of_app; right; by apply list_elem_of_singleton|].
           by split.
      * destruct (Hsound definition i) as (d & m & j & Hin & Hsame & Hj & ->);
          [by eapply list_elem_of_lookup_2|done|].
        exists d, m, j. split; [apply elem_of_app; by left|]. by split.
    + intros d m j [Hin|Hnew%list_elem_of_singleton]%elem_of_app Hj;
        [|injection Hnew as -> ->].
      * destruct (Hcomplete d m j Hin Hj) as (definition & Hdef & Hsame & Hi).
        apply list_elem_of_lookup in Hdef as [k Hk].
        destruct (decide (k = position)) as [->|Hne].
        -- exists merged. split.
           { eapply list_elem_of_lookup_2.
             by apply list_lookup_insert_eq; eapply lookup_lt_Some. }
           assert (definition = found) as -> by congruence.
           split; [done|]. apply Hmerged. by left.
        -- exists definition. split; [|by split].
           eapply list_elem_of_lookup_2.
           by rewrite list_lookup_insert_ne.
      * exists merged. split.
        { eapply list_elem_of_lookup_2.
          by apply list_lookup_insert_eq; eapply lookup_lt_Some. }
        split; [done|]. apply Hmerged. right. by exists j.
    + intros key k. rewrite Hmap. split.
      * intros (definition & Hk & <-).
        destruct (decide (k = position)) as [->|Hne].
        -- exists merged. split.
           { by apply list_lookup_insert_eq; eapply lookup_lt_Some. }
           assert (definition = found) as -> by congruence. done.
        -- exists definition. by rewrite list_lookup_insert_ne.
      * intros (definition & [[-> ->]|[_ Hk]]%Hcases & <-).
        -- by exists found.
        -- by exists definition.
    + apply Forall_insert; [done|]. apply addIndices_sorted.
      by eapply Forall_lookup_1 in Hsorted.
  - (* the definition is new *)
    set (merged := TermDefinition_merge false _ newDefinition headwordIndexMap).
    assert (∀ i, i ∈ TermDefinition.headwordIndices merged
                 ↔ ∃ j, j ∈ TermDefinition.headwordIndices newDefinition
                        ∧ i = headwordIndexMap !!! j) as Hmerged.
    { intros i. unfold merged. cbn [TermDefinition_merge
        TermDefinition.headwordIndices].
      rewrite addIndices_elem_of, elem_of_nil. tauto. }
    assert (definitionKeyOf merged = definitionKeyOf newDefinition) as Hkey
      by done.
    assert (∀ definition, definition ∈ definitions →
                          definitionKeyOf definition
                          ≠ definitionKeyOf newDefinition) as Hfresh.
    { intros definition [k Hk]%list_elem_of_lookup Hsame.
      assert (definitionsMap !! definitionKeyOf newDefinition = Some k)
        as Hthere by (apply Hmap; by exists definition).
      by rewrite Hlookup in Hthere. }
    split; [split; [|split]|split].
    + intros k definition [Hk|[Hlength Hk]]%lookup_app_Some; [by apply Hindex|].
      apply list_lookup_singleton_Some in Hk as [Hzero <-]. simpl. lia.
    + intros definition i [Hin| ->%list_elem_of_singleton]%elem_of_app Hi.
      * destruct (Hsound definition i Hin Hi)
          as (d & m & j & Hd & Hsame & Hj & ->).
        exists d, m, j. split; [apply elem_of_app; by left|]. by split.
      * apply Hmerged in Hi as (j & Hj & ->).
        exists newDefinition, headwordIndexMap, j.
        split; [apply elem_of_app; right; by apply list_elem_of_singleton|].
        by split.
    + intros d m j [Hin|Hnew%list_elem_of_singleton]%elem_of_app Hj;
        [|injection Hnew as -> ->].
      * destruct (Hcomplete d m j Hin Hj) as (definition & Hdef & Hsame & Hi).
        exists definition. split; [apply elem_of_app; by left|]. by split.
      * exists merged.
        split; [apply elem_of_app; right; by apply list_elem_of_singleton|].
        split; [done|]. apply Hmerged. by exists j.
    + intros key k. split.
      * intros [[<- <-]|[Hne Hk]]%lookup_insert_Some.
        -- exists merged. split; [|done].
           rewrite lookup_app_r by done. by rewrite Nat.sub_diag.
        -- apply Hmap in Hk as (definition & Hk & <-).
           exists definition. split; [|done]. by apply lookup_app_l_Some.
      * intros (definition & [Hk|[Hlength Hk]]%lookup_app_Some & <-).
        -- rewrite lookup_insert_ne.
           ++ apply Hmap. by exists definition.
           ++ intros Hsame. eapply Hfresh; [|by symmetry].
              by eapply list_elem_of_lookup_2.
        -- apply list_lookup_singleton_Some in Hk as [Hzero <-].
           rewrite Hkey.
           assert (k = length definitions) as -> by lia.
           by rewrite lookup_insert_eq.
    + apply Forall_app. split; [done|]. constructor; [|constructor].
      apply addIndices_sorted. constructor.
Qed.

Lemma addTermDefinition_loop headwordIndexMap newDefinitions processed
    definitions definitionsMap :
  definitionsFrom processed definitions →
  definitionsMapFor definitions definitionsMap →
  let state :=
    fold_left (addTermDefinition headwordIndexMap) newDefinitions
      (definitions, definitionsMap) in
  definitionsFrom
    (processed
       ++ ((fun newDefinition => (newDefinition, headwordIndexMap))
             <$> newDefinitions))
    state.1
  ∧ definitionsMapFor state.1 state.2.
Proof.
  revert processed definitions definitionsMap.
  induction newDefinitions as [|newDefinition rest IH];
    intros processed definitions definitionsMap Hfrom Hmap.
  - simpl. by rewrite app_nil_r.
  - cbn [fold_left]. cbn zeta.
    destruct (addTermDefinition_spec headwordIndexMap processed definitions
                definitionsMap newDefinition Hfrom Hmap) as [Hfrom' Hmap'].
    destruct (addTermDefinition headwordIndexMap (definitions, definitionsMap)
                newDefinition) as [definitions' definitionsMap'].
    cbn [fst snd] in *.
    destruct (IH _ _ _ Hfrom' Hmap') as [Hfinal Hmapfinal].
    rewrite fmap_cons, (cons_middle _ processed), app_assoc. by split.
Qed.

(** The definitions go through the unchecked path: each is pushed. *)
Lemma _addTermDefinitionsFast_spec headwordIndexMap newDefinitions processed
    definitions :
  definitionsFrom processed definitions →
  let definitions' :=
    _addTermDefinitionsFast definitions newDefinitions headwordIndexMap in
  definitionsFrom
    (processed
       ++ ((fun newDefinition => (newDefinition, headwordIndexMap))
             <$> newDefinitions))
    definitions'
  ∧ length definitions' = (length definitions + length newDefinitions)%nat.
Proof.
  unfold _addTermDefinitionsFast. revert processed definitions.
  induction newDefinitions as [|newDefinition rest IH];
    intros processed definitions Hfrom.
  - simpl. rewrite app_nil_r. split; [done|lia].
  - cbn [fold_left]. cbn zeta.
    set (pushed := TermDefinition.mk (length definitions) _ _ _ _ _ _ _ _ _ _ _).
    assert (definitionsFrom (processed ++ [(newDefinition, headwordIndexMap)])
                            (definitions ++ [pushed])) as Hfrom'.
    { destruct Hfrom as (Hindex & Hsound & Hcomplete).
      split; [|split].
      - intros k definition [Hk|[Hlength Hk]]%lookup_app_Some;
          [by apply Hindex|].
        apply list_lookup_singleton_Some in Hk as [Hzero <-]. simpl. lia.
      - intros definition i [Hin| ->%list_elem_of_singleton]%elem_of_app Hi.
        + destruct (Hsound definition i Hin Hi)
            as (d & m & j & Hd & Hsame & Hj & ->).
          exists d, m, j. split; [apply elem_of_app; by left|]. by split.
        + simpl in Hi. apply list_elem_of_fmap in Hi as (j & -> & Hj).
          exists newDefinition, headwordIndexMap, j.
          split; [apply elem_of_app; right; by apply list_elem_of_singleton|].
          by split.
      - intros d m j [Hin|Hnew%list_elem_of_singleton]%elem_of_app Hj;
          [|injection Hnew as -> ->].
        + destruct (Hcomplete d m j Hin Hj) as (definition & Hdef & Hsame & Hi).
          exists definition. split; [apply elem_of_app; by left|]. by split.
        + exists pushed.
          split; [apply elem_of_app; right; by apply list_elem_of_singleton|].
          split; [done|]. simpl. apply list_elem_of_fmap. by exists j. }
    destruct (IH _ _ Hfrom') as [Hfinal Hlength].
    rewrite fmap_cons, (cons_middle _ processed), app_assoc.
    split; [done|]. rewrite Hlength, length_app. simpl. lia.
Qed.

(** One entry of the group in the loop that merges the entry data. *)
Lemma mergeDictionaryEntryData_definitions check data dictionaryEntry
    headwordIndexMap processed :
  definitionsFrom processed (GroupData.definitions data) →
  (check = true →
   definitionsMapFor (GroupData.definitions data)
                     (GroupData.definitionsMap data)) →
  let data' :=
    mergeDictionaryEntryData check data (dictionaryEntry, headwordIndexMap) in
  definitionsFrom
    (processed
       ++ ((fun newDefinition => (newDefinition, headwordIndexMap))
             <$> TermDictionaryEntry.definitions dictionaryEntry))
    (GroupData.definitions data')
  ∧ (check = true →
     definitionsMapFor (GroupData.definitions data')
                       (GroupData.definitionsMap data'))
  ∧ (check = false →
     length (GroupData.definitions data')
     = (length (GroupData.definitions data)
        + length (TermDictionaryEntry.definitions dictionaryEntry))%nat).
Proof.
  intros Hfrom Hmap. unfold mergeDictionaryEntryData. cbn zeta.
  destruct check.
  - rewrite _addTermDefinitions_fold.
    destruct (addTermDefinition_loop headwordIndexMap
                (TermDictionaryEntry.definitions dictionaryEntry) processed
                (GroupData.definitions data) (GroupData.definitionsMap data)
                Hfrom (Hmap eq_refl)) as [Hfrom' Hmap'].
    destruct (fold_left _ _ _) as [definitions' definitionsMap'].
    cbn [fst snd] in *.
    destruct (TermDictionaryEntry.isPrimary dictionaryEntry); simpl;
      (split; [done|]); by split.
  - destruct (_addTermDefinitionsFast_spec headwordIndexMap
                (TermDictionaryEntry.definitions dictionaryEntry) processed
                (GroupData.definitions data) Hfrom) as [Hfrom' Hlength].
    destruct (TermDictionaryEntry.isPrimary dictionaryEntry); simpl;
      (split; [done|]); by split.
Qed.

Lemma merge_loop_definitions check definitionEntries data processed :
  definitionsFrom processed (GroupData.definitions data) →
  (check = true →
   definitionsMapFor (GroupData.definitions data)
                     (GroupData.definitionsMap data)) →
  let data' :=
    fold_left (mergeDictionaryEntryData check) definitionEntries data in
  let brought :=
    definitionEntries
      ≫= fun definitionEntry : TermDictionaryEntry.t TagGroup.t * list nat =>
           (fun newDefinition => (newDefinition, definitionEntry.2))
             <$> TermDictionaryEntry.definitions definitionEntry.1 in
  definitionsFrom (processed ++ brought) (GroupData.definitions data')
  ∧ (check = true →
     definitionsMapFor (GroupData.definitions data')
                       (GroupData.definitionsMap data'))
  ∧ (check = false →
     length (GroupData.definitions data')
     = (length (GroupData.definitions data) + length brought)%nat).
Proof.
  revert data processed.
  induction definitionEntries as [|[dictionaryEntry headwordIndexMap] rest IH];
    intros data processed Hfrom Hmap.
  - simpl. rewrite app_nil_r. split; [done|]. split; [done|]. intros _.
    change (@mbind list _ _ _ _ []) with (@nil (TermDefinition.t TagGroup.t * list nat)).
    simpl. lia.
  - cbn [fold_left]. cbn zeta.
    destruct (mergeDictionaryEntryData_definitions check data dictionaryEntry
                headwordIndexMap processed Hfrom Hmap)
      as (Hfrom' & Hmap' & Hlength).
    destruct (IH _ _ Hfrom' Hmap') as (Hfinal & Hmapfinal & Hlengthfinal).
    rewrite bind_cons. cbn [fst snd]. rewrite app_assoc.
    split; [done|]. split; [done|]. intros Hcheck.
    rewrite (Hlengthfinal Hcheck), (Hlength Hcheck), length_app, length_fmap.
    lia.
Qed.

End GroupedDefinitions.

Section GroupedDefinitionsOfEntries.

Lemma brought_length
    (dictionaryEntries : list (TermDictionaryEntry.t TagGroup.t))
    (definitionEntries : list (TermDictionaryEntry.t TagGroup.t * list nat))
    (P : TermDictionaryEntry.t TagGroup.t → list nat → Prop) :
  Forall2 (fun dictionaryEntry definitionEntry =>
             definitionEntry.1 = dictionaryEntry
             ∧ P dictionaryEntry definitionEntry.2)
          dictionaryEntries definitionEntries →
  length (definitionEntries
            ≫= fun definitionEntry : TermDictionaryEntry.t TagGroup.t * list nat =>
                 (fun newDefinition => (newDefinition, definitionEntry.2))
                   <$> TermDictionaryEntry.definitions definitionEntry.1)
  = length (dictionaryEntries
              ≫= fun dictionaryEntry =>
                   TermDictionaryEntry.definitions dictionaryEntry).
Proof.
  induction 1 as [|dictionaryEntry definitionEntry rest rest' [<- _] _ IH];
    [done|].
  by rewrite !bind_cons, !length_app, length_fmap, IH.
Qed.

End GroupedDefinitionsOfEntries.

(** X13: in the entry that [_createGroupedDictionaryEntry] builds from
    entries whose definitions refer to headwords they have, the
    definitions are numbered by their position, and they refer to the
    headwords their sources referred to: every headword index of a
    definition is the position of the term and reading of a headword that
    a definition of the same dictionary and content referred to in an entry
    of the group, and every such reference of a definition of the group is
    kept by a definition of the same dictionary and content.  When
    duplicates are checked and the group has more than one entry, no two
    definitions have the same dictionary and content and the headword
    indices of each are in strictly ascending order; otherwise there is one
    definition for each definition of the group. *)
Theorem createGroupedDictionaryEntry_definitions_keep_their_headwords
    (dictionaryEntries : list (TermDictionaryEntry.t TagGroup.t))
    (checkDuplicateDefinitions : bool) :
  Forall definitionIndicesInRange dictionaryEntries →
  let grouped :=
    _createGroupedDictionaryEntry dictionaryEntries checkDuplicateDefinitions in
  let keys := headwordKey <$> TermDictionaryEntry.headwords grouped in
  let definitions := TermDictionaryEntry.definitions grouped in
  (∀ position definition,
     definitions !! position = Some definition →
     TermDefinition.index definition = position)
  ∧ (∀ definition i,
       definition ∈ definitions →
       i ∈ TermDefinition.headwordIndices definition →
       ∃ dictionaryEntry newDefinition j headword,
         dictionaryEntry ∈ dictionaryEntries
         ∧ newDefinition ∈ TermDictionaryEntry.definitions dictionaryEntry
         ∧ definitionKeyOf newDefinition = definitionKeyOf definition
         ∧ j ∈ TermDefinition.headwordIndices newDefinition
         ∧ TermDictionaryEntry.headwords dictionaryEntry !! j = Some headword
         ∧ keys !! i = Some (headwordKey headword))
  ∧ (∀ dictionaryEntry newDefinition j headword,
       dictionaryEntry ∈ dictionaryEntries →
       newDefinition ∈ TermDictionaryEntry.definitions dictionaryEntry →
       j ∈ TermDefinition.headwordIndices newDefinition →
       TermDictionaryEntry.headwords dictionaryEntry !! j = Some headword →
       ∃ definition i,
         definition ∈ definitions
         ∧ definitionKeyOf definition = definitionKeyOf newDefinition
         ∧ i ∈ TermDefinition.headwordIndices definition
         ∧ keys !! i = Some (headwordKey headword))
  ∧ (checkDuplicateDefinitions = true →
     (1 < length dictionaryEntries)%nat →
     NoDup (definitionKeyOf <$> definitions)
     ∧ Forall (fun definition =>
                 StronglySorted lt (TermDefinition.headwordIndices definition))
              definitions)
  ∧ (checkDuplicateDefinitions = false ∨ (length dictionaryEntries ≤ 1)%nat →
     length definitions
     = length (dictionaryEntries
                 ≫= fun dictionaryEntry =>
                      TermDictionaryEntry.definitions dictionaryEntry)).
Proof.
  intros Hrange. cbn zeta. unfold _createGroupedDictionaryEntry.
  destruct (headword_loop_spec dictionaryEntries [] []
              headwordsMapWellFormed_nil)
    as (_ & _ & added & Hadded & Hentries).
  destruct (fold_left _ dictionaryEntries ([], []))
    as [headwords definitionEntries].
  cbn [fst snd] in *. rewrite app_nil_l in Hadded. subst added.
  set (check := if len definitionEntries <=? 1 then false
                else checkDuplicateDefinitions).
  destruct (merge_loop_definitions check definitionEntries
              (GroupData.mk MIN_SAFE_INTEGER MAX_SAFE_INTEGER MIN_SAFE_INTEGER
                 0 false [] ∅ None) [] definitionsFrom_nil
              (fun _ => definitionsMapFor_nil))
    as ((Hindex & Hsound & Hcomplete) & Hmap & Hlength).
  cbn [TermDictionaryEntry.headwords TermDictionaryEntry.definitions].
  set (data := fold_left _ definitionEntries _) in *.
  rewrite app_nil_l in Hsound, Hcomplete.
  assert (length definitionEntries = length dictionaryEntries) as Hsame
    by (symmetry; by eapply Forall2_length).
  assert (∀ (dictionaryEntry : TermDictionaryEntry.t TagGroup.t)
            headwordIndexMap j headword,
            dictionaryEntry ∈ dictionaryEntries →
            Forall2 (fun newHeadword position =>
                       (headwordKey <$> headwords) !! position
                       = Some (headwordKey newHeadword))
                    (TermDictionaryEntry.headwords dictionaryEntry)
                    headwordIndexMap →
            TermDictionaryEntry.headwords dictionaryEntry !! j = Some headword →
            (headwordKey <$> headwords) !! (headwordIndexMap !!! j)
            = Some (headwordKey headword)) as Hposition.
  { intros dictionaryEntry headwordIndexMap j headword _ Hmapped Hj.
    destruct (Forall2_lookup_l _ _ _ _ _ Hmapped Hj) as (position & Hi & Hkey).
    by rewrite (list_lookup_total_correct _ _ _ Hi). }
  split; [done|]. split; [|split; [|split]].
  - intros definition i Hdefinition Hi.
    destruct (Hsound definition i Hdefinition Hi)
      as (newDefinition & headwordIndexMap & j & Hbrought & Hkey & Hj & ->).
    apply list_elem_of_bind in Hbrought
      as ([dictionaryEntry' headwordIndexMap'] & Hnew & Hentry).
    apply list_elem_of_fmap in Hnew as (newDefinition' & Hpair & Hnew).
    cbn [fst snd] in *. injection Hpair as <- <-.
    apply list_elem_of_lookup in Hentry as [k Hk].
    destruct (Forall2_lookup_r _ _ _ _ _ Hentries Hk)
      as (dictionaryEntry & Hk' & Hfirst & Hmapped).
    cbn [fst snd] in *. subst dictionaryEntry'.
    assert (dictionaryEntry ∈ dictionaryEntries) as Hin
      by by eapply list_elem_of_lookup_2.
    assert (j < length (TermDictionaryEntry.headwords dictionaryEntry))%nat
      as Hbound.
    { eapply Forall_forall in Hrange; [|exact Hin].
      eapply Forall_forall in Hrange; [|exact Hnew].
      by eapply Forall_forall in Hrange. }
    destruct (lookup_lt_is_Some_2 _ _ Hbound) as [headword Hheadword].
    exists dictionaryEntry, newDefinition, j, headword.
    split; [done|]. split; [done|]. split; [done|]. split; [done|].
    split; [done|]. by eapply Hposition.
  - intros dictionaryEntry newDefinition j headword Hin Hnew Hj Hheadword.
    apply list_elem_of_lookup in Hin as [k Hk].
    destruct (Forall2_lookup_l _ _ _ _ _ Hentries Hk)
      as ([dictionaryEntry' headwordIndexMap] & Hk' & Hfirst & Hmapped).
    cbn [fst snd] in *. subst dictionaryEntry'.
    destruct (Hcomplete newDefinition headwordIndexMap j)
      as (definition & Hdefinition & Hkey & Hi); [|done|].
    { apply list_elem_of_bind. exists (dictionaryEntry, headwordIndexMap).
      split; [|by eapply list_elem_of_lookup_2].
      apply list_elem_of_fmap. by exists newDefinition. }
    exists definition, (headwordIndexMap !!! j).
    split; [done|]. split; [done|]. split; [done|].
    eapply Hposition; [by eapply list_elem_of_lookup_2|done..].
  - intros -> Hmany.
    assert (check = true) as Hcheck.
    { unfold check, len. rewrite Hsame.
      destruct (Z.leb_spec (Z.of_nat (length dictionaryEntries)) 1); [lia|done]. }
    destruct (Hmap Hcheck) as [Hkeys Hsorted]. split; [|done].
    apply NoDup_alt. intros k k' key Hk Hk'.
    rewrite list_lookup_fmap in Hk, Hk'.
    destruct (GroupData.definitions data !! k) as [definition|] eqn:Hdefinition;
      [|done].
    destruct (GroupData.definitions data !! k') as [definition'|]
      eqn:Hdefinition'; [|done].
    simpl in Hk, Hk'. injection Hk as Hk. injection Hk' as Hk'.
    assert (GroupData.definitionsMap data !! key = Some k) as Hthere
      by (apply Hkeys; by exists definition).
    assert (GroupData.definitionsMap data !! key = Some k') as Hthere'
      by (apply Hkeys; by exists definition').
    congruence.
  - intros Hfast.
    assert (check = false) as Hcheck.
    { unfold check, len. rewrite Hsame.
      destruct (Z.leb_spec (Z.of_nat (length dictionaryEntries)) 1); [done|].
      destruct Hfast as [->|?]; [done|lia]. }
    rewrite (Hlength Hcheck). simpl.
    exact (brought_length dictionaryEntries definitionEntries
             (fun dictionaryEntry headwordIndexMap =>
                Forall2 (fun newHeadword position =>
                           (headwordKey <$> headwords) !! position
                           = Some (headwordKey newHeadword))
                        (TermDictionaryEntry.headwords dictionaryEntry)
                        headwordIndexMap)
             Hentries).
Qed.

(** The statement applies to a sequence of two entries with the headwords
    "x" and "yy" and the same definition: the grouped entry has one
    definition, for both headwords. *)
Lemma createGroupedDictionaryEntry_definitions_keep_their_headwords_witness :
  Forall definitionIndicesInRange
    [sequenceMember 3 2 "x" "h" true; sequenceMember 4 2 "yy" "h" false]
  ∧ (fun definition => TermDefinition.headwordIndices definition)
      <$> TermDictionaryEntry.definitions
            (_createGroupedDictionaryEntry
               [sequenceMember 3 2 "x" "h" true;
                sequenceMember 4 2 "yy" "h" false] true)
    = [[0; 1]%nat]
  ∧ NoDup (definitionKeyOf
             <$> TermDictionaryEntry.definitions
                   (_createGroupedDictionaryEntry
                      [sequenceMember 3 2 "x" "h" true;
                       sequenceMember 4 2 "yy" "h" false] true)).
Proof.
  assert (Forall definitionIndicesInRange
            [sequenceMember 3 2 "x" "h" true;
             sequenceMember 4 2 "yy" "h" false]) as Hrange.
  { unfold definitionIndicesInRange. simpl. repeat (constructor; try lia). }
  split; [exact Hrange|]. split; [vm_compute; reflexivity|].
  refine (proj1 (proj1 (proj2 (proj2 (proj2
            (createGroupedDictionaryEntry_definitions_keep_their_headwords
               _ true Hrange)))) eq_refl _)).
  simpl. lia.
Defined.

(** ** Redundant part-of-speech tags *)

Section RedundantTags.

(** The state of the loop behind a definition: its dictionary and its
    part-of-speech key. *)
Lemma flagRedundantStep_spec lastDictionary lastPartOfSpeech flagged previous
    definition :
  match previous with
  | Some previous =>
      lastDictionary = Some (TermDefinition.dictionary previous)
      ∧ lastPartOfSpeech = Some (partOfSpeechOf previous)
  | None => lastDictionary = None ∧ lastPartOfSpeech = None
  end →
  flagRedundantStep (lastDictionary, lastPartOfSpeech, flagged) definition
  = (Some (TermDefinition.dictionary definition),
     Some (partOfSpeechOf definition),
     flagged ++ [flaggedBehind previous definition]).
Proof.
  intros Hstate. unfold flagRedundantStep, flaggedBehind. cbn zeta.
  fold (partOfSpeechOf definition).
  destruct previous as [previous|]; destruct Hstate as [-> ->].
  - destruct (decide (Some (TermDefinition.dictionary previous)
                      ≠ Some (TermDefinition.dictionary definition)))
      as [Hother|Hsame].
    + rewrite decide_False by done.
      rewrite decide_False; [done|]. intros [Hdictionary _]. congruence.
    + apply dec_stable in Hsame. injection Hsame as Hsame.
      destruct (decide (Some (partOfSpeechOf previous)
                        = Some (partOfSpeechOf definition))) as [Hkey|Hkey].
      * injection Hkey as Hkey. rewrite decide_True by done.
        by rewrite Hkey.
      * rewrite decide_False; [done|]. intros [_ Hrepeat]. congruence.
  - destruct (decide (None ≠ Some (TermDefinition.dictionary definition)));
      by rewrite decide_False.
Qed.

Lemma flagRedundant_loop definitions lastDictionary lastPartOfSpeech flagged
    previous :
  match previous with
  | Some previous =>
      lastDictionary = Some (TermDefinition.dictionary previous)
      ∧ lastPartOfSpeech = Some (partOfSpeechOf previous)
  | None => lastDictionary = None ∧ lastPartOfSpeech = None
  end →
  (fold_left flagRedundantStep definitions
     (lastDictionary, lastPartOfSpeech, flagged)).2
  = flagged
      ++ zip_with flaggedBehind (previous :: (Some <$> definitions)) definitions.
Proof.
  revert lastDictionary lastPartOfSpeech flagged previous.
  induction definitions as [|definition rest IH];
    intros lastDictionary lastPartOfSpeech flagged previous Hstate.
  - simpl. by rewrite app_nil_r.
  - cbn [fold_left].
    rewrite (flagRedundantStep_spec _ _ _ previous) by done.
    rewrite (IH _ _ _ (Some definition)) by done.
    rewrite fmap_cons. cbn [zip_with]. by rewrite <- app_assoc.
Qed.

End RedundantTags.

(** X14: [_flagRedundantDefinitionTags] changes nothing but the flag
    [redundant] of part-of-speech tags.  It sets the flag on the
    part-of-speech tags of a definition exactly when the definition just
    before it comes from the same dictionary and has the same sorted list
    of part-of-speech tag names; the first definition is left as it
    is. *)
Theorem flagRedundantDefinitionTags_flags_repeated_part_of_speech
    (definitions : list (TermDefinition.t Tag.t)) :
  _flagRedundantDefinitionTags definitions
  = zip_with flaggedBehind (None :: (Some <$> definitions)) definitions
  ∧ head (_flagRedundantDefinitionTags definitions) = head definitions
  ∧ (∀ position previous definition,
       definitions !! position = Some previous →
       definitions !! S position = Some definition →
       _flagRedundantDefinitionTags definitions !! S position
       = Some (if decide (repeatsPartOfSpeech previous definition)
               then withRedundantPartOfSpeech definition
               else definition)).
Proof.
  assert (_flagRedundantDefinitionTags definitions
          = zip_with flaggedBehind (None :: (Some <$> definitions)) definitions)
    as Hflagged.
  { unfold _flagRedundantDefinitionTags.
    by rewrite (flagRedundant_loop definitions None None [] None). }
  split; [done|]. rewrite Hflagged. split.
  - by destruct definitions.
  - intros position previous definition Hprevious Hposition.
    rewrite lookup_zip_with, Hposition. simpl.
    by rewrite list_lookup_fmap, Hprevious.
Qed.

(** ** The sort frequencies of entries and definitions *)

Section SortFrequencyFacts.

Lemma frequencyOrderOf_values (ascending : bool) (values : list Z) :
  Forall (fun value => MIN_SAFE_INTEGER ≤ value ≤ MAX_SAFE_INTEGER) values →
  frequencyOrderOf ascending (foldr Z.min MAX_SAFE_INTEGER values)
                   (foldr Z.max MIN_SAFE_INTEGER values)
  = frequencyOrderFor ascending values.
Proof.
  intros Hsafe. unfold frequencyOrderOf, frequencyOrderFor.
  destruct values as [|value rest]; [done|].
  apply Forall_cons in Hsafe as [Hvalue Hrest]. simpl.
  rewrite (foldr_min_bounded rest value MAX_SAFE_INTEGER)
    by (first [lia | eapply Forall_impl; [exact Hrest|]; simpl; lia]).
  rewrite (foldr_max_bounded rest value MIN_SAFE_INTEGER)
    by (first [lia | eapply Forall_impl; [exact Hrest|]; simpl; lia]).
  assert (foldr Z.min value rest ≤ value) as Hlow
    by (clear; induction rest; simpl; lia).
  assert (value ≤ foldr Z.max value rest) as Hhigh
    by (clear; induction rest; simpl; lia).
  replace (_ <=? _) with true by (symmetry; apply Z.leb_le; lia).
  done.
Qed.

(** The frequency map holds for a headword the last of its frequencies
    from the dictionary. *)
Lemma scanFrequencies_map {T} dictionary (entry : TermDictionaryEntry.t T)
    (headwordIndex : nat) :
  (scanFrequencies dictionary (TermDictionaryEntry.frequencies entry)).1.1
    !! headwordIndex
  = last (frequenciesFrom dictionary (fun i => i = headwordIndex) entry).
Proof.
  unfold scanFrequencies, frequenciesFrom.
  induction (TermDictionaryEntry.frequencies entry) as [|item items IH]
    using rev_ind; [done|].
  rewrite fold_left_app, filter_app, fmap_app. cbn [fold_left].
  destruct (fold_left _ items _) as [[frequencyMap frequencyMin] frequencyMax].
  cbn [fst snd] in IH. rewrite filter_cons, filter_nil.
  destruct (decide (TermFrequency.dictionary item ≠ dictionary)) as [Hne|Heq].
  - rewrite decide_False by (by intros [? _]). simpl.
    by rewrite app_nil_r.
  - apply dec_stable in Heq. cbn [fst snd].
    destruct (decide (TermFrequency.headwordIndex item = headwordIndex))
      as [Hsame|Hother].
    + rewrite decide_True by done. simpl.
      by rewrite last_snoc, Hsame, lookup_insert_eq.
    + rewrite decide_False by (by intros [_ ?]). simpl.
      by rewrite app_nil_r, lookup_insert_ne.
Qed.

Lemma scanHeadwordIndices_min_max (frequencyMap : gmap nat Z)
    (headwordIndices : list nat) :
  let values := omap (fun headwordIndex => frequencyMap !! headwordIndex)
                     headwordIndices in
  scanHeadwordIndices frequencyMap headwordIndices
  = (foldr Z.min MAX_SAFE_INTEGER values, foldr Z.max MIN_SAFE_INTEGER values).
Proof.
  cbn zeta. unfold scanHeadwordIndices.
  rewrite <- fold_left_min_foldr, <- fold_left_max_foldr.
  generalize MAX_SAFE_INTEGER as frequencyMin.
  generalize MIN_SAFE_INTEGER as frequencyMax.
  induction headwordIndices as [|headwordIndex rest IH];
    intros frequencyMax frequencyMin; [done|].
  cbn [fold_left omap list_omap].
  destruct (frequencyMap !! headwordIndex) as [frequency|]; simpl; apply IH.
Qed.

Lemma lastFrequencies_safe {T} dictionary (entry : TermDictionaryEntry.t T)
    headwordIndices :
  safeFrequencies dictionary entry →
  Forall (fun value => MIN_SAFE_INTEGER ≤ value ≤ MAX_SAFE_INTEGER)
         (lastFrequencies dictionary entry headwordIndices).
Proof.
  intros Hsafe. apply Forall_forall.
  intros value (headwordIndex & _ & Hlast)%list_elem_of_omap.
  apply last_Some in Hlast as [front Hlast].
  eapply Forall_forall in Hsafe; [exact Hsafe|].
  unfold frequenciesFrom in *.
  assert (value ∈ (fun item => TermFrequency.frequency item)
                    <$> filter (fun item =>
                                  TermFrequency.dictionary item = dictionary
                                  ∧ TermFrequency.headwordIndex item
                                    = headwordIndex)
                               (TermDictionaryEntry.frequencies entry)) as Hin.
  { rewrite Hlast. apply elem_of_app. right. by apply list_elem_of_singleton. }
  apply list_elem_of_fmap in Hin as (item & -> & [[? ?] Hitem]%list_elem_of_filter).
  apply list_elem_of_fmap. exists item. split; [done|].
  by apply list_elem_of_filter.
Qed.

End SortFrequencyFacts.

(** X15: [_updateSortFrequencies] changes nothing but the frequency orders.
    When the frequencies that the entries have from the sort dictionary
    are safe integers, an entry receives the order of all its frequencies
    from the dictionary: their minimum when ascending, their negated
    maximum when descending, [Number.MAX_SAFE_INTEGER] or 0 when there is
    none.  A definition receives the order of one frequency for each of its
    headword indices that has any, the last that the entry has for that
    headword from the dictionary. *)
Theorem updateSortFrequencies_orders_by_dictionary_frequencies {T}
    (dictionaryEntries : list (TermDictionaryEntry.t T))
    (dictionary : string) (ascending : bool) :
  Forall (safeFrequencies dictionary) dictionaryEntries →
  _updateSortFrequencies dictionaryEntries dictionary ascending
  = (fun dictionaryEntry =>
       TermDictionaryEntry_setData dictionaryEntry
         (frequencyOrderFor ascending
            (frequenciesFrom dictionary (fun _ => True) dictionaryEntry))
         (TermDictionaryEntry.headwords dictionaryEntry)
         ((fun definition =>
             TermDefinition_setFrequencyOrder definition
               (frequencyOrderFor ascending
                  (lastFrequencies dictionary dictionaryEntry
                     (TermDefinition.headwordIndices definition))))
            <$> TermDictionaryEntry.definitions dictionaryEntry)
         (TermDictionaryEntry.pronunciations dictionaryEntry)
         (TermDictionaryEntry.frequencies dictionaryEntry))
      <$> dictionaryEntries.
Proof.
  intros Hsafe. unfold _updateSortFrequencies.
  apply Forall_fmap_ext_1. eapply Forall_impl; [exact Hsafe|].
  intros dictionaryEntry Hentry.
  pose proof (updateEntrySortFrequencies_frequencyOrder dictionary ascending
                dictionaryEntry Hentry) as Horder.
  pose proof (scanFrequencies_map dictionary dictionaryEntry) as Hmap.
  unfold updateEntrySortFrequencies in *.
  destruct (scanFrequencies dictionary
              (TermDictionaryEntry.frequencies dictionaryEntry))
    as [[frequencyMap frequencyMin] frequencyMax].
  cbn [fst snd] in Hmap. simpl in Horder.
  unfold TermDictionaryEntry_setData. rewrite Horder. f_equal.
  apply list_fmap_ext. intros position definition _.
  rewrite scanHeadwordIndices_min_max.
  assert (omap (fun headwordIndex => frequencyMap !! headwordIndex)
               (TermDefinition.headwordIndices definition)
          = lastFrequencies dictionary dictionaryEntry
              (TermDefinition.headwordIndices definition)) as ->.
  { unfold lastFrequencies. apply list_omap_ext.
    apply Forall2_same_length_lookup_2; [done|].
    intros i headwordIndex headwordIndex' Hi Hi'.
    rewrite Hi in Hi'. injection Hi' as <-. apply Hmap. }
  by rewrite frequencyOrderOf_values by by apply lastFrequencies_safe.
Qed.

(** The statement applies to the entry with the frequencies 5 and 10 for
    its one headword: the entry receives 5, its definition 10. *)
Lemma updateSortFrequencies_orders_by_dictionary_frequencies_witness :
  Forall (safeFrequencies "F") [exampleFrequencyEntry]
  ∧ frequencyOrderFor true
      (frequenciesFrom "F" (fun _ => True) exampleFrequencyEntry) = 5
  ∧ frequencyOrderFor true
      (lastFrequencies "F" exampleFrequencyEntry [0%nat]) = 10
  ∧ (fun dictionaryEntry =>
       (TermDictionaryEntry.frequencyOrder dictionaryEntry,
        (fun definition => TermDefinition.frequencyOrder definition)
          <$> TermDictionaryEntry.definitions dictionaryEntry))
      <$> _updateSortFrequencies [exampleFrequencyEntry] "F" true
    = [(5, [10])].
Proof.
  assert (Forall (safeFrequencies "F") [exampleFrequencyEntry]) as Hsafe.
  { repeat constructor; vm_compute; by intros ?. }
  split; [exact Hsafe|]. split; [vm_compute; reflexivity|].
  split; [vm_compute; reflexivity|].
  rewrite (updateSortFrequencies_orders_by_dictionary_frequencies
             [exampleFrequencyEntry] "F" true Hsafe).
  vm_compute. reflexivity.
Defined.

(** ** The order of pronunciations and frequencies *)

Section SimpleDataOrder.
Context {A : Type} `{SimpleData A}.

Lemma compareSimpleData_spec (v1 v2 : A) :
  compareSimpleData v1 v2 = lexCompare simpleDataKeys v1 v2.
Proof.
  unfold compareSimpleData, simpleDataKeys, lexCompare, ascending, descending.
  repeat match goal with
         | |- context [negb (?x =? 0)] =>
             destruct (Z.eqb_spec x 0); simpl negb; cbv iota
         end; try reflexivity; try lia.
  all: repeat match goal with
         | |- context [?x =? 0] => destruct (Z.eqb_spec x 0)
         end; try reflexivity; try lia.
Qed.

Lemma simpleDataKeys_consistent :
  consistentOn (fun _ : A => True) (lexCompare simpleDataKeys).
Proof.
  apply lexCompare_consistent. unfold simpleDataKeys.
  repeat (apply Forall_cons; split);
    try apply ascending_consistent; try apply descending_consistent.
  apply Forall_nil_2.
Qed.

End SimpleDataOrder.

(** X16: [_sortTermDictionaryEntrySimpleData] rearranges the pronunciations
    or the frequencies of an entry into the order of descending dictionary
    priority, then ascending headword index, then ascending dictionary
    index, then ascending index.  Two of them tie only when they have the
    same index, and those keep their order. *)
Theorem sortTermDictionaryEntrySimpleData_orders_by_keys {A} `{SimpleData A}
    (dataList : list A) :
  let sorted := _sortTermDictionaryEntrySimpleData dataList in
  sorted ≡ₚ dataList
  ∧ StronglySorted (notAfter simpleDataKeys) sorted
  ∧ (∀ value1 value2,
       tiedWith simpleDataKeys value1 value2 →
       simpleDictionaryPriority value1 = simpleDictionaryPriority value2
       ∧ simpleHeadwordIndex value1 = simpleHeadwordIndex value2
       ∧ simpleDictionaryIndex value1 = simpleDictionaryIndex value2
       ∧ simpleIndex value1 = simpleIndex value2)
  ∧ ∀ value,
      filter (tiedWith simpleDataKeys value) sorted
      = filter (tiedWith simpleDataKeys value) dataList.
Proof.
  cbn zeta. unfold _sortTermDictionaryEntrySimpleData.
  rewrite (arraySort_ext _ (lexCompare simpleDataKeys))
    by apply compareSimpleData_spec.
  split; [apply arraySort_Permutation|]. split; [|split].
  - eapply (arraySort_sorted _ _ simpleDataKeys_consistent).
    by apply Forall_true.
  - intros value1 value2. unfold tiedWith, simpleDataKeys, lexCompare,
      ascending, descending.
    repeat match goal with
           | |- context [?x =? 0] => destruct (Z.eqb_spec x 0)
           end; intros; try lia.
    all: try (repeat split; lia).
  - intros value.
    eapply (arraySort_stable _ _ simpleDataKeys_consistent); [done|].
    by apply Forall_true.
Qed.

(** ** The candidates that [_getDeinflections] returns *)

Section CandidateFacts.

Lemma foldlM_preserves_elem {A B} (I : A → Prop) (f : A → B → option A)
    (items : list B) (acc acc' : A) :
  (∀ a b a', b ∈ items → I a → f a b = Some a' → I a') →
  I acc → foldlM f items acc = Some acc' → I acc'.
Proof.
  revert acc. induction items as [|b bs IH]; intros acc Hstep Hacc; simpl.
  - by intros [= <-].
  - destruct (f acc b) as [a'|] eqn:Hf; simpl; [|done].
    apply IH.
    + intros a b' a'' Hin. apply Hstep. by right.
    + eapply Hstep; [by left|done..].
Qed.

Lemma fold_left_preserves_elem {A B} (I : A → Prop) (f : A → B → A)
    (items : list B) (acc : A) :
  (∀ a b, b ∈ items → I a → I (f a b)) → I acc → I (fold_left f items acc).
Proof.
  revert acc. induction items as [|b bs IH]; intros acc Hstep Hacc; simpl;
    [done|].
  apply IH.
  - intros a b' Hin. apply Hstep. by right.
  - apply Hstep; [by left|done].
Qed.

Lemma withMoreEntries_refl deinflection : withMoreEntries deinflection deinflection.
Proof. exists []. by rewrite Deinflection_withEntries_nil. Qed.

Lemma withMoreEntries_push deinflection deinflection' databaseEntry :
  withMoreEntries deinflection deinflection' →
  withMoreEntries deinflection
    (Deinflection_pushDatabaseEntry deinflection' databaseEntry).
Proof.
  intros [databaseEntries ->]. exists (databaseEntries ++ [databaseEntry]).
  unfold Deinflection_withEntries, Deinflection_pushDatabaseEntry. simpl.
  by rewrite <- app_assoc.
Qed.

(** [_matchEntriesToDeinflections] changes nothing of a candidate but its
    database entries, to which it adds. *)
Lemma _matchEntriesToDeinflections_pushes collaborators databaseEntries
    uniqueDeinflectionArrays checkRules deinflections deinflections' :
  _matchEntriesToDeinflections collaborators databaseEntries
    uniqueDeinflectionArrays checkRules deinflections = Some deinflections' →
  Forall2 withMoreEntries deinflections deinflections'.
Proof.
  unfold _matchEntriesToDeinflections.
  apply (foldlM_preserves (Forall2 withMoreEntries deinflections)).
  - intros current databaseEntry current' Hcurrent Hstep.
    destruct (uniqueDeinflectionArrays !! DatabaseEntry.index databaseEntry)
      as [positions|]; [|done].
    simpl in Hstep. injection Hstep as <-.
    apply (fold_left_preserves (Forall2 withMoreEntries deinflections));
      [|done].
    intros current' position Hcurrent'. apply Forall2_alter_r; [done|].
    intros deinflection deinflection' _ _ Hmore.
    destruct (_ || _); [by apply withMoreEntries_push|done].
  - apply Forall2_same_length_lookup_2; [done|].
    intros i d d' Hd Hd'. rewrite Hd in Hd'. injection Hd' as <-.
    apply withMoreEntries_refl.
Qed.

Lemma _addEntriesToDeinflections_pushes collaborators database deinflections
    enabledDictionaryMap matchType checkRules calls deinflections' calls' :
  _addEntriesToDeinflections collaborators database deinflections
    enabledDictionaryMap matchType checkRules calls
  = (Some deinflections', calls') →
  Forall2 withMoreEntries deinflections deinflections'
  ∧ ∃ call, calls' = calls ++ [call].
Proof.
  unfold _addEntriesToDeinflections.
  intros (map & calls0 & Hgroup & Hrun)%DB_bind_inv.
  unfold liftOption in Hgroup. injection Hgroup as Hgroup <-.
  apply DB_bind_inv in Hrun as (entries & calls1 & Hfind & Hmatch).
  unfold findTermsBulk in Hfind. injection Hfind as <- <-.
  unfold liftOption in Hmatch. injection Hmatch as Hmatch <-.
  split; [by eapply _matchEntriesToDeinflections_pushes|by eexists].
Qed.

Lemma mapM_lookup_app (store more : HypStore) (refs : list HypRef) values :
  mapM (fun ref : HypRef => store !! ref) refs = Some values →
  mapM (fun ref : HypRef => (store ++ more) !! ref) refs = Some values.
Proof.
  rewrite !mapM_Some. intros Hrefs.
  eapply Forall2_impl; [exact Hrefs|]. intros ref value.
  apply lookup_app_l_Some.
Qed.

Lemma mapM_lookup_seq (store block : HypStore) :
  mapM (fun ref : HypRef => (store ++ block) !! ref)
       (seq (length store) (length block))
  = Some block.
Proof.
  apply mapM_Some, Forall2_same_length_lookup_2.
  { by rewrite length_seq. }
  intros i ref value Href Hvalue.
  apply lookup_seq in Href as [-> _].
  rewrite lookup_app_r by lia. by replace (length store + i - length store)%nat
    with i by lia.
Qed.

Lemma lemmaCandidateFrom_app (store more : HypStore) source deinflection :
  lemmaCandidateFrom store source deinflection →
  lemmaCandidateFrom (store ++ more) source deinflection.
Proof.
  intros (? & ? & ? & ? & ? & algHypotheses & Halg & Hnew).
  repeat (split; [done|]). exists algHypotheses.
  split; by apply mapM_lookup_app.
Qed.

Lemma lemmaCandidateFrom_more store source deinflection deinflection' :
  withMoreEntries deinflection deinflection' →
  lemmaCandidateFrom store source deinflection →
  lemmaCandidateFrom store source deinflection'.
Proof. by intros [databaseEntries ->]. Qed.

Lemma nonLemmaEntries_snoc deinflections deinflection :
  nonLemmaEntries (deinflections ++ [deinflection])
  = nonLemmaEntries deinflections ++ nonLemmaEntries [deinflection].
Proof. unfold nonLemmaEntries. by rewrite bind_app. Qed.

(** The inner loop of [_getDictionaryDeinflections] makes one candidate
    for every ['non-lemma'] entry of the candidate, in order. *)
Lemma collectFromEntries_spec (store0 : HypStore) (hit : Deinflection.t)
    algHypotheses sources (entries : list DatabaseEntry.t)
    (store : HypStore) (collected : list Deinflection.t) :
  mapM (fun ref : HypRef => store !! ref)
       (Deinflection.inflectionHypotheses hit) = Some algHypotheses →
  (∃ more, store = store0 ++ more) →
  Forall2 (lemmaCandidateFrom store) sources collected →
  let result :=
    fold_left
      (fun '(store, dictionaryDeinflections) entry =>
         if decide ("non-lemma"%string ∈ DatabaseEntry.definitionTags entry)
         then
           let lemma := default ""%string (DatabaseEntry.formOf entry) in
           let hypotheses :=
             dictionaryHypotheses algHypotheses
               (default [] (DatabaseEntry.inflectionHypotheses entry)) in
           (store ++ hypotheses,
            dictionaryDeinflections
              ++ [Deinflection.mk (Deinflection.originalText hit)
                    (Deinflection.transformedText hit) lemma 0
                    (seq (length store) (length hypotheses)) [] true])
         else (store, dictionaryDeinflections))
      entries (store, collected) in
  (∃ more, result.1 = store0 ++ more)
  ∧ mapM (fun ref : HypRef => result.1 !! ref)
         (Deinflection.inflectionHypotheses hit) = Some algHypotheses
  ∧ Forall2 (lemmaCandidateFrom result.1)
      (sources
       ++ ((fun entry => (hit, entry))
             <$> filter (fun entry =>
                           "non-lemma"%string
                           ∈ DatabaseEntry.definitionTags entry)
                        entries))
      result.2.
Proof.
  revert sources store collected.
  induction entries as [|entry entries IH];
    intros sources store collected Halg Hstore Hcollected.
  - cbn [fold_left fst snd]. rewrite filter_nil, fmap_nil, app_nil_r. done.
  - cbn [fold_left]. rewrite filter_cons.
    destruct (decide ("non-lemma"%string ∈ DatabaseEntry.definitionTags entry))
      as [Htag|Htag].
    + rewrite fmap_cons.
      replace (sources ++ (hit, entry) :: _)
        with ((sources ++ [(hit, entry)])
              ++ ((fun entry => (hit, entry))
                    <$> filter (fun entry =>
                                  "non-lemma"%string
                                  ∈ DatabaseEntry.definitionTags entry)
                               entries))
        by by rewrite <- app_assoc.
      apply IH.
      * by apply mapM_lookup_app.
      * destruct Hstore as [more ->]. eexists. by rewrite <- app_assoc.
      * apply Forall2_app.
        -- eapply Forall2_impl; [exact Hcollected|].
           intros source d. apply lemmaCandidateFrom_app.
        -- apply Forall2_cons_2; [|constructor].
           repeat (split; [done|]). exists algHypotheses. cbn [fst snd].
           split; [by apply mapM_lookup_app|].
           cbn [Deinflection.inflectionHypotheses]. apply mapM_lookup_seq.
    + by apply IH.
Qed.

(** The loops of [_getDictionaryDeinflections] make one candidate for
    every ['non-lemma'] entry of the candidates given, in order, and the
    store only grows. *)
Lemma collectDictionaryDeinflections_loop (store0 : HypStore)
    (done deinflections : list Deinflection.t) (store store' : HypStore)
    (collected collected' : list Deinflection.t) :
  (∃ more, store = store0 ++ more) →
  Forall2 (lemmaCandidateFrom store) (nonLemmaEntries done) collected →
  foldlM
    (fun '(store, dictionaryDeinflections) deinflection =>
       algHypotheses ←
         mapM (fun ref : HypRef => store !! ref)
              (Deinflection.inflectionHypotheses deinflection);
       Some (fold_left
               (fun '(store, dictionaryDeinflections) entry =>
                  if decide ("non-lemma"%string
                             ∈ DatabaseEntry.definitionTags entry)
                  then
                    let lemma := default ""%string (DatabaseEntry.formOf entry) in
                    let hypotheses :=
                      dictionaryHypotheses algHypotheses
                        (default [] (DatabaseEntry.inflectionHypotheses entry)) in
                    (store ++ hypotheses,
                     dictionaryDeinflections
                       ++ [Deinflection.mk
                             (Deinflection.originalText deinflection)
                             (Deinflection.transformedText deinflection)
                             lemma 0
                             (seq (length store) (length hypotheses))
                             [] true])
                  else (store, dictionaryDeinflections))
               (Deinflection.databaseEntries deinflection)
               (store, dictionaryDeinflections)))
    deinflections (store, collected)
  = Some (store', collected') →
  (∃ more, store' = store0 ++ more)
  ∧ Forall2 (lemmaCandidateFrom store') (nonLemmaEntries (done ++ deinflections))
            collected'.
Proof.
  revert done store collected.
  induction deinflections as [|deinflection deinflections IH];
    intros done store collected Hstore Hcollected.
  - simpl. intros [= <- <-]. by rewrite app_nil_r.
  - cbn [foldlM].
    destruct (mapM (fun ref : HypRef => store !! ref)
                (Deinflection.inflectionHypotheses deinflection))
      as [algHypotheses|] eqn:Halg; [|done].
    cbn [mbind option_bind].
    pose proof (collectFromEntries_spec store0 deinflection algHypotheses
                  (nonLemmaEntries done)
                  (Deinflection.databaseEntries deinflection) store collected
                  Halg Hstore Hcollected) as Hinner.
    cbn zeta in Hinner.
    destruct (fold_left _ (Deinflection.databaseEntries deinflection) _)
      as [store1 collected1].
    cbn [fst snd] in Hinner. destruct Hinner as (Hstore1 & _ & Hcollected1).
    replace (done ++ deinflection :: deinflections)
      with ((done ++ [deinflection]) ++ deinflections)
      by by rewrite <- app_assoc.
    apply IH; [done|].
    rewrite nonLemmaEntries_snoc. unfold nonLemmaEntries at 2.
    rewrite bind_cons. simpl. by rewrite app_nil_r.
Qed.

Lemma collectDictionaryDeinflections_spec (store store' : HypStore)
    deinflections dictionaryDeinflections :
  collectDictionaryDeinflections store deinflections
  = Some (store', dictionaryDeinflections) →
  (∃ more, store' = store ++ more)
  ∧ Forall2 (lemmaCandidateFrom store') (nonLemmaEntries deinflections)
            dictionaryDeinflections.
Proof.
  unfold collectDictionaryDeinflections. intros Hrun.
  apply (collectDictionaryDeinflections_loop store [] deinflections store
           store' [] dictionaryDeinflections); [|constructor|exact Hrun].
  exists []. by rewrite app_nil_r.
Qed.

End CandidateFacts.

(** X17: when [_getDeinflections] returns, its candidates are, in this
    order, the first candidates (those of the algorithm, or the text
    itself when [deinflect] is off) for which the database has an entry,
    each with nothing changed but its database entries, and, unless the
    deinflection source is ['algorithm'], one candidate for every
    ['non-lemma'] database entry of these, in the order of the candidates
    and of their entries: the candidate for the [formOf] of the entry, with
    the texts of the hit, the hypotheses made of those of the hit and of
    the entry, and the database entries of the second query.  The
    hypothesis objects of the first candidates are kept.  The database is
    not asked when there is no first candidate, once when the source is
    ['algorithm'], and twice otherwise. *)
Theorem getDeinflections_returns_hits_then_lemma_candidates
    (collaborators : Collaborators.t) (database : Database.t) (text : string)
    (enabledDictionaryMap : EnabledDictionaryMap) (options : FindTermsOptions.t)
    (store' : HypStore) (deinflections : list Deinflection.t)
    (calls calls' : list DatabaseCall) :
  _getDeinflections collaborators database text enabledDictionaryMap options
    calls
  = (Some (store', deinflections), calls') →
  let store := (initialDeinflections collaborators text options).1 in
  let candidates := (initialDeinflections collaborators text options).2 in
  ∃ attached synthesized new,
    Forall2 withMoreEntries candidates attached
    ∧ deinflections
      = filter (fun deinflection =>
                  0 < len (Deinflection.databaseEntries deinflection))
               attached
        ++ synthesized
    ∧ (FindTermsOptions.deinflectionSource options ≠ "algorithm"%string →
       Forall2 (lemmaCandidateFrom store')
         (nonLemmaEntries
            (filter (fun deinflection =>
                       0 < len (Deinflection.databaseEntries deinflection))
                    attached))
         synthesized)
    ∧ (FindTermsOptions.deinflectionSource options = "algorithm"%string →
       synthesized = [] ∧ store' = store)
    ∧ (∃ more, store' = store ++ more)
    ∧ calls' = calls ++ new
    ∧ length new = deinflectionQueries options candidates.
Proof.
  unfold _getDeinflections. cbn zeta.
  destruct (initialDeinflections collaborators text options)
    as [store candidates].
  cbn [fst snd].
  destruct candidates as [|candidate candidates].
  { simpl. intros [= <- <- <-]. exists [], [], [].
    split; [constructor|]. split; [done|]. split; [by constructor|].
    split; [done|]. split; [by exists []; rewrite app_nil_r|].
    split; [by rewrite app_nil_r|done]. }
  replace (len (candidate :: candidates) =? 0) with false
    by (symmetry; apply Z.eqb_neq; unfold len; simpl; lia).
  intros (attached & calls1 & Hattach & Hrun)%DB_bind_inv.
  apply _addEntriesToDeinflections_pushes in Hattach as [Hattached [call1 ->]].
  exists attached. unfold deinflectionQueries.
  destruct (decide (FindTermsOptions.deinflectionSource options
                    ≠ "algorithm"%string)) as [Hsource|Hsource].
  - apply DB_bind_inv in Hrun as ([store1 synthesized] & calls2 & Hlemma & Hret).
    injection Hret as <- <- <-.
    unfold _getDictionaryDeinflections in Hlemma.
    apply DB_bind_inv in Hlemma
      as ([store2 collected] & calls3 & Hcollect & Hrun).
    unfold liftOption in Hcollect. injection Hcollect as Hcollect <-.
    apply DB_bind_inv in Hrun as (synthesized' & calls4 & Hentries & Hret).
    injection Hret as <- <- <-.
    apply _addEntriesToDeinflections_pushes in Hentries as [Hmore [call2 ->]].
    destruct (collectDictionaryDeinflections_spec _ _ _ _ Hcollect)
      as [Hstore Hcollected].
    exists synthesized', [call1; call2].
    split; [done|]. split; [done|]. split.
    + intros _. apply Forall2_same_length_lookup_2.
      { rewrite (Forall2_length _ _ _ Hcollected).
        by rewrite (Forall2_length _ _ _ Hmore). }
      intros i source deinflection Hfrom Hi.
      destruct (Forall2_lookup_r _ _ _ _ _ Hmore Hi)
        as (collected1 & Hcollected1 & Hwith).
      eapply lemmaCandidateFrom_more; [exact Hwith|].
      by eapply Forall2_lookup_lr.
    + split; [done|]. split; [done|]. split; [by rewrite <- app_assoc|].
      by rewrite decide_False.
  - apply dec_stable in Hsource. injection Hrun as <- <- <-.
    exists [], [call1].
    split; [done|]. split; [by rewrite app_nil_r|]. split; [done|].
    split; [done|]. split; [by exists []; rewrite app_nil_r|].
    split; [done|]. by rewrite decide_True.
Qed.

(** The statement applies to the lookup of "ab" in a dictionary that has
    "ab" as a form of "abc": the candidates returned are "ab", with its
    entry, and "abc", and the database has been asked twice. *)
Lemma getDeinflections_returns_hits_then_lemma_candidates_witness :
  ∃ store' deinflections calls',
    _getDeinflections exampleCollaborators exampleFormDatabase "ab"
      (FindTermsOptions.enabledDictionaryMap exampleOptions) exampleOptions []
    = (Some (store', deinflections), calls')
    ∧ (fun deinflection =>
         (Deinflection.deinflectedText deinflection,
          Deinflection.isDictionaryDeinflection deinflection,
          length (Deinflection.databaseEntries deinflection)))
        <$> deinflections
      = [("ab"%string, false, 1%nat); ("abc"%string, true, 0%nat)]
    ∧ length calls' = 2%nat.
Proof.
  destruct (_getDeinflections exampleCollaborators exampleFormDatabase "ab"
              (FindTermsOptions.enabledDictionaryMap exampleOptions)
              exampleOptions []) as [[[store' deinflections]|] calls'] eqn:Hrun;
    [|vm_compute in Hrun; discriminate].
  exists store', deinflections, calls'. split; [reflexivity|].
  destruct (getDeinflections_returns_hits_then_lemma_candidates _ _ _ _ _ _ _ _ _
              Hrun) as (attached & synthesized & new & _ & _ & _ & _ & _
                        & Hcalls & Hlength).
  split.
  - vm_compute in Hrun. injection Hrun as <- <- <-. reflexivity.
  - rewrite Hcalls, app_nil_l, Hlength. reflexivity.
Defined.

(** ** Grouping by headword *)

Section HeadwordGroups.

Lemma groupsPush_fmap {K A} `{EqDecision K} (F : K → list A) (key : K)
    (item : A) (keys : list K) :
  NoDup keys →
  groupsPush key item ((fun k => (k, F k)) <$> keys)
  = ((fun k => (k, if decide (k = key) then F k ++ [item] else F k)) <$> keys)
    ++ (if decide (key ∈ keys) then [] else [(key, [item])]).
Proof.
  induction 1 as [|k keys Hk Hkeys IH].
  - simpl. destruct (decide (key ∈ [])) as [Hin|_]; [|done].
    by apply elem_of_nil in Hin.
  - rewrite !fmap_cons. cbn [groupsPush app].
    destruct (decide (k = key)) as [->|Hne].
    + rewrite (decide_True (P := key ∈ key :: keys)) by by left.
      rewrite app_nil_r. f_equal.
      apply list_fmap_ext. intros i k' Hk'.
      rewrite decide_False; [done|]. intros ->.
      by apply list_elem_of_lookup_2 in Hk'.
    + rewrite IH. f_equal. f_equal.
      destruct (decide (key ∈ keys)) as [Hin|Hout].
      * by rewrite decide_True by by right.
      * rewrite decide_False; [done|].
        by intros [?|?]%elem_of_cons.
Qed.

Lemma headwordGroupKeys_elem_of store dictionaryEntries key :
  key ∈ headwordGroupKeys store dictionaryEntries
  ↔ ∃ dictionaryEntry,
      dictionaryEntry ∈ dictionaryEntries
      ∧ headwordGroupKey store dictionaryEntry = Some key.
Proof.
  unfold headwordGroupKeys.
  destruct (_addUniqueSimple_spec []
              (omap (headwordGroupKey store) dictionaryEntries))
    as (-> & _ & _).
  rewrite elem_of_nil, list_elem_of_omap. split.
  - intros [[]|(dictionaryEntry & ? & ?)]. by exists dictionaryEntry.
  - intros (dictionaryEntry & ? & ?). right. by exists dictionaryEntry.
Qed.

Lemma headwordGroupKeys_NoDup store dictionaryEntries :
  NoDup (headwordGroupKeys store dictionaryEntries).
Proof.
  unfold headwordGroupKeys.
  destruct (_addUniqueSimple_spec []
              (omap (headwordGroupKey store) dictionaryEntries))
    as (_ & Hnodup & _).
  apply Hnodup. constructor.
Qed.

Lemma headwordGroupKeys_snoc store dictionaryEntries dictionaryEntry key :
  headwordGroupKey store dictionaryEntry = Some key →
  headwordGroupKeys store (dictionaryEntries ++ [dictionaryEntry])
  = if decide (key ∈ headwordGroupKeys store dictionaryEntries)
    then headwordGroupKeys store dictionaryEntries
    else headwordGroupKeys store dictionaryEntries ++ [key].
Proof.
  intros Hkey. unfold headwordGroupKeys.
  rewrite omap_app, _addUniqueSimple_app. simpl. rewrite Hkey. simpl.
  unfold _addUniqueSimple at 1. simpl. done.
Qed.

(** The loop that fills the map [groups]: it throws at an entry without
    headword; otherwise the map has, for each key in the order of its
    first occurrence, the entries with that key. *)
Lemma headwordGroups_loop store dictionaryEntries :
  match
    foldlM (fun (groups : list ((string * string * list InflectionHypothesis.t)
                                * list (TermDictionaryEntry.t TagGroup.t)))
                dictionaryEntry =>
              key ← headwordGroupKey store dictionaryEntry;
              Some (groupsPush key dictionaryEntry groups))
           dictionaryEntries []
  with
  | Some groups =>
      Forall (fun dictionaryEntry =>
                is_Some (headwordGroupKey store dictionaryEntry))
             dictionaryEntries
      ∧ groups
        = (fun key => (key, headwordGroup store key dictionaryEntries))
            <$> headwordGroupKeys store dictionaryEntries
  | None =>
      Exists (fun dictionaryEntry =>
                headwordGroupKey store dictionaryEntry = None)
             dictionaryEntries
  end.
Proof.
  induction dictionaryEntries as [|dictionaryEntry prefix IH] using rev_ind.
  - simpl. split; [constructor|done].
  - rewrite foldlM_snoc.
    destruct (foldlM _ prefix []) as [groups|]; simpl.
    + destruct IH as [Hkeys ->].
      destruct (headwordGroupKey store dictionaryEntry) as [key|] eqn:Hkey;
        simpl.
      * split; [apply Forall_app; split; [done|]; by repeat constructor|].
        rewrite (groupsPush_fmap _ _ _ _ (headwordGroupKeys_NoDup _ _)).
        rewrite (headwordGroupKeys_snoc _ _ _ _ Hkey).
        assert (∀ k, headwordGroup store k (prefix ++ [dictionaryEntry])
                     = if decide (k = key)
                       then headwordGroup store k prefix ++ [dictionaryEntry]
                       else headwordGroup store k prefix) as Hgroup.
        { intros k. unfold headwordGroup.
          rewrite filter_app, filter_cons, filter_nil, Hkey.
          destruct (decide (k = key)) as [->|Hne].
          - by rewrite decide_True.
          - rewrite decide_False by congruence. by rewrite app_nil_r. }
        destruct (decide (key ∈ headwordGroupKeys store prefix)) as [Hin|Hout].
        -- rewrite app_nil_r. apply list_fmap_ext. intros i k _.
           by rewrite Hgroup.
        -- rewrite fmap_app. f_equal.
           ++ apply list_fmap_ext. intros i k _. by rewrite Hgroup.
           ++ simpl. rewrite Hgroup, decide_True by done.
              unfold headwordGroup at 1.
              rewrite filter_none; [done|].
              apply Forall_forall. intros member Hmember Hsame.
              apply Hout, headwordGroupKeys_elem_of. by exists member.
      * apply Exists_app. right. by constructor.
    + apply Exists_app. by left.
Qed.

Lemma _addUniqueSimple_same {A} `{EqDecision A} (x : A) (items : list A) :
  Forall (fun item => item = x) items → items ≠ [] →
  _addUniqueSimple [] items = [x].
Proof.
  intros Hitems Hsome. destruct items as [|item items]; [done|].
  apply Forall_cons in Hitems as [-> Hitems].
  unfold _addUniqueSimple. cbn [fold_left].
  destruct (decide (x ∈ [])) as [Hin|_]; [by apply elem_of_nil in Hin|].
  rewrite app_nil_l. clear Hsome.
  induction Hitems as [|item items -> _ IH]; cbn [fold_left]; [done|].
  by rewrite decide_True by by left.
Qed.

Lemma _createGroupedDictionaryEntry_headwordKeys dictionaryEntries check :
  headwordKey
    <$> TermDictionaryEntry.headwords
          (_createGroupedDictionaryEntry dictionaryEntries check)
  = _addUniqueSimple []
      (headwordKey
         <$> (dictionaryEntries
                ≫= fun dictionaryEntry =>
                     TermDictionaryEntry.headwords dictionaryEntry)).
Proof.
  unfold _createGroupedDictionaryEntry.
  destruct (headword_loop_spec dictionaryEntries [] []
              headwordsMapWellFormed_nil) as (_ & Hkeys & _).
  by destruct (fold_left _ dictionaryEntries ([], [])).
Qed.

(** With its hypothesis objects in the store, an entry has no key exactly
    when it has no headword. *)
Lemma headwordGroupKey_None store
    (dictionaryEntry : TermDictionaryEntry.t TagGroup.t) :
  validRefs store (TermDictionaryEntry.inflectionHypotheses dictionaryEntry) →
  headwordGroupKey store dictionaryEntry = None
  ↔ TermDictionaryEntry.headwords dictionaryEntry = [].
Proof.
  intros Hvalid. unfold headwordGroupKey.
  assert (is_Some (mapM (fun ref : HypRef => store !! ref)
                     (TermDictionaryEntry.inflectionHypotheses dictionaryEntry)))
    as [hypotheses ->].
  { apply mapM_is_Some. eapply Forall_impl; [exact Hvalid|].
    intros ref Href. by apply lookup_lt_is_Some. }
  destruct (TermDictionaryEntry.headwords dictionaryEntry) as [|first rest];
    by simpl.
Qed.

End HeadwordGroups.

(** X18: on entries whose hypothesis objects are in the store,
    [_groupDictionaryEntriesByHeadword] throws exactly when an entry has
    no headword.  Otherwise it returns one entry for each combination of
    the term and the reading of the first headword and the inflection
    hypotheses that occurs, in the order of the first occurrences: the
    entry that [_createGroupedDictionaryEntry] builds, without checking
    for duplicate definitions, from the entries with this combination, in
    their order.  When every entry has one headword, as the entries that
    [_findTermsInternal] returns, every entry returned has one headword
    too. *)
Theorem groupDictionaryEntriesByHeadword_groups_equal_headwords
    (store : HypStore)
    (dictionaryEntries : list (TermDictionaryEntry.t TagGroup.t)) :
  Forall (fun dictionaryEntry =>
            validRefs store
              (TermDictionaryEntry.inflectionHypotheses dictionaryEntry))
         dictionaryEntries →
  match _groupDictionaryEntriesByHeadword store dictionaryEntries with
  | Some result =>
      let keys := headwordGroupKeys store dictionaryEntries in
      Forall (fun dictionaryEntry =>
                TermDictionaryEntry.headwords dictionaryEntry ≠ []
                ∧ is_Some (headwordGroupKey store dictionaryEntry))
             dictionaryEntries
      ∧ NoDup keys
      ∧ (∀ key,
           key ∈ keys
           ↔ ∃ dictionaryEntry,
               dictionaryEntry ∈ dictionaryEntries
               ∧ headwordGroupKey store dictionaryEntry = Some key)
      ∧ result
        = (fun key =>
             _createGroupedDictionaryEntry
               (headwordGroup store key dictionaryEntries) false)
            <$> keys
      ∧ (Forall (fun dictionaryEntry =>
                   length (TermDictionaryEntry.headwords dictionaryEntry)
                   = 1%nat)
                dictionaryEntries →
         Forall (fun grouped =>
                   length (TermDictionaryEntry.headwords grouped) = 1%nat)
                result)
  | None =>
      Exists (fun dictionaryEntry =>
                TermDictionaryEntry.headwords dictionaryEntry = [])
             dictionaryEntries
  end.
Proof.
  intros Hvalid. unfold _groupDictionaryEntriesByHeadword.
  pose proof (headwordGroups_loop store dictionaryEntries) as Hloop.
  destruct (foldlM _ dictionaryEntries []) as [groups|].
  2:{ apply Exists_exists in Hloop as (dictionaryEntry & Hin & Hnone).
      apply Exists_exists. exists dictionaryEntry. split; [done|].
      apply (headwordGroupKey_None store); [|done].
      by eapply Forall_forall in Hvalid. }
  destruct Hloop as [Hkeys ->]. cbn zeta.
  split.
  { apply Forall_forall. intros dictionaryEntry Hin.
    eapply Forall_forall in Hkeys as Hkey; [|exact Hin].
    split; [|done]. intros Hnil.
    apply (headwordGroupKey_None store) in Hnil;
      [|by eapply Forall_forall in Hvalid].
    rewrite Hnil in Hkey. by destruct Hkey. }
  split; [apply headwordGroupKeys_NoDup|].
  split; [apply headwordGroupKeys_elem_of|].
  split; [by rewrite <- list_fmap_compose|].
  intros Hsingle. rewrite <- list_fmap_compose. apply Forall_fmap, Forall_forall.
  intros [[term reading] hypotheses] Hkey. simpl.
  apply headwordGroupKeys_elem_of in Hkey as (member & Hmember & Hkey).
  rewrite <- (length_fmap headwordKey),
    _createGroupedDictionaryEntry_headwordKeys.
  rewrite (_addUniqueSimple_same (term, reading)); [done| |].
  - apply Forall_fmap, Forall_forall.
    intros headword (dictionaryEntry & Hheadword & Hentry)%list_elem_of_bind.
    simpl.
    apply list_elem_of_filter in Hentry as [Hsame Hentry].
    eapply Forall_forall in Hsingle; [|exact Hentry].
    unfold headwordGroupKey in Hsame.
    destruct (TermDictionaryEntry.headwords dictionaryEntry)
      as [|first [|second rest]]; simpl in *; try done.
    apply list_elem_of_singleton in Hheadword as ->.
    destruct (mapM _ _); simpl in Hsame; [|done].
    by injection Hsame as <- <- _.
  - intros Hnil. apply fmap_nil_inv in Hnil.
    assert (member ∈ headwordGroup store (term, reading, hypotheses)
                       dictionaryEntries) as Hin
      by by apply list_elem_of_filter.
    unfold headwordGroupKey in Hkey.
    destruct (TermDictionaryEntry.headwords member) as [|first rest] eqn:Hfirst;
      [done|].
    assert (first ∈ headwordGroup store (term, reading, hypotheses)
                      dictionaryEntries
                    ≫= fun dictionaryEntry =>
                         TermDictionaryEntry.headwords dictionaryEntry)
      as Hfirstin.
    { apply list_elem_of_bind. exists member. split; [|done].
      rewrite Hfirst. by left. }
    rewrite Hnil in Hfirstin. by apply elem_of_nil in Hfirstin.
Qed.

(** The statement applies to three entries of which the first and the
    last are the same: two entries are returned. *)
Lemma groupDictionaryEntriesByHeadword_groups_equal_headwords_witness :
  Forall (fun dictionaryEntry =>
            validRefs exampleStore
              (TermDictionaryEntry.inflectionHypotheses dictionaryEntry))
         [exampleEntry; exampleShortEntry; exampleEntry]
  ∧ ∃ result,
      _groupDictionaryEntriesByHeadword exampleStore
        [exampleEntry; exampleShortEntry; exampleEntry] = Some result
      ∧ length result = 2%nat
      ∧ NoDup (headwordGroupKeys exampleStore
                 [exampleEntry; exampleShortEntry; exampleEntry]).
Proof.
  assert (Forall (fun dictionaryEntry =>
                    validRefs exampleStore
                      (TermDictionaryEntry.inflectionHypotheses dictionaryEntry))
                 [exampleEntry; exampleShortEntry; exampleEntry]) as Hvalid.
  { unfold validRefs. repeat constructor; simpl; lia. }
  split; [exact Hvalid|].
  pose proof (groupDictionaryEntriesByHeadword_groups_equal_headwords
                exampleStore [exampleEntry; exampleShortEntry; exampleEntry]
                Hvalid) as Hgroups.
  destruct (_groupDictionaryEntriesByHeadword exampleStore
              [exampleEntry; exampleShortEntry; exampleEntry])
    as [result|] eqn:Hrun; [|vm_compute in Hrun; discriminate].
  exists result. split; [reflexivity|].
  destruct Hgroups as (_ & Hnodup & _). split; [|exact Hnodup].
  vm_compute in Hrun. injection Hrun as <-. reflexivity.
Defined.

(** ** Adding tag groups and sources without repetition *)

Section UniqueTagGroups.

Lemma findSameDictionary_None tagGroups newTagGroup :
  findSameDictionary tagGroups newTagGroup = None
  ↔ TagGroup.dictionary newTagGroup
    ∉ (fun tagGroup => TagGroup.dictionary tagGroup) <$> tagGroups.
Proof.
  induction tagGroups as [|tagGroup rest IH]; simpl.
  - split; [by intros _ ?%elem_of_nil|done].
  - case_bool_decide as Hsame.
    + split; [done|]. intros Hout. destruct Hout. rewrite Hsame. by left.
    + rewrite fmap_None, IH, not_elem_of_cons. split; [by intros ?|by intros []].
Qed.

Lemma findSameDictionary_Some tagGroups newTagGroup tagGroups' :
  findSameDictionary tagGroups newTagGroup = Some tagGroups' →
  (fun tagGroup => TagGroup.dictionary tagGroup) <$> tagGroups'
  = (fun tagGroup => TagGroup.dictionary tagGroup) <$> tagGroups
  ∧ TagGroup.dictionary newTagGroup
    ∈ (fun tagGroup => TagGroup.dictionary tagGroup) <$> tagGroups
  ∧ ∀ dictionary tagName,
      listsTagName tagGroups' dictionary tagName
      ↔ listsTagName tagGroups dictionary tagName
        ∨ (TagGroup.dictionary newTagGroup = dictionary
           ∧ tagName ∈ TagGroup.tagNames newTagGroup).
Proof.
  revert tagGroups'.
  induction tagGroups as [|tagGroup rest IH]; intros tagGroups'; simpl; [done|].
  case_bool_decide as Hsame.
  - intros [= <-]. simpl. split; [done|]. split; [rewrite Hsame; by left|].
    intros dictionary tagName. unfold listsTagName.
    destruct (_addUniqueSimple_spec (TagGroup.tagNames tagGroup)
                (TagGroup.tagNames newTagGroup)) as (Hnames & _ & _).
    split.
    + intros (found & [->|Hin]%elem_of_cons & Hdictionary & Hname).
      * simpl in *. apply Hnames in Hname as [Hname|Hname].
        -- left. exists tagGroup. split; [by left|done].
        -- right. split; [congruence|done].
      * left. exists found. split; [by right|done].
    + intros [(found & [->|Hin]%elem_of_cons & Hdictionary & Hname)
             |[Hdictionary Hname]].
      * eexists. split; [by left|]. simpl. split; [done|].
        apply Hnames. by left.
      * exists found. split; [by right|done].
      * eexists. split; [by left|]. simpl. split; [congruence|].
        apply Hnames. by right.
  - destruct (findSameDictionary rest newTagGroup) as [rest'|] eqn:Hrest;
      [|done].
    intros [= <-]. destruct (IH rest' eq_refl) as (Hkeys & Hin & Hnames).
    split; [simpl; f_equal; exact Hkeys|].
    split; [right; exact Hin|].
    intros dictionary tagName. unfold listsTagName in *. split.
    + intros (found & [->|Hfound]%elem_of_cons & Hdictionary & Hname).
      * left. exists tagGroup. split; [by left|done].
      * destruct (proj1 (Hnames dictionary tagName)) as [(g & ? & ? & ?)|?].
        { by exists found. }
        -- left. exists g. split; [by right|done].
        -- by right.
    + intros [(found & [->|Hfound]%elem_of_cons & Hdictionary & Hname)|Hnew].
      * exists tagGroup. split; [by left|done].
      * destruct (proj2 (Hnames dictionary tagName)) as (g & ? & ? & ?).
        { left. by exists found. }
        exists g. split; [by right|done].
      * destruct (proj2 (Hnames dictionary tagName)) as (g & ? & ? & ?).
        { by right. }
        exists g. split; [by right|done].
Qed.

(** The tag groups after [_addUniqueTagGroups]: their dictionaries, and
    the tag names they list. *)
Lemma _addUniqueTagGroups_spec (tagGroups newTagGroups : list TagGroup.t) :
  let result := _addUniqueTagGroups tagGroups newTagGroups in
  (fun tagGroup => TagGroup.dictionary tagGroup) <$> result
  = _addUniqueSimple
      ((fun tagGroup => TagGroup.dictionary tagGroup) <$> tagGroups)
      ((fun tagGroup => TagGroup.dictionary tagGroup) <$> newTagGroups)
  ∧ ∀ dictionary tagName,
      listsTagName result dictionary tagName
      ↔ listsTagName tagGroups dictionary tagName
        ∨ listsTagName newTagGroups dictionary tagName.
Proof.
  cbn zeta. unfold _addUniqueTagGroups. revert tagGroups.
  induction newTagGroups as [|newTagGroup rest IH]; intros tagGroups.
  - simpl. split; [done|]. intros dictionary tagName.
    split; [by left|]. intros [?|(? & ?%elem_of_nil & _)]; done.
  - cbn [fold_left].
    set (tagGroups' := match findSameDictionary tagGroups newTagGroup with
                       | Some tagGroups' => tagGroups'
                       | None => tagGroups ++ [newTagGroup]
                       end).
    assert (((fun tagGroup => TagGroup.dictionary tagGroup) <$> tagGroups'
             = _addUniqueSimple
                 ((fun tagGroup => TagGroup.dictionary tagGroup) <$> tagGroups)
                 [TagGroup.dictionary newTagGroup])
            ∧ ∀ dictionary tagName,
                listsTagName tagGroups' dictionary tagName
                ↔ listsTagName tagGroups dictionary tagName
                  ∨ (TagGroup.dictionary newTagGroup = dictionary
                     ∧ tagName ∈ TagGroup.tagNames newTagGroup))
      as [Hkeys Hnames].
    { subst tagGroups'. unfold _addUniqueSimple. cbn [fold_left].
      destruct (findSameDictionary tagGroups newTagGroup) as [found|] eqn:Hfind.
      - apply findSameDictionary_Some in Hfind as (Hkeys & Hin & Hnames).
        split; [|done]. by rewrite decide_True.
      - apply findSameDictionary_None in Hfind. split.
        + rewrite decide_False by done. by rewrite fmap_app.
        + intros dictionary tagName. unfold listsTagName. split.
          * intros (g & [Hg| ->%list_elem_of_singleton]%elem_of_app & ? & ?).
            -- left. by exists g.
            -- by right.
          * intros [(g & Hg & ? & ?)|[? ?]].
            -- exists g. split; [apply elem_of_app; by left|done].
            -- exists newTagGroup.
               split; [apply elem_of_app; right; by apply list_elem_of_singleton|].
               done. }
    destruct (IH tagGroups') as (Hfinal & Hall).
    split.
    + rewrite Hfinal, Hkeys, fmap_cons.
      change (TagGroup.dictionary newTagGroup
              :: ((fun tagGroup => TagGroup.dictionary tagGroup) <$> rest))
        with ([TagGroup.dictionary newTagGroup]
              ++ ((fun tagGroup => TagGroup.dictionary tagGroup) <$> rest)).
      by rewrite _addUniqueSimple_app.
    + intros dictionary tagName. rewrite Hall, Hnames. unfold listsTagName.
      split.
      * intros [[?|[? ?]]|(g & Hg & ? & ?)].
        -- by left.
        -- right. exists newTagGroup. split; [by left|done].
        -- right. exists g. split; [by right|done].
      * intros [?|(g & [->|Hg]%elem_of_cons & ? & ?)].
        -- left. by left.
        -- left. by right.
        -- right. by exists g.
Qed.

End UniqueTagGroups.

(** X19: [_addUniqueTagGroups] removes no tag group.  The dictionaries
    of the tag groups afterwards are those before, followed by the
    dictionaries of the added tag groups that had none, in the order of
    their first occurrence, so that tag groups of distinct dictionaries
    stay of distinct dictionaries.  A tag name is listed for a dictionary
    afterwards exactly when it was listed for it before or is listed for it
    by an added tag group. *)
Theorem addUniqueTagGroups_unites_tag_names_by_dictionary
    (tagGroups newTagGroups : list TagGroup.t) :
  let result := _addUniqueTagGroups tagGroups newTagGroups in
  let dictionaries :=
    fun groups : list TagGroup.t =>
      (fun tagGroup => TagGroup.dictionary tagGroup) <$> groups in
  dictionaries result
  = _addUniqueSimple (dictionaries tagGroups) (dictionaries newTagGroups)
  ∧ (NoDup (dictionaries tagGroups) → NoDup (dictionaries result))
  ∧ (length tagGroups ≤ length result)%nat
  ∧ ∀ dictionary tagName,
      listsTagName result dictionary tagName
      ↔ listsTagName tagGroups dictionary tagName
        ∨ listsTagName newTagGroups dictionary tagName.
Proof.
  cbn zeta.
  destruct (_addUniqueTagGroups_spec tagGroups newTagGroups) as [Hkeys Hnames].
  destruct (_addUniqueSimple_spec
              ((fun tagGroup => TagGroup.dictionary tagGroup) <$> tagGroups)
              ((fun tagGroup => TagGroup.dictionary tagGroup) <$> newTagGroups))
    as (_ & Hnodup & [added Hadded]).
  split; [done|]. split; [|split; [|done]].
  - intros Hdistinct. rewrite Hkeys. by apply Hnodup.
  - rewrite <- (length_fmap (fun tagGroup => TagGroup.dictionary tagGroup)
                  (_addUniqueTagGroups tagGroups newTagGroups)).
    rewrite Hkeys, Hadded, length_app, length_fmap. lia.
Qed.

Section UniqueSources.

Lemma sameSource_spec source newSource :
  sameSource source newSource = true
  ↔ sourceIdentity source = sourceIdentity newSource.
Proof.
  unfold sameSource, sourceIdentity.
  rewrite !andb_true_iff, !bool_decide_eq_true. split.
  - intros [[[[-> ->] ->] ->] ->]. done.
  - intros [= -> -> -> -> ->]. done.
Qed.

Lemma Source_setPrimary_identity source :
  sourceIdentity (Source_setPrimary source) = sourceIdentity source.
Proof. reflexivity. Qed.

(** The scan for a source of the same identity. *)
Lemma findSameSource_spec sources newSource :
  match findSameSource sources newSource with
  | Some sources' =>
      sourceIdentity <$> sources' = sourceIdentity <$> sources
      ∧ hasSource sources (sourceIdentity newSource)
      ∧ ∀ identity,
          hasPrimarySource sources' identity
          ↔ hasPrimarySource sources identity
            ∨ (sourceIdentity newSource = identity
               ∧ Source.isPrimary newSource = true)
  | None => ¬ hasSource sources (sourceIdentity newSource)
  end.
Proof.
  induction sources as [|source rest IH]; simpl.
  - by intros (? & ?%elem_of_nil & _).
  - destruct (sameSource source newSource) eqn:Hsame.
    + apply sameSource_spec in Hsame.
      split; [|split].
      * simpl. by destruct (Source.isPrimary newSource).
      * exists source. split; [by left|done].
      * intros identity. unfold hasPrimarySource. split.
        -- intros (found & [->|Hin]%elem_of_cons & Hidentity & Hprimary).
           ++ destruct (Source.isPrimary newSource) eqn:Hnew.
              ** right. split; [|done]. by rewrite <- Hsame.
              ** left. exists source. split; [by left|done].
           ++ left. exists found. split; [by right|done].
        -- intros [(found & [->|Hin]%elem_of_cons & Hidentity & Hprimary)
                  |[Hidentity Hprimary]].
           ++ eexists. split; [by left|].
              destruct (Source.isPrimary newSource); [|done].
              split; [done|]. done.
           ++ exists found. split; [by right|done].
           ++ eexists. split; [by left|]. rewrite Hprimary.
              split; [by rewrite Source_setPrimary_identity, Hsame|done].
    + destruct (findSameSource rest newSource) as [rest'|]; simpl.
      * destruct IH as (Hkeys & Hhas & Hprimary).
        split; [by f_equal|]. split.
        -- destruct Hhas as (found & ? & ?). exists found.
           split; [by right|done].
        -- intros identity. unfold hasPrimarySource in *. split.
           ++ intros (found & [->|Hin]%elem_of_cons & ? & ?).
              ** left. exists source. split; [by left|done].
              ** destruct (proj1 (Hprimary identity)) as [(s & ? & ? & ?)|?].
                 { by exists found. }
                 --- left. exists s. split; [by right|done].
                 --- by right.
           ++ intros [(found & [->|Hin]%elem_of_cons & ? & ?)|Hnew].
              ** exists source. split; [by left|done].
              ** destruct (proj2 (Hprimary identity)) as (s & ? & ? & ?).
                 { left. by exists found. }
                 exists s. split; [by right|done].
              ** destruct (proj2 (Hprimary identity)) as (s & ? & ? & ?).
                 { by right. }
                 exists s. split; [by right|done].
      * intros (found & [->|Hin]%elem_of_cons & Hidentity).
        -- apply sameSource_spec in Hidentity. congruence.
        -- apply IH. by exists found.
Qed.

(** The loop of [_addUniqueSources]. *)
Lemma addUniqueSources_loop newSources sources :
  let result :=
    fold_left (fun sources newSource =>
                 match findSameSource sources newSource with
                 | Some sources' => sources'
                 | None => sources ++ [newSource]
                 end)
              newSources sources in
  (∃ added, sourceIdentity <$> result = (sourceIdentity <$> sources) ++ added)
  ∧ (∀ identity,
       hasSource result identity
       ↔ hasSource sources identity ∨ hasSource newSources identity)
  ∧ (∀ identity,
       hasPrimarySource result identity
       ↔ hasPrimarySource sources identity
         ∨ hasPrimarySource newSources identity).
Proof.
  revert sources. induction newSources as [|newSource rest IH]; intros sources.
  - simpl. split; [exists []; by rewrite app_nil_r|].
    split; intros identity; (split; [by left|]).
    + intros [?|(? & ?%elem_of_nil & _)]; done.
    + intros [?|(? & ?%elem_of_nil & _)]; done.
  - cbn [fold_left]. cbn zeta.
    pose proof (findSameSource_spec sources newSource) as Hfind.
    set (sources' := match findSameSource sources newSource with
                     | Some sources' => sources'
                     | None => sources ++ [newSource]
                     end).
    assert ((∃ added, sourceIdentity <$> sources'
                      = (sourceIdentity <$> sources) ++ added)
            ∧ (∀ identity,
                 hasSource sources' identity
                 ↔ hasSource sources identity
                   ∨ sourceIdentity newSource = identity)
            ∧ (∀ identity,
                 hasPrimarySource sources' identity
                 ↔ hasPrimarySource sources identity
                   ∨ (sourceIdentity newSource = identity
                      ∧ Source.isPrimary newSource = true)))
      as (Hprefix & Hhas & Hprimary).
    { subst sources'.
      destruct (findSameSource sources newSource) as [found|].
      - destruct Hfind as (Hkeys & Hthere & Hprimary).
        split; [exists []; by rewrite app_nil_r|]. split; [|done].
        intros identity. unfold hasSource.
        assert (∀ sources0 : list Source.t,
                  (∃ source, source ∈ sources0
                             ∧ sourceIdentity source = identity)
                  ↔ identity ∈ sourceIdentity <$> sources0) as Hmember.
        { intros sources0. rewrite list_elem_of_fmap. split.
          - intros (s & ? & ?). by exists s.
          - intros (s & ? & ?). by exists s. }
        rewrite !Hmember, Hkeys. split; [by left|].
        intros [?|<-]; [done|]. by apply Hmember.
      - split; [exists [sourceIdentity newSource]; by rewrite fmap_app|].
        split; intros identity.
        + unfold hasSource. split.
          * intros (s & [?| ->%list_elem_of_singleton]%elem_of_app & ?).
            -- left. by exists s.
            -- by right.
          * intros [(s & ? & ?)|?].
            -- exists s. split; [apply elem_of_app; by left|done].
            -- exists newSource.
               split; [apply elem_of_app; right; by apply list_elem_of_singleton|].
               done.
        + unfold hasPrimarySource. split.
          * intros (s & [?| ->%list_elem_of_singleton]%elem_of_app & ? & ?).
            -- left. by exists s.
            -- by right.
          * intros [(s & ? & ? & ?)|[? ?]].
            -- exists s. split; [apply elem_of_app; by left|done].
            -- exists newSource.
               split; [apply elem_of_app; right; by apply list_elem_of_singleton|].
               done. }
    destruct (IH sources') as ([added Hfinal] & Hhasfinal & Hprimaryfinal).
    split; [|split].
    + destruct Hprefix as [added' Hprefix]. exists (added' ++ added).
      by rewrite Hfinal, Hprefix, <- app_assoc.
    + intros identity. rewrite Hhasfinal, Hhas. unfold hasSource. split.
      * intros [[?|?]|(s & ? & ?)].
        -- by left.
        -- right. exists newSource. split; [by left|done].
        -- right. exists s. split; [by right|done].
      * intros [?|(s & [->|?]%elem_of_cons & ?)].
        -- left. by left.
        -- left. by right.
        -- right. by exists s.
    + intros identity. rewrite Hprimaryfinal, Hprimary.
      unfold hasPrimarySource. split.
      * intros [[?|[? ?]]|(s & ? & ? & ?)].
        -- by left.
        -- right. exists newSource. split; [by left|done].
        -- right. exists s. split; [by right|done].
      * intros [?|(s & [->|?]%elem_of_cons & ? & ?)].
        -- left. by left.
        -- left. by right.
        -- right. by exists s.
Qed.

Lemma _addUniqueSources_spec sources newSources :
  let result := _addUniqueSources sources newSources in
  (∃ added, sourceIdentity <$> result = (sourceIdentity <$> sources) ++ added)
  ∧ (∀ identity,
       hasSource result identity
       ↔ hasSource sources identity ∨ hasSource newSources identity)
  ∧ (∀ identity,
       hasPrimarySource result identity
       ↔ hasPrimarySource sources identity
         ∨ hasPrimarySource newSources identity).
Proof.
  cbn zeta. unfold _addUniqueSources.
  destruct newSources as [|newSource newSources].
  - split; [exists []; by rewrite app_nil_r|].
    split; intros identity; (split; [by left|]).
    + intros [?|(? & ?%elem_of_nil & _)]; done.
    + intros [?|(? & ?%elem_of_nil & _)]; done.
  - destruct sources as [|source sources].
    + split; [by eexists|].
      split; intros identity; (split; [by right|]).
      * intros [(? & ?%elem_of_nil & _)|?]; done.
      * intros [(? & ?%elem_of_nil & _)|?]; done.
    + apply addUniqueSources_loop.
Qed.

End UniqueSources.

(** X20: [_addUniqueSources] keeps the sources in their order and adds
    behind them.  A combination of deinflected, transformed and original
    text, match type and match source is that of a source afterwards
    exactly when it is that of a source before or of a new source, and it
    is that of a primary source afterwards exactly when it is that of a
    primary one among them.  When there was no source, the new sources are
    taken as they are, repetitions included. *)
Theorem addUniqueSources_unites_sources
    (sources newSources : list Source.t) :
  let result := _addUniqueSources sources newSources in
  (∃ added, sourceIdentity <$> result = (sourceIdentity <$> sources) ++ added)
  ∧ (∀ identity,
       hasSource result identity
       ↔ hasSource sources identity ∨ hasSource newSources identity)
  ∧ (∀ identity,
       hasPrimarySource result identity
       ↔ hasPrimarySource sources identity
         ∨ hasPrimarySource newSources identity)
  ∧ (sources = [] → result = newSources)
  ∧ (sources ≠ [] → NoDup (sourceIdentity <$> sources) →
     NoDup (sourceIdentity <$> result)).
Proof.
  cbn zeta.
  destruct (_addUniqueSources_spec sources newSources)
    as (Hprefix & Hhas & Hprimary).
  split; [done|]. split; [done|]. split; [done|]. split.
  - intros ->. unfold _addUniqueSources. by destruct newSources.
  - intros Hsome Hnodup. unfold _addUniqueSources.
    destruct newSources as [|newSource newSources]; [done|].
    destruct sources as [|source sources]; [done|].
    generalize (newSource :: newSources). generalize (source :: sources) Hnodup.
    clear. intros sources Hnodup added. revert sources Hnodup.
    induction added as [|newSource added IH]; intros sources Hnodup; [done|].
    cbn [fold_left]. apply IH.
    pose proof (findSameSource_spec sources newSource) as Hfind.
    destruct (findSameSource sources newSource) as [found|].
    + destruct Hfind as (-> & _ & _). done.
    + rewrite fmap_app. apply NoDup_app. split; [done|].
      split; [|apply NoDup_singleton].
      intros identity (s & Hidentity & ?)%list_elem_of_fmap
        Hnew%list_elem_of_singleton.
      apply Hfind. exists s. split; [done|]. congruence.
Qed.

(** ** What the headwords of a grouped entry hold *)

Section UnitedHeadwords.

Lemma unitesHeadwords_nil term reading index :
  unitesHeadwords [] (Headword.mk index term reading [] [] []).
Proof.
  split; [|split; [|split]]; simpl.
  - intros identity. split.
    + by intros (? & ?%elem_of_nil & _).
    + by intros (? & ?%elem_of_nil & _).
  - intros identity. split.
    + by intros (? & ?%elem_of_nil & _).
    + by intros (? & ?%elem_of_nil & _).
  - intros dictionary tagName. split.
    + by intros (? & ?%elem_of_nil & _).
    + by intros (? & ?%elem_of_nil & _).
  - intros wordClass. split.
    + by intros ?%elem_of_nil.
    + by intros (? & ?%elem_of_nil & _).
Qed.

Lemma unitesHeadwords_snoc members headword newHeadword :
  unitesHeadwords members headword →
  unitesHeadwords (members ++ [newHeadword])
                  (Headword_absorb headword newHeadword).
Proof.
  intros (Hsources & Hprimary & Htags & Hclasses).
  destruct (_addUniqueSources_spec (Headword.sources headword)
              (Headword.sources newHeadword)) as (_ & Hhas & Hhasprimary).
  destruct (_addUniqueTagGroups_spec (Headword.tags headword)
              (Headword.tags newHeadword)) as (_ & Hnames).
  destruct (_addUniqueSimple_spec (Headword.wordClasses headword)
              (Headword.wordClasses newHeadword)) as (Hwords & _ & _).
  assert (∀ P : Headword.t TagGroup.t → Prop,
            (∃ member, member ∈ members ++ [newHeadword] ∧ P member)
            ↔ (∃ member, member ∈ members ∧ P member) ∨ P newHeadword)
    as Hsnoc.
  { intros P. split.
    - intros (member & [?| ->%list_elem_of_singleton]%elem_of_app & ?).
      + left. by exists member.
      + by right.
    - intros [(member & ? & ?)|?].
      + exists member. split; [apply elem_of_app; by left|done].
      + exists newHeadword.
        split; [apply elem_of_app; right; by apply list_elem_of_singleton|done]. }
  split; [|split; [|split]]; simpl.
  - intros identity.
    rewrite Hhas, Hsources,
      (Hsnoc (fun member => hasSource (Headword.sources member) identity)).
    done.
  - intros identity.
    rewrite Hhasprimary, Hprimary,
      (Hsnoc (fun member =>
                hasPrimarySource (Headword.sources member) identity)).
    done.
  - intros dictionary tagName.
    rewrite Hnames, Htags,
      (Hsnoc (fun member =>
                listsTagName (Headword.tags member) dictionary tagName)).
    done.
  - intros wordClass.
    rewrite Hwords, Hclasses,
      (Hsnoc (fun member => wordClass ∈ Headword.wordClasses member)).
    done.
Qed.

(** One headword more: every headword of the map holds what the headwords
    seen so far with its term and reading bring, and the map has a headword
    for each of them. *)
Lemma addTermHeadword_unites seen headwordsMap headwordIndexMap newHeadword :
  headwordsMapWellFormed headwordsMap →
  (∀ member, member ∈ seen → headwordKey member ∈ headwordKey <$> headwordsMap) →
  Forall (fun headword => unitesHeadwords (sameHeadwords headword seen) headword)
         headwordsMap →
  let headwordsMap' :=
    (addTermHeadword (headwordsMap, headwordIndexMap) newHeadword).1 in
  (∀ member, member ∈ seen ++ [newHeadword] →
             headwordKey member ∈ headwordKey <$> headwordsMap')
  ∧ Forall (fun headword =>
              unitesHeadwords (sameHeadwords headword (seen ++ [newHeadword]))
                              headword)
           headwordsMap'.
Proof.
  intros [Hnodup Hindex] Hseen Hunited.
  assert (∀ headword,
            headwordKey headword ≠ headwordKey newHeadword →
            sameHeadwords headword (seen ++ [newHeadword])
            = sameHeadwords headword seen) as Hother.
  { intros headword Hne. unfold sameHeadwords.
    rewrite filter_app, filter_cons, filter_nil.
    rewrite decide_False by congruence. by rewrite app_nil_r. }
  assert (∀ headword,
            headwordKey headword = headwordKey newHeadword →
            sameHeadwords headword (seen ++ [newHeadword])
            = sameHeadwords headword seen ++ [newHeadword]) as Hsame.
  { intros headword Heq. unfold sameHeadwords.
    rewrite filter_app, filter_cons, filter_nil.
    by rewrite decide_True by congruence. }
  unfold addTermHeadword, headwordsMap_get. cbn zeta.
  destruct (list_find _ headwordsMap) as [[position headword]|] eqn:Hfind.
  - apply list_find_Some in Hfind as (Hposition & [Hterm Hreading] & _).
    assert (headwordKey headword = headwordKey newHeadword) as Hkey
      by (unfold headwordKey; by rewrite Hterm, Hreading).
    cbn [fst snd].
    assert (headwordKey <$> <[position := Headword_absorb headword newHeadword]>
                              headwordsMap
            = headwordKey <$> headwordsMap) as Hkeys.
    { rewrite list_fmap_insert, Headword_absorb_key.
      apply list_insert_id. by rewrite list_lookup_fmap, Hposition. }
    split.
    + rewrite Hkeys.
      intros member [?| ->%list_elem_of_singleton]%elem_of_app; [by apply Hseen|].
      rewrite <- Hkey. apply list_elem_of_fmap. exists headword.
      split; [done|]. by eapply list_elem_of_lookup_2.
    + apply Forall_lookup. intros i h Hi.
      destruct (decide (i = position)) as [->|Hne].
      * rewrite list_lookup_insert_eq in Hi by by eapply lookup_lt_Some.
        injection Hi as <-.
        assert (sameHeadwords (Headword_absorb headword newHeadword)
                              (seen ++ [newHeadword])
                = sameHeadwords headword seen ++ [newHeadword]) as ->.
        { rewrite Hsame by done. done. }
        apply unitesHeadwords_snoc.
        by eapply Forall_lookup_1 in Hunited.
      * rewrite list_lookup_insert_ne in Hi by done.
        rewrite Hother; [by eapply Forall_lookup_1 in Hunited|].
        intros Heq. apply Hne.
        eapply (NoDup_lookup (headwordKey <$> headwordsMap)); [done| |].
        -- by rewrite list_lookup_fmap, Hi.
        -- rewrite list_lookup_fmap, Hposition. simpl. congruence.
  - apply list_find_None in Hfind.
    assert (headwordKey newHeadword ∉ headwordKey <$> headwordsMap) as Hnew.
    { intros (headword & Hkey & Hin)%list_elem_of_fmap.
      eapply Forall_forall in Hfind; [|exact Hin]. apply Hfind.
      by injection Hkey as <- <-. }
    cbn [fst snd].
    rewrite (insert_app_r_alt headwordsMap) by lia.
    rewrite Nat.sub_diag. cbn [insert list_insert].
    split.
    + rewrite fmap_app.
      intros member [?| ->%list_elem_of_singleton]%elem_of_app.
      * apply elem_of_app. left. by apply Hseen.
      * apply elem_of_app. right. by apply list_elem_of_singleton.
    + apply Forall_app. split.
      * apply Forall_forall. intros headword Hin.
        rewrite Hother.
        -- by eapply Forall_forall in Hunited.
        -- intros Heq. apply Hnew. rewrite <- Heq.
           apply list_elem_of_fmap. by exists headword.
      * apply Forall_singleton. rewrite Hsame by done.
        apply unitesHeadwords_snoc.
        assert (∀ headword,
                  headwordKey headword = headwordKey newHeadword →
                  sameHeadwords headword seen = []) as Hnone.
        { intros headword Heq. unfold sameHeadwords.
          apply filter_none, Forall_forall.
          intros member Hmember Hmemberkey. apply Hnew.
          rewrite <- Heq, <- Hmemberkey. by apply Hseen. }
        rewrite Hnone by done.
        apply unitesHeadwords_nil.
Qed.

Lemma addTermHeadword_loop_unites headwords seen headwordsMap headwordIndexMap :
  headwordsMapWellFormed headwordsMap →
  (∀ member, member ∈ seen → headwordKey member ∈ headwordKey <$> headwordsMap) →
  Forall (fun headword => unitesHeadwords (sameHeadwords headword seen) headword)
         headwordsMap →
  let headwordsMap' :=
    (fold_left addTermHeadword headwords (headwordsMap, headwordIndexMap)).1 in
  headwordsMapWellFormed headwordsMap'
  ∧ (∀ member, member ∈ seen ++ headwords →
               headwordKey member ∈ headwordKey <$> headwordsMap')
  ∧ Forall (fun headword =>
              unitesHeadwords (sameHeadwords headword (seen ++ headwords))
                              headword)
           headwordsMap'.
Proof.
  revert seen headwordsMap headwordIndexMap.
  induction headwords as [|newHeadword rest IH];
    intros seen headwordsMap headwordIndexMap Hmap Hseen Hunited.
  - simpl. by rewrite app_nil_r.
  - cbn [fold_left]. cbn zeta.
    destruct (addTermHeadword_spec headwordsMap headwordIndexMap newHeadword
                Hmap) as (Hmap' & _).
    destruct (addTermHeadword_unites seen headwordsMap headwordIndexMap
                newHeadword Hmap Hseen Hunited) as [Hseen' Hunited'].
    destruct (addTermHeadword (headwordsMap, headwordIndexMap) newHeadword)
      as [headwordsMap' headwordIndexMap'].
    cbn [fst snd] in *.
    rewrite (cons_middle newHeadword seen rest), app_assoc.
    by apply IH.
Qed.

(** The first loop of [_createGroupedDictionaryEntry]. *)
Lemma headword_loop_unites
    (dictionaryEntries : list (TermDictionaryEntry.t TagGroup.t)) seen
    headwordsMap
    (definitionEntries : list (TermDictionaryEntry.t TagGroup.t * list nat)) :
  headwordsMapWellFormed headwordsMap →
  (∀ member, member ∈ seen → headwordKey member ∈ headwordKey <$> headwordsMap) →
  Forall (fun headword => unitesHeadwords (sameHeadwords headword seen) headword)
         headwordsMap →
  let headwordsMap' :=
    (fold_left
       (fun '(headwords, definitionEntries) dictionaryEntry =>
          let '(headwords, headwordIndexMap) :=
            _addTermHeadwords headwords
              (TermDictionaryEntry.headwords dictionaryEntry) in
          (headwords, definitionEntries ++ [(dictionaryEntry, headwordIndexMap)]))
       dictionaryEntries (headwordsMap, definitionEntries)).1 in
  Forall (fun headword =>
            unitesHeadwords
              (sameHeadwords headword
                 (seen ++ (dictionaryEntries
                             ≫= fun dictionaryEntry =>
                                  TermDictionaryEntry.headwords dictionaryEntry)))
              headword)
         headwordsMap'.
Proof.
  revert seen headwordsMap definitionEntries.
  induction dictionaryEntries as [|dictionaryEntry rest IH];
    intros seen headwordsMap definitionEntries Hmap Hseen Hunited.
  - simpl. by rewrite app_nil_r.
  - cbn [fold_left]. cbn zeta. rewrite _addTermHeadwords_fold.
    destruct (addTermHeadword_loop_unites
                (TermDictionaryEntry.headwords dictionaryEntry) seen
                headwordsMap [] Hmap Hseen Hunited)
      as (Hmap' & Hseen' & Hunited').
    destruct (fold_left addTermHeadword _ (headwordsMap, []))
      as [headwordsMap' headwordIndexMap].
    cbn [fst snd] in *. rewrite bind_cons, app_assoc.
    by apply IH.
Qed.

End UnitedHeadwords.

(** X21: a headword of the entry that [_createGroupedDictionaryEntry]
    builds holds what the headwords with its term and reading hold in the
    entries of the group, and nothing else: it has a source of some
    combination of texts, match type and match source exactly when one of
    them has, a primary one exactly when one of them has a primary one, it
    lists a tag name for a dictionary exactly when one of them does, and
    has the word classes they have.  So it has a primary source that
    matched the term exactly when one of them has. *)
Theorem createGroupedDictionaryEntry_headwords_unite_member_headwords
    (dictionaryEntries : list (TermDictionaryEntry.t TagGroup.t))
    (checkDuplicateDefinitions : bool) :
  let headwords :=
    TermDictionaryEntry.headwords
      (_createGroupedDictionaryEntry dictionaryEntries
         checkDuplicateDefinitions) in
  let members :=
    dictionaryEntries
      ≫= fun dictionaryEntry => TermDictionaryEntry.headwords dictionaryEntry in
  Forall (fun headword =>
            unitesHeadwords (sameHeadwords headword members) headword
            ∧ (PrimaryTermHeadword headword
               ↔ Exists PrimaryTermHeadword (sameHeadwords headword members)))
         headwords.
Proof.
  cbn zeta. unfold _createGroupedDictionaryEntry.
  pose proof (headword_loop_unites dictionaryEntries [] [] []
                headwordsMapWellFormed_nil) as Hunited.
  destruct (fold_left _ dictionaryEntries ([], []))
    as [headwords definitionEntries].
  cbn [fst snd TermDictionaryEntry.headwords] in *.
  rewrite app_nil_l in Hunited.
  eapply Forall_impl; [apply Hunited|].
  - by intros member ?%elem_of_nil.
  - constructor.
  - intros headword Hheadword. split; [done|].
    destruct Hheadword as (_ & Hprimary & _).
    unfold PrimaryTermHeadword. rewrite !Exists_exists. split.
    + intros (source & Hsource & Hflag & Hterm).
      destruct (proj1 (Hprimary (sourceIdentity source)))
        as (member & Hmember & found & Hfound & Hidentity & Hfoundflag).
      { by exists source. }
      exists member. split; [done|]. apply Exists_exists. exists found.
      split; [done|]. split; [done|].
      unfold sourceIdentity in Hidentity. injection Hidentity as _ _ _ _ ->.
      done.
    + intros (member & Hmember & (source & Hsource & Hflag & Hterm)%Exists_exists).
      destruct (proj2 (Hprimary (sourceIdentity source)))
        as (found & Hfound & Hidentity & Hfoundflag).
      { exists member. split; [done|]. by exists source. }
      exists found. split; [done|]. split; [done|].
      unfold sourceIdentity in Hidentity. injection Hidentity as _ _ _ _ ->.
      done.
Qed.

(** ** The term metadata of the headwords *)

Section MetaTargets.

Lemma mapGet_Some {V} (key : string) (map : list (string * V)) (value : V) :
  mapGet key map = Some value → (key, value) ∈ map.
Proof.
  unfold mapGet.
  destruct (list_find _ map) as [[i [k v]]|] eqn:Hfind; simpl; [|done].
  intros [= <-]. apply list_find_Some in Hfind as (Hi & Hk & _).
  simpl in Hk. rewrite <- Hk. by eapply list_elem_of_lookup_2.
Qed.

Lemma mapSet_elem_of {V} (key : string) (value : V) (map : list (string * V))
    (k : string) (v : V) :
  (k, v) ∈ mapSet key value map →
  (k = key ∧ v = value) ∨ (k, v) ∈ map.
Proof.
  induction map as [|[k' v'] rest IH]; simpl.
  - intros [= -> ->]%list_elem_of_singleton. by left.
  - case_decide as Hkey.
    + intros [[= -> ->]|?]%elem_of_cons; [by left|]. right. by right.
    + intros [[= -> ->]|Hin]%elem_of_cons; [right; by left|].
      destruct (IH Hin) as [?|?]; [by left|]. right. by right.
Qed.

Lemma mapSet_keys {V} (key : string) (value : V) (map : list (string * V)) :
  (mapSet key value map).*1 = _addUniqueSimple (map.*1) [key].
Proof.
  unfold _addUniqueSimple. cbn [fold_left].
  induction map as [|[k v] rest IH].
  - simpl. destruct (decide (key ∈ [])) as [Hin|_]; [|done].
    by apply elem_of_nil in Hin.
  - cbn [mapSet]. destruct (decide (k = key)) as [->|Hkey].
    + rewrite !fmap_cons. cbn [fst]. by rewrite decide_True by by left.
    + rewrite !fmap_cons, IH. cbn [fst].
      destruct (decide (key ∈ rest.*1)) as [Hin|Hout].
      * by rewrite decide_True by by right.
      * rewrite decide_False; [done|]. by intros [?|?]%elem_of_cons.
Qed.

(** The targets that [_addTermMeta] collects stand for the headwords of
    the entries, under their term and their reading. *)
Lemma collectMetaTargets_valid
    (dictionaryEntries : list (TermDictionaryEntry.t TagGroup.t)) :
  targetsValid dictionaryEntries (collectMetaTargets dictionaryEntries).
Proof.
  unfold collectMetaTargets.
  apply (fold_left_preserves_elem (targetsValid dictionaryEntries)).
  - intros headwordMap [position' dictionaryEntry']
      (position & dictionaryEntry & [= -> ->] & Hentry)%elem_of_lookup_imap_1
      Hmap.
    apply (fold_left_preserves_elem (targetsValid dictionaryEntries)); [|done].
    intros headwordMap' [index' headword']
      (index & headword & [= -> ->] & Hheadword)%elem_of_lookup_imap_1 Hmap'.
    intros term readingMap reading targets target Hterm Hreading Htarget.
    apply mapSet_elem_of in Hterm as [[-> ->]|Hterm]; [|by eapply Hmap'].
    apply mapSet_elem_of in Hreading as [[-> ->]|Hreading].
    + apply elem_of_app in Htarget as [Htarget| ->%list_elem_of_singleton].
      * destruct (mapGet (Headword.term headword) headwordMap')
          as [readingMap|] eqn:HreadingMap; simpl in Htarget;
          [|by apply elem_of_nil in Htarget].
        destruct (mapGet (Headword.reading headword) readingMap)
          as [targets|] eqn:Htargets; simpl in Htarget;
          [|by apply elem_of_nil in Htarget].
        eapply Hmap'; [by apply mapGet_Some|by apply mapGet_Some|done].
      * exists headword. unfold targetHeadword. simpl.
        rewrite Hentry. simpl. by rewrite Hheadword.
    + destruct (mapGet (Headword.term headword) headwordMap')
        as [readingMap|] eqn:HreadingMap; simpl in Hreading;
        [|by apply elem_of_nil in Hreading].
      eapply Hmap'; [by apply mapGet_Some|done..].
  - by intros term readingMap reading targets target ?%elem_of_nil.
Qed.

End MetaTargets.

Section MetaExtension.
Context (termList : list string) (metas : list TermMeta.t).

Lemma metaExtends_refl dictionaryEntry :
  metaExtends termList metas dictionaryEntry dictionaryEntry.
Proof.
  split; [by destruct dictionaryEntry|]. exists [], [].
  rewrite !app_nil_r. split; [done|]. split; [done|].
  split; [constructor|]. split; [constructor|]. split.
  - by intros i item ?.
  - by intros i item ?.
Qed.

Lemma metaExtends_pushFrequency dictionaryEntry dictionaryEntry'
    (item : nat → TermFrequency.t) :
  metaExtends termList metas dictionaryEntry dictionaryEntry' →
  (∀ index,
     frequencyFrom termList metas (TermDictionaryEntry.headwords dictionaryEntry)
       (item index)) →
  (∀ index, TermFrequency.index (item index) = index) →
  metaExtends termList metas dictionaryEntry
    (pushFrequency item dictionaryEntry').
Proof.
  intros [Hfields (newFrequencies & newPronunciations & Hfrequencies
                   & Hpronunciations & Hfrom & Hfrom' & Hindex & Hindex')]
    Hitem Hnumber.
  split.
  - destruct dictionaryEntry'. unfold TermDictionaryEntry_setData in Hfields.
    injection Hfields as -> -> -> -> -> -> -> -> -> ->. done.
  - exists (newFrequencies
            ++ [item (length (TermDictionaryEntry.frequencies dictionaryEntry'))]),
      newPronunciations.
    unfold pushFrequency. simpl.
    split; [by rewrite Hfrequencies, <- app_assoc|]. split; [done|].
    split; [apply Forall_app; split; [done|by apply Forall_singleton]|].
    split; [done|]. split; [|done].
    intros i found [Hi|[Hlength Hi]]%lookup_app_Some; [by apply Hindex|].
    apply list_lookup_singleton_Some in Hi as [Hzero <-].
    rewrite Hnumber, Hfrequencies, length_app. lia.
Qed.

Lemma metaExtends_pushPronunciation dictionaryEntry dictionaryEntry'
    (item : nat → TermPronunciation.t TagGroup.t) :
  metaExtends termList metas dictionaryEntry dictionaryEntry' →
  (∀ index,
     pronunciationFrom termList metas
       (TermDictionaryEntry.headwords dictionaryEntry) (item index)) →
  (∀ index, TermPronunciation.index (item index) = index) →
  metaExtends termList metas dictionaryEntry
    (pushPronunciation item dictionaryEntry').
Proof.
  intros [Hfields (newFrequencies & newPronunciations & Hfrequencies
                   & Hpronunciations & Hfrom & Hfrom' & Hindex & Hindex')]
    Hitem Hnumber.
  split.
  - destruct dictionaryEntry'. unfold TermDictionaryEntry_setData in Hfields.
    injection Hfields as -> -> -> -> -> -> -> -> -> ->. done.
  - exists newFrequencies,
      (newPronunciations
       ++ [item (length (TermDictionaryEntry.pronunciations dictionaryEntry'))]).
    unfold pushPronunciation. simpl.
    split; [done|]. split; [by rewrite Hpronunciations, <- app_assoc|].
    split; [done|].
    split; [apply Forall_app; split; [done|by apply Forall_singleton]|].
    split; [done|].
    intros i found [Hi|[Hlength Hi]]%lookup_app_Some; [by apply Hindex'|].
    apply list_lookup_singleton_Some in Hi as [Hzero <-].
    rewrite Hnumber, Hpronunciations, length_app. lia.
Qed.

(** One row and the targets of one reading. *)
Lemma addTermMetaToTargets_extends convertStringToNumber meta
    dictionaryIndex dictionaryPriority
    (dictionaryEntries current : list (TermDictionaryEntry.t TagGroup.t))
    term reading targets :
  meta ∈ metas →
  termList !! TermMeta.index meta = Some term →
  (∀ target, target ∈ targets →
             ∃ headword,
               targetHeadword dictionaryEntries target = Some headword
               ∧ Headword.term headword = term
               ∧ Headword.reading headword = reading) →
  Forall2 (metaExtends termList metas) dictionaryEntries current →
  Forall2 (metaExtends termList metas) dictionaryEntries
    (addTermMetaToTargets convertStringToNumber (TermMeta.data meta)
       (TermMeta.dictionary meta) dictionaryIndex dictionaryPriority current
       (reading, targets)).
Proof.
  intros Hmeta Hterm Htargets Hcurrent. unfold addTermMetaToTargets.
  assert (∀ hasReading frequency,
            match TermMeta.data meta with
            | MetaFrequency _ => hasReading = false
            | MetaReadingFrequency reading' _ =>
                reading' = reading ∧ hasReading = true
            | _ => False
            end →
            Forall2 (metaExtends termList metas) dictionaryEntries
              (fold_left
                 (fun '(dictionaryEntries, frequency) target =>
                    let '(frequency, displayValue, displayValueParsed) :=
                      _getFrequencyInfo convertStringToNumber frequency in
                    (alter (pushFrequency
                              (fun index =>
                                 TermFrequency.mk index
                                   (MetaTarget.headwordIndex target)
                                   (TermMeta.dictionary meta) dictionaryIndex
                                   dictionaryPriority hasReading frequency
                                   displayValue displayValueParsed))
                           (MetaTarget.entry target) dictionaryEntries,
                     FrequencyNumber frequency))
                 targets (current, frequency)).1) as Hfrequencies.
  { intros hasReading frequency Hdata.
    apply (fold_left_preserves_elem
             (fun acc : list (TermDictionaryEntry.t TagGroup.t) * FrequencyValue =>
                Forall2 (metaExtends termList metas) dictionaryEntries acc.1));
      [|done].
    intros [entries value] target Htarget Hacc. simpl in Hacc.
    destruct (_getFrequencyInfo _ _) as [[? ?] ?]. simpl.
    apply Forall2_alter_r; [done|].
    intros dictionaryEntry dictionaryEntry' Hentry _ Hextends.
    apply metaExtends_pushFrequency; [done| |done].
    intros index.
    destruct (Htargets target Htarget) as (headword & Hheadword & <- & <-).
    unfold targetHeadword in Hheadword. rewrite Hentry in Hheadword.
    simpl in Hheadword.
    exists meta, headword. simpl.
    split; [done|]. split; [done|]. split; [done|]. split; [done|].
    destruct (TermMeta.data meta); try done; by destruct Hdata as [-> ->]. }
  assert (∀ pitches phoneticTranscriptions,
            match TermMeta.data meta with
            | MetaPitch reading' _ =>
                reading' = reading ∧ phoneticTranscriptions = []
            | MetaIpa reading' _ => reading' = reading ∧ pitches = []
            | _ => False
            end →
            Forall2 (metaExtends termList metas) dictionaryEntries
              (fold_left
                 (fun dictionaryEntries target =>
                    alter (pushPronunciation
                             (fun index =>
                                TermPronunciation.mk index
                                  (MetaTarget.headwordIndex target)
                                  (TermMeta.dictionary meta) dictionaryIndex
                                  dictionaryPriority pitches
                                  phoneticTranscriptions))
                          (MetaTarget.entry target) dictionaryEntries)
                 targets current)) as Hpronunciations.
  { intros pitches phoneticTranscriptions Hdata.
    apply (fold_left_preserves_elem
             (Forall2 (metaExtends termList metas) dictionaryEntries));
      [|done].
    intros entries target Htarget Hacc.
    apply Forall2_alter_r; [done|].
    intros dictionaryEntry dictionaryEntry' Hentry _ Hextends.
    apply metaExtends_pushPronunciation; [done| |done].
    intros index.
    destruct (Htargets target Htarget) as (headword & Hheadword & <- & <-).
    unfold targetHeadword in Hheadword. rewrite Hentry in Hheadword.
    simpl in Hheadword.
    exists meta, headword. simpl.
    split; [done|]. split; [done|]. split; [done|]. split; [done|].
    destruct (TermMeta.data meta); try done; by destruct Hdata as [-> ->]. }
  destruct (TermMeta.data meta) as [frequency|dataReading frequency
                                    |dataReading pitches|dataReading ipa|]
    eqn:Hdata.
  - by apply Hfrequencies.
  - case_decide as Hreading; [done|]. by apply Hfrequencies.
  - case_decide as Hreading; [done|]. by apply Hpronunciations.
  - case_decide as Hreading; [done|]. by apply Hpronunciations.
  - done.
Qed.

End MetaExtension.

Section MetaTermList.

Lemma collectHeadwords_keys {T} (position : nat) (g : nat → nat)
    (headwords : list (Headword.t T))
    (headwordMap : list (string * list (string * list MetaTarget.t))) :
  (fold_left
     (fun headwordMap '(i, headword) =>
        let term := Headword.term headword in
        let reading := Headword.reading headword in
        let readingMap := default [] (mapGet term headwordMap) in
        let targets := default [] (mapGet reading readingMap) in
        mapSet term
          (mapSet reading (targets ++ [MetaTarget.mk position i]) readingMap)
          headwordMap)
     (imap (fun i headword => (g i, headword)) headwords)
     headwordMap).*1
  = _addUniqueSimple (headwordMap.*1)
      ((fun headword => Headword.term headword) <$> headwords).
Proof.
  revert g headwordMap.
  induction headwords as [|headword rest IH]; intros g headwordMap; [done|].
  rewrite imap_cons. cbn [fold_left]. cbn zeta.
  rewrite (IH (g ∘ S)), mapSet_keys, fmap_cons.
  change (Headword.term headword
          :: ((fun headword => Headword.term headword) <$> rest))
    with ([Headword.term headword]
          ++ ((fun headword => Headword.term headword) <$> rest)).
  by rewrite _addUniqueSimple_app.
Qed.

Lemma collectEntries_keys {T} (g : nat → nat)
    (dictionaryEntries : list (TermDictionaryEntry.t T))
    (headwordMap : list (string * list (string * list MetaTarget.t))) :
  (fold_left
     (fun headwordMap '(position, dictionaryEntry) =>
        fold_left
          (fun headwordMap '(i, headword) =>
             let term := Headword.term headword in
             let reading := Headword.reading headword in
             let readingMap := default [] (mapGet term headwordMap) in
             let targets := default [] (mapGet reading readingMap) in
             mapSet term
               (mapSet reading (targets ++ [MetaTarget.mk position i]) readingMap)
               headwordMap)
          (imap (fun i headword => (i, headword))
                (TermDictionaryEntry.headwords dictionaryEntry))
          headwordMap)
     (imap (fun position dictionaryEntry => (g position, dictionaryEntry))
           dictionaryEntries)
     headwordMap).*1
  = _addUniqueSimple (headwordMap.*1)
      ((fun headword => Headword.term headword)
         <$> (dictionaryEntries
                ≫= fun dictionaryEntry =>
                     TermDictionaryEntry.headwords dictionaryEntry)).
Proof.
  revert g headwordMap.
  induction dictionaryEntries as [|dictionaryEntry rest IH];
    intros g headwordMap; [done|].
  rewrite imap_cons. cbn [fold_left]. cbn zeta.
  rewrite (IH (g ∘ S)).
  rewrite (collectHeadwords_keys (g 0%nat) (fun i => i)).
  by rewrite bind_cons, fmap_app, _addUniqueSimple_app.
Qed.

Lemma collectMetaTargets_keys {T}
    (dictionaryEntries : list (TermDictionaryEntry.t T)) :
  (collectMetaTargets dictionaryEntries).*1
  = _addUniqueSimple []
      ((fun headword => Headword.term headword)
         <$> (dictionaryEntries
                ≫= fun dictionaryEntry =>
                     TermDictionaryEntry.headwords dictionaryEntry)).
Proof.
  unfold collectMetaTargets.
  apply (collectEntries_keys (fun position => position)).
Qed.

End MetaTermList.

(** X22: when [_addTermMeta] returns, it has asked the database once, for
    the terms of the headwords of the entries, each once.  Nothing of an
    entry has changed but its frequencies and pronunciations, which have
    got new elements behind the others, numbered by their position.  A
    new frequency or pronunciation is attached to a headword only for a
    row of the answer that the database gave for the term of this
    headword; when the row names a reading, as every pitch accent and
    transcription row does, only to a headword with this reading. *)
Theorem addTermMeta_attaches_rows_to_matching_headwords
    (collaborators : Collaborators.t) (database : Database.t)
    (dictionaryEntries dictionaryEntries' : list (TermDictionaryEntry.t TagGroup.t))
    (enabledDictionaryMap : EnabledDictionaryMap)
    (calls calls' : list DatabaseCall) :
  _addTermMeta collaborators database dictionaryEntries enabledDictionaryMap
    calls
  = (Some dictionaryEntries', calls') →
  let termList := (collectMetaTargets dictionaryEntries).*1 in
  let metas :=
    Database.findTermMetaBulk database termList enabledDictionaryMap in
  calls' = calls ++ [FindTermMetaBulk termList (dom enabledDictionaryMap)]
  ∧ NoDup termList
  ∧ (∀ term,
       term ∈ termList
       ↔ ∃ dictionaryEntry headword,
           dictionaryEntry ∈ dictionaryEntries
           ∧ headword ∈ TermDictionaryEntry.headwords dictionaryEntry
           ∧ Headword.term headword = term)
  ∧ Forall2 (metaExtends termList metas) dictionaryEntries dictionaryEntries'.
Proof.
  intros Hrun. cbn zeta.
  split; [by eapply _addTermMeta_run|].
  rewrite collectMetaTargets_keys.
  destruct (_addUniqueSimple_spec []
              ((fun headword => Headword.term headword)
                 <$> (dictionaryEntries
                        ≫= fun dictionaryEntry : TermDictionaryEntry.t TagGroup.t =>
                             TermDictionaryEntry.headwords dictionaryEntry)))
    as (Helem & Hnodup & _).
  split; [apply Hnodup; constructor|]. split.
  - intros term. rewrite Helem, elem_of_nil, list_elem_of_fmap. split.
    + intros [[]|(headword & -> & (dictionaryEntry & ? & ?)%list_elem_of_bind)].
      by exists dictionaryEntry, headword.
    + intros (dictionaryEntry & headword & ? & ? & <-). right.
      exists headword. split; [done|]. apply list_elem_of_bind.
      by exists dictionaryEntry.
  - rewrite <- collectMetaTargets_keys.
    unfold _addTermMeta in Hrun.
    apply DB_bind_inv in Hrun as (metas & calls0 & Hfind & Hloop).
    unfold findTermMetaBulk in Hfind. injection Hfind as <- <-.
    unfold liftOption in Hloop. injection Hloop as Hloop _.
    revert Hloop.
    apply (foldlM_preserves_elem
             (Forall2 (metaExtends _ _) dictionaryEntries)).
    + intros current meta current' Hmeta Hcurrent Hstep.
      destruct (_getDictionaryOrder _ _) as [dictionaryIndex dictionaryPriority].
      destruct ((collectMetaTargets dictionaryEntries).*2 !! TermMeta.index meta)
        as [map2|] eqn:Hmap2; [|done].
      simpl in Hstep. injection Hstep as <-.
      rewrite list_lookup_fmap in Hmap2.
      destruct (collectMetaTargets dictionaryEntries !! TermMeta.index meta)
        as [[term readingMap]|] eqn:Hentry; [|done].
      simpl in Hmap2. injection Hmap2 as ->.
      apply fold_left_preserves_elem; [|done].
      intros entries [reading targets] Hreading Hentries.
      eapply addTermMetaToTargets_extends; [done| | |done].
      * by rewrite list_lookup_fmap, Hentry.
      * intros target Htarget.
        eapply (collectMetaTargets_valid dictionaryEntries);
          [by eapply list_elem_of_lookup_2|done..].
    + apply Forall2_same_length_lookup_2; [done|].
      intros i e e' He He'. rewrite He in He'. injection He' as <-.
      apply metaExtends_refl.
Qed.

(** The statement applies to the entry for "ab" and the example
    dictionary: the entry gets one frequency and one pronunciation. *)
Lemma addTermMeta_attaches_rows_to_matching_headwords_witness :
  ∃ dictionaryEntries' calls',
    _addTermMeta exampleCollaborators exampleDatabase [exampleEntry]
      (FindTermsOptions.enabledDictionaryMap exampleOptions) []
    = (Some dictionaryEntries', calls')
    ∧ (fun dictionaryEntry =>
         (length (TermDictionaryEntry.frequencies dictionaryEntry),
          length (TermDictionaryEntry.pronunciations dictionaryEntry)))
        <$> dictionaryEntries'
      = [(1%nat, 1%nat)]
    ∧ length calls' = 1%nat.
Proof.
  destruct (_addTermMeta exampleCollaborators exampleDatabase [exampleEntry]
              (FindTermsOptions.enabledDictionaryMap exampleOptions) [])
    as [[dictionaryEntries'|] calls'] eqn:Hrun;
    [|vm_compute in Hrun; discriminate].
  exists dictionaryEntries', calls'. split; [reflexivity|].
  destruct (addTermMeta_attaches_rows_to_matching_headwords _ _ _ _ _ _ _ Hrun)
    as (Hcalls & _).
  split.
  - vm_compute in Hrun. injection Hrun as <- <-. reflexivity.
  - rewrite Hcalls. reflexivity.
Defined.

(** ** Expansion of tags *)

Section MapFacts.

Context {V : Type}.
Implicit Types (map : list (string * V)).

Lemma mapGet_cons (key k : string) (v : V) map :
  mapGet key ((k, v) :: map)
  = if decide (k = key) then Some v else mapGet key map.
Proof.
  unfold mapGet. cbn [list_find]. simpl.
  destruct (decide (k = key)); [done|].
  by destruct (list_find _ map) as [[i [k' v']]|].
Qed.

Lemma mapGet_mapSet (key' key : string) (value : V) map :
  mapGet key' (mapSet key value map)
  = if decide (key' = key) then Some value else mapGet key' map.
Proof.
  induction map as [|[k v] rest IH].
  - cbn [mapSet]. rewrite mapGet_cons.
    destruct (decide (key = key')), (decide (key' = key)); congruence.
  - cbn [mapSet]. destruct (decide (k = key)) as [->|Hkey].
    + rewrite !mapGet_cons.
      destruct (decide (key = key')), (decide (key' = key)); congruence.
    + rewrite !mapGet_cons, IH.
      destruct (decide (k = key')), (decide (key' = key)); congruence.
Qed.

Lemma mapGet_elem_of (key : string) (value : V) map :
  NoDup (map.*1) → (key, value) ∈ map → mapGet key map = Some value.
Proof.
  induction map as [|[k v] rest IH]; [by intros _ ?%elem_of_nil|].
  rewrite fmap_cons. cbn [fst]. intros [Hk Hrest]%NoDup_cons Hin.
  rewrite mapGet_cons. apply elem_of_cons in Hin as [[= -> ->]|Hin].
  - by rewrite decide_True.
  - rewrite decide_False; [by apply IH|].
    intros ->. apply Hk. apply list_elem_of_fmap. by exists (key, value).
Qed.

Lemma mapSet_NoDup (key : string) (value : V) map :
  NoDup (map.*1) → NoDup ((mapSet key value map).*1).
Proof.
  rewrite mapSet_keys. apply _addUniqueSimple_spec.
Qed.

End MapFacts.

Section ItemsFor.

Context {X : Type} (f : TagItem.t → X).

Lemma itemsFor_nil target : itemsFor f target [] = [].
Proof. done. Qed.

Lemma itemsFor_app target allItems1 allItems2 :
  itemsFor f target (allItems1 ++ allItems2)
  = itemsFor f target allItems1 ++ itemsFor f target allItems2.
Proof. unfold itemsFor. by rewrite bind_app. Qed.

Lemma itemsFor_cons target item allItems :
  itemsFor f target (item :: allItems)
  = ((fun _ => f item) <$> filter (fun t => t = target) (TagItem.targets item))
      ++ itemsFor f target allItems.
Proof. done. Qed.

End ItemsFor.

Lemma itemsFor_fmap {X Y} (f : TagItem.t → X) (g : X → Y) target allItems :
  itemsFor (g ∘ f) target allItems = g <$> itemsFor f target allItems.
Proof.
  induction allItems as [|item allItems IH]; [done|].
  rewrite !itemsFor_cons, fmap_app, IH. f_equal.
  rewrite <- list_fmap_compose. done.
Qed.

Lemma itemsFor_ext {X} (f g : TagItem.t → X) target allItems :
  (∀ item, item ∈ allItems → f item = g item) →
  itemsFor f target allItems = itemsFor g target allItems.
Proof.
  induction allItems as [|item allItems IH]; intros Hext; [done|].
  rewrite !itemsFor_cons, IH by (intros; apply Hext; by right).
  by rewrite (Hext item) by by left.
Qed.

Lemma itemsFor_same {X} (f : TagItem.t → X) target allItems1 allItems2 :
  Forall2 (fun item1 item2 =>
             f item1 = f item2
             ∧ TagItem.targets item1 = TagItem.targets item2)
          allItems1 allItems2 →
  itemsFor f target allItems1 = itemsFor f target allItems2.
Proof.
  induction 1 as [|item1 item2 rest1 rest2 [Hf Htargets] _ IH]; [done|].
  by rewrite !itemsFor_cons, IH, Hf, Htargets.
Qed.

Lemma itemsFor_elem_of {X} (f : TagItem.t → X) target allItems (x : X) :
  x ∈ itemsFor f target allItems
  ↔ ∃ item, item ∈ allItems ∧ target ∈ TagItem.targets item ∧ x = f item.
Proof.
  unfold itemsFor. rewrite list_elem_of_bind. split.
  - intros (item & Hx & Hitem). exists item. split; [done|].
    apply list_elem_of_fmap in Hx as (t & -> & Ht).
    apply list_elem_of_filter in Ht as [-> Ht]. done.
  - intros (item & Hitem & Htarget & ->). exists item. split; [|done].
    apply list_elem_of_fmap. exists target. split; [done|].
    by apply list_elem_of_filter.
Qed.

(** The last loop gives to a target the tags of the items that name it, in
    the order of the items. *)
Lemma pushExpandedTag_loop (item : TagItem.t) (targets : list nat)
    (tagLists : list (list Tag.t)) (target : nat) :
  fold_left (pushExpandedTag item) targets tagLists !! target
  = (fun tags =>
       tags ++ ((fun _ => TagItem_tag item)
                  <$> filter (fun t => t = target) targets))
      <$> tagLists !! target.
Proof.
  revert tagLists.
  induction targets as [|t targets IH]; intros tagLists.
  - simpl. destruct (tagLists !! target); simpl; [|done].
    by rewrite app_nil_r.
  - cbn [fold_left]. rewrite IH. unfold pushExpandedTag.
    rewrite filter_cons. destruct (decide (t = target)) as [->|Hne].
    + rewrite list_lookup_alter_eq.
      destruct (tagLists !! target); simpl; [|done].
      by rewrite <- app_assoc.
    + by rewrite list_lookup_alter_ne.
Qed.

Lemma pushExpandedTags_loop (allItems : list TagItem.t)
    (tagLists : list (list Tag.t)) (target : nat) :
  fold_left
    (fun tagLists item =>
       fold_left (pushExpandedTag item) (TagItem.targets item) tagLists)
    allItems tagLists !! target
  = (fun tags => tags ++ itemsFor TagItem_tag target allItems)
      <$> tagLists !! target.
Proof.
  revert tagLists.
  induction allItems as [|item allItems IH]; intros tagLists.
  - simpl. destruct (tagLists !! target); simpl; [|done].
    by rewrite app_nil_r.
  - cbn [fold_left]. rewrite IH, pushExpandedTag_loop, itemsFor_cons.
    destruct (tagLists !! target); simpl; [|done].
    by rewrite <- app_assoc.
Qed.

Lemma pushExpandedTags_lookup (count : nat) (allItems : list TagItem.t)
    (target : nat) :
  (target < count)%nat →
  pushExpandedTags count allItems !! target
  = Some (itemsFor TagItem_tag target allItems).
Proof.
  intros Htarget. unfold pushExpandedTags.
  rewrite pushExpandedTags_loop, lookup_replicate_2 by done. done.
Qed.

Lemma pushExpandedTags_length (count : nat) (allItems : list TagItem.t) :
  length (pushExpandedTags count allItems) = count.
Proof.
  unfold pushExpandedTags.
  apply (fold_left_preserves (fun tagLists => length tagLists = count)).
  - intros tagLists item Hlength.
    apply (fold_left_preserves (fun tagLists => length tagLists = count));
      [|done].
    intros tagLists' target Hlength'. unfold pushExpandedTag.
    by rewrite length_alter.
  - apply length_replicate.
Qed.

(** *** The first loop: the items and the map of their positions *)

Lemma itemsIndexed_ext (position1 position2 : string → string → option nat)
    (allItems : list TagItem.t) :
  (∀ dictionary tagName,
     position1 dictionary tagName = position2 dictionary tagName) →
  itemsIndexed position1 allItems → itemsIndexed position2 allItems.
Proof.
  intros Hext [Hitems Hpositions]. split.
  - intros p item Hp. rewrite <- Hext. by apply Hitems.
  - intros dictionary tagName p Hp. apply Hpositions. by rewrite Hext.
Qed.

Lemma TagItem_pushTarget_key target item :
  TagItem_key (TagItem_pushTarget target item) = TagItem_key item.
Proof. done. Qed.

Lemma addTagItem_spec (t : nat) (d : string) (allItems : list TagItem.t)
    (dItems : list (string * nat)) (position : string → string → option nat)
    (n : string) :
  itemsIndexed (positionWith d dItems position) allItems →
  NoDup (dItems.*1) →
  let result := addTagItem t d (allItems, dItems) n in
  itemsIndexed (positionWith d result.2 position) result.1
  ∧ NoDup (result.2.*1)
  ∧ ∀ target,
      itemsFor TagItem_key target result.1
      ≡ₚ itemsFor TagItem_key target allItems
           ++ (if decide (target = t) then [(d, n)] else []).
Proof.
  intros [Hitems Hpositions] Hnodup. unfold addTagItem.
  destruct (mapGet n dItems) as [p|] eqn:Hget; cbn [fst snd].
  - (* the item exists: one more target *)
    destruct (Hpositions d n p) as (item & Hp & Hd & Hn).
    { unfold positionWith. by rewrite decide_True. }
    split; [split|split; [done|]].
    + intros p' item' Hp'.
      destruct (decide (p' = p)) as [->|Hne].
      * rewrite list_lookup_alter_eq, Hp in Hp'. injection Hp' as <-.
        by apply (Hitems p item).
      * rewrite list_lookup_alter_ne in Hp' by done. by apply Hitems.
    + intros d' n' p' Hp'. destruct (Hpositions d' n' p' Hp')
        as (item' & Hitem' & Hd' & Hn').
      destruct (decide (p' = p)) as [->|Hne].
      * exists (TagItem_pushTarget t item). rewrite list_lookup_alter_eq, Hp.
        split; [done|]. rewrite Hp in Hitem'. by injection Hitem' as <-.
      * exists item'. by rewrite list_lookup_alter_ne.
    + intros target.
      rewrite <- (take_drop_middle allItems p item Hp) at 2.
      pose proof (lookup_lt_Some _ _ _ Hp) as Hlt.
      replace (alter (TagItem_pushTarget t) p allItems)
        with (take p allItems ++ TagItem_pushTarget t item
                :: drop (S p) allItems).
      2:{ rewrite <- (take_drop_middle allItems p item Hp) at 3.
          rewrite alter_app_r_alt by (rewrite length_take; lia).
          rewrite length_take, Nat.min_l, Nat.sub_diag by lia. done. }
      rewrite !itemsFor_app, !itemsFor_cons. unfold TagItem_pushTarget at 2.
      cbn [TagItem.targets]. rewrite filter_app, fmap_app.
      rewrite TagItem_pushTarget_key.
      replace ((fun _ => TagItem_key item) <$> filter (fun t0 => t0 = target) [t])
        with (if decide (target = t) then [(d, n)] else []).
      2:{ rewrite filter_cons, filter_nil. unfold TagItem_key.
          rewrite Hd, Hn.
          destruct (decide (t = target)), (decide (target = t));
            try congruence; done. }
      rewrite <- !app_assoc. apply Permutation_app_head.
      apply Permutation_app_head. apply Permutation_app_comm.
  - (* a new item *)
    split; [split|split].
    + intros p item Hp.
      destruct (decide (p < length allItems)%nat) as [Hlt|Hge].
      * rewrite lookup_app_l in Hp by done.
        destruct (Hitems p item Hp) as (Hposition & Hrest).
        split; [|done]. unfold positionWith in *.
        destruct (decide (TagItem.dictionary item = d)) as [Hd|Hd]; [|done].
        rewrite mapGet_mapSet.
        destruct (decide (TagItem.tagName item = n)) as [Hn|Hn]; [|done].
        congruence.
      * rewrite lookup_app_r in Hp by lia.
        apply list_lookup_singleton_Some in Hp as [Hp <-].
        cbn [TagItem.dictionary TagItem.tagName TagItem.query
             TagItem.databaseTag].
        split; [|done]. unfold positionWith.
        rewrite decide_True by done. rewrite mapGet_mapSet.
        rewrite decide_True by done. f_equal.
        apply not_lt in Hge. lia.
    + intros d' n' p Hp. unfold positionWith in Hp.
      destruct (decide (d' = d)) as [->|Hd].
      * rewrite mapGet_mapSet in Hp.
        destruct (decide (n' = n)) as [->|Hn].
        -- injection Hp as <-.
           exists (TagItem.mk (_getNameBase n) d n None [t]).
           split; [|done].
           rewrite lookup_app_r by lia. by rewrite Nat.sub_diag.
        -- destruct (Hpositions d n' p) as (item & Hitem & Hrest).
           { unfold positionWith. by rewrite decide_True. }
           exists item. split; [|done].
           by apply lookup_app_l_Some.
      * destruct (Hpositions d' n' p) as (item & Hitem & Hrest).
        { unfold positionWith. by rewrite decide_False. }
        exists item. split; [|done]. by apply lookup_app_l_Some.
    + by apply mapSet_NoDup.
    + intros target. rewrite itemsFor_app. apply Permutation_app_head.
      rewrite itemsFor_cons, itemsFor_nil, app_nil_r.
      cbn [TagItem.targets]. rewrite filter_cons, filter_nil.
      destruct (decide (t = target)), (decide (target = t)); try congruence;
        done.
Qed.

Lemma addTagItem_loop (t : nat) (d : string)
    (position : string → string → option nat) (names : list string)
    (allItems : list TagItem.t) (dItems : list (string * nat)) :
  itemsIndexed (positionWith d dItems position) allItems →
  NoDup (dItems.*1) →
  let result := fold_left (addTagItem t d) names (allItems, dItems) in
  itemsIndexed (positionWith d result.2 position) result.1
  ∧ NoDup (result.2.*1)
  ∧ ∀ target,
      itemsFor TagItem_key target result.1
      ≡ₚ itemsFor TagItem_key target allItems
           ++ (if decide (target = t)
               then (fun n => (d, n)) <$> names else []).
Proof.
  revert allItems dItems.
  induction names as [|n names IH]; intros allItems dItems Hindexed Hnodup.
  - simpl. split; [done|]. split; [done|]. intros target.
    destruct (decide (target = t)); by rewrite app_nil_r.
  - cbn [fold_left].
    destruct (addTagItem_spec t d allItems dItems position n Hindexed Hnodup)
      as (Hindexed' & Hnodup' & Hfor).
    destruct (addTagItem t d (allItems, dItems) n) as [allItems' dItems'].
    cbn [fst snd] in *.
    destruct (IH allItems' dItems' Hindexed' Hnodup')
      as (Hindexed'' & Hnodup'' & Hfor'').
    split; [done|]. split; [done|]. intros target.
    rewrite Hfor'', Hfor, <- app_assoc. apply Permutation_app_head.
    rewrite fmap_cons. by destruct (decide (target = t)).
Qed.

Lemma tagOccurrences_singleton tagGroup :
  tagOccurrences [tagGroup]
  = (fun tagName => (TagGroup.dictionary tagGroup, tagName))
      <$> TagGroup.tagNames tagGroup.
Proof. unfold tagOccurrences. simpl. apply app_nil_r. Qed.

Lemma addTagGroup_spec (t : nat) (allItems : list TagItem.t)
    (targetMap : list (string * list (string * nat))) (tagGroup : TagGroup.t) :
  itemsIndexed (positionOf targetMap) allItems →
  mapsNoDup targetMap →
  let result := addTagGroup t (allItems, targetMap) tagGroup in
  itemsIndexed (positionOf result.2) result.1
  ∧ mapsNoDup result.2
  ∧ ∀ target,
      itemsFor TagItem_key target result.1
      ≡ₚ itemsFor TagItem_key target allItems
           ++ (if decide (target = t)
               then tagOccurrences [tagGroup] else []).
Proof.
  intros Hindexed [Hkeys Hmaps]. unfold addTagGroup.
  set (d := TagGroup.dictionary tagGroup).
  set (dItems := default [] (mapGet d targetMap)).
  destruct (addTagItem_loop t d (positionOf targetMap)
              (TagGroup.tagNames tagGroup) allItems dItems)
    as (Hindexed' & Hnodup' & Hfor).
  { eapply itemsIndexed_ext; [|done]. intros d' n'.
    unfold positionWith, positionOf, dItems.
    destruct (decide (d' = d)) as [->|Hd]; [|done].
    destruct (mapGet d targetMap); simpl; [done|].
    by unfold mapGet. }
  { unfold dItems. destruct (mapGet d targetMap) as [items|] eqn:Hget; simpl.
    - apply (Hmaps d). by apply mapGet_Some.
    - constructor. }
  destruct (fold_left _ _ _) as [allItems' dItems'].
  cbn [fst snd] in *. split; [|split; [split|]].
  - eapply itemsIndexed_ext; [|done]. intros d' n'.
    unfold positionWith, positionOf. rewrite mapGet_mapSet.
    by destruct (decide (d' = d)).
  - by apply mapSet_NoDup.
  - intros d' items [[-> ->]|Hin]%mapSet_elem_of; [done|].
    by apply (Hmaps d').
  - intros target. rewrite Hfor. apply Permutation_app_head.
    by rewrite tagOccurrences_singleton.
Qed.

Lemma tagOccurrences_cons tagGroup tagGroups :
  tagOccurrences (tagGroup :: tagGroups)
  = tagOccurrences [tagGroup] ++ tagOccurrences tagGroups.
Proof. by rewrite tagOccurrences_singleton. Qed.

Lemma addTagGroup_loop (t : nat) (tagGroups : list TagGroup.t)
    (allItems : list TagItem.t)
    (targetMap : list (string * list (string * nat))) :
  itemsIndexed (positionOf targetMap) allItems →
  mapsNoDup targetMap →
  let result := fold_left (addTagGroup t) tagGroups (allItems, targetMap) in
  itemsIndexed (positionOf result.2) result.1
  ∧ mapsNoDup result.2
  ∧ ∀ target,
      itemsFor TagItem_key target result.1
      ≡ₚ itemsFor TagItem_key target allItems
           ++ (if decide (target = t) then tagOccurrences tagGroups else []).
Proof.
  revert allItems targetMap.
  induction tagGroups as [|tagGroup tagGroups IH];
    intros allItems targetMap Hindexed Hnodup.
  - simpl. split; [done|]. split; [done|]. intros target.
    destruct (decide (target = t)); by rewrite app_nil_r.
  - cbn [fold_left].
    destruct (addTagGroup_spec t allItems targetMap tagGroup Hindexed Hnodup)
      as (Hindexed' & Hnodup' & Hfor).
    destruct (addTagGroup t (allItems, targetMap) tagGroup)
      as [allItems' targetMap'].
    cbn [fst snd] in *.
    destruct (IH allItems' targetMap' Hindexed' Hnodup')
      as (Hindexed'' & Hnodup'' & Hfor'').
    split; [done|]. split; [done|]. intros target.
    rewrite Hfor'', Hfor, <- app_assoc. apply Permutation_app_head.
    rewrite (tagOccurrences_cons tagGroup tagGroups).
    by destruct (decide (target = t)).
Qed.

Lemma collectTagItems_spec (tagTargets : list (list TagGroup.t)) :
  let result := collectTagItems tagTargets in
  itemsIndexed (positionOf result.2) result.1
  ∧ mapsNoDup result.2
  ∧ ∀ target,
      itemsFor TagItem_key target result.1
      ≡ₚ default [] (tagOccurrences <$> tagTargets !! target).
Proof.
  unfold collectTagItems.
  induction tagTargets as [|tagGroups tagTargets IH] using rev_ind.
  - simpl. split; [split|split; [split|]].
    + by intros p item ?.
    + by intros d n p ?.
    + constructor.
    + by intros d items ?%elem_of_nil.
    + done.
  - rewrite imap_app, fold_left_app. cbn [imap fold_left].
    destruct IH as (Hindexed & Hnodup & Hfor).
    destruct (fold_left addTagTarget _ _) as [allItems targetMap].
    cbn [fst snd] in *. unfold addTagTarget at 1. cbn [fst snd].
    rewrite Nat.add_0_r.
    destruct (addTagGroup_loop (length tagTargets) tagGroups allItems
                targetMap Hindexed Hnodup) as (Hindexed' & Hnodup' & Hfor').
    split; [done|]. split; [done|]. intros target.
    rewrite Hfor', Hfor.
    destruct (decide (target = length tagTargets)) as [->|Hne].
    + rewrite lookup_ge_None_2 by done. rewrite list_lookup_middle by done.
      done.
    + rewrite app_nil_r.
      destruct (decide (target < length tagTargets)%nat).
      * by rewrite lookup_app_l.
      * rewrite !lookup_ge_None_2; [done|rewrite length_app; simpl; lia|lia].
Qed.

(** *** The second loop: the look into the cache *)

Lemma cacheGet_ensureCache (dictionary : string) (tagCache : TagCache)
    (d q : string) :
  cacheGet (ensureCache dictionary tagCache) d q = cacheGet tagCache d q.
Proof.
  unfold ensureCache, cacheGet.
  destruct (tagCache !! dictionary) eqn:Hcache; [done|].
  destruct (decide (d = dictionary)) as [->|Hne].
  - by rewrite lookup_insert_eq, Hcache.
  - by rewrite lookup_insert_ne.
Qed.

Lemma cacheGet_default (tagCache : TagCache) (d q : string) :
  default ∅ (tagCache !! d) !! q = cacheGet tagCache d q.
Proof. unfold cacheGet. by destruct (tagCache !! d). Qed.

Lemma cacheGet_insert (tagCache : TagCache) (d q : string)
    (value : option DatabaseTag.t) (d' q' : string) :
  cacheGet (<[d := <[q := value]> (default ∅ (tagCache !! d))]> tagCache) d' q'
  = if decide (d' = d ∧ q' = q) then Some value else cacheGet tagCache d' q'.
Proof.
  unfold cacheGet at 1.
  destruct (decide (d' = d)) as [->|Hd].
  - rewrite lookup_insert_eq. simpl.
    destruct (decide (q' = q)) as [->|Hq].
    + rewrite lookup_insert_eq. by rewrite decide_True.
    + rewrite lookup_insert_ne by done. rewrite cacheGet_default.
      rewrite decide_False; [done|]. by intros [_ ?].
  - rewrite lookup_insert_ne by done.
    rewrite decide_False; [done|]. by intros [? _].
Qed.

Lemma resolveCached_same tagCache item :
  sameTagItem item (resolveCached tagCache item).
Proof. unfold resolveCached. by destruct (cacheGet _ _ _). Qed.

Section CacheLookup.

Variable tagCache0 : TagCache.
Variable orig : list TagItem.t.

Lemma lookupCachedTag_spec (cache : gmap string (option DatabaseTag.t))
    (d : string) (tagCache : TagCache) (cur : list TagItem.t)
    (nonCached visited : list nat) (n : string) (p : nat) (item : TagItem.t) :
  (∀ q, cache !! q = cacheGet tagCache0 d q) →
  orig !! p = Some item → TagItem.dictionary item = d →
  lookedUp tagCache0 orig visited (tagCache, cur, nonCached) →
  lookedUp tagCache0 orig (visited ++ [p])
    (tagCache, (lookupCachedTag cache (cur, nonCached) (n, p)).1,
     (lookupCachedTag cache (cur, nonCached) (n, p)).2).
Proof.
  intros Hcache Hp Hd (Hget & Hlength & Hcur & Hvisited & Hnon).
  cbn [fst snd] in *. unfold lookupCachedTag. cbn [snd].
  assert (∃ c, cur !! p = Some c ∧ TagItem.query c = TagItem.query item
               ∧ (c = item ∨ c = resolveCached tagCache0 item))
    as (c & Hc & Hquery & Hcases).
  { destruct (Hcur p item Hp) as [Hc|Hc]; eexists; (split; [exact Hc|]).
    - split; [done|by left].
    - split; [|by right]. symmetry. apply resolveCached_same. }
  rewrite Hc, Hquery, Hcache, <- Hd.
  destruct (cacheGet tagCache0 (TagItem.dictionary item) (TagItem.query item))
    as [databaseTag|] eqn:Hcached; cbn [fst snd].
  - (* the cache holds a value *)
    assert (TagItem_setDatabaseTag databaseTag c
            = resolveCached tagCache0 item) as Hresolved.
    { unfold resolveCached. rewrite Hcached.
      destruct Hcases as [->| ->]; [done|].
      unfold resolveCached. by rewrite Hcached. }
    rewrite Hresolved. unfold lookedUp. cbn [fst snd].
    split; [done|]. split; [by rewrite length_insert|].
    split; [|split].
    + intros p' item' Hp'. destruct (decide (p' = p)) as [->|Hne].
      * right. rewrite list_lookup_insert_eq by (by eapply lookup_lt_Some).
        congruence.
      * rewrite list_lookup_insert_ne by done. by apply Hcur.
    + intros p' item' Hin Hp'. destruct (decide (p' = p)) as [->|Hne].
      * rewrite list_lookup_insert_eq by (by eapply lookup_lt_Some).
        congruence.
      * rewrite list_lookup_insert_ne by done. apply Hvisited; [|done].
        apply elem_of_app in Hin as [Hin|Hin%list_elem_of_singleton]; done.
    + intros p'. rewrite Hnon, elem_of_app, list_elem_of_singleton.
      split; [intros [? ?]; by split; [left|]|].
      intros [[Hin| ->] Huncached]; [done|].
      destruct Huncached as (item' & Hitem' & Hnone). congruence.
  - (* the cache holds nothing *)
    assert (resolveCached tagCache0 item = item) as Hresolved.
    { unfold resolveCached. by rewrite Hcached. }
    unfold lookedUp. cbn [fst snd].
    split; [done|]. split; [done|]. split; [done|]. split.
    + intros p' item' Hin Hp'.
      apply elem_of_app in Hin as [Hin|Hin%list_elem_of_singleton];
        [by apply Hvisited|].
      subst p'. rewrite Hp in Hp'. injection Hp' as <-.
      rewrite Hc. destruct Hcases as [->| ->]; congruence.
    + intros p'. rewrite !elem_of_app, !list_elem_of_singleton, Hnon.
      split.
      * intros [[? ?]| ->]; [by split; [left|]|]. split; [by right|].
        by exists item.
      * intros [[Hin| ->] Huncached]; [by left|by right].
Qed.

Lemma lookupCachedTag_loop (cache : gmap string (option DatabaseTag.t))
    (d : string) (tagCache : TagCache)
    (dictionaryItems : list (string * nat)) (cur : list TagItem.t)
    (nonCached visited : list nat) :
  (∀ q, cache !! q = cacheGet tagCache0 d q) →
  (∀ n p, (n, p) ∈ dictionaryItems →
          ∃ item, orig !! p = Some item ∧ TagItem.dictionary item = d) →
  lookedUp tagCache0 orig visited (tagCache, cur, nonCached) →
  lookedUp tagCache0 orig (visited ++ dictionaryItems.*2)
    (tagCache,
     (fold_left (lookupCachedTag cache) dictionaryItems (cur, nonCached)).1,
     (fold_left (lookupCachedTag cache) dictionaryItems (cur, nonCached)).2).
Proof.
  intros Hcache. revert cur nonCached visited.
  induction dictionaryItems as [|[n p] rest IH];
    intros cur nonCached visited Hitems Hlooked.
  - simpl. by rewrite app_nil_r.
  - cbn [fold_left]. rewrite fmap_cons. cbn [snd].
    destruct (Hitems n p) as (item & Hp & Hd); [by left|].
    pose proof (lookupCachedTag_spec cache d tagCache cur nonCached visited
                  n p item Hcache Hp Hd Hlooked) as Hstep.
    destruct (lookupCachedTag cache (cur, nonCached) (n, p))
      as [cur' nonCached'].
    cbn [fst snd] in Hstep.
    replace (visited ++ p :: rest.*2) with ((visited ++ [p]) ++ rest.*2)
      by by rewrite <- app_assoc.
    apply IH; [|done]. intros n' p' Hin. apply (Hitems n' p'). by right.
Qed.

Lemma lookupCachedTagsOf_loop
    (entries : list (string * list (string * nat)))
    (state : TagCache * list TagItem.t * list nat) (visited : list nat) :
  (∀ d dictionaryItems n p,
     (d, dictionaryItems) ∈ entries → (n, p) ∈ dictionaryItems →
     ∃ item, orig !! p = Some item ∧ TagItem.dictionary item = d) →
  lookedUp tagCache0 orig visited state →
  lookedUp tagCache0 orig (visited ++ (entries ≫= fun entry => entry.2.*2))
    (fold_left lookupCachedTagsOf entries state).
Proof.
  revert state visited.
  induction entries as [|[d dictionaryItems] entries IH];
    intros [[tagCache cur] nonCached] visited Hentries Hlooked.
  - simpl. by rewrite app_nil_r.
  - cbn [fold_left]. rewrite bind_cons. cbn [snd]. rewrite app_assoc.
    apply IH; [intros d' items' n p Hin; apply (Hentries d' items' n p);
               by right|].
    unfold lookupCachedTagsOf.
    pose proof (lookupCachedTag_loop
                  (default ∅ (ensureCache d tagCache !! d)) d
                  (ensureCache d tagCache) dictionaryItems cur nonCached
                  visited) as Hloop.
    destruct (fold_left _ dictionaryItems _) as [cur' nonCached'].
    cbn [fst snd] in Hloop. apply Hloop.
    + intros q. rewrite cacheGet_default, cacheGet_ensureCache.
      destruct Hlooked as (Hget & _). apply Hget.
    + intros n p Hin. apply (Hentries d dictionaryItems n p); [by left|done].
    + destruct Hlooked as (Hget & Hrest). split; [|done].
      intros d' q. cbn [fst snd]. rewrite cacheGet_ensureCache. apply Hget.
Qed.

Lemma lookupCachedTags_spec
    (targetMap : list (string * list (string * nat))) :
  itemsIndexed (positionOf targetMap) orig →
  mapsNoDup targetMap →
  let result := lookupCachedTags tagCache0 orig targetMap in
  (∀ d q, cacheGet result.1.1 d q = cacheGet tagCache0 d q)
  ∧ result.1.2 = resolveCached tagCache0 <$> orig
  ∧ (∀ p, p ∈ result.2 ↔ uncachedAt tagCache0 orig p).
Proof.
  intros [Hitems Hpositions] [Hkeys Hmaps]. unfold lookupCachedTags.
  pose proof (lookupCachedTagsOf_loop targetMap (tagCache0, orig, []) [])
    as Hloop.
  destruct Hloop as (Hget & Hlength & Hcur & Hvisited & Hnon).
  { intros d dictionaryItems n p Hentry Hin.
    destruct (Hpositions d n p) as (item & Hp & Hd & _).
    - unfold positionOf. rewrite (mapGet_elem_of d dictionaryItems) by done.
      simpl. apply mapGet_elem_of; [|done]. by apply (Hmaps d).
    - by exists item. }
  { split; [done|]. split; [done|]. split; [by left|].
    split; [by intros p item ?%elem_of_nil|].
    intros p. split; [by intros ?%elem_of_nil|]. by intros [?%elem_of_nil _]. }
  rewrite app_nil_l in *.
  assert (∀ p item, orig !! p = Some item →
            p ∈ targetMap ≫= (fun entry => entry.2.*2)) as Hall.
  { intros p item Hp. destruct (Hitems p item Hp) as (Hposition & _).
    unfold positionOf in Hposition.
    destruct (mapGet _ targetMap) as [dictionaryItems|] eqn:Hentry; [|done].
    simpl in Hposition. apply mapGet_Some in Hentry, Hposition.
    apply list_elem_of_bind. eexists. split; [|exact Hentry].
    cbn [snd]. apply list_elem_of_fmap. by exists (TagItem.tagName item, p). }
  split; [done|]. split.
  - apply list_eq. intros p. rewrite list_lookup_fmap.
    destruct (orig !! p) as [item|] eqn:Hp; simpl.
    + apply (Hvisited p item); [|done]. by eapply Hall.
    + apply lookup_ge_None. apply lookup_ge_None in Hp. lia.
  - intros p. rewrite Hnon. split; [by intros [_ ?]|].
    intros Huncached. split; [|done].
    destruct Huncached as (item & Hp & _). by eapply Hall.
Qed.

End CacheLookup.

(** *** The third loop: the answer of the database *)

Lemma tagQueries_snoc (allItems : list TagItem.t) (treated : list nat)
    (p : nat) (item : TagItem.t) :
  allItems !! p = Some item →
  tagQueries allItems (treated ++ [p])
  = tagQueries allItems treated
      ++ [(TagItem.query item, TagItem.dictionary item)].
Proof.
  intros Hp. unfold tagQueries. rewrite omap_app. f_equal.
  simpl. by rewrite Hp.
Qed.

Lemma tagQueries_length (allItems : list TagItem.t) (treated : list nat) :
  Forall (fun p => is_Some (allItems !! p)) treated →
  length (tagQueries allItems treated) = length treated.
Proof.
  induction 1 as [|p treated [item Hp] _ IH]; [done|].
  unfold tagQueries in *. cbn [omap list_omap]. rewrite Hp. simpl.
  f_equal. exact IH.
Qed.

Lemma tagQueries_elem_of (allItems : list TagItem.t) (treated : list nat)
    (q d : string) :
  (q, d) ∈ tagQueries allItems treated
  ↔ ∃ p item, p ∈ treated ∧ allItems !! p = Some item
              ∧ TagItem.query item = q ∧ TagItem.dictionary item = d.
Proof.
  unfold tagQueries. rewrite list_elem_of_omap. split.
  - intros (p & Hin & Hsome). destruct (allItems !! p) as [item|] eqn:Hp;
      [|done].
    simpl in Hsome. injection Hsome as <- <-. by exists p, item.
  - intros (p & item & Hin & Hp & <- & <-). exists p. split; [done|].
    by rewrite Hp.
Qed.

Section StoreAnswers.

Variable answers : list (option DatabaseTag.t).
Variable tagCache2 : TagCache.
Variable allItems2 : list TagItem.t.

Lemma storeDatabaseTag_spec (treated : list nat) (p : nat)
    (state : TagCache * list TagItem.t) :
  Forall (fun p => is_Some (allItems2 !! p)) treated →
  is_Some (allItems2 !! p) →
  stored answers tagCache2 allItems2 treated state →
  stored answers tagCache2 allItems2 (treated ++ [p])
    (storeDatabaseTag answers state (length treated, p)).
Proof.
  intros Hvalid [item2 Hp] (Hsame & Hother & Htreated & Hkeep & Hfrom & Hin).
  destruct state as [tagCache cur]. cbn [fst snd] in *.
  destruct (Forall2_lookup_l _ _ _ _ _ Hsame Hp) as (c & Hc & Hc2).
  destruct Hc2 as (Hquery & Hdictionary & Hname & Htargets).
  unfold storeDatabaseTag. rewrite Hc.
  pose proof (tagQueries_length allItems2 treated Hvalid) as Hlength.
  unfold stored. rewrite (tagQueries_snoc _ _ _ _ Hp). cbn [fst snd].
  set (queries := tagQueries allItems2 treated) in *.
  set (answer := default None (answers !! length treated)).
  split; [|split; [|split; [|split; [|split]]]].
  - rewrite <- (list_insert_id allItems2 p item2 Hp).
    apply Forall2_insert; [done|]. by split.
  - intros p' c' Hp' Hnot.
    apply not_elem_of_app in Hnot as [Hnot Hne].
    rewrite list_elem_of_singleton in Hne.
    rewrite list_lookup_insert_ne in Hp' by done.
    by apply Hother.
  - intros p' c' Hp' Hthere.
    destruct (decide (p' = p)) as [->|Hne].
    + rewrite list_lookup_insert_eq in Hp' by (by eapply lookup_lt_Some).
      injection Hp' as <-. exists (length treated). split; [|done].
      cbn [TagItem_setDatabaseTag TagItem.query TagItem.dictionary].
      rewrite <- Hquery, <- Hdictionary.
      rewrite lookup_app_r by lia. by rewrite Hlength, Nat.sub_diag.
    + rewrite list_lookup_insert_ne in Hp' by done.
      apply elem_of_app in Hthere as [Hthere|Hthere%list_elem_of_singleton];
        [|done].
      destruct (Htreated p' c' Hp' Hthere) as (i & Hi & Hanswer).
      exists i. split; [|done]. by apply lookup_app_l_Some.
  - intros d q Hnot. apply not_elem_of_app in Hnot as [Hnot Hne].
    rewrite cacheGet_insert, decide_False; [by apply Hkeep|].
    intros [-> ->]. apply Hne. rewrite Hquery, Hdictionary. by left.
  - intros d q v. rewrite cacheGet_insert.
    destruct (decide (d = TagItem.dictionary c ∧ q = TagItem.query c))
      as [[-> ->]|Hne].
    + intros [= <-]. right. exists (length treated). split; [|done].
      rewrite <- Hquery, <- Hdictionary.
      rewrite lookup_app_r by lia. by rewrite Hlength, Nat.sub_diag.
    + intros [Hold|(i & Hi & Hanswer)]%Hfrom; [by left|]. right.
      exists i. split; [|done]. by apply lookup_app_l_Some.
  - intros q d Hthere. rewrite cacheGet_insert.
    destruct (decide (d = TagItem.dictionary c ∧ q = TagItem.query c))
      as [_|Hne]; [done|].
    apply elem_of_app in Hthere as [Hthere|Hthere%list_elem_of_singleton].
    + by apply Hin.
    + injection Hthere as -> ->. destruct Hne. by rewrite Hquery, Hdictionary.
Qed.

Lemma storeDatabaseTags_spec (nonCachedItems : list nat) :
  Forall (fun p => is_Some (allItems2 !! p)) nonCachedItems →
  stored answers tagCache2 allItems2 nonCachedItems
    (storeDatabaseTags answers tagCache2 allItems2 nonCachedItems).
Proof.
  unfold storeDatabaseTags.
  induction nonCachedItems as [|p treated IH] using rev_ind; intros Hvalid.
  - simpl. unfold stored. cbn [fst snd]. unfold tagQueries. simpl.
    split; [|split; [|split; [|split; [|split]]]].
    + apply Forall_Forall2_diag, Forall_forall. by intros item _.
    + done.
    + by intros p c _ ?%elem_of_nil.
    + done.
    + intros d q v ?. by left.
    + by intros q d ?%elem_of_nil.
  - apply Forall_app in Hvalid as [Hvalid Hp].
    rewrite Forall_singleton in Hp.
    rewrite imap_app, fold_left_app. cbn [imap fold_left].
    rewrite Nat.add_0_r. by apply storeDatabaseTag_spec; [..|apply IH].
Qed.

End StoreAnswers.

(** *** The whole of [_expandTagGroups] *)

Lemma addTagItem_targets (target : nat) (dictionary : string)
    (state : list TagItem.t * list (string * nat)) (tagName : string) :
  Forall (fun item => TagItem.targets item ≠ []) state.1 →
  Forall (fun item => TagItem.targets item ≠ [])
         (addTagItem target dictionary state tagName).1.
Proof.
  destruct state as [items dItems]. cbn [fst]. intros Hforall.
  unfold addTagItem.
  destruct (mapGet tagName dItems) as [p|]; cbn [fst snd].
  - apply Forall_forall. intros item [i Hi]%list_elem_of_lookup.
    destruct (decide (i = p)) as [->|Hne].
    + rewrite list_lookup_alter_eq in Hi.
      destruct (items !! p) as [item'|]; [|done].
      injection Hi as <-. simpl. by intros [? ?]%app_eq_nil.
    + rewrite list_lookup_alter_ne in Hi by done.
      eapply Forall_forall in Hforall; [done|].
      by eapply list_elem_of_lookup_2.
  - apply Forall_app. split; [done|]. by constructor.
Qed.

Lemma addTagGroup_targets (target : nat)
    (state : list TagItem.t * list (string * list (string * nat)))
    (tagGroup : TagGroup.t) :
  Forall (fun item => TagItem.targets item ≠ []) state.1 →
  Forall (fun item => TagItem.targets item ≠ [])
         (addTagGroup target state tagGroup).1.
Proof.
  destruct state as [allItems targetMap]. cbn [fst]. intros Hitems.
  unfold addTagGroup.
  pose proof (fold_left_preserves
                (fun state => Forall (fun item => TagItem.targets item ≠ [])
                                     state.1)
                (addTagItem target (TagGroup.dictionary tagGroup))
                (TagGroup.tagNames tagGroup)
                (allItems,
                 default [] (mapGet (TagGroup.dictionary tagGroup) targetMap)))
    as Hloop.
  destruct (fold_left _ _ _) as [allItems' dictionaryItems'].
  cbn [fst snd] in *. apply Hloop; [|done].
  intros state tagName. apply addTagItem_targets.
Qed.

Lemma collectTagItems_targets (tagTargets : list (list TagGroup.t)) :
  Forall (fun item => TagItem.targets item ≠ [])
         (collectTagItems tagTargets).1.
Proof.
  unfold collectTagItems.
  apply (fold_left_preserves
           (fun state => Forall (fun item => TagItem.targets item ≠ [])
                                state.1)); [|by constructor].
  intros state [target tagGroups] Hstate. unfold addTagTarget. cbn [fst snd].
  apply (fold_left_preserves
           (fun state => Forall (fun item => TagItem.targets item ≠ [])
                                state.1)); [|done].
  intros state' tagGroup. apply addTagGroup_targets.
Qed.

Lemma _expandTagGroups_unfold
    (findTagMetaBulk : list (string * string) → list (option DatabaseTag.t))
    (tagCache : TagCache) (tagTargets : list (list TagGroup.t)) :
  let collected := collectTagItems tagTargets in
  let looked := lookupCachedTags tagCache collected.1 collected.2 in
  let queries := tagQueries looked.1.2 looked.2 in
  let final :=
    storeDatabaseTags (findTagMetaBulk queries) looked.1.1 looked.1.2
                      looked.2 in
  _expandTagGroups findTagMetaBulk tagCache tagTargets
  = TagExpansion.mk (pushExpandedTags (length tagTargets) final.2) final.1
      (if decide (looked.2 = []) then [] else [FindTagMetaBulk queries]).
Proof.
  unfold _expandTagGroups.
  destruct (collectTagItems tagTargets) as [allItems targetMap].
  cbn [fst snd].
  destruct (lookupCachedTags tagCache allItems targetMap)
    as [[tagCache2 allItems2] nonCachedItems].
  cbn [fst snd]. destruct nonCachedItems as [|p nonCachedItems].
  - done.
  - replace (0 <? len (p :: nonCachedItems)) with true.
    2:{ symmetry. apply Z.ltb_lt. unfold len. simpl. lia. }
    rewrite decide_False by done.
    by destruct (storeDatabaseTags _ _ _ _).
Qed.

Lemma _expandTagGroups_spec
    (findTagMetaBulk : list (string * string) → list (option DatabaseTag.t))
    (tagCache : TagCache) (tagTargets : list (list TagGroup.t)) :
  let result := _expandTagGroups findTagMetaBulk tagCache tagTargets in
  ∃ (allItems : list TagItem.t) (queries : list (string * string)),
    TagExpansion.tags result = pushExpandedTags (length tagTargets) allItems
    ∧ TagExpansion.calls result
      = (if decide (queries = []) then [] else [FindTagMetaBulk queries])
    ∧ (∀ target,
         itemsFor TagItem_key target allItems
         ≡ₚ default [] (tagOccurrences <$> tagTargets !! target))
    ∧ (∀ item1 item2, item1 ∈ allItems → item2 ∈ allItems →
         TagItem_key item1 = TagItem_key item2 → item1 = item2)
    ∧ (∀ item, item ∈ allItems →
         TagItem.query item = _getNameBase (TagItem.tagName item)
         ∧ TagItem.targets item ≠ []
         ∧ match cacheGet tagCache (TagItem.dictionary item)
                   (TagItem.query item) with
           | Some cached => TagItem.databaseTag item = cached
           | None =>
               ∃ i, queries !! i
                    = Some (TagItem.query item, TagItem.dictionary item)
                    ∧ TagItem.databaseTag item
                      = default None (findTagMetaBulk queries !! i)
           end)
    ∧ (∀ q d, (q, d) ∈ queries
              ↔ cacheGet tagCache d q = None
                ∧ ∃ item, item ∈ allItems ∧ TagItem.query item = q
                          ∧ TagItem.dictionary item = d)
    ∧ (∀ d q, (q, d) ∉ queries →
         cacheGet (TagExpansion.tagCache result) d q = cacheGet tagCache d q)
    ∧ (∀ d q v, cacheGet (TagExpansion.tagCache result) d q = Some v →
         cacheGet tagCache d q = Some v
         ∨ ∃ i, queries !! i = Some (q, d)
                ∧ v = default None (findTagMetaBulk queries !! i))
    ∧ (∀ q d, (q, d) ∈ queries →
         is_Some (cacheGet (TagExpansion.tagCache result) d q)).
Proof.
  intros result. subst result. rewrite _expandTagGroups_unfold.
  destruct (collectTagItems_spec tagTargets) as (Hindexed & Hnodup & Hfor).
  pose proof (collectTagItems_targets tagTargets) as Htargets.
  destruct (collectTagItems tagTargets) as [allItems1 targetMap].
  cbn [fst snd] in *.
  destruct (lookupCachedTags_spec tagCache allItems1 targetMap Hindexed Hnodup)
    as (Hget2 & Hitems2 & Hnon).
  destruct (lookupCachedTags tagCache allItems1 targetMap)
    as [[tagCache2 allItems2] nonCachedItems].
  cbn [fst snd] in *.
  assert (Forall (fun p => is_Some (allItems2 !! p)) nonCachedItems)
    as Hvalid.
  { apply Forall_forall. intros p (item & Hp & _)%Hnon.
    rewrite Hitems2, list_lookup_fmap, Hp. by eexists. }
  set (queries := tagQueries allItems2 nonCachedItems).
  pose proof (storeDatabaseTags_spec (findTagMetaBulk queries) tagCache2
                allItems2 nonCachedItems Hvalid)
    as (Hsame & Hother & Htreated & Hkeep & Hfrom & Hin).
  fold queries in Htreated, Hkeep, Hfrom, Hin.
  destruct (storeDatabaseTags _ _ _ _) as [tagCacheF allItemsF].
  cbn [fst snd TagExpansion.tags TagExpansion.calls TagExpansion.tagCache]
    in *.
  assert (Forall2 sameTagItem allItems1 allItemsF) as Hsame1.
  { assert (Forall2 sameTagItem allItems1 allItems2) as Hsame12.
    { rewrite Hitems2. apply Forall2_fmap_r, Forall_Forall2_diag, Forall_forall.
      intros item _. apply resolveCached_same. }
    clear -Hsame12 Hsame. revert allItemsF Hsame.
    induction Hsame12 as [|a b l1 l2 Hab _ IH]; intros allItemsF Hsame;
      inversion Hsame as [|b' c l2' l3 Hbc Hrest]; subst; constructor.
    - destruct Hab as (? & ? & ? & ?), Hbc as (? & ? & ? & ?).
      repeat split; congruence.
    - by apply IH. }
  destruct Hindexed as [Hitems Hpositions].
  exists allItemsF, queries.
  split; [done|]. split.
  { destruct nonCachedItems as [|p rest]; [done|].
    rewrite decide_False by done. rewrite decide_False; [done|].
    intros Hnil. apply (f_equal length) in Hnil.
    unfold queries in Hnil. by rewrite tagQueries_length in Hnil. }
  split.
  { intros target. rewrite <- Hfor.
    rewrite <- (itemsFor_same TagItem_key target allItems1 allItemsF);
      [done|].
    eapply Forall2_impl; [exact Hsame1|].
    intros item1 itemF (? & ? & ? & ?). unfold TagItem_key.
    split; congruence. }
  split.
  { intros itemA itemB [pA HA]%list_elem_of_lookup
      [pB HB]%list_elem_of_lookup Hkey.
    destruct (Forall2_lookup_r _ _ _ _ _ Hsame1 HA)
      as (itemA1 & HA1 & (_ & HdA & HnA & _)).
    destruct (Forall2_lookup_r _ _ _ _ _ Hsame1 HB)
      as (itemB1 & HB1 & (_ & HdB & HnB & _)).
    destruct (Hitems pA itemA1 HA1) as (HposA & _).
    destruct (Hitems pB itemB1 HB1) as (HposB & _).
    unfold TagItem_key in Hkey. injection Hkey as Hd Hn.
    assert (pA = pB) as -> by congruence. congruence. }
  split.
  { intros item [p Hp]%list_elem_of_lookup.
    destruct (Forall2_lookup_r _ _ _ _ _ Hsame1 Hp)
      as (item1 & Hp1 & (Hq1 & Hd1 & Hn1 & Ht1)).
    destruct (Hitems p item1 Hp1) as (_ & Hquery1 & _).
    split; [congruence|]. split.
    { rewrite <- Ht1. eapply Forall_forall in Htargets; [done|].
      by eapply list_elem_of_lookup_2. }
    destruct (decide (p ∈ nonCachedItems)) as [Hthere|Hnot].
    - pose proof Hthere as (item1' & Hp1' & Hnone)%Hnon.
      assert (item1' = item1) as -> by congruence.
      rewrite <- Hq1, <- Hd1, Hnone, Hq1, Hd1. by apply (Htreated p).
    - pose proof (Hother p item Hp Hnot) as Hp2.
      rewrite Hitems2, list_lookup_fmap, Hp1 in Hp2. injection Hp2 as <-.
      unfold resolveCached.
      destruct (cacheGet tagCache (TagItem.dictionary item1)
                  (TagItem.query item1)) as [cached|] eqn:Hcached.
      + cbn [TagItem_setDatabaseTag TagItem.dictionary TagItem.query
             TagItem.databaseTag]. by rewrite Hcached.
      + destruct Hnot. apply Hnon. by exists item1. }
  split.
  { intros q d. unfold queries. rewrite tagQueries_elem_of. split.
    - intros (p & item2 & Hthere & Hp2 & <- & <-).
      apply Hnon in Hthere as (item1 & Hp1 & Hnone).
      rewrite Hitems2, list_lookup_fmap, Hp1 in Hp2. injection Hp2 as <-.
      destruct (resolveCached_same tagCache item1) as (Hq & Hd & _).
      rewrite <- Hq, <- Hd. split; [done|].
      destruct (Forall2_lookup_l _ _ _ _ _ Hsame1 Hp1)
        as (itemF & HpF & (HqF & HdF & _)).
      exists itemF. split; [by eapply list_elem_of_lookup_2|]. by split.
    - intros (Hnone & itemF & [p HpF]%list_elem_of_lookup & <- & <-).
      destruct (Forall2_lookup_r _ _ _ _ _ Hsame1 HpF)
        as (item1 & Hp1 & (Hq1 & Hd1 & _)).
      exists p, (resolveCached tagCache item1).
      destruct (resolveCached_same tagCache item1) as (Hq & Hd & _).
      split; [|split; [|split; congruence]].
      + apply Hnon. exists item1. split; [done|]. congruence.
      + by rewrite Hitems2, list_lookup_fmap, Hp1. }
  split.
  { intros d q Hnot. by rewrite Hkeep, Hget2. }
  split.
  { intros d q v Hv. apply Hfrom in Hv. by rewrite Hget2 in Hv. }
  done.
Qed.

Lemma tagUsed_items (tagTargets : list (list TagGroup.t))
    (allItems : list TagItem.t) (d n : string) :
  (∀ target,
     itemsFor TagItem_key target allItems
     ≡ₚ default [] (tagOccurrences <$> tagTargets !! target)) →
  Forall (fun item => TagItem.targets item ≠ []) allItems →
  tagUsed tagTargets d n
  ↔ ∃ item, item ∈ allItems ∧ TagItem_key item = (d, n).
Proof.
  intros Hfor Htargets. split.
  - intros (tagGroups & [target Htarget]%list_elem_of_lookup & Hin).
    specialize (Hfor target). rewrite Htarget in Hfor. simpl in Hfor.
    rewrite <- Hfor in Hin.
    apply itemsFor_elem_of in Hin as (item & Hitem & _ & Hkey).
    by exists item.
  - intros (item & Hitem & Hkey).
    pose proof Hitem as Hsome. eapply Forall_forall in Hsome; [|done].
    simpl in Hsome.
    destruct (TagItem.targets item) as [|target rest] eqn:Heq; [done|].
    assert ((d, n) ∈ itemsFor TagItem_key target allItems) as Hin.
    { apply itemsFor_elem_of. exists item. rewrite Heq.
      split; [done|]. split; [by left|done]. }
    rewrite Hfor in Hin.
    destruct (tagTargets !! target) as [tagGroups|] eqn:Htarget;
      [|by apply elem_of_nil in Hin].
    exists tagGroups. split; [|done]. by eapply list_elem_of_lookup_2.
Qed.

Lemma databaseTagFor_item (allItems : list TagItem.t) (item : TagItem.t) :
  (∀ item1 item2, item1 ∈ allItems → item2 ∈ allItems →
     TagItem_key item1 = TagItem_key item2 → item1 = item2) →
  item ∈ allItems →
  databaseTagFor allItems (TagItem.dictionary item) (TagItem.tagName item)
  = TagItem.databaseTag item.
Proof.
  intros Hdistinct Hitem. unfold databaseTagFor.
  destruct (list_find _ allItems) as [[i found]|] eqn:Hfind.
  - apply list_find_Some in Hfind as (Hi & Hkey & _). simpl.
    f_equal. apply Hdistinct; [by eapply list_elem_of_lookup_2|done|done].
  - apply list_find_None in Hfind. eapply Forall_forall in Hfind; [|done].
    by destruct Hfind.
Qed.

Lemma pushExpandedTags_spec (tagTargets : list (list TagGroup.t))
    (allItems : list TagItem.t)
    (databaseTagOf : string → string → option DatabaseTag.t) :
  (∀ target,
     itemsFor TagItem_key target allItems
     ≡ₚ default [] (tagOccurrences <$> tagTargets !! target)) →
  (∀ item, item ∈ allItems →
     databaseTagOf (TagItem.dictionary item) (TagItem.tagName item)
     = TagItem.databaseTag item) →
  Forall2 (fun tagGroups tags =>
             tags ≡ₚ tagFor databaseTagOf <$> tagOccurrences tagGroups)
          tagTargets (pushExpandedTags (length tagTargets) allItems).
Proof.
  intros Hfor Hof. apply Forall2_same_length_lookup_2.
  { by rewrite pushExpandedTags_length. }
  intros target tagGroups tags Htarget Htags.
  rewrite pushExpandedTags_lookup in Htags by (by eapply lookup_lt_Some).
  injection Htags as <-.
  specialize (Hfor target). rewrite Htarget in Hfor. simpl in Hfor.
  rewrite <- Hfor, <- itemsFor_fmap.
  erewrite itemsFor_ext; [done|].
  intros item Hitem. unfold TagItem_tag, tagFor, TagItem_key, compose.
  cbn [fst snd]. by rewrite Hof.
Qed.

(** X23: [_expandTagGroups] gives to every target one tag for every tag
    name that its tag groups list, made by [_createTag] with the tag name
    and the dictionary of the group; besides the order, the array [tags] of
    a target is the list of these tags.  All tags for one dictionary and
    one tag name are made from the same database tag: the value that the
    cache held for the base name of the tag name when it held one, and
    otherwise an element of the answer of [findTagMetaBulk] at a position
    where the query had that base name and that dictionary ([null] when the
    answer is too short). *)
Theorem expandTagGroups_gives_each_target_its_tags
    (findTagMetaBulk : list (string * string) → list (option DatabaseTag.t))
    (tagCache : TagCache) (tagTargets : list (list TagGroup.t)) :
  let result := _expandTagGroups findTagMetaBulk tagCache tagTargets in
  ∃ databaseTagOf : string → string → option DatabaseTag.t,
    Forall2 (fun tagGroups tags =>
               tags ≡ₚ tagFor databaseTagOf <$> tagOccurrences tagGroups)
            tagTargets (TagExpansion.tags result)
    ∧ ∀ dictionary tagName,
        tagUsed tagTargets dictionary tagName →
        match cacheGet tagCache dictionary (_getNameBase tagName) with
        | Some cached => databaseTagOf dictionary tagName = cached
        | None =>
            ∃ queries i,
              TagExpansion.calls result = [FindTagMetaBulk queries]
              ∧ queries !! i = Some (_getNameBase tagName, dictionary)
              ∧ databaseTagOf dictionary tagName
                = default None (findTagMetaBulk queries !! i)
        end.
Proof.
  intros result.
  destruct (_expandTagGroups_spec findTagMetaBulk tagCache tagTargets)
    as (allItems & queries & Htags & Hcalls & Hfor & Hdistinct & Hitems
        & _).
  fold result in Htags, Hcalls.
  exists (databaseTagFor allItems). split.
  - rewrite Htags. apply pushExpandedTags_spec; [done|].
    intros item Hitem. by apply databaseTagFor_item.
  - intros d n Hused.
    apply (tagUsed_items tagTargets allItems) in Hused
      as (item & Hitem & Hkey); [|done|].
    2:{ apply Forall_forall. intros item' Hitem'. by apply Hitems. }
    injection Hkey as <- <-.
    rewrite (databaseTagFor_item allItems item Hdistinct Hitem).
    destruct (Hitems item Hitem) as (Hquery & _ & Hvalue).
    rewrite Hquery in Hvalue.
    destruct (cacheGet tagCache _ _); [done|].
    destruct Hvalue as (i & Hi & Hanswer). exists queries, i.
    split; [|done]. rewrite Hcalls. rewrite decide_False; [done|].
    intros ->. by rewrite lookup_nil in Hi.
Qed.


(** X24: [_expandTagGroups] asks the database at most once.  It asks
    nothing when the cache holds a value for the base name of every tag
    name that a target lists; otherwise it asks exactly for the base names
    that some target lists and for which the cache of the dictionary holds
    nothing.  The values that the cache held stay; after the call the cache
    holds a value for the base name of every tag name that a target lists,
    each new value is an element of the answer at a position of its query
    ([null] when the answer is too short), and nothing else is added. *)
Theorem expandTagGroups_asks_only_for_uncached_tags
    (findTagMetaBulk : list (string * string) → list (option DatabaseTag.t))
    (tagCache : TagCache) (tagTargets : list (list TagGroup.t)) :
  let result := _expandTagGroups findTagMetaBulk tagCache tagTargets in
  let asked dictionary query :=
    cacheGet tagCache dictionary query = None
    ∧ ∃ tagName, tagUsed tagTargets dictionary tagName
                 ∧ query = _getNameBase tagName in
  match TagExpansion.calls result with
  | [] => ∀ dictionary query, ¬ asked dictionary query
  | [FindTagMetaBulk queries] =>
      queries ≠ []
      ∧ (∀ query dictionary,
           (query, dictionary) ∈ queries ↔ asked dictionary query)
      ∧ (∀ dictionary query value,
           cacheGet (TagExpansion.tagCache result) dictionary query
           = Some value →
           cacheGet tagCache dictionary query = Some value
           ∨ ∃ i, queries !! i = Some (query, dictionary)
                  ∧ value = default None (findTagMetaBulk queries !! i))
  | _ => False
  end
  ∧ (∀ dictionary query value,
       cacheGet tagCache dictionary query = Some value →
       cacheGet (TagExpansion.tagCache result) dictionary query = Some value)
  ∧ (∀ dictionary tagName,
       tagUsed tagTargets dictionary tagName →
       is_Some (cacheGet (TagExpansion.tagCache result) dictionary
                         (_getNameBase tagName)))
  ∧ (∀ dictionary query,
       ¬ asked dictionary query →
       cacheGet (TagExpansion.tagCache result) dictionary query
       = cacheGet tagCache dictionary query).
Proof.
  intros result asked.
  destruct (_expandTagGroups_spec findTagMetaBulk tagCache tagTargets)
    as (allItems & queries & Htags & Hcalls & Hfor & Hdistinct & Hitems
        & Hqueries & Hkeep & Hfrom & Hin).
  fold result in Htags, Hcalls, Hkeep, Hfrom, Hin.
  assert (Forall (fun item => TagItem.targets item ≠ []) allItems)
    as Htargets.
  { apply Forall_forall. intros item Hitem. by apply Hitems. }
  assert (∀ query dictionary,
            (query, dictionary) ∈ queries ↔ asked dictionary query)
    as Hasked.
  { intros q d. rewrite Hqueries. unfold asked.
    split; (intros [Hnone Hsome]; split; [done|]).
    - destruct Hsome as (item & Hitem & <- & <-).
      exists (TagItem.tagName item). split; [|by apply Hitems].
      apply (tagUsed_items tagTargets allItems); [done..|].
      by exists item.
    - destruct Hsome as (n & Hused & ->).
      apply (tagUsed_items tagTargets allItems) in Hused
        as (item & Hitem & Hkey); [|done..].
      injection Hkey as <- <-. exists item. split; [done|].
      split; [by apply Hitems|done]. }
  split; [|split; [|split]].
  - rewrite Hcalls. destruct (decide (queries = [])) as [->|Hsome].
    + intros d q Hthere%Hasked. by apply elem_of_nil in Hthere.
    + done.
  - intros d q v Hcached. rewrite Hkeep; [done|].
    intros [Hnone _]%Hasked. congruence.
  - intros d n Hused.
    destruct (cacheGet tagCache d (_getNameBase n)) as [v|] eqn:Hcached.
    + rewrite Hkeep; [by rewrite Hcached|].
      intros [Hnone _]%Hasked. congruence.
    + apply Hin, Hasked. split; [done|]. by exists n.
  - intros d q Hnot. apply Hkeep. by intros ?%Hasked.
Qed.


(** X25: when the cache holds a value for the base name of every tag name
    that a target lists, [_expandTagGroups] does not ask the database and
    leaves the cache as it is, and every tag is made from the value of the
    cache: besides the order, the array [tags] of a target is the list of
    the tags that [_createTag] makes from the cached value, the tag name
    and the dictionary, for the tag names that the target lists. *)
Theorem expandTagGroups_uses_the_cache
    (findTagMetaBulk : list (string * string) → list (option DatabaseTag.t))
    (tagCache : TagCache) (tagTargets : list (list TagGroup.t)) :
  (∀ dictionary tagName,
     tagUsed tagTargets dictionary tagName →
     is_Some (cacheGet tagCache dictionary (_getNameBase tagName))) →
  let result := _expandTagGroups findTagMetaBulk tagCache tagTargets in
  TagExpansion.calls result = []
  ∧ (∀ dictionary query,
       cacheGet (TagExpansion.tagCache result) dictionary query
       = cacheGet tagCache dictionary query)
  ∧ Forall2 (fun tagGroups tags =>
               tags ≡ₚ tagFor (cachedTagOf tagCache)
                         <$> tagOccurrences tagGroups)
            tagTargets (TagExpansion.tags result).
Proof.
  intros Hcached result.
  destruct (_expandTagGroups_spec findTagMetaBulk tagCache tagTargets)
    as (allItems & queries & Htags & Hcalls & Hfor & Hdistinct & Hitems
        & Hqueries & Hkeep & _).
  fold result in Htags, Hcalls, Hkeep.
  assert (queries = []) as ->.
  { destruct queries as [|[q d] queries]; [done|].
    destruct (proj1 (Hqueries q d)) as (Hnone & item & Hitem & <- & <-);
      [by left|].
    destruct (Hitems item Hitem) as (Hquery & _).
    destruct (Hcached (TagItem.dictionary item) (TagItem.tagName item))
      as [value Hvalue].
    - apply (tagUsed_items tagTargets allItems); [done| |by exists item].
      apply Forall_forall. intros item' Hitem'. by apply Hitems.
    - congruence. }
  split; [done|]. split.
  - intros d q. apply Hkeep. by intros ?%elem_of_nil.
  - rewrite Htags. apply pushExpandedTags_spec; [done|].
    intros item Hitem. destruct (Hitems item Hitem) as (Hquery & _ & Hvalue).
    unfold cachedTagOf. rewrite <- Hquery.
    destruct (cacheGet tagCache _ _) as [cached|]; [done|].
    destruct Hvalue as (i & Hi & _). by rewrite lookup_nil in Hi.
Qed.

(** The statement applies to a cache that holds a tag for [pos] and a
    target that lists [pos:1] and [pos:2]: no call is made, and both tags
    come from the cached one. *)
Lemma expandTagGroups_uses_the_cache_witness :
  (∀ dictionary tagName,
     tagUsed exampleTagTargets dictionary tagName →
     is_Some (cacheGet exampleTagCache dictionary (_getNameBase tagName)))
  ∧ TagExpansion.calls
      (_expandTagGroups (fun _ => []) exampleTagCache exampleTagTargets) = []
  ∧ TagExpansion.tags
      (_expandTagGroups (fun _ => []) exampleTagCache exampleTagTargets)
    = [[Tag.mk "pos:1" "partOfSpeech" 3 0 ["noun"] ["names"] false;
        Tag.mk "pos:2" "partOfSpeech" 3 0 ["noun"] ["names"] false]].
Proof.
  assert (∀ dictionary tagName,
            tagUsed exampleTagTargets dictionary tagName →
            is_Some (cacheGet exampleTagCache dictionary
                              (_getNameBase tagName))) as Hcached.
  { intros d n (tagGroups & Hin & Hocc).
    apply list_elem_of_singleton in Hin as ->.
    change ((d, n) ∈ [("names", "pos:1"); ("names", "pos:2")]) in Hocc.
    rewrite !elem_of_cons in Hocc.
    destruct Hocc as [[= -> ->]|[[= -> ->]|Hnil]];
      [| |by apply elem_of_nil in Hnil];
      vm_compute; eexists; reflexivity. }
  split; [exact Hcached|]. split.
  - exact (proj1 (expandTagGroups_uses_the_cache (fun _ => [])
                    exampleTagCache exampleTagTargets Hcached)).
  - vm_compute. reflexivity.
Defined.


(** What [_expandTagGroups] does when the cache holds a value for every
    base name. *)
Lemma _expandTagGroups_cached
    (findTagMetaBulk : list (string * string) → list (option DatabaseTag.t))
    (tagCache : TagCache) (tagTargets : list (list TagGroup.t)) :
  (∀ dictionary tagName,
     tagUsed tagTargets dictionary tagName →
     is_Some (cacheGet tagCache dictionary (_getNameBase tagName))) →
  let result := _expandTagGroups findTagMetaBulk tagCache tagTargets in
  TagExpansion.calls result = []
  ∧ (∀ dictionary query,
       cacheGet (TagExpansion.tagCache result) dictionary query
       = cacheGet tagCache dictionary query)
  ∧ Forall2 (fun tagGroups tags =>
               tags ≡ₚ tagFor (cachedTagOf tagCache)
                         <$> tagOccurrences tagGroups)
            tagTargets (TagExpansion.tags result).
Proof.
  intros Hcached result.
  destruct (_expandTagGroups_spec findTagMetaBulk tagCache tagTargets)
    as (allItems & queries & Htags & Hcalls & Hfor & Hdistinct & Hitems
        & Hqueries & Hkeep & _).
  fold result in Htags, Hcalls, Hkeep.
  assert (queries = []) as ->.
  { destruct queries as [|[q d] queries]; [done|].
    destruct (proj1 (Hqueries q d)) as (Hnone & item & Hitem & <- & <-);
      [by left|].
    destruct (Hitems item Hitem) as (Hquery & _).
    destruct (Hcached (TagItem.dictionary item) (TagItem.tagName item))
      as [value Hvalue].
    - apply (tagUsed_items tagTargets allItems); [done| |by exists item].
      apply Forall_forall. intros item' Hitem'. by apply Hitems.
    - congruence. }
  split; [done|]. split.
  - intros d q. apply Hkeep. by intros ?%elem_of_nil.
  - rewrite Htags. apply pushExpandedTags_spec; [done|].
    intros item Hitem. destruct (Hitems item Hitem) as (Hquery & _ & Hvalue).
    unfold cachedTagOf. rewrite <- Hquery.
    destruct (cacheGet tagCache _ _) as [cached|]; [done|].
    destruct Hvalue as (i & Hi & _). by rewrite lookup_nil in Hi.
Qed.


(** X26: a second call of [_expandTagGroups] on the same targets, with
    the cache that the first call has left, does not ask the database,
    whatever the first answer was; it leaves the cache as it is and makes
    every tag from the value of the cache. *)
Theorem expandTagGroups_again_asks_nothing
    (findTagMetaBulk1 findTagMetaBulk2
       : list (string * string) → list (option DatabaseTag.t))
    (tagCache : TagCache) (tagTargets : list (list TagGroup.t)) :
  let first := _expandTagGroups findTagMetaBulk1 tagCache tagTargets in
  let second :=
    _expandTagGroups findTagMetaBulk2 (TagExpansion.tagCache first)
                     tagTargets in
  TagExpansion.calls second = []
  ∧ (∀ dictionary query,
       cacheGet (TagExpansion.tagCache second) dictionary query
       = cacheGet (TagExpansion.tagCache first) dictionary query)
  ∧ Forall2 (fun tagGroups tags =>
               tags ≡ₚ tagFor (cachedTagOf (TagExpansion.tagCache first))
                         <$> tagOccurrences tagGroups)
            tagTargets (TagExpansion.tags second).
Proof.
  intros first second. apply _expandTagGroups_cached.
  intros d n. subst first.
  pose proof (_expandTagGroups_spec findTagMetaBulk1 tagCache tagTargets)
    as Hspec.
  cbv zeta in Hspec.
  destruct Hspec
    as (allItems & queries & Htags & Hcalls & Hfor & Hdistinct & Hitems
        & Hqueries & Hkeep & _ & Hin).
  intros Hused.
  apply (tagUsed_items tagTargets allItems) in Hused
    as (item & Hitem & Hkey); [|done|].
  2:{ apply Forall_forall. intros item' Hitem'. by apply Hitems. }
  injection Hkey as <- <-.
  destruct (Hitems item Hitem) as (Hquery & _). rewrite <- Hquery.
  destruct (cacheGet tagCache (TagItem.dictionary item) (TagItem.query item))
    as [cached|] eqn:Hcached.
  - rewrite Hkeep; [by rewrite Hcached|].
    intros [Hnone _]%Hqueries. congruence.
  - apply Hin, Hqueries. split; [done|]. by exists item.
Qed.


(** *** Grouping of the expanded tags *)

Lemma StronglySorted_weaken {A} (R1 R2 : A → A → Prop) (l : list A) :
  (∀ a b, R1 a b → R2 a b) → StronglySorted R1 l → StronglySorted R2 l.
Proof.
  intros Himpl. induction 1 as [|a l _ IH Hall]; constructor; [done|].
  eapply Forall_impl; [exact Hall|]. intros b. apply Himpl.
Qed.

Lemma compareTags_consistent (collate : string → string → Z) :
  consistentOn (fun _ => True) collate →
  consistentOn (fun _ => True) (compareTags collate).
Proof.
  intros Hcollate.
  pose proof (lexCompare_consistent (fun _ : Tag.t => True)
                [ascending Tag.order;
                 fun a b => collate (Tag.name a) (Tag.name b)]) as Hlex.
  assert (∀ a b, compareTags collate a b
                 = lexCompare [ascending Tag.order;
                               fun a b => collate (Tag.name a) (Tag.name b)]
                              a b) as Heq.
  { intros a b. unfold compareTags, ascending. simpl.
    destruct (Z.eqb_spec (Tag.order a - Tag.order b) 0); simpl; [|done].
    by destruct (Z.eqb_spec (collate (Tag.name a) (Tag.name b)) 0). }
  destruct Hlex as [Hanti Htrans].
  { constructor; [apply ascending_consistent|].
    constructor; [|constructor].
    by apply (consistentOn_pullback Tag.name (fun _ => True) (fun _ => True)). }
  split.
  - intros a b _ _. rewrite !Heq. by apply Hanti.
  - intros a b c _ _ _. rewrite !Heq. by apply Htrans.
Qed.

Lemma compareTags_before (collate : string → string → Z) (a b : Tag.t) :
  compareTags collate a b ≤ 0 ↔ tagBefore collate a b.
Proof.
  unfold compareTags, tagBefore.
  destruct (Z.eqb_spec (Tag.order a - Tag.order b) 0); simpl; lia.
Qed.

Lemma _groupTags_spec (collate : string → string → Z) (tags : list Tag.t) :
  consistentOn (fun _ => True) collate →
  let grouped :=
    if len tags <=? 1 then tags
    else arraySort (compareTags collate) (_mergeSimilarTags tags) in
  grouped ≡ₚ _mergeSimilarTags tags
  ∧ StronglySorted (tagBefore collate) grouped.
Proof.
  intros Hcollate grouped. subst grouped.
  destruct (Z.leb_spec (len tags) 1) as [Hshort|Hlong].
  - assert (_mergeSimilarTags tags = tags) as Hsame.
    { apply _mergeSimilarTags_distinct. intros i j tag1 tag2 Hi Hj _.
      apply lookup_lt_Some in Hi, Hj. unfold len in Hshort. lia. }
    rewrite Hsame. split; [done|].
    destruct tags as [|tag [|tag' tags]].
    + constructor.
    + by repeat constructor.
    + unfold len in Hshort. simpl in Hshort. lia.
  - split; [apply arraySort_Permutation|].
    pose proof (arraySort_sorted (compareTags collate) (fun _ => True)
                  (compareTags_consistent collate Hcollate)
                  (_mergeSimilarTags tags)) as Hsorted.
    eapply StronglySorted_weaken; [|apply Hsorted].
    + intros a b. apply compareTags_before.
    + apply Forall_forall. done.
Qed.

(** X27: with a consistent collation, [_groupTags] leaves in the array
    [tags] of every target the tags that [_mergeSimilarTags] makes of it,
    sorted by [order] and, among tags of equal [order], by the collation of
    their names.  No two tags of the result have the same name and
    category, every name and category of the array is still there, and an
    array of at most one tag is left as it is. *)
Theorem groupTags_merges_then_sorts (collate : string → string → Z)
    (tagLists : list (list Tag.t)) :
  consistentOn (fun _ => True) collate →
  Forall2 (fun tags grouped =>
             grouped ≡ₚ _mergeSimilarTags tags
             ∧ StronglySorted (tagBefore collate) grouped
             ∧ NoDup (tagClass <$> grouped)
             ∧ (∀ tag, tag ∈ tags → tagClass tag ∈ tagClass <$> grouped)
             ∧ ((length tags ≤ 1)%nat → grouped = tags))
          tagLists (_groupTags collate tagLists).
Proof.
  intros Hcollate. unfold _groupTags.
  apply Forall2_fmap_r, Forall_Forall2_diag, Forall_forall.
  intros tags _.
  destruct (_groupTags_spec collate tags Hcollate) as [Hperm Hsorted].
  destruct (_mergeSimilarTags_classes tags) as (Hcover & Hdistinct & _).
  split; [done|]. split; [done|]. split; [|split].
  - rewrite Hperm. apply NoDup_alt. intros i j class Hi Hj.
    rewrite list_lookup_fmap in Hi, Hj.
    destruct (_mergeSimilarTags tags !! i) as [merged1|] eqn:Hi'; [|done].
    destruct (_mergeSimilarTags tags !! j) as [merged2|] eqn:Hj'; [|done].
    simpl in Hi, Hj. apply (Hdistinct i j merged1 merged2 Hi' Hj').
    unfold tagClass in Hi, Hj. unfold similarTags.
    split; congruence.
  - intros tag Hin. rewrite Hperm.
    destruct (Hcover tag Hin) as (merged & Hmerged & Hname & Hcategory).
    apply list_elem_of_fmap. exists merged. split; [|done].
    unfold tagClass. congruence.
  - intros Hshort. destruct (Z.leb_spec (len tags) 1) as [_|Hlong]; [done|].
    unfold len in Hlong. lia.
Qed.

(** The statement applies to the collation of code units: of three tags of
    which the first and the last have the same name and category, two are
    left, and the merged one, whose [order] is now the smaller, comes
    first. *)
Lemma groupTags_merges_then_sorts_witness :
  consistentOn (fun _ => True) codeUnitCollate
  ∧ _groupTags codeUnitCollate [exampleTagsToGroup]
    = [[Tag.mk "v5" "partOfSpeech" 0 5 [] ["names"; "other"] false;
        Tag.mk "arch" "archaism" 1 0 [] ["names"] false]]
  ∧ Forall2 (fun tags grouped =>
               grouped ≡ₚ _mergeSimilarTags tags
               ∧ StronglySorted (tagBefore codeUnitCollate) grouped
               ∧ NoDup (tagClass <$> grouped)
               ∧ (∀ tag, tag ∈ tags → tagClass tag ∈ tagClass <$> grouped)
               ∧ ((length tags ≤ 1)%nat → grouped = tags))
            [exampleTagsToGroup]
            (_groupTags codeUnitCollate [exampleTagsToGroup]).
Proof.
  split; [exact codeUnitCollate_consistent|]. split.
  - vm_compute. reflexivity.
  - exact (groupTags_merges_then_sorts codeUnitCollate [exampleTagsToGroup]
             codeUnitCollate_consistent).
Defined.

(** ** The base of a tag name *)

Lemma _getNameBase_cons (c : Ascii.ascii) (name : string) :
  _getNameBase (String c name)
  = if decide (c = colon) then EmptyString
    else String c (_getNameBase name).
Proof.
  unfold _getNameBase. cbn [String.index String.prefix].
  change (Ascii.Ascii false true false true true true false false) with colon.
  destruct (Ascii.ascii_dec colon c) as [<-|Hne].
  - rewrite decide_True by done. by destruct name.
  - rewrite decide_False by (by intros ->).
    by destruct (String.index _ _ name).
Qed.

(** X28: [_getNameBase] cuts a tag name at its first colon: the text in
    front of a colon is returned when it holds no colon itself, whatever
    follows, and a name without a colon is returned whole.  The result
    holds no colon, and the function applied to its result changes
    nothing. *)
Theorem getNameBase_cuts_at_first_colon (name : string) :
  (∀ rest, noColon name →
           _getNameBase (name ++ String colon rest)%string = name)
  ∧ (noColon name → _getNameBase name = name)
  ∧ noColon (_getNameBase name)
  ∧ _getNameBase (_getNameBase name) = _getNameBase name.
Proof.
  assert (∀ text rest, noColon text →
            _getNameBase (text ++ String colon rest)%string = text) as Hcut.
  { induction text as [|c text IH]; intros rest Htext.
    - change (_getNameBase (String colon rest) = EmptyString).
      by rewrite _getNameBase_cons, decide_True.
    - destruct Htext as [Hc Htext].
      change (_getNameBase (String c (text ++ String colon rest)%string)
              = String c text).
      rewrite _getNameBase_cons, decide_False by done. by rewrite IH. }
  assert (∀ text, noColon text → _getNameBase text = text) as Hwhole.
  { induction text as [|c text IH]; intros Htext; [done|].
    destruct Htext as [Hc Htext].
    rewrite _getNameBase_cons, decide_False by done. by rewrite IH. }
  assert (∀ text, noColon (_getNameBase text)) as Hnone.
  { induction text as [|c text IH]; [done|].
    rewrite _getNameBase_cons. by destruct (decide (c = colon)). }
  split; [apply Hcut|]. split; [apply Hwhole|]. split; [apply Hnone|].
  apply Hwhole, Hnone.
Qed.

(** ** The entry sort on lists with equal numbers of headwords *)

(** X29: for every list of entries that all have the same number of
    headwords (one, in the lists that simple mode returns), and a
    consistent collation, the final entry sort returns a
    rearrangement of the list that is ordered by descending
    [maxTransformedTextLength], then ascending number of inflection
    hypotheses, then descending [sourceTermExactMatchCount], then ascending
    [frequencyOrder], then descending [dictionaryPriority], then descending
    [score], then the headword terms position by position (descending term
    length, then collation order), then descending number of definitions,
    then ascending [dictionaryIndex]; entries that tie on all keys keep
    their order. *)
Theorem sortDictionaryEntries_orders_by_keys {T}
    (collate : string → string → Z)
    (dictionaryEntries : list (TermDictionaryEntry.t T)) (k : nat) :
  consistentOn (fun _ => True) collate →
  Forall (fun entry => length (TermDictionaryEntry.headwords entry) = k)
         dictionaryEntries →
  let sorted := sortDictionaryEntries collate dictionaryEntries in
  (∀ entry1 entry2 : TermDictionaryEntry.t T,
     compareTermDictionaryEntries collate entry1 entry2
     = lexCompare (entryKeys collate) entry1 entry2)
  ∧ sorted ≡ₚ dictionaryEntries
  ∧ StronglySorted (notAfter (entryKeys collate)) sorted
  ∧ ∀ entry,
      length (TermDictionaryEntry.headwords entry) = k →
      filter (tiedWith (entryKeys collate) entry) sorted
      = filter (tiedWith (entryKeys collate) entry) dictionaryEntries.
Proof.
  intros Hcollate Hheadwords sorted. subst sorted.
  split; [apply compareTermDictionaryEntries_spec|].
  unfold sortDictionaryEntries, _sortTermDictionaryEntries.
  destruct (1 <? len dictionaryEntries) eqn:Hlen.
  - rewrite (arraySort_ext _ (lexCompare (entryKeys collate)))
      by apply compareTermDictionaryEntries_spec.
    pose proof (entryKeys_consistent (T := T) collate Hcollate k) as Hkeys.
    split; [apply arraySort_Permutation|]. split.
    + by eapply (arraySort_sorted _ _ Hkeys).
    + intros entry Hentry.
      by eapply (arraySort_stable _ _ Hkeys).
  - split; [done|]. split; [|done].
    apply Z.ltb_ge in Hlen. unfold len in Hlen.
    destruct dictionaryEntries as [|e [|e' es]]; simpl in Hlen; try lia;
      repeat constructor.
Qed.

(** The statement applies to two entries of one headword each: the entry
    of the longer source text is moved to the front. *)
Lemma sortDictionaryEntries_orders_by_keys_witness :
  consistentOn (fun _ => True) codeUnitCollate
  ∧ Forall (fun entry => length (TermDictionaryEntry.headwords entry) = 1%nat)
           [exampleShortEntry; exampleEntry]
  ∧ sortDictionaryEntries codeUnitCollate [exampleShortEntry; exampleEntry]
    = [exampleEntry; exampleShortEntry]
  ∧ StronglySorted (notAfter (entryKeys codeUnitCollate))
      (sortDictionaryEntries codeUnitCollate [exampleShortEntry; exampleEntry]).
Proof.
  assert (Hheadwords :
            Forall (fun entry : TermDictionaryEntry.t TagGroup.t =>
                      length (TermDictionaryEntry.headwords entry) = 1%nat)
                   [exampleShortEntry; exampleEntry])
    by (repeat constructor).
  split; [exact codeUnitCollate_consistent|].
  split; [exact Hheadwords|].
  split; [vm_compute; reflexivity|].
  exact (proj1 (proj2 (proj2 (sortDictionaryEntries_orders_by_keys
                                codeUnitCollate
                                [exampleShortEntry; exampleEntry] 1
                                codeUnitCollate_consistent Hheadwords)))).
Defined.
